(** * rcj-go: scoring aggregation and score-sheet store

    A shallow embedding of [api/store/cockroach/cockroach_store.go]:
    the dance ladder ([FetchDanceLadders]) and the score-sheet
    operations ([FetchScoreSheet], [CreateScoreSheet],
    [UpdateScoreSheet]), over a relational store whose tables follow
    [tables.sql]. *)

From Stdlib Require Import ZArith QArith Qcanon List String Ascii.
From Stdlib Require Import Sorting Permutation OrdersEx Lia Lqa.
From stdpp Require Import base option list strings gmap numbers sorting pretty.

Local Open Scope Z_scope.

(** ** Numbers

    [decimal.Decimal] is an arbitrary-precision decimal: addition and
    comparison are exact, so a value is represented by the rational it
    denotes.  A [float64] held by a ladder entry is always the result of
    [Decimal.Float64], hence finite and never NaN; it is represented by
    the rational it denotes as well, and Go's [<] and [>] on such values
    are the order of the rationals. *)

Definition decimal : Type := Qc.
Definition float64 : Type := Qc.

Definition dzero : decimal := Q2Qc 0.
Definition fzero : float64 := Q2Qc 0.

(** [d.Add(e)] *)
Definition Add (d e : decimal) : decimal := (d + e)%Qc.

(** [d.GreaterThan(e)] *)
Definition GreaterThan (d e : decimal) : bool :=
  match (d ?= e)%Qc with Gt => true | _ => false end.

(** Go's [a < b] and [a > b] on [float64]. *)
Definition flt (a b : float64) : bool :=
  match (a ?= b)%Qc with Lt => true | _ => false end.
Definition fgt (a b : float64) : bool :=
  match (a ?= b)%Qc with Gt => true | _ => false end.

(** [d.Round(places)]: rounds half away from zero to [places] decimal
    places. *)
Definition Round (d : decimal) (places : nat) : decimal :=
  let s := 10 ^ Z.of_nat places in
  let n := Qnum (this d) in
  let den := Z.pos (Qden (this d)) in
  let m := (2 * Z.abs n * s + den) / (2 * den) in
  Q2Qc (Qmake (Z.sgn n * m) (Z.to_pos s)).

(** A decimal literal: [n] units of [10^-places]. *)
Definition dec (n : Z) (places : nat) : decimal :=
  Q2Qc (Qmake n (Z.to_pos (10 ^ Z.of_nat places))).

(** Go's [int32(x)] on a wider integer: wrap-around to 32 bits. *)
Definition int32 (x : Z) : Z := (x + 2 ^ 31) mod 2 ^ 32 - 2 ^ 31.

(** Go's [a < b] on strings: lexicographic on bytes. *)
Definition string_lt (a b : string) : bool :=
  match String_as_OT.compare a b with Lt => true | _ => false end.

(** ** [sort.SliceStable]

    The Go standard library is not part of the repository.  On a slice of
    up to 20 elements [sort.SliceStable] runs the insertion sort below
    (each element moves left while it is [less] than its left neighbour);
    on longer slices it merges such blocks, with the same result whenever
    [less] is a strict weak order.  The sorted prefix is kept reversed,
    so that the element being placed starts at its head. *)

Section SliceStable.
Context {A : Type} (less : A → A → bool).

Fixpoint sink (x : A) (rprefix : list A) : list A :=
  match rprefix with
  | [] => [x]
  | y :: r => if less x y then y :: sink x r else x :: y :: r
  end.

Definition insertionSort (l : list A) : list A :=
  fold_left (λ r x, sink x r) l [].

Definition SliceStable (l : list A) : list A := rev (insertionSort l).

(** Neither element goes before the other. *)
Definition tied (a b : A) : bool := negb (less a b) && negb (less b a).

(** [less] never puts a later element of the list before an earlier
    one. *)
Definition ascending (l : list A) : Prop :=
  StronglySorted (λ a b, less b a = false) l.
End SliceStable.

(** ** Ladder data (protobuf messages of [api/proto], by their use) *)

Record RoundAverage := mkRoundAverage {
  ra_Round : Z;
  ra_Average : float64;
  ra_Count : Z
}.

Record Institution := mkInstitution {
  inst_Id : string;
  inst_Name : string
}.

Record Team := mkTeam {
  team_Id : string;
  team_Name : string;
  team_Institution : Institution;
  team_Division : string
}.

Inductive League := SOCCER | RESCUE | ONSTAGE.

Record Division := mkDivision {
  div_Id : string;
  div_Name : string;
  div_League : League;
  div_CompetitionRounds : Z;
  div_FinalRounds : Z
}.

Record LadderEntry := mkLadderEntry {
  Team_ : Team;
  Rounds : list RoundAverage;
  InterviewScore : float64;
  BestRound : float64;
  BestFinal : float64;
  RoundTotal : float64;
  FinalTotal : float64
}.

Record DivisionLadder := mkDivisionLadder {
  dl_Division : Division;
  Ladder : list LadderEntry
}.

(** The comparison handed to [sort.SliceStable] in [FetchDanceLadders]. *)
Definition ladderLess (a b : LadderEntry) : bool :=
  if flt (FinalTotal a) (FinalTotal b) then true
  else if fgt (FinalTotal a) (FinalTotal b) then false
  else if flt (RoundTotal a) (RoundTotal b) then true
  else if fgt (RoundTotal a) (RoundTotal b) then false
  else string_lt (team_Name (Team_ a)) (team_Name (Team_ b)).

(** ** Errors

    Go [error] values met in the store: the [sql.ErrNoRows] sentinel,
    driver errors ([*pq.Error], with their SQLSTATE code), and errors
    made with [errors.New]. *)

Inductive error :=
| ErrNoRows
| PqError (code msg : string)
| ErrorString (msg : string).

(** [err.Error()], which is also what [%+v] prints. *)
Definition Error (e : error) : string :=
  match e with
  | ErrNoRows => "sql: no rows in result set"
  | PqError _ msg => "pq: " +:+ msg
  | ErrorString msg => msg
  end.

(** [errors.New(fmt.Sprintf(prefix + "%+v", err))] *)
Definition wrapError (prefix : string) (e : error) : error :=
  ErrorString (prefix +:+ Error e).

Inductive result (A : Type) :=
| Ok (a : A)
| Err (e : error).
Arguments Ok {A} a.
Arguments Err {A} e.

(** ** The relational store ([tables.sql]) *)

Record UserRow := mkUserRow {
  u_id : string; u_name : string; u_username : string
}.

Record TemplateRow := mkTemplateRow {
  tpl_id : string; tpl_name : string; tpl_type : string
}.

Record TemplateSectionRow := mkTemplateSectionRow {
  ts_id : string; ts_title : string; ts_score_sheet_template : string;
  ts_description : string; ts_max_value : Z; ts_multiplier : Z;
  ts_display_order : Z
}.

Record DivisionRow := mkDivisionRow {
  d_id : string; d_name : string; d_league : string;
  d_competition_rounds : Z; d_final_rounds : Z
}.

Record InstitutionRow := mkInstitutionRow {
  i_id : string; i_name : string
}.

Record TeamRow := mkTeamRow {
  t_id : string; t_name : string; t_institution : string;
  t_division : string
}.

(** The [timings] column holds a JSON array of [{name, value}] objects;
    it is represented by the array. *)
Record ScoreSheetRow := mkScoreSheetRow {
  ss_id : string; ss_division : string; ss_team : string;
  ss_template : string; ss_timings : list (string * string);
  ss_author : string; ss_comments : string; ss_round : Z;
  ss_created_at : Z
}.

Record SectionRow := mkSectionRow {
  sec_id : string; sec_section : string; sec_value : decimal;
  sec_score_sheet : string
}.

Record Tables := mkTables {
  users : list UserRow;
  score_sheet_templates : list TemplateRow;
  score_sheet_template_sections : list TemplateSectionRow;
  divisions : list DivisionRow;
  institutions : list InstitutionRow;
  teams : list TeamRow;
  score_sheets : list ScoreSheetRow;
  score_sheet_sections : list SectionRow
}.

(** ** Statements

    Every statement sent to the store is recorded, whether it succeeds
    or not. *)

Inductive Stmt :=
| SelectTeams
| SelectScores
| SelectScoreSheet (id : string)
| SelectSections (id : string)
| InsertScoreSheet (division team template : string)
    (timings : list (string * string)) (comments : string) (round : Z)
    (author : string)
| InsertSections (rows : list (string * float64 * string))
| UpdateScoreSheetRow (id team : string)
    (timings : list (string * string)) (comments : string)
| UpdateSectionValue (id : string) (value : float64)
| Commit.

Definition isWrite (st : Stmt) : bool :=
  match st with
  | InsertScoreSheet _ _ _ _ _ _ _ | InsertSections _
  | UpdateScoreSheetRow _ _ _ _ | UpdateSectionValue _ _ => true
  | _ => false
  end.

(** A store handle: the tables as the current reader sees them, the
    statements sent so far (most recent last), and what the environment
    decides: the failure (if any) the store injects into each successive
    statement, the successive values of [gen_random_uuid()], the value
    of [current_timestamp()], and the order in which the Go scheduler
    lets concurrent tasks take their steps. *)
Record Store := mkStore {
  tables : Tables;
  log : list Stmt;
  faults : list (option error);
  uuids : list string;
  clock : Z;
  sched : list bool
}.

Definition withTables (T : Tables) (s : Store) : Store :=
  mkStore T (log s) (faults s) (uuids s) (clock s) (sched s).

(** Store-facing code: a state and error monad over the handle. *)
Definition M (A : Type) : Type := Store → result A * Store.

Definition ret {A} (a : A) : M A := λ s, (Ok a, s).
Definition fail {A} (e : error) : M A := λ s, (Err e, s).
Definition bind {A B} (m : M A) (k : A → M B) : M B :=
  λ s, match m s with
       | (Ok a, s') => k a s'
       | (Err e, s') => (Err e, s')
       end.

Notation "'let*' x := m 'in' k" := (bind m (λ x, k))
  (at level 10, x pattern, m at level 100, k at level 200,
   only parsing).

(** Sending a statement records it and takes the next injected
    failure. *)
Definition send (st : Stmt) (s : Store) : option error * Store :=
  match faults s with
  | [] =>
      (None,
       mkStore (tables s) (log s ++ [st]) [] (uuids s) (clock s) (sched s))
  | f :: fs =>
      (f, mkStore (tables s) (log s ++ [st]) fs (uuids s) (clock s)
            (sched s))
  end.

(** [DB.Select] / [tx.Select]: all rows of a query. *)
Definition Select {R} (st : Stmt) (q : Tables → list R) : M (list R) :=
  λ s, match send st s with
       | (Some e, s') => (Err e, s')
       | (None, s') => (Ok (q (tables s')), s')
       end.

(** [DB.Get] / [tx.Get]: the first row of a query, [sql.ErrNoRows] when
    there is none. *)
Definition Get {R} (st : Stmt) (q : Tables → list R) : M R :=
  λ s, match send st s with
       | (Some e, s') => (Err e, s')
       | (None, s') =>
           match q (tables s') with
           | r :: _ => (Ok r, s')
           | [] => (Err ErrNoRows, s')
           end
       end.

(** ** The ladder queries of [FetchDanceLadders] *)

Record ladderTeam := mkLadderTeam {
  lt_ID : string; lt_Name : string; lt_Institution : string;
  lt_InstitutionID : string; lt_DivisionID : string;
  lt_Division : string; lt_CompetitionRounds : Z; lt_FinalRounds : Z
}.

Record scoreCalc := mkScoreCalc {
  sc_Team : string; sc_Round : Z; sc_Average : decimal; sc_Count : Z
}.

(** [SELECT ... FROM teams JOIN institutions ... JOIN divisions ...
    WHERE divisions.league = 'On Stage'] *)
Definition teamsQuery (T : Tables) : list ladderTeam :=
  t ← teams T; i ← institutions T; d ← divisions T;
  if String.eqb (t_institution t) (i_id i)
     && String.eqb (t_division t) (d_id d)
     && String.eqb (d_league d) "On Stage"
  then [mkLadderTeam (t_id t) (t_name t) (i_name i) (i_id i) (d_id d)
          (d_name d) (d_competition_rounds d) (d_final_rounds d)]
  else [].

Definition dsum (l : list decimal) : decimal := foldr Add dzero l.

(** SQL [GROUP BY]: one group per distinct key, holding the values of
    the rows with that key. *)
Definition groupBy {K V} `{EqDecision K} (rows : list (K * V))
  : list (K * list V) :=
  map (λ k, (k, map snd (filter (λ r, r.1 = k) rows)))
      (remove_dups (map fst rows)).

(** The inner query: [SUM(value * multiplier)] per score sheet. *)
Definition sheetTotalsQuery (T : Tables) : list (string * decimal) :=
  map (λ g, (g.1, dsum g.2))
    (groupBy
       (ss ← score_sheets T; sec ← score_sheet_sections T;
        ts ← score_sheet_template_sections T;
        if String.eqb (sec_score_sheet sec) (ss_id ss)
           && String.eqb (sec_section sec) (ts_id ts)
        then [(ss_id ss, (sec_value sec * Qc_of_Z (ts_multiplier ts))%Qc)]
        else [])).

(** The outer query: [AVG(total)] and [count( * )] per team and round. *)
Definition scoresQuery (T : Tables) : list scoreCalc :=
  map (λ g, mkScoreCalc g.1.1 g.1.2
              (dsum g.2 / Qc_of_Z (Z.of_nat (length g.2)))%Qc
              (Z.of_nat (length g.2)))
    (groupBy
       (t1 ← sheetTotalsQuery T; ss ← score_sheets T;
        if String.eqb (ss_id ss) t1.1
        then [((ss_team ss, ss_round ss), t1.2)]
        else [])).

(** Go's [range] over a map visits the entries in an order chosen by the
    runtime.  The choice is the [seed]: each number picks one of the
    entries not visited yet. *)
Fixpoint rangeOrder {A} (seed : list nat) (l : list A) : list A :=
  match seed with
  | [] => l
  | n :: seed' =>
      match l !! (n mod length l)%nat with
      | Some x => x :: rangeOrder seed' (delete (n mod length l)%nat l)
      | None => l
      end
  end.

(** ** [FetchDanceLadders]

    The conversions of [shopspring/decimal] between [Decimal] and
    [float64] are not part of the repository; they are parameters. *)

Section Ladder.
Variable Float64 : decimal → float64.
Variable NewFromFloat : float64 → decimal.

(** The first loop: the per-team lists of round averages. *)
Definition scoreMapStep (scoreMap : gmap string (list RoundAverage))
    (score : scoreCalc) : gmap string (list RoundAverage) :=
  let scoreMap :=
    match scoreMap !! sc_Team score with
    | Some _ => scoreMap
    | None => <[sc_Team score := []]> scoreMap
    end in
  let f := Float64 (Round (sc_Average score) 2) in
  <[sc_Team score :=
      default [] (scoreMap !! sc_Team score)
      ++ [mkRoundAverage (int32 (sc_Round score)) f
            (int32 (sc_Count score))]]> scoreMap.

Definition buildScoreMap (scores : list scoreCalc)
  : gmap string (list RoundAverage) :=
  fold_left scoreMapStep scores ∅.

(** The loop over a team's score list, on the three accumulators
    [(interviewScore, bestRound, bestFinal)]. *)
Definition scoreStep (competitionRounds : Z)
    (acc : decimal * decimal * decimal) (score : RoundAverage)
  : decimal * decimal * decimal :=
  let '(interviewScore, bestRound, bestFinal) := acc in
  let dec := NewFromFloat (ra_Average score) in
  if ra_Round score =? 0 then
    (Add interviewScore dec, bestRound, bestFinal)
  else if ra_Round score <=? competitionRounds then
    if GreaterThan dec bestRound then (interviewScore, dec, bestFinal)
    else acc
  else if ra_Round score >? competitionRounds then
    if GreaterThan dec bestFinal then (interviewScore, bestRound, dec)
    else acc
  else acc.

Definition ladderEntryOf (scoreMap : gmap string (list RoundAverage))
    (team : ladderTeam) : LadderEntry :=
  let pTeam :=
    mkTeam (lt_ID team) (lt_Name team)
      (mkInstitution (lt_InstitutionID team) (lt_Institution team))
      (lt_DivisionID team) in
  let '(rounds, (interviewScore, bestRound, bestFinal)) :=
    match scoreMap !! lt_ID team with
    | Some scoreList =>
        (scoreList,
         fold_left (scoreStep (int32 (lt_CompetitionRounds team)))
           scoreList (dzero, dzero, dzero))
    | None => ([], (dzero, dzero, dzero))
    end in
  let bestFinalFloat := Float64 bestFinal in
  mkLadderEntry pTeam rounds
    (Float64 interviewScore) (Float64 bestRound) bestFinalFloat
    (Float64 (Add interviewScore bestRound))
    (if fgt bestFinalFloat fzero
     then Float64 (Add interviewScore bestFinal)
     else fzero).

(** The second loop: one ladder per division, entries appended in the
    order of the team list. *)
Definition ladderMapStep (scoreMap : gmap string (list RoundAverage))
    (ladderMap : gmap string DivisionLadder) (team : ladderTeam)
  : gmap string DivisionLadder :=
  let ladderMap :=
    match ladderMap !! lt_DivisionID team with
    | Some _ => ladderMap
    | None =>
        <[lt_DivisionID team :=
            mkDivisionLadder
              (mkDivision (lt_DivisionID team) (lt_Division team)
                 ONSTAGE (int32 (lt_CompetitionRounds team))
                 (int32 (lt_FinalRounds team)))
              []]> ladderMap
    end in
  match ladderMap !! lt_DivisionID team with
  | Some ladder =>
      <[lt_DivisionID team :=
          mkDivisionLadder (dl_Division ladder)
            (Ladder ladder ++ [ladderEntryOf scoreMap team])]>
        ladderMap
  | None => ladderMap
  end.

Definition buildLadderMap (scoreMap : gmap string (list RoundAverage))
    (teamList : list ladderTeam) : gmap string DivisionLadder :=
  fold_left (ladderMapStep scoreMap) teamList ∅.

(** The last loop: each ladder sorted, in the map's iteration order. *)
Definition sortLadder (value : DivisionLadder) : DivisionLadder :=
  mkDivisionLadder (dl_Division value)
    (SliceStable ladderLess (Ladder value)).

Definition ladderResults (mapOrder : list nat)
    (ladderMap : gmap string DivisionLadder) : list DivisionLadder :=
  map (λ kv, sortLadder kv.2) (rangeOrder mapOrder (map_to_list ladderMap)).

(** The in-memory part of [FetchDanceLadders], from the two query
    results. *)
Definition danceLadders (mapOrder : list nat)
    (teamList : list ladderTeam) (scores : list scoreCalc)
  : list DivisionLadder :=
  ladderResults mapOrder (buildLadderMap (buildScoreMap scores) teamList).

Definition FetchDanceLadders (mapOrder : list nat) (showAll : bool)
  : M (list DivisionLadder) :=
  λ s,
    match Select SelectTeams teamsQuery s with
    | (Err err, s1) => (Err (wrapError "Error fetching teams: " err), s1)
    | (Ok teamList, s1) =>
        match Select SelectScores scoresQuery s1 with
        | (Err err, s2) =>
            (Err (wrapError "Error fetching scores: " err), s2)
        | (Ok scores, s2) => (Ok (danceLadders mapOrder teamList scores), s2)
        end
    end.
End Ladder.

(** ** Score sheets (protobuf messages of [api/proto], by their use) *)

Record User := mkUser {
  user_Id : string; user_Name : string; user_Username : string
}.

Record Timing := mkTiming {
  timing_Name : string; timing_Value : string
}.

Inductive TemplateType := INTERVIEW | PERFORMANCE.

Record ScoreSheetSection := mkScoreSheetSection {
  sss_Id : string; sss_Title : string; sss_Description : string;
  sss_MaxValue : Z; sss_Multiplier : Z; sss_SectionId : string;
  sss_Value : float64
}.

(** [Team] and [Author] are pointers and may be nil. *)
Record ScoreSheet := mkScoreSheet {
  sh_Id : string;
  sh_ScoreSheetTemplateId : string;
  sh_Comments : string;
  sh_Round : Z;
  sh_Team : option Team;
  sh_Author : option User;
  sh_Sections : list ScoreSheetSection;
  sh_Timings : list Timing;
  sh_DivisionId : string;
  sh_Type : TemplateType
}.

(** The zero value [&rcjpb.ScoreSheet{}]. *)
Definition emptyScoreSheet : ScoreSheet :=
  mkScoreSheet "" "" "" 0 None None [] [] "" INTERVIEW.

(** Nil-safe getters. *)
Definition GetTeamId (sh : ScoreSheet) : string :=
  match sh_Team sh with Some t => team_Id t | None => "" end.
Definition GetAuthorId (sh : ScoreSheet) : string :=
  match sh_Author sh with Some u => user_Id u | None => "" end.

(** A mutator [func( *rcjpb.ScoreSheet) error]: the error it returns
    (if any) and the object as it leaves it. *)
Definition Handler : Type := ScoreSheet → option error * ScoreSheet.

(** Rows of the two queries of [FetchScoreSheet]. *)
Record dbScoreSheet := mkDbScoreSheet {
  dbs_ID : string; dbs_TemplateID : string; dbs_Type : string;
  dbs_Comments : string; dbs_Timings : list (string * string);
  dbs_TeamID : string; dbs_Division : string; dbs_Team : string;
  dbs_Round : Z; dbs_InstitutionID : string;
  dbs_InstitutionName : string; dbs_AuthorID : string;
  dbs_AuthorName : string; dbs_AuthorUsername : string
}.

Record dbScoreSheetSection := mkDbScoreSheetSection {
  dbsec_ID : string; dbsec_Title : string; dbsec_Description : string;
  dbsec_MaxValue : Z; dbsec_Multiplier : Z; dbsec_SectionID : string;
  dbsec_Value : float64
}.

Definition sheetQuery (id : string) (T : Tables) : list dbScoreSheet :=
  ss ← score_sheets T; tpl ← score_sheet_templates T; t ← teams T;
  i ← institutions T; u ← users T;
  if String.eqb (ss_template ss) (tpl_id tpl)
     && String.eqb (ss_team ss) (t_id t)
     && String.eqb (t_institution t) (i_id i)
     && String.eqb (u_id u) (ss_author ss)
     && String.eqb (ss_id ss) id
  then [mkDbScoreSheet (ss_id ss) (ss_template ss) (tpl_type tpl)
          (ss_comments ss) (ss_timings ss) (ss_team ss) (ss_division ss)
          (t_name t) (ss_round ss) (i_id i) (i_name i) (u_id u)
          (u_name u) (u_username u)]
  else [].

(** Goroutine program counters of the two tasks of [FetchScoreSheet]:
    run the query, take the mutex, assign the shared variable, return
    (which releases the mutex and reports to the group). *)
Inductive pc := AtQuery | AtLock | AtWrite | AtReturn | Finished.

Inductive fetched :=
| FSheet (r : dbScoreSheet)
| FSections (l : list dbScoreSheetSection).

Record Task := mkTask {
  task_pc : pc;
  task_local : option fetched
}.

(** The state shared by the two tasks: both tasks, the mutex (with its
    holder), the two captured variables, the error kept by the group
    (set once), and the order in which the tasks returned. *)
Record Group := mkGroup {
  task0 : Task;
  task1 : Task;
  lock : option bool;
  scoreSheetVar : option dbScoreSheet;
  sectionsVar : list dbScoreSheetSection;
  groupErr : option error;
  returned : list (bool * option error)
}.

Definition getTask (t : bool) (g : Group) : Task :=
  if t then task1 g else task0 g.

Definition setTask (t : bool) (k : Task) (g : Group) : Group :=
  if t
  then mkGroup (task0 g) k (lock g) (scoreSheetVar g) (sectionsVar g)
         (groupErr g) (returned g)
  else mkGroup k (task1 g) (lock g) (scoreSheetVar g) (sectionsVar g)
         (groupErr g) (returned g).

Definition setLock (l : option bool) (g : Group) : Group :=
  mkGroup (task0 g) (task1 g) l (scoreSheetVar g) (sectionsVar g)
    (groupErr g) (returned g).

(** The assignment made under the mutex. *)
Definition assign (v : fetched) (g : Group) : Group :=
  match v with
  | FSheet r =>
      mkGroup (task0 g) (task1 g) (lock g) (Some r) (sectionsVar g)
        (groupErr g) (returned g)
  | FSections l =>
      mkGroup (task0 g) (task1 g) (lock g) (scoreSheetVar g) l
        (groupErr g) (returned g)
  end.

(** A task returns [err] to the group: [errgroup] keeps the first
    non-nil error and counts the task as done. *)
Definition taskReturn (t : bool) (err : option error) (g : Group) : Group :=
  let g := setTask t (mkTask Finished (task_local (getTask t g))) g in
  mkGroup (task0 g) (task1 g) (lock g) (scoreSheetVar g) (sectionsVar g)
    (match groupErr g with Some e => Some e | None => err end)
    (returned g ++ [(t, err)]).

Definition initGroup : Group :=
  mkGroup (mkTask AtQuery None) (mkTask AtQuery None) None None [] None [].

Definition allFinished (g : Group) : bool :=
  match task_pc (task0 g), task_pc (task1 g) with
  | Finished, Finished => true
  | _, _ => false
  end.

(** A task can take a step unless it has returned or waits for a mutex
    that is held. *)
Definition enabled (t : bool) (g : Group) : bool :=
  match task_pc (getTask t g) with
  | Finished => false
  | AtLock => match lock g with None => true | Some _ => false end
  | _ => true
  end.

Definition nextSched (s : Store) : bool * Store :=
  match sched s with
  | [] => (false, s)
  | b :: bs =>
      (b, mkStore (tables s) (log s) (faults s) (uuids s) (clock s) bs)
  end.

Definition hasId {R} (idOf : R → string) (id : string) (rows : list R)
  : bool :=
  existsb (λ r, String.eqb (idOf r) id) rows.

Definition setScoreSheets (rows : list ScoreSheetRow) (T : Tables)
  : Tables :=
  mkTables (users T) (score_sheet_templates T)
    (score_sheet_template_sections T) (divisions T) (institutions T)
    (teams T) rows (score_sheet_sections T).

Definition setSections (rows : list SectionRow) (T : Tables) : Tables :=
  mkTables (users T) (score_sheet_templates T)
    (score_sheet_template_sections T) (divisions T) (institutions T)
    (teams T) (score_sheets T) rows.

(** [gen_random_uuid()] *)
Definition nextUuid (s : Store) : string * Store :=
  match uuids s with
  | [] => (EmptyString, s)
  | u :: us =>
      (u, mkStore (tables s) (log s) (faults s) us (clock s) (sched s))
  end.

Definition uniqueViolation : error :=
  PqError "23505" "duplicate key value violates unique constraint".
Definition foreignKeyViolation : error :=
  PqError "23503" "foreign key violation".
Definition numericOutOfRange : error :=
  PqError "22003" "numeric out of range".

(** What [UpdateScoreSheet] would meet if [FetchScoreSheet] gave it a
    nil sheet and no error (it never does, see [FetchScoreSheet_not_nil]
    below). *)
Definition nilDereference : error :=
  ErrorString "invalid memory address or nil pointer dereference".

(** [SQLSTATE 40001] (and CockroachDB's former [CR000]): a transient
    serialization conflict. *)
Definition retryable (e : error) : bool :=
  match e with
  | PqError code _ => String.eqb code "40001" || String.eqb code "CR000"
  | _ => false
  end.

(** ** [FetchScoreSheet], [CreateScoreSheet], [UpdateScoreSheet]

    Parameters, none of them part of the repository: how the driver reads
    a [DECIMAL] column into a [float32] field (widened to [float64]), how
    the store turns a [float64] argument into a [DECIMAL(10,5)] (or
    rejects it), and what the store answers to an empty statement. *)

Section ScoreSheets.
Variable scanFloat32 : decimal → float64.
Variable encodeValue : float64 → option decimal.
Variable emptyStatement : option error.

(** [SELECT ... FROM score_sheet_sections JOIN
    score_sheet_template_sections ... WHERE score_sheet = id
    ORDER BY display_order] *)
Definition sectionQuery (id : string) (T : Tables)
  : list dbScoreSheetSection :=
  map snd
    (SliceStable (λ a b, a.1 <? b.1)
       (sec ← score_sheet_sections T;
        ts ← score_sheet_template_sections T;
        if String.eqb (ts_id ts) (sec_section sec)
           && String.eqb (sec_score_sheet sec) id
        then [(ts_display_order ts,
               mkDbScoreSheetSection (sec_id sec) (ts_title ts)
                 (ts_description ts) (ts_max_value ts)
                 (ts_multiplier ts) (sec_section sec)
                 (scanFloat32 (sec_value sec)))]
        else [])).

(** The query each task runs: task [false] the header, task [true] the
    sections. *)
Definition taskQuery (id : string) (t : bool) : M fetched :=
  if t
  then let* l := Select (SelectSections id) (sectionQuery id) in
       ret (FSections l)
  else let* r := Get (SelectScoreSheet id) (sheetQuery id) in
       ret (FSheet r).

(** One step of task [t]. *)
Definition stepTask (id : string) (t : bool) (g : Group) (s : Store)
  : Group * Store :=
  let k := getTask t g in
  match task_pc k with
  | AtQuery =>
      match taskQuery id t s with
      | (Ok v, s') => (setTask t (mkTask AtLock (Some v)) g, s')
      | (Err e, s') => (taskReturn t (Some e) g, s')
      end
  | AtLock =>
      match lock g with
      | None =>
          (setLock (Some t)
             (setTask t (mkTask AtWrite (task_local k)) g), s)
      | Some _ => (g, s)
      end
  | AtWrite =>
      (setTask t (mkTask AtReturn (task_local k))
         (match task_local k with Some v => assign v g | None => g end),
       s)
  | AtReturn => (taskReturn t None (setLock None g), s)
  | Finished => (g, s)
  end.

(** The scheduler: while a task is left, the next choice of [sched]
    runs if it can take a step, otherwise the other task does. *)
Fixpoint runGroup (fuel : nat) (id : string) (g : Group) (s : Store)
  : Group * Store :=
  match fuel with
  | O => (g, s)
  | S fuel' =>
      if allFinished g then (g, s)
      else
        let '(choice, s1) := nextSched s in
        let t := if enabled choice g then choice else negb choice in
        let '(g', s2) := stepTask id t g s1 in
        runGroup fuel' id g' s2
  end.

Definition sheetOf (scoreSheet : dbScoreSheet)
    (sections : list dbScoreSheetSection) : ScoreSheet :=
  mkScoreSheet (dbs_ID scoreSheet) (dbs_TemplateID scoreSheet)
    (dbs_Comments scoreSheet) (int32 (dbs_Round scoreSheet))
    (Some (mkTeam (dbs_TeamID scoreSheet) (dbs_Team scoreSheet)
             (mkInstitution (dbs_InstitutionID scoreSheet)
                (dbs_InstitutionName scoreSheet))
             (dbs_Division scoreSheet)))
    (Some (mkUser (dbs_AuthorID scoreSheet) (dbs_AuthorName scoreSheet)
             (dbs_AuthorUsername scoreSheet)))
    (map (λ section,
            mkScoreSheetSection (dbsec_ID section) (dbsec_Title section)
              (dbsec_Description section) (int32 (dbsec_MaxValue section))
              (int32 (dbsec_Multiplier section)) (dbsec_SectionID section)
              (dbsec_Value section))
         sections)
    (map (λ timing, mkTiming timing.1 timing.2) (dbs_Timings scoreSheet))
    (dbs_Division scoreSheet)
    (if String.eqb (dbs_Type scoreSheet) "Interview"
     then INTERVIEW else PERFORMANCE).

(** Each task takes at most four steps, so eight scheduling decisions
    let [group.Wait()] return. *)
Definition FetchScoreSheet (id : string) : M (option ScoreSheet) :=
  λ s,
    let '(g, s') := runGroup 8 id initGroup s in
    match groupErr g with
    | Some err => (Err (wrapError "Error fetching: " err), s')
    | None =>
        match scoreSheetVar g with
        | None => (Ok None, s')
        | Some scoreSheet =>
            (Ok (Some (sheetOf scoreSheet (sectionsVar g))), s')
        end
    end.

(** [INSERT INTO score_sheets ... RETURNING "id"] *)
Definition execInsertScoreSheet (division team template : string)
    (timings : list (string * string)) (comments : string) (round : Z)
    (author : string) : M string :=
  λ s,
    match send (InsertScoreSheet division team template timings comments
                  round author) s with
    | (Some e, s1) => (Err e, s1)
    | (None, s1) =>
        let '(id, s2) := nextUuid s1 in
        let T := tables s2 in
        if hasId ss_id id (score_sheets T) then (Err uniqueViolation, s2)
        else if hasId d_id division (divisions T)
                && hasId t_id team (teams T)
                && hasId tpl_id template (score_sheet_templates T)
                && hasId u_id author (users T)
        then (Ok id,
              withTables
                (setScoreSheets
                   (score_sheets T
                    ++ [mkScoreSheetRow id division team template timings
                          author comments round (clock s2)]) T) s2)
        else (Err foreignKeyViolation, s2)
    end.

(** The rows of a bulk [INSERT INTO score_sheet_sections]. *)
Fixpoint sectionRows (T : Tables) (existing : list SectionRow)
    (rows : list (string * float64 * string)) (s : Store)
  : result (list SectionRow) * Store :=
  match rows with
  | [] => (Ok [], s)
  | (section, value, sheet) :: rest =>
      let '(id, s1) := nextUuid s in
      if hasId sec_id id existing then (Err uniqueViolation, s1)
      else if hasId ts_id section (score_sheet_template_sections T)
              && hasId ss_id sheet (score_sheets T)
      then match encodeValue value with
           | None => (Err numericOutOfRange, s1)
           | Some v =>
               let row := mkSectionRow id section v sheet in
               match sectionRows T (existing ++ [row]) rest s1 with
               | (Ok rs, s2) => (Ok (row :: rs), s2)
               | (Err e, s2) => (Err e, s2)
               end
           end
      else (Err foreignKeyViolation, s1)
  end.

(** [tx.Exec] of the bulk insert.  Without rows the builder reports an
    error, which [CreateScoreSheet] drops, and gives the empty
    statement, which is sent all the same. *)
Definition execInsertSections (rows : list (string * float64 * string))
  : M unit :=
  λ s,
    match send (InsertSections rows) s with
    | (Some e, s1) => (Err e, s1)
    | (None, s1) =>
        match rows with
        | [] =>
            match emptyStatement with
            | Some e => (Err e, s1)
            | None => (Ok (), s1)
            end
        | _ =>
            let T := tables s1 in
            match sectionRows T (score_sheet_sections T) rows s1 with
            | (Ok rs, s2) =>
                (Ok (),
                 withTables (setSections (score_sheet_sections T ++ rs) T)
                   s2)
            | (Err e, s2) => (Err e, s2)
            end
        end
    end.

(** [UPDATE score_sheets SET team, timings, comments WHERE id = ...] *)
Definition execUpdateScoreSheet (id team : string)
    (timings : list (string * string)) (comments : string) : M unit :=
  λ s,
    match send (UpdateScoreSheetRow id team timings comments) s with
    | (Some e, s1) => (Err e, s1)
    | (None, s1) =>
        let T := tables s1 in
        if hasId ss_id id (score_sheets T)
           && negb (hasId t_id team (teams T))
        then (Err foreignKeyViolation, s1)
        else
          (Ok (),
           withTables
             (setScoreSheets
                (map (λ r,
                        if String.eqb (ss_id r) id
                        then mkScoreSheetRow (ss_id r) (ss_division r) team
                               (ss_template r) timings (ss_author r)
                               comments (ss_round r) (ss_created_at r)
                        else r)
                     (score_sheets T)) T) s1)
    end.

(** [UPDATE score_sheet_sections SET value = ... WHERE id = ...] *)
Definition execUpdateSection (id : string) (value : float64) : M unit :=
  λ s,
    match send (UpdateSectionValue id value) s with
    | (Some e, s1) => (Err e, s1)
    | (None, s1) =>
        let T := tables s1 in
        match encodeValue value with
        | None =>
            if hasId sec_id id (score_sheet_sections T)
            then (Err numericOutOfRange, s1)
            else (Ok (), s1)
        | Some v =>
            (Ok (),
             withTables
               (setSections
                  (map (λ r,
                          if String.eqb (sec_id r) id
                          then mkSectionRow (sec_id r) (sec_section r) v
                                 (sec_score_sheet r)
                          else r)
                       (score_sheet_sections T)) T) s1)
        end
    end.

(** Modelled from the spec: the transaction executor
    [crdb.ExecuteTxx], a dependency that is not under [src/].  It runs
    the closure inside a transaction and commits when the closure
    returns no error; when the closure or the commit fails, the work of
    the transaction is rolled back, and on a transient serialization
    conflict the whole closure is run again from scratch.  What the
    environment decides (failures, identifiers, schedule) and the
    record of statements are not rolled back.  [fuel] bounds the
    number of attempts; [None] stands for a run that has not ended
    within it. *)
Fixpoint ExecuteTxx {A} (fuel : nat) (fn : M A) (s : Store)
  : option (result A * Store) :=
  match fuel with
  | O => None
  | S fuel' =>
      match fn s with
      | (Ok a, s1) =>
          match send Commit s1 with
          | (None, s2) => Some (Ok a, s2)
          | (Some e, s2) =>
              if retryable e
              then ExecuteTxx fuel' fn (withTables (tables s) s2)
              else Some (Err e, withTables (tables s) s2)
          end
      | (Err e, s1) =>
          if retryable e
          then ExecuteTxx fuel' fn (withTables (tables s) s1)
          else Some (Err e, withTables (tables s) s1)
      end
  end.

Definition jsonTimings (scoreSheet : ScoreSheet)
  : list (string * string) :=
  map (λ timing, (timing_Name timing, timing_Value timing))
    (sh_Timings scoreSheet).

(** The closure of [CreateScoreSheet]; its result is the captured
    variable [scoreSheetID]. *)
Definition createClosure (handler : Handler) : M string :=
  match handler emptyScoreSheet with
  | (Some handlerError, _) => fail handlerError
  | (None, scoreSheet) =>
      let* scoreSheetID :=
        execInsertScoreSheet (sh_DivisionId scoreSheet)
          (GetTeamId scoreSheet) (sh_ScoreSheetTemplateId scoreSheet)
          (jsonTimings scoreSheet) (sh_Comments scoreSheet)
          (sh_Round scoreSheet) (GetAuthorId scoreSheet) in
      let* _ :=
        execInsertSections
          (map (λ section,
                  (sss_SectionId section, sss_Value section, scoreSheetID))
               (sh_Sections scoreSheet)) in
      ret scoreSheetID
  end.

Definition CreateScoreSheet (fuel : nat) (handler : Handler) (s : Store)
  : option (result (option ScoreSheet) * Store) :=
  match ExecuteTxx fuel (createClosure handler) s with
  | None => None
  | Some (Err err, s') => Some (Err err, s')
  | Some (Ok scoreSheetID, s') => Some (FetchScoreSheet scoreSheetID s')
  end.

(** The loop over the sections of the mutated sheet. *)
Fixpoint updateSections (sections : list ScoreSheetSection) : M unit :=
  match sections with
  | [] => ret ()
  | section :: rest =>
      let* _ := execUpdateSection (sss_Id section) (sss_Value section) in
      updateSections rest
  end.

(** The closure of [UpdateScoreSheet]. *)
Definition updateClosure (scoreSheetId : string) (handler : Handler)
  : M unit :=
  let* fetchedSheet := FetchScoreSheet scoreSheetId in
  match fetchedSheet with
  | None => fail nilDereference
  | Some scoreSheet =>
      match handler scoreSheet with
      | (Some handlerError, _) => fail handlerError
      | (None, scoreSheet) =>
          let* _ :=
            execUpdateScoreSheet scoreSheetId (GetTeamId scoreSheet)
              (jsonTimings scoreSheet) (sh_Comments scoreSheet) in
          updateSections (sh_Sections scoreSheet)
      end
  end.

Definition UpdateScoreSheet (fuel : nat) (scoreSheetId : string)
    (handler : Handler) (s : Store)
  : option (result (option ScoreSheet) * Store) :=
  match ExecuteTxx fuel (updateClosure scoreSheetId handler) s with
  | None => None
  | Some (Err err, s') => Some (Err err, s')
  | Some (Ok _, s') => Some (FetchScoreSheet scoreSheetId s')
  end.
End ScoreSheets.

(** ** The ranking order, in the words of the specification *)

Definition ladderKey (e : LadderEntry) : float64 * float64 * string :=
  (FinalTotal e, RoundTotal e, team_Name (Team_ e)).

(** [ladderLess] on the three keys alone. *)
Definition keyLess (k1 k2 : float64 * float64 * string) : bool :=
  if flt k1.1.1 k2.1.1 then true
  else if fgt k1.1.1 k2.1.1 then false
  else if flt k1.1.2 k2.1.2 then true
  else if fgt k1.1.2 k2.1.2 then false
  else string_lt k1.2 k2.2.

(** Ascending by [final_total], ties broken by ascending [round_total],
    remaining ties by the team name. *)
Definition rankedBefore (a b : LadderEntry) : Prop :=
  (FinalTotal a < FinalTotal b)%Qc
  ∨ (FinalTotal a = FinalTotal b
     ∧ ((RoundTotal a < RoundTotal b)%Qc
        ∨ (RoundTotal a = RoundTotal b
           ∧ (String_as_OT.lt (team_Name (Team_ a)) (team_Name (Team_ b))
              ∨ team_Name (Team_ a) = team_Name (Team_ b))))).

(** Equal on all three keys. *)
Definition sameKeys (a b : LadderEntry) : Prop :=
  FinalTotal a = FinalTotal b ∧ RoundTotal a = RoundTotal b
  ∧ team_Name (Team_ a) = team_Name (Team_ b).

(** ** The derived fields, in the words of the specification *)

Section LadderSpec.
Variable Float64 : decimal → float64.
Variable NewFromFloat : float64 → decimal.

(** The per-round averages reported for a team: one per row of the
    score query for that team, rounded to two places. *)
Definition roundsOf (scores : list scoreCalc) (team : string)
  : list RoundAverage :=
  map (λ score,
         mkRoundAverage (int32 (sc_Round score))
           (Float64 (Round (sc_Average score) 2))
           (int32 (sc_Count score)))
      (List.filter (λ score, String.eqb (sc_Team score) team) scores).

(** The averages of the rounds selected by [p], as decimals. *)
Definition averagesWhere (p : Z → bool) (rounds : list RoundAverage)
  : list decimal :=
  map (λ r, NewFromFloat (ra_Average r))
    (List.filter (λ r, p (ra_Round r)) rounds).

Definition interviewRound (round : Z) : bool := round =? 0.
Definition competitionRound (N1 round : Z) : bool :=
  (1 <=? round) && (round <=? N1).
Definition finalRound (N1 round : Z) : bool := N1 <? round.

(** [m] is the maximum of [l], or 0 when [l] is empty. *)
Definition maxOrZero (l : list decimal) (m : decimal) : Prop :=
  match l with
  | [] => m = dzero
  | _ => m ∈ l ∧ Forall (λ x, (x ≤ m)%Qc) l
  end.

(** The derived fields of entry [e], for round averages [rounds] in a
    division with [N1] competition rounds. *)
Definition derivedFields (N1 : Z) (rounds : list RoundAverage)
    (e : LadderEntry) : Prop :=
  ∃ interview best_round best_final : decimal,
    interview = dsum (averagesWhere interviewRound rounds)
    ∧ maxOrZero (averagesWhere (competitionRound N1) rounds) best_round
    ∧ maxOrZero (averagesWhere (finalRound N1) rounds) best_final
    ∧ InterviewScore e = Float64 interview
    ∧ BestRound e = Float64 best_round
    ∧ BestFinal e = Float64 best_final
    ∧ RoundTotal e = Float64 (Add interview best_round)
    ∧ FinalTotal e
      = (if fgt (BestFinal e) fzero
         then Float64 (Add interview best_final) else fzero).

Definition allZero (e : LadderEntry) : Prop :=
  InterviewScore e = fzero ∧ BestRound e = fzero ∧ BestFinal e = fzero
  ∧ RoundTotal e = fzero ∧ FinalTotal e = fzero.

(** The teams of a division, in the order of the team list. *)
Definition teamsOf (division : string) (teamList : list ladderTeam)
  : list ladderTeam :=
  List.filter (λ team, String.eqb (lt_DivisionID team) division) teamList.
End LadderSpec.

(** The division message made from a team row. *)
Definition divisionOfRow (team : ladderTeam) : Division :=
  mkDivision (lt_DivisionID team) (lt_Division team) ONSTAGE
    (int32 (lt_CompetitionRounds team)) (int32 (lt_FinalRounds team)).

(** What the claim on the ranking asks of a ladder [dl] computed from the
    team rows [teamList] and the score rows [scores]: the entries are
    those of the teams of the division, in ranking order; entries equal
    on all three keys keep the order of the team list; and no other
    order of the team rows that keeps tied entries in the same order
    changes the ladder. *)
Section RankingSpec.
Variable Float64 : decimal → float64.
Variable NewFromFloat : float64 → decimal.

Definition entriesOf (scores : list scoreCalc) (division : string)
    (teamList : list ladderTeam) : list LadderEntry :=
  map (ladderEntryOf Float64 NewFromFloat (buildScoreMap Float64 scores))
    (teamsOf division teamList).

Definition tiesInOrder (l1 l2 : list LadderEntry) : Prop :=
  ∀ e, List.filter (tied ladderLess e) l1
       = List.filter (tied ladderLess e) l2.

Definition rankedLadder (teamList : list ladderTeam)
    (scores : list scoreCalc) (dl : DivisionLadder) : Prop :=
  let division := div_Id (dl_Division dl) in
  StronglySorted rankedBefore (Ladder dl)
  ∧ Ladder dl ≡ₚ entriesOf scores division teamList
  ∧ tiesInOrder (Ladder dl) (entriesOf scores division teamList)
  ∧ (∀ a b, tied ladderLess a b = true ↔ sameKeys a b)
  ∧ (∀ mapOrder' teamList' dl',
       teamList' ≡ₚ teamList →
       tiesInOrder (entriesOf scores division teamList')
         (entriesOf scores division teamList) →
       dl' ∈ danceLadders Float64 NewFromFloat mapOrder' teamList' scores →
       div_Id (dl_Division dl') = division →
       Ladder dl' = Ladder dl).
End RankingSpec.

(** ** A sample competition

    One On Stage division with two competition rounds and one final
    round.  Team A has an interview sheet (80), sheets for rounds 1 (70)
    and 2 (two sheets, 90 each) and a final sheet (85); Team B has an
    interview sheet only (75); Team C has no sheet; Team D has an
    interview sheet (1.005) and a round-1 sheet (2.005). *)

Definition sampleTables : Tables :=
  mkTables
    [mkUserRow "u1" "Judge One" "judge1"; mkUserRow "u2" "Judge Two" "judge2"]
    [mkTemplateRow "tpi" "Interview" "Interview";
     mkTemplateRow "tpp" "Performance" "Performance"]
    [mkTemplateSectionRow "tsi" "Interview" "tpi" "" 100 1 0;
     mkTemplateSectionRow "tsa" "Choreography" "tpp" "" 50 2 0;
     mkTemplateSectionRow "tsb" "Technique" "tpp" "" 50 3 1]
    [mkDivisionRow "d1" "Primary" "On Stage" 2 1;
     mkDivisionRow "d2" "Open" "Soccer" 0 0]
    [mkInstitutionRow "i1" "School"]
    [mkTeamRow "tA" "Team A" "i1" "d1"; mkTeamRow "tB" "Team B" "i1" "d1";
     mkTeamRow "tC" "Team C" "i1" "d1"; mkTeamRow "tD" "Team D" "i1" "d1";
     mkTeamRow "tS" "Strikers" "i1" "d2"]
    [mkScoreSheetRow "sA0" "d1" "tA" "tpi" [] "u1" "" 0 10;
     mkScoreSheetRow "sA1" "d1" "tA" "tpp" [] "u1" "" 1 11;
     mkScoreSheetRow "sA2" "d1" "tA" "tpp" [] "u1" "" 2 12;
     mkScoreSheetRow "sA2'" "d1" "tA" "tpp" [] "u2" "" 2 13;
     mkScoreSheetRow "sA3" "d1" "tA" "tpp" [("music", "2:58")] "u1" "" 3 14;
     mkScoreSheetRow "sB0" "d1" "tB" "tpi" [] "u1" "" 0 15;
     mkScoreSheetRow "sD0" "d1" "tD" "tpi" [] "u1" "" 0 16;
     mkScoreSheetRow "sD1" "d1" "tD" "tpp" [] "u1" "" 1 17]
    [mkSectionRow "x01" "tsi" (dec 80 0) "sA0";
     mkSectionRow "x02" "tsa" (dec 20 0) "sA1";
     mkSectionRow "x03" "tsb" (dec 10 0) "sA1";
     mkSectionRow "x04" "tsa" (dec 30 0) "sA2";
     mkSectionRow "x05" "tsb" (dec 10 0) "sA2";
     mkSectionRow "x06" "tsa" (dec 27 0) "sA2'";
     mkSectionRow "x07" "tsb" (dec 12 0) "sA2'";
     mkSectionRow "x08" "tsb" (dec 15 0) "sA3";
     mkSectionRow "x09" "tsa" (dec 20 0) "sA3";
     mkSectionRow "x10" "tsi" (dec 75 0) "sB0";
     mkSectionRow "x11" "tsi" (dec 1005 3) "sD0";
     mkSectionRow "x12" "tsa" (dec 5 1) "sD1";
     mkSectionRow "x13" "tsb" (dec 335 3) "sD1"].

Definition sampleStore : Store :=
  mkStore sampleTables [] [] ["s1"; "y1"; "y2"; "s2"; "y3"] 100 [true; false].

(** Conversions between [Decimal] and [float64] that lose nothing. *)
Definition exactFloat64 (d : decimal) : float64 := d.
Definition exactNewFromFloat (f : float64) : decimal := f.

(** The ladders of the sample, and the store after they were fetched. *)
Definition sampleLadders : list DivisionLadder :=
  danceLadders exactFloat64 exactNewFromFloat []
    (teamsQuery sampleTables) (scoresQuery sampleTables).

Definition sampleLadder : DivisionLadder :=
  default (mkDivisionLadder (mkDivision "" "" ONSTAGE 0 0) [])
    (head sampleLadders).

Definition sampleStoreRead : Store :=
  mkStore sampleTables [SelectTeams; SelectScores] [] (uuids sampleStore)
    (clock sampleStore) (sched sampleStore).

(** The running maximum kept by the loop of [ladderEntryOf]. *)
Definition runningMax (m : decimal) (l : list decimal) : decimal :=
  fold_left (λ m d, if GreaterThan d m then d else m) l m.

(** The round tests of [scoreStep], as they are written. *)
Definition roundBranch (N1 round : Z) : bool :=
  negb (round =? 0) && (round <=? N1).
Definition finalBranch (N1 round : Z) : bool :=
  negb (round =? 0) && negb (round <=? N1) && (round >? N1).

(** ** Where the ladder rounds *)

Section RoundingSpec.
Variable Float64 : decimal → float64.
Variable NewFromFloat : float64 → decimal.

(** The score rows of a team whose round satisfies [p]. *)
Definition scoreRows (p : Z → bool) (scores : list scoreCalc)
    (team : string) : list scoreCalc :=
  List.filter
    (λ score, String.eqb (sc_Team score) team && p (int32 (sc_Round score)))
    scores.

(** Their averages as the store computed them ... *)
Definition exactAverages (p : Z → bool) (scores : list scoreCalc)
    (team : string) : list decimal :=
  map sc_Average (scoreRows p scores team).

(** ... and as the ladder uses them: rounded to two places, converted to
    [float64] for the report, and read back from that float. *)
Definition rereadAverages (p : Z → bool) (scores : list scoreCalc)
    (team : string) : list decimal :=
  map (λ score, NewFromFloat (Float64 (Round (sc_Average score) 2)))
    (scoreRows p scores team).

(** The derived fields of [e] computed from the averages [avg], each
    converted to [float64] at the end. *)
Definition fieldsFrom (avg : (Z → bool) → list decimal) (N1 : Z)
    (e : LadderEntry) : Prop :=
  let interview := dsum (avg interviewRound) in
  let best_round := runningMax dzero (avg (roundBranch N1)) in
  let best_final := runningMax dzero (avg (finalBranch N1)) in
  InterviewScore e = Float64 interview
  ∧ BestRound e = Float64 best_round
  ∧ BestFinal e = Float64 best_final
  ∧ RoundTotal e = Float64 (Add interview best_round)
  ∧ FinalTotal e
    = (if fgt (BestFinal e) fzero
       then Float64 (Add interview best_final) else fzero).

(** The claim as it is written: nothing is rounded before the derived
    fields are converted to [float64]. *)
Definition roundedOnlyAtTheEnd (scores : list scoreCalc) (team : string)
    (N1 : Z) (e : LadderEntry) : Prop :=
  fieldsFrom (λ p, exactAverages p scores team) N1 e.

(** What the code does. *)
Definition roundedPerAverage (scores : list scoreCalc) (team : string)
    (N1 : Z) (e : LadderEntry) : Prop :=
  Rounds e
  = map (λ score,
           mkRoundAverage (int32 (sc_Round score))
             (Float64 (Round (sc_Average score) 2))
             (int32 (sc_Count score)))
        (scoreRows (λ _, true) scores team)
  ∧ fieldsFrom (λ p, rereadAverages p scores team) N1 e.
End RoundingSpec.

(** Whether a list has an element. *)
Definition nonEmpty {V} (l : list V) : bool :=
  match l with [] => false | _ => true end.

(** The terms of a score sheet: [value * multiplier] for each of its
    sections (with its template section). *)
Definition sectionTerms (T : Tables) (sheet : string) : list decimal :=
  sec ← score_sheet_sections T; ts ← score_sheet_template_sections T;
  if String.eqb (sec_score_sheet sec) sheet
     && String.eqb (sec_section sec) (ts_id ts)
  then [(sec_value sec * Qc_of_Z (ts_multiplier ts))%Qc]
  else [].

(** The total of a score sheet: their sum. *)
Definition sheetTotal (T : Tables) (sheet : string) : decimal :=
  dsum (sectionTerms T sheet).

(** The score sheets of a team and round that have a section. *)
Definition scoredSheets (T : Tables) (team : string) (round : Z)
  : list ScoreSheetRow :=
  List.filter
    (λ ss, String.eqb (ss_team ss) team && (ss_round ss =? round))
    (List.filter (λ ss, nonEmpty (sectionTerms T (ss_id ss)))
       (score_sheets T)).

(** Rows that come key by key: for each [a], in order, its values under
    its key. *)
Definition keyedRows {A K V} (key : A → K) (vals : A → list V)
    (l : list A) : list (K * V) :=
  a ← l; map (pair (key a)) (vals a).

(** The mean of a list of decimals, in exact arithmetic. *)
Definition mean (l : list decimal) : decimal :=
  (dsum l / Qc_of_Z (Z.of_nat (length l)))%Qc.

(** The claim on rounding, for the ladders fetched from a store. *)
Definition noIntermediateRounding (Float64 : decimal → float64)
    (NewFromFloat : float64 → decimal) (s : Store) : Prop :=
  ∀ mapOrder showAll ladders s' dl e,
    FetchDanceLadders Float64 NewFromFloat mapOrder showAll s
    = (Ok ladders, s') →
    dl ∈ ladders → e ∈ Ladder dl →
    roundedOnlyAtTheEnd Float64 (scoresQuery (tables s))
      (team_Id (Team_ e)) (div_CompetitionRounds (dl_Division dl)) e.

(** The entry of Team D in the sample ladder. *)
Definition sampleEntryD : LadderEntry :=
  default
    (mkLadderEntry (mkTeam "" "" (mkInstitution "" "") "") [] fzero fzero
       fzero fzero fzero)
    (Ladder sampleLadder !! 1%nat).

(** ** What [FetchScoreSheet] promises, in terms of its two queries *)

(** The error [errgroup] reports: that of the first task that returned
    one. *)
Fixpoint firstError (returnedTasks : list (bool * option error))
  : option error :=
  match returnedTasks with
  | [] => None
  | (_, Some e) :: _ => Some e
  | (_, None) :: rest => firstError rest
  end.

Definition errorOf {A} (r : result A) : option error :=
  match r with Ok _ => None | Err e => Some e end.

Section FetchSpec.
Variable scanFloat32 : decimal → float64.

(** The outcome of the query of task [t] on tables [T], when the store
    injects the failure [f] (if any) into it. *)
Definition queryOutcome (id : string) (T : Tables) (t : bool)
    (f : option error) : result fetched :=
  match f with
  | Some e => Err e
  | None =>
      if t then Ok (FSections (sectionQuery scanFloat32 id T))
      else match sheetQuery id T with
           | r :: _ => Ok (FSheet r)
           | [] => Err ErrNoRows
           end
  end.

(** The result of the fetch, from the outcomes of the two queries in the
    order in which their tasks returned: the composite sheet when both
    succeeded, else the first error, and never a partial sheet. *)
Definition joined (first second : result fetched)
  : result (option ScoreSheet) :=
  match first, second with
  | Err e, _ => Err (wrapError "Error fetching: " e)
  | Ok _, Err e => Err (wrapError "Error fetching: " e)
  | Ok (FSheet r), Ok (FSections l)
  | Ok (FSections l), Ok (FSheet r) =>
      Ok (Some (sheetOf r l))
  | Ok _, Ok _ => Ok None
  end.
End FetchSpec.

(** A failure the store may inject into a statement sent from [s]: none,
    or one of those it holds. *)
Definition injected (s : Store) (f : option error) : Prop :=
  f = None ∨ f ∈ faults s.

(** ** The invariant of the two tasks of [FetchScoreSheet] *)

Section GroupInvariant.
Variable scanFloat32 : decimal → float64.
Variable id : string.
Variable s0 : Store.

(** The captured variable of task [t] is still as declared ... *)
Definition varInit (t : bool) (g : Group) : Prop :=
  if t then sectionsVar g = [] else scoreSheetVar g = None.

(** ... or holds what the task fetched. *)
Definition varAssigned (v : fetched) (g : Group) : Prop :=
  match v with
  | FSheet r => scoreSheetVar g = Some r
  | FSections l => sectionsVar g = l
  end.

Definition hasReturned (t : bool) (g : Group) : Prop :=
  t ∈ map fst (returned g).

(** Where task [t] stands: before its query nothing of it is visible;
    between a successful query and its return it holds the rows of its
    query, and the mutex exactly while it assigns; after its return the
    group has its outcome, and its variable is assigned exactly when the
    query succeeded. *)
Definition taskInv (t : bool) (g : Group) : Prop :=
  let k := getTask t g in
  match task_pc k with
  | AtQuery => ¬ hasReturned t g ∧ varInit t g ∧ lock g ≠ Some t
  | AtLock =>
      ∃ f v, injected s0 f
        ∧ queryOutcome scanFloat32 id (tables s0) t f = Ok v
        ∧ task_local k = Some v
        ∧ ¬ hasReturned t g ∧ varInit t g ∧ lock g ≠ Some t
  | AtWrite =>
      ∃ f v, injected s0 f
        ∧ queryOutcome scanFloat32 id (tables s0) t f = Ok v
        ∧ task_local k = Some v
        ∧ ¬ hasReturned t g ∧ varInit t g ∧ lock g = Some t
  | AtReturn =>
      ∃ f v, injected s0 f
        ∧ queryOutcome scanFloat32 id (tables s0) t f = Ok v
        ∧ task_local k = Some v
        ∧ ¬ hasReturned t g ∧ varAssigned v g ∧ lock g = Some t
  | Finished =>
      ∃ f, injected s0 f
        ∧ (t, errorOf (queryOutcome scanFloat32 id (tables s0) t f))
          ∈ returned g
        ∧ match queryOutcome scanFloat32 id (tables s0) t f with
          | Ok v => varAssigned v g
          | Err _ => varInit t g
          end
        ∧ lock g ≠ Some t
  end.

Definition groupInv (g : Group) (s : Store) : Prop :=
  taskInv false g ∧ taskInv true g
  ∧ groupErr g = firstError (returned g)
  ∧ NoDup (map fst (returned g))
  ∧ tables s = tables s0
  ∧ (∀ f, f ∈ faults s → f ∈ faults s0).
End GroupInvariant.

(** The steps a task has left. *)
Definition stepsLeft (k : Task) : nat :=
  match task_pc k with
  | AtQuery => 4
  | AtLock => 3
  | AtWrite => 2
  | AtReturn => 1
  | Finished => 0
  end.

Definition groupStepsLeft (g : Group) : nat :=
  (stepsLeft (task0 g) + stepsLeft (task1 g))%nat.

(** ** Frames of the store operations *)

(** [s'] follows [s]: statements satisfying [P] were added to the
    record, and the store consumed some of the failures it was to
    inject. *)
Definition follows (P : Stmt → Prop) (s s' : Store) : Prop :=
  (∃ l, log s' = log s ++ l ∧ Forall P l)
  ∧ (∃ k, faults s = k ++ faults s').

(** The two statements of [FetchScoreSheet]. *)
Definition fetchStatement (id : string) (st : Stmt) : Prop :=
  st = SelectScoreSheet id ∨ st = SelectSections id.

(** What an update may not touch in a score-sheet row and in a section
    row. *)
Definition sheetFrame (r : ScoreSheetRow)
  : string * string * string * string * Z * Z :=
  (ss_id r, ss_division r, ss_template r, ss_author r, ss_round r,
   ss_created_at r).

Definition sectionFrame (r : SectionRow) : string * string * string :=
  (sec_id r, sec_section r, sec_score_sheet r).

(** [T'] has the rows of [T], up to the mutable columns of score sheets
    (team, timings, comments) and the values of sections. *)
Definition sameRows (T T' : Tables) : Prop :=
  users T' = users T
  ∧ score_sheet_templates T' = score_sheet_templates T
  ∧ score_sheet_template_sections T' = score_sheet_template_sections T
  ∧ divisions T' = divisions T
  ∧ institutions T' = institutions T
  ∧ teams T' = teams T
  ∧ map sheetFrame (score_sheets T') = map sheetFrame (score_sheets T)
  ∧ map sectionFrame (score_sheet_sections T')
    = map sectionFrame (score_sheet_sections T).

(** The section rows of a score sheet. *)
Definition sectionsOfSheet (T : Tables) (sheet : string) : list SectionRow :=
  List.filter (λ r, String.eqb (sec_score_sheet r) sheet)
    (score_sheet_sections T).

(** The statements [UpdateScoreSheet] may send for sheet [id]: reads,
    the update of the header row of [id], updates of section values, and
    the commit. *)
Definition updateStatement (id : string) (st : Stmt) : Prop :=
  match st with
  | SelectScoreSheet id' | SelectSections id' => id' = id
  | UpdateScoreSheetRow id' _ _ _ => id' = id
  | UpdateSectionValue _ _ | Commit => True
  | _ => False
  end.

(** ** What a run of store-facing code does *)

(** What running [m] from [s] does: the store follows; [ok] holds of a
    successful result; an error is one of [H], or, if it is a transient
    conflict, was injected by the store. *)
Definition runSpec {A} (P : Stmt → Prop) (H : error → Prop) (m : M A)
    (s : Store) (ok : A → Store → Prop) : Prop :=
  follows P s (m s).2
  ∧ match (m s).1 with
    | Ok a => ok a (m s).2
    | Err e =>
        H e ∨ (retryable e = true →
               (length (faults (m s).2) < length (faults s))%nat)
    end.

Section ScoreSheetSpec.
Variable encodeValue : float64 → option decimal.
Variable emptyStatement : option error.

(** The section row [row] was inserted for the values [r] of the bulk
    insert. *)
Definition rowOf (row : SectionRow) (r : string * float64 * string) : Prop :=
  sec_section row = r.1.1 ∧ sec_score_sheet row = r.2
  ∧ encodeValue r.1.2 = Some (sec_value row).

(** An error the closures of [CreateScoreSheet] and [UpdateScoreSheet]
    return without the store having raised it: the mutator's, or the
    answer to the empty statement. *)
Definition closureError (handler : Handler) (e : error) : Prop :=
  emptyStatement = Some e ∨ ∃ sheet, (handler sheet).1 = Some e.

(** The tables after the header row of [scoreSheet] was inserted under
    [id] at time [now], with the section rows [rs]. *)
Definition createdTables (T : Tables) (now : Z) (id : string)
    (scoreSheet : ScoreSheet) (rs : list SectionRow) : Tables :=
  setSections (score_sheet_sections T ++ rs)
    (setScoreSheets
       (score_sheets T
        ++ [mkScoreSheetRow id (sh_DivisionId scoreSheet)
              (GetTeamId scoreSheet) (sh_ScoreSheetTemplateId scoreSheet)
              (jsonTimings scoreSheet) (GetAuthorId scoreSheet)
              (sh_Comments scoreSheet) (sh_Round scoreSheet) now])
       T).

(** The section rows [rs] are those of the sections of [scoreSheet],
    inserted for the sheet [id]. *)
Definition sectionRowsOf (rs : list SectionRow) (scoreSheet : ScoreSheet)
    (id : string) : Prop :=
  Forall2 rowOf rs
    (map (λ section, (sss_SectionId section, sss_Value section, id))
       (sh_Sections scoreSheet)).
End ScoreSheetSpec.

(** ** Sample mutators and stores for the score-sheet operations *)

(** A store that turns every [float64] into a [DECIMAL] as it is. *)
Definition exactEncode (f : float64) : option decimal := Some f.

(** A mutator that fills in a new sheet of team A for round 1 with the
    given sections; the names it leaves empty are not stored. *)
Definition sampleNewSheet (sections : list ScoreSheetSection) : Handler :=
  λ sheet,
    (None,
     mkScoreSheet (sh_Id sheet) "tpp" "well done" 1
       (Some (mkTeam "tA" "" (mkInstitution "" "") ""))
       (Some (mkUser "u1" "" "")) sections [mkTiming "music" "2:40"] "d1"
       PERFORMANCE).

Definition sampleSections : list ScoreSheetSection :=
  [mkScoreSheetSection "" "" "" 0 0 "tsa" (dec 25 0);
   mkScoreSheetSection "" "" "" 0 0 "tsb" (dec 9 0)].

(** A mutator that gives up. *)
Definition failingHandler (e : error) : Handler := λ sheet, (Some e, sheet).

Definition sampleRefusal : error := ErrorString "scores are closed".

(** A mutator that revises the comments and sets every value to 7. *)
Definition sampleRevision : Handler :=
  λ sheet,
    (None,
     mkScoreSheet (sh_Id sheet) (sh_ScoreSheetTemplateId sheet) "revised"
       (sh_Round sheet) (sh_Team sheet) (sh_Author sheet)
       (map (λ section,
               mkScoreSheetSection (sss_Id section) (sss_Title section)
                 (sss_Description section) (sss_MaxValue section)
                 (sss_Multiplier section) (sss_SectionId section) (dec 7 0))
          (sh_Sections sheet))
       (sh_Timings sheet) (sh_DivisionId sheet) (sh_Type sheet)).

(** The sample store about to report one serialization conflict. *)
Definition sampleConflict : error :=
  PqError "40001" "restart transaction".

Definition conflictStore : Store :=
  mkStore sampleTables [] [None; Some sampleConflict] (uuids sampleStore)
    (clock sampleStore) (sched sampleStore).

(** The sheet sA1 of the sample as [FetchScoreSheet] reads it, and the
    store after that read. *)
Definition sampleSheetRead : result (option ScoreSheet) * Store :=
  FetchScoreSheet exactFloat64 "sA1" sampleStore.

Definition sampleSheet : ScoreSheet :=
  match sampleSheetRead.1 with
  | Ok (Some sheet) => sheet
  | _ => emptyScoreSheet
  end.

(** A store's refusal of the empty statement. *)
Definition sampleSyntaxError : error :=
  PqError "42601" "syntax error at end of input".

(** ** The outcomes of [CreateScoreSheet] *)

Section TransactionSpec.
Variable scanFloat32 : decimal → float64.
Variable encodeValue : float64 → option decimal.
Variable emptyStatement : option error.

(** Nothing of the transaction is left: the call failed, the tables are
    those before it, and whichever id a header insert of the transaction
    handed out, a fetch by it afterwards finds no row. *)
Definition rolledBack (s : Store) (r : result (option ScoreSheet))
    (s' : Store) : Prop :=
  ∃ e, r = Err e ∧ tables s' = tables s
    ∧ ∀ division team template timings comments round author sa id sb,
        tables sa = tables s →
        execInsertScoreSheet division team template timings comments round
          author sa = (Ok id, sb) →
        ∃ e', (FetchScoreSheet scanFloat32 id s').1
              = Err (wrapError "Error fetching: " e')
              ∧ (faults s' = [] → e' = ErrNoRows).

(** All of it is there: in a run of the closure from the tables before
    the call the mutator and both inserts succeeded; the tables are those
    with the header row under a fresh id and a section row for each
    section of the mutated sheet; and the result is that of fetching the
    id from these tables. *)
Definition committed (handler : Handler) (s : Store)
    (r : result (option ScoreSheet)) (s' : Store) : Prop :=
  ∃ sa sb sc id scoreSheet rs,
    tables sa = tables s
    ∧ createClosure encodeValue emptyStatement handler sa = (Ok id, sb)
    ∧ handler emptyScoreSheet = (None, scoreSheet)
    ∧ hasId ss_id id (score_sheets (tables s)) = false
    ∧ sectionRowsOf encodeValue rs scoreSheet id
    ∧ tables sc = createdTables (tables s) (clock sa) id scoreSheet rs
    ∧ FetchScoreSheet scanFloat32 id sc = (r, s')
    ∧ tables s' = tables sc.

(** No sheet is created without sections: whenever the mutator leaves
    none, the call fails and the tables are as before. *)
Definition emptySectionsAlwaysFail (fuel : nat) (handler : Handler)
    (s : Store) : Prop :=
  ∀ scoreSheet r s',
    handler emptyScoreSheet = (None, scoreSheet) →
    sh_Sections scoreSheet = [] →
    CreateScoreSheet scanFloat32 encodeValue emptyStatement fuel handler s
    = Some (r, s') →
    (∃ e, r = Err e) ∧ tables s' = tables s.
End TransactionSpec.

(** What [UpdateScoreSheet] leaves as it was: the rows up to their
    mutable columns, the number of section rows of every sheet, and a
    record extended by its own statements only. *)
Definition updateFrame (id : string) (s s' : Store) : Prop :=
  sameRows (tables s) (tables s')
  ∧ (∀ sheet,
       length (sectionsOfSheet (tables s') sheet)
       = length (sectionsOfSheet (tables s) sheet))
  ∧ ∃ l, log s' = log s ++ l ∧ Forall (updateStatement id) l.

(** A failed update that has read only: the tables are as before and
    the record has gained only the statements of the fetch. *)
Definition onlyRead (id : string) (s s' : Store) : Prop :=
  tables s' = tables s
  ∧ ∃ l, log s' = log s ++ l ∧ Forall (fetchStatement id) l.

(** ** Score-sheet templates: [CreateScoreSheetTemplate] and
    [FetchScoreSheetTemplates]

    Go strings are byte strings; a slice expression panics when its
    bounds are out of order or out of range, which is [None] here. *)

(** [s[lo:hi]] *)
Definition slice (lo hi : Z) (s : string) : option string :=
  if (0 <=? lo) && (lo <=? hi) && (hi <=? Z.of_nat (String.length s))
  then Some (substring (Z.to_nat lo) (Z.to_nat (hi - lo)) s)
  else None.

(** [s[1 : len(s)-1]] *)
Definition trimEnds (s : string) : option string :=
  slice 1 (Z.of_nat (String.length s) - 1) s.

(** [strings.Split(s, sep)] for a separator of one byte. *)
Fixpoint Split (sep : ascii) (s : string) : list string :=
  match s with
  | EmptyString => [EmptyString]
  | String c rest =>
      if Ascii.eqb c sep then EmptyString :: Split sep rest
      else match Split sep rest with
           | piece :: pieces => String c piece :: pieces
           | [] => [String c EmptyString]
           end
  end.

(** [strings.Join(items, sep)] *)
Fixpoint Join (items : list string) (sep : string) : string :=
  match items with
  | [] => EmptyString
  | [item] => item
  | item :: rest => item +:+ sep +:+ Join rest sep
  end.

Definition quoteByte : ascii := "034"%char.
Definition comma : ascii := ","%char.

(** [fmt.Sprintf("\"%s\"", str)] *)
Definition quoted (str : string) : string :=
  String quoteByte (str +:+ String quoteByte EmptyString).

(** The text [CreateScoreSheetTemplate] writes to the [timings] column:
    the quoted timings joined by commas, in braces. *)
Definition timingsText (timings : list string) : string :=
  "{" +:+ Join (map quoted timings) "," +:+ "}".

(** The loop over a list that may panic. *)
Fixpoint forEach {A B} (f : A → option B) (l : list A) : option (list B) :=
  match l with
  | [] => Some []
  | a :: rest =>
      match f a with
      | None => None
      | Some b =>
          match forEach f rest with
          | None => None
          | Some bs => Some (b :: bs)
          end
      end
  end.

(** How [FetchScoreSheetTemplates] reads the timings back from the text
    of the column. *)
Definition timingsOfText (TimingString : string) : option (list string) :=
  match trimEnds TimingString with
  | None => None
  | Some cleanTimingString =>
      if (0 <? Z.of_nat (String.length cleanTimingString))
      then forEach trimEnds (Split comma cleanTimingString)
      else Some []
  end.

(** The bytes of a string. *)
Fixpoint bytesOf (s : string) : list ascii :=
  match s with
  | EmptyString => []
  | String c rest => c :: bytesOf rest
  end.

(** How often the byte [c] occurs in [s]. *)
Fixpoint countByte (c : ascii) (s : string) : nat :=
  match s with
  | EmptyString => 0
  | String b rest => (if Ascii.eqb b c then 1 else 0) + countByte c rest
  end.

(** The messages of a template ([api/proto], by their use). *)
Record ScoreSheetTemplateSection := mkScoreSheetTemplateSection {
  stsec_Id : string; stsec_Title : string; stsec_Description : string;
  stsec_MaxValue : Z; stsec_Multiplier : Z; stsec_DisplayOrder : Z
}.

Record ScoreSheetTemplate := mkScoreSheetTemplate {
  sst_Id : string; sst_Name : string; sst_Type : TemplateType;
  sst_Timings : list string;
  sst_Sections : list ScoreSheetTemplateSection
}.

(** Rows of the two queries of [FetchScoreSheetTemplates]. *)
Record dbTemplate := mkDbTemplate {
  dbt_ID : string; dbt_Name : string; dbt_Type : string;
  dbt_TimingString : string
}.

Record dbSection := mkDbSection {
  dbsn_ID : string; dbsn_Title : string; dbsn_Description : string;
  dbsn_MaxValue : Z; dbsn_Multiplier : Z; dbsn_ScoreSheetTemplate : string
}.

Section Templates.
(** [strings.ToLower], which the repository takes from the library. *)
Variable ToLower : string → string.

(** The message made from a section row; its display order is left at
    zero. *)
Definition templateSectionOf (dbSection : dbSection)
  : ScoreSheetTemplateSection :=
  mkScoreSheetTemplateSection (dbsn_ID dbSection) (dbsn_Title dbSection)
    (dbsn_Description dbSection) (int32 (dbsn_MaxValue dbSection))
    (int32 (dbsn_Multiplier dbSection)) 0.

(** One turn of the loop that fills [sectionMap]. *)
Definition sectionMapStep
    (sectionMap : gmap string (list ScoreSheetTemplateSection))
    (dbSection : dbSection)
  : gmap string (list ScoreSheetTemplateSection) :=
  let sectionMap :=
    match sectionMap !! dbsn_ScoreSheetTemplate dbSection with
    | Some _ => sectionMap
    | None => <[dbsn_ScoreSheetTemplate dbSection := []]> sectionMap
    end in
  <[dbsn_ScoreSheetTemplate dbSection :=
      default [] (sectionMap !! dbsn_ScoreSheetTemplate dbSection)
      ++ [templateSectionOf dbSection]]> sectionMap.

Definition buildSectionMap (dbSections : list dbSection)
  : gmap string (list ScoreSheetTemplateSection) :=
  fold_left sectionMapStep dbSections ∅.

(** One turn of the loop over the template rows; [None] when a slice
    expression panics. *)
Definition templateOf
    (sectionMap : gmap string (list ScoreSheetTemplateSection))
    (dbTemplate : dbTemplate) : option ScoreSheetTemplate :=
  match timingsOfText (dbt_TimingString dbTemplate) with
  | None => None
  | Some timings =>
      Some (mkScoreSheetTemplate (dbt_ID dbTemplate) (dbt_Name dbTemplate)
              (if String.eqb (ToLower (dbt_Type dbTemplate)) "interview"
               then INTERVIEW else PERFORMANCE)
              timings
              (default [] (sectionMap !! dbt_ID dbTemplate)))
  end.

(** The in-memory part of [FetchScoreSheetTemplates], from the rows of
    its two queries. *)
Definition scoreSheetTemplates (dbTemplates : list dbTemplate)
    (dbSections : list dbSection) : option (list ScoreSheetTemplate) :=
  forEach (templateOf (buildSectionMap dbSections)) dbTemplates.

(** The sections of a template, read off the section rows. *)
Definition sectionsOfTemplate (id : string) (dbSections : list dbSection)
  : list ScoreSheetTemplateSection :=
  map templateSectionOf
    (List.filter (λ dbSection,
                    String.eqb (dbsn_ScoreSheetTemplate dbSection) id)
       dbSections).
End Templates.

(** The lower case of the ASCII letters, as [strings.ToLower] gives it on
    a text of ASCII bytes. *)
Definition lowerByte (c : ascii) : ascii :=
  let n := nat_of_ascii c in
  if (65 <=? n)%nat && (n <=? 90)%nat then ascii_of_nat (n + 32) else c.

Fixpoint lowerAscii (s : string) : string :=
  match s with
  | EmptyString => EmptyString
  | String c rest => String (lowerByte c) (lowerAscii rest)
  end.

(** Template rows and section rows for a sample; the sections of the two
    templates alternate. *)
Definition sampleTemplateRows : list dbTemplate :=
  [mkDbTemplate "tpi" "Interview" "Interview" (timingsText []);
   mkDbTemplate "tpp" "Performance" "Performance"
     (timingsText ["Setup"; "Music"])].

Definition sampleSectionRows : list dbSection :=
  [mkDbSection "tsa" "Choreography" "" 50 2 "tpp";
   mkDbSection "tsi" "Interview" "" 100 1 "tpi";
   mkDbSection "tsb" "Technique" "" 50 3 "tpp"].

Definition sampleTemplates : list ScoreSheetTemplate :=
  default [] (scoreSheetTemplates lowerAscii sampleTemplateRows
                sampleSectionRows).

(** ** [FetchTeams] *)

Inductive Gender := UNSPECIFIED | MALE | FEMALE.

Record Member := mkMember {
  mem_Id : string; mem_Name : string; mem_Gender : Gender
}.

(** The [Team] message with the import id and the members, which the
    ladder leaves unset. *)
Record TeamMessage := mkTeamMessage {
  tm_Id : string; tm_Name : string; tm_Institution : Institution;
  tm_ImportId : string; tm_Division : string; tm_Members : list Member
}.

Record FetchTeamsOptions := mkFetchTeamsOptions {
  PopulateMembers : bool;
  opt_Division : option string;
  opt_ImportID : list string
}.

(** Rows of the two queries of [FetchTeams]. *)
Record dbTeam := mkDbTeam {
  dbtm_ID : string; dbtm_Name : string; dbtm_InstitutionID : string;
  dbtm_Institution : string; dbtm_ImportID : string;
  dbtm_Division : string
}.

Record dbMember := mkDbMember {
  dbm_ID : string; dbm_Name : string; dbm_Gender : string;
  dbm_Division : string; dbm_Team : string
}.

Definition teamMessageOf (dbTeam : dbTeam) : TeamMessage :=
  mkTeamMessage (dbtm_ID dbTeam) (dbtm_Name dbTeam)
    (mkInstitution (dbtm_InstitutionID dbTeam) (dbtm_Institution dbTeam))
    (dbtm_ImportID dbTeam) (dbtm_Division dbTeam) [].

Definition memberOf (dbMember : dbMember) : Member :=
  mkMember (dbm_ID dbMember) (dbm_Name dbMember)
    (if String.eqb (dbm_Gender dbMember) "Male" then MALE
     else if String.eqb (dbm_Gender dbMember) "Female" then FEMALE
     else UNSPECIFIED).

(** The inner loop: the member is appended to the first team of the
    results that has its team id, and the loop breaks. *)
Fixpoint attachMember (member : Member) (team : string)
    (results : list TeamMessage) : list TeamMessage :=
  match results with
  | [] => []
  | resultTeam :: rest =>
      if String.eqb (tm_Id resultTeam) team
      then mkTeamMessage (tm_Id resultTeam) (tm_Name resultTeam)
             (tm_Institution resultTeam) (tm_ImportId resultTeam)
             (tm_Division resultTeam)
             (tm_Members resultTeam ++ [member]) :: rest
      else resultTeam :: attachMember member team rest
  end.

Definition attachMembers (dbMemberObj : list dbMember)
    (results : list TeamMessage) : list TeamMessage :=
  fold_left
    (λ results dbMember,
       attachMember (memberOf dbMember) (dbm_Team dbMember) results)
    dbMemberObj results.

(** [FetchTeams], from the answers of the store to its two queries; the
    second query is sent only when the members are asked for, which nil
    options do. *)
Definition FetchTeams (options : option FetchTeamsOptions)
    (teamsAnswer : result (list dbTeam))
    (membersAnswer : result (list dbMember)) : result (list TeamMessage) :=
  match teamsAnswer with
  | Err err => Err (wrapError "Error fetching teams: " err)
  | Ok teams =>
      let results := map teamMessageOf teams in
      if match options with
         | Some options => negb (PopulateMembers options)
         | None => false
         end
      then Ok results
      else match membersAnswer with
           | Err err => Err (wrapError "Error fetching members: " err)
           | Ok dbMemberObj => Ok (attachMembers dbMemberObj results)
           end
  end.

(** The members of a team, read off the member rows. *)
Definition membersOfTeam (team : string) (dbMemberObj : list dbMember)
  : list Member :=
  map memberOf
    (List.filter (λ dbMember, String.eqb (dbm_Team dbMember) team)
       dbMemberObj).

Definition sampleTeamRows : list dbTeam :=
  [mkDbTeam "tA" "Team A" "i1" "School" "" "d1";
   mkDbTeam "tB" "Team B" "i1" "School" "" "d1"].

Definition sampleMemberRows : list dbMember :=
  [mkDbMember "m1" "Ann" "Female" "d1" "tB";
   mkDbMember "m2" "Bob" "Male" "d1" "tA";
   mkDbMember "m3" "Cy" "Not Specified" "d1" "tB";
   mkDbMember "m4" "Di" "Female" "d2" "tZ"].

(** ** The tabs of the Excel export ([server.go]) *)

(** A Go [int] on a 64-bit platform. *)
Definition int64 (x : Z) : Z := (x + 2 ^ 63) mod 2 ^ 64 - 2 ^ 63.

Definition isInt64 (x : Z) : Prop := - 2 ^ 63 ≤ x < 2 ^ 63.

(** [roundName]; [fmt.Sprintf("%d", n)] is [pretty n]. *)
Definition roundName (roundIndex compRounds finalRounds : Z) : string :=
  if roundIndex =? 0 then "Interview"
  else if roundIndex <=? compRounds
  then "Performance " +:+ pretty roundIndex
  else "Final " +:+ pretty (int64 (roundIndex - compRounds)).

(** The names of the tabs that [getScoreSheetExcel] adds for the rounds:
    [for i := 0; i < CompetitionRounds+FinalRounds; i++]. *)
Definition roundTabs (compRounds finalRounds : Z) : list string :=
  map (λ i, roundName i compRounds finalRounds)
    (seqZ 0 (int64 (compRounds + finalRounds))).

(** ** Users and log-in ([AuthenticateUserWithCredentials]) *)

(** The [users] table with all its columns, and the store that holds
    it: the failures it will inject into the next statements, the ids it
    will hand out, and the salts the password hash will draw. *)
Record AccountRow := mkAccountRow {
  acc_id : string; acc_name : string; acc_username : string;
  acc_hashed_password : string; acc_is_admin : bool
}.

Record UserDB := mkUserDB {
  accounts : list AccountRow;
  db_faults : list (option error);
  db_uuids : list string;
  db_salts : list string
}.

(** The [User] message with the fields the score sheets leave unset. *)
Record UserMessage := mkUserMessage {
  um_Id : string; um_Name : string; um_Username : string;
  um_Password : string; um_IsAdmin : bool
}.

(** A statement is sent: the store answers with the failure it was to
    inject, if any. *)
Definition ask (db : UserDB) : option error * UserDB :=
  match db_faults db with
  | [] => (None, db)
  | f :: fs => (f, mkUserDB (accounts db) fs (db_uuids db) (db_salts db))
  end.

Section Authentication.
(** [scrypt.GenerateFromPassword] (with the salt it draws) and
    [scrypt.CompareHashAndPassword], of the library. *)
Variable GenerateFromPassword : string → string → result string.
Variable CompareHashAndPassword : string → string → option error.

(** [createInitialUser] *)
Definition createInitialUser (username password : string) (db : UserDB)
  : option error * UserDB :=
  let salt := default EmptyString (head (db_salts db)) in
  let db := mkUserDB (accounts db) (db_faults db) (db_uuids db)
              (tail (db_salts db)) in
  match GenerateFromPassword password salt with
  | Err err => (Some err, db)
  | Ok hash =>
      match ask db with
      | (Some err, db) => (Some err, db)
      | (None, db) =>
          let id := default EmptyString (head (db_uuids db)) in
          if hasId acc_id id (accounts db)
          then (Some uniqueViolation,
                mkUserDB (accounts db) (db_faults db) (tail (db_uuids db))
                  (db_salts db))
          else
            (None,
             mkUserDB
               (accounts db
                ++ [mkAccountRow id username username hash true])
               (db_faults db) (tail (db_uuids db)) (db_salts db))
      end
  end.

(** [AuthenticateUserWithCredentials]: [Ok None] is the nil user with a
    nil error. *)
Definition AuthenticateUserWithCredentials (username password : string)
    (db : UserDB) : result (option UserMessage) * UserDB :=
  match ask db with
  | (Some err, db) => (Err (wrapError "Error counting users: " err), db)
  | (None, db) =>
      let userCount := Z.of_nat (length (accounts db)) in
      match (if userCount =? 0
             then createInitialUser username password db
             else (None, db)) with
      | (Some err, db) =>
          (Err (wrapError "Error creating initial user: " err), db)
      | (None, db) =>
          match ask db with
          | (Some err, db) =>
              (Err (wrapError "Error fetching user: " err), db)
          | (None, db) =>
              match List.filter
                      (λ row, String.eqb (acc_username row) username)
                      (accounts db) with
              | [] => (Err (wrapError "Error fetching user: " ErrNoRows), db)
              | user :: _ =>
                  if String.eqb (acc_id user) ""
                  then (Err (ErrorString "Error fetching user: Not found"),
                        db)
                  else
                    match CompareHashAndPassword (acc_hashed_password user)
                            password with
                    | Some _ => (Ok None, db)
                    | None =>
                        (Ok (Some (mkUserMessage (acc_id user)
                                     (acc_name user) (acc_username user)
                                     "" (acc_is_admin user))),
                         db)
                    end
              end
          end
      end
  end.
End Authentication.

(** A toy hash for the samples: the salt and the password, side by
    side. *)
Definition sampleGenerate (password salt : string) : result string :=
  Ok (salt +:+ "$" +:+ password).

Definition sampleCompare (hash password : string) : option error :=
  match Split "$" hash with
  | [_; p] => if String.eqb p password then None
              else Some (ErrorString "scrypt: password mismatch")
  | _ => Some (ErrorString "scrypt: invalid hash")
  end.

Definition emptyUserDB : UserDB := mkUserDB [] [] ["u1"; "u2"] ["na"; "cl"].

Definition sampleUserDB : UserDB :=
  mkUserDB
    [mkAccountRow "u1" "Judge One" "judge1" "na$secret" false;
     mkAccountRow "u9" "Judge Nine" "judge1" "na$other" true]
    [] ["u2"] ["cl"].


(** ** Integrity of the tables (the foreign keys of [tables.sql]) *)

(** [teams.institution REFERENCES institutions (id)] *)
Definition teamsHaveInstitutions (T : Tables) : Prop :=
  ∀ t, t ∈ teams T → hasId i_id (t_institution t) (institutions T) = true.

(** [score_sheet_sections.score_sheet REFERENCES score_sheets (id)] *)
Definition sectionsHaveSheets (T : Tables) : Prop :=
  ∀ sec, sec ∈ score_sheet_sections T →
         hasId ss_id (sec_score_sheet sec) (score_sheets T) = true.

(** The header of a sheet as it is stored: what the mutator decides of
    it, with the round as an [int32]. *)
Definition storedHeader (sheet : ScoreSheet)
  : string * string * Z * string * string * string * list Timing :=
  (sh_ScoreSheetTemplateId sheet, sh_Comments sheet, int32 (sh_Round sheet),
   GetTeamId sheet, GetAuthorId sheet, sh_DivisionId sheet,
   sh_Timings sheet).

(** The header of a sheet as a caller reads it. *)
Definition readHeader (sheet : ScoreSheet)
  : string * string * Z * string * string * string * list Timing :=
  (sh_ScoreSheetTemplateId sheet, sh_Comments sheet, sh_Round sheet,
   GetTeamId sheet, GetAuthorId sheet, sh_DivisionId sheet,
   sh_Timings sheet).

(** A section of a sheet as a caller reads it (row id, template section,
    value), and a section row as the driver reads it. *)
Definition readSection (section : ScoreSheetSection)
  : string * string * float64 :=
  (sss_Id section, sss_SectionId section, sss_Value section).

Definition storedSection (scanFloat32 : decimal → float64)
    (row : SectionRow) : string * string * float64 :=
  (sec_id row, sec_section row, scanFloat32 (sec_value row)).

(** The sample store with the new sheet of [sampleNewSheet] in it. *)
Definition sampleCreatedRun : result string * Store :=
  createClosure exactEncode None (sampleNewSheet sampleSections)
    sampleStore.


(** The header row as [UPDATE score_sheets SET team, timings, comments]
    leaves it. *)
Definition updatedRow (id team : string) (timings : list (string * string))
    (comments : string) (r : ScoreSheetRow) : ScoreSheetRow :=
  if String.eqb (ss_id r) id
  then mkScoreSheetRow (ss_id r) (ss_division r) team (ss_template r)
         timings (ss_author r) comments (ss_round r) (ss_created_at r)
  else r.

(** The sample store after the closure of the update of sheet sA1 by
    [sampleRevision]. *)
Definition sampleRevisedRun : result unit * Store :=
  updateClosure exactFloat64 exactEncode "sA1" sampleRevision sampleStore.


(** ** The ladder of the Excel exports ([getScoreSheetExcel] and
    [getScoreSheetExcelForDivision], which share the code) *)

Record danceLadderEntryScore := mkDanceLadderEntryScore {
  dles_Round : Z; dles_Average : decimal; dles_Count : Z
}.

Record danceLadderEntry := mkDanceLadderEntry {
  dle_ID : string; dle_Name : string; dle_Institution : string;
  dle_DivisionID : string; dle_Division : string;
  dle_CompetitionRounds : Z; dle_FinalRounds : Z;
  dle_Scores : list danceLadderEntryScore;
  dle_InterviewScore : decimal; dle_BestRound : decimal;
  dle_BestFinal : decimal; dle_RoundTotal : decimal;
  dle_FinalTotal : decimal
}.

(** [team.Scores = append(team.Scores, ...)] *)
Definition addScores (team : danceLadderEntry)
    (teamScores : list danceLadderEntryScore) : danceLadderEntry :=
  mkDanceLadderEntry (dle_ID team) (dle_Name team) (dle_Institution team)
    (dle_DivisionID team) (dle_Division team) (dle_CompetitionRounds team)
    (dle_FinalRounds team) (dle_Scores team ++ teamScores)
    (dle_InterviewScore team) (dle_BestRound team) (dle_BestFinal team)
    (dle_RoundTotal team) (dle_FinalTotal team).

(** The score of a team made of a row of the score query: its average
    is rounded to two places. *)
Definition teamScoreOf (score : scoreCalc) : danceLadderEntryScore :=
  mkDanceLadderEntryScore (sc_Round score) (Round (sc_Average score) 2)
    (sc_Count score).

(** The first loop: every team with the id of the score gets the
    score. *)
Definition appendScore (ladderList : list danceLadderEntry)
    (score : scoreCalc) : list danceLadderEntry :=
  map (λ team,
         if negb (String.eqb (dle_ID team) (sc_Team score)) then team
         else addScores team [teamScoreOf score])
    ladderList.

(** The loop over the scores of a team, on the three accumulators. *)
Definition excelStep (competitionRounds : Z)
    (acc : decimal * decimal * decimal) (score : danceLadderEntryScore)
  : decimal * decimal * decimal :=
  let '(interviewScore, bestRound, bestFinal) := acc in
  if dles_Round score =? 0 then
    (Add interviewScore (dles_Average score), bestRound, bestFinal)
  else if dles_Round score <=? competitionRounds then
    if GreaterThan (dles_Average score) bestRound
    then (interviewScore, dles_Average score, bestFinal)
    else acc
  else if dles_Round score >? competitionRounds then
    if GreaterThan (dles_Average score) bestFinal
    then (interviewScore, bestRound, dles_Average score)
    else acc
  else acc.

(** The second loop: the totals of a team. *)
Definition scoreTeam (team : danceLadderEntry) : danceLadderEntry :=
  let '(interviewScore, bestRound, bestFinal) :=
    fold_left (excelStep (dle_CompetitionRounds team)) (dle_Scores team)
      (dzero, dzero, dzero) in
  mkDanceLadderEntry (dle_ID team) (dle_Name team) (dle_Institution team)
    (dle_DivisionID team) (dle_Division team) (dle_CompetitionRounds team)
    (dle_FinalRounds team) (dle_Scores team) interviewScore bestRound
    bestFinal (Add interviewScore bestRound)
    (if GreaterThan bestFinal dzero then Add interviewScore bestFinal
     else dzero).

(** The entries of the export's ladder before they are sorted, from the
    rows of the team query and of the score query. *)
Definition excelEntries (ladderList : list danceLadderEntry)
    (scores : list scoreCalc) : list danceLadderEntry :=
  map scoreTeam (fold_left appendScore scores ladderList).

(** The entry of the export and the entry of [FetchDanceLadders] report
    the same five numbers, the latter as [float64]. *)
Definition sameTotals (Float64 : decimal → float64)
    (x : danceLadderEntry) (e : LadderEntry) : Prop :=
  InterviewScore e = Float64 (dle_InterviewScore x)
  ∧ BestRound e = Float64 (dle_BestRound x)
  ∧ BestFinal e = Float64 (dle_BestFinal x)
  ∧ RoundTotal e = Float64 (dle_RoundTotal x)
  ∧ FinalTotal e = Float64 (dle_FinalTotal x).

(** A team row as the export scans it: the scores and the totals are
    Go's zero values. *)
Definition excelRowOf (team : ladderTeam) : danceLadderEntry :=
  mkDanceLadderEntry (lt_ID team) (lt_Name team) (lt_Institution team)
    (lt_DivisionID team) (lt_Division team) (lt_CompetitionRounds team)
    (lt_FinalRounds team) [] dzero dzero dzero dzero dzero.

Definition sampleExcelRows : list danceLadderEntry :=
  map excelRowOf (teamsQuery sampleTables).

Definition sampleLadderTeam : ladderTeam :=
  default (mkLadderTeam "" "" "" "" "" "" 0 0)
    (head (teamsQuery sampleTables)).


(** ** [UpdateTeam]: the statements sent after the mutator

    The closure of [UpdateTeam] reads the team with [FetchTeam], keeps
    the members it read as [originalMembers], runs the mutator, and then
    writes the team: it inserts the institution when the team names one
    without an id, updates the team row, updates the members that have
    an id, inserts those that have none in one statement, and deletes
    the original members that the team no longer lists.  The store is
    the tables these statements touch or refer to, the failures it is
    to inject and the values of [gen_random_uuid()].  Identifiers are
    the texts of UUIDs. *)

Record TeamMemberRow := mkTeamMemberRow {
  mr_id : string; mr_name : string; mr_gender : string; mr_team : string
}.

Record TeamsDB := mkTeamsDB {
  tdb_divisions : list DivisionRow;
  tdb_institutions : list InstitutionRow;
  tdb_teams : list TeamRow;
  tdb_members : list TeamMemberRow;
  tdb_faults : list (option error);
  tdb_uuids : list string
}.

Definition TM (A : Type) : Type := TeamsDB → result A * TeamsDB.

Definition retT {A} (a : A) : TM A := λ db, (Ok a, db).

Definition bindT {A B} (m : TM A) (k : A → TM B) : TM B :=
  λ db,
    match m db with
    | (Ok a, db1) => k a db1
    | (Err e, db1) => (Err e, db1)
    end.

Notation "'let+' x := m 'in' k" := (bindT m (λ x, k))
  (at level 10, x pattern, m at level 100, k at level 200,
   only parsing).

(** A statement is sent: the store answers with the failure it was to
    inject, if any. *)
Definition answer (db : TeamsDB) : option error * TeamsDB :=
  match tdb_faults db with
  | [] => (None, db)
  | f :: fs =>
      (f, mkTeamsDB (tdb_divisions db) (tdb_institutions db)
            (tdb_teams db) (tdb_members db) fs (tdb_uuids db))
  end.

(** [gen_random_uuid()] *)
Definition freshUuid (db : TeamsDB) : string * TeamsDB :=
  match tdb_uuids db with
  | [] => (EmptyString, db)
  | u :: us =>
      (u, mkTeamsDB (tdb_divisions db) (tdb_institutions db)
            (tdb_teams db) (tdb_members db) (tdb_faults db) us)
  end.

Definition setInstitutions (rows : list InstitutionRow) (db : TeamsDB)
  : TeamsDB :=
  mkTeamsDB (tdb_divisions db) rows (tdb_teams db) (tdb_members db)
    (tdb_faults db) (tdb_uuids db).

Definition setTeams (rows : list TeamRow) (db : TeamsDB) : TeamsDB :=
  mkTeamsDB (tdb_divisions db) (tdb_institutions db) rows (tdb_members db)
    (tdb_faults db) (tdb_uuids db).

Definition setMembers (rows : list TeamMemberRow) (db : TeamsDB)
  : TeamsDB :=
  mkTeamsDB (tdb_divisions db) (tdb_institutions db) (tdb_teams db) rows
    (tdb_faults db) (tdb_uuids db).

(** The text stored for a gender. *)
Definition genderText (gender : Gender) : string :=
  match gender with
  | MALE => "Male"
  | FEMALE => "Female"
  | UNSPECIFIED => "Not Specified"
  end.

(** [INSERT INTO institutions (name) VALUES (...) RETURNING "id"] *)
Definition execInsertInstitution (name : string) : TM string :=
  λ db,
    match answer db with
    | (Some e, db1) => (Err e, db1)
    | (None, db1) =>
        let '(id, db2) := freshUuid db1 in
        if hasId i_id id (tdb_institutions db2)
        then (Err uniqueViolation, db2)
        else (Ok id,
              setInstitutions
                (tdb_institutions db2 ++ [mkInstitutionRow id name]) db2)
    end.

(** [UPDATE teams SET division, institution, name WHERE id = ...] *)
Definition execUpdateTeam (teamID name institution division : string)
  : TM unit :=
  λ db,
    match answer db with
    | (Some e, db1) => (Err e, db1)
    | (None, db1) =>
        if hasId t_id teamID (tdb_teams db1)
           && negb (hasId i_id institution (tdb_institutions db1)
                    && hasId d_id division (tdb_divisions db1))
        then (Err foreignKeyViolation, db1)
        else
          (Ok (),
           setTeams
             (map (λ r,
                     if String.eqb (t_id r) teamID
                     then mkTeamRow (t_id r) name institution division
                     else r)
                (tdb_teams db1)) db1)
    end.

(** The member row after [UPDATE team_members SET gender, name]. *)
Definition memberRowSet (member : Member) (r : TeamMemberRow)
  : TeamMemberRow :=
  mkTeamMemberRow (mr_id r) (mem_Name member)
    (genderText (mem_Gender member)) (mr_team r).

(** [UPDATE team_members SET gender, name WHERE id = ...] *)
Definition execUpdateMember (member : Member) : TM unit :=
  λ db,
    match answer db with
    | (Some e, db1) => (Err e, db1)
    | (None, db1) =>
        (Ok (),
         setMembers
           (map (λ r,
                   if String.eqb (mr_id r) (mem_Id member)
                   then memberRowSet member r else r)
              (tdb_members db1)) db1)
    end.

(** The rows of the bulk [INSERT INTO team_members (name, gender,
    team)]; the gender is sent as its text. *)
Fixpoint memberRows (teamRows : list TeamRow)
    (existing : list TeamMemberRow)
    (rows : list (string * Gender * string)) (db : TeamsDB)
  : result (list TeamMemberRow) * TeamsDB :=
  match rows with
  | [] => (Ok [], db)
  | (name, gender, team) :: rest =>
      let '(id, db1) := freshUuid db in
      if hasId mr_id id existing then (Err uniqueViolation, db1)
      else if hasId t_id team teamRows
      then
        let row := mkTeamMemberRow id name (genderText gender) team in
        match memberRows teamRows (existing ++ [row]) rest db1 with
        | (Ok rs, db2) => (Ok (row :: rs), db2)
        | (Err e, db2) => (Err e, db2)
        end
      else (Err foreignKeyViolation, db1)
  end.

Definition execInsertMembers (rows : list (string * Gender * string))
  : TM unit :=
  λ db,
    match answer db with
    | (Some e, db1) => (Err e, db1)
    | (None, db1) =>
        match memberRows (tdb_teams db1) (tdb_members db1) rows db1 with
        | (Ok rs, db2) => (Ok (), setMembers (tdb_members db1 ++ rs) db2)
        | (Err e, db2) => (Err e, db2)
        end
    end.

(** [DELETE FROM team_members WHERE id = ...] *)
Definition execDeleteMember (id : string) : TM unit :=
  λ db,
    match answer db with
    | (Some e, db1) => (Err e, db1)
    | (None, db1) =>
        (Ok (),
         setMembers
           (List.filter (λ r, negb (String.eqb (mr_id r) id))
              (tdb_members db1)) db1)
    end.

(** The loop over [team.Members]: a member without id joins the values
    of the bulk insert, a member with an id is updated at once. *)
Fixpoint updateMembers (teamId : string) (members : list Member)
    (memberInserts : list (string * Gender * string))
  : TM (list (string * Gender * string)) :=
  match members with
  | [] => retT memberInserts
  | member :: rest =>
      if String.eqb (mem_Id member) ""
      then updateMembers teamId rest
             (memberInserts
              ++ [(mem_Name member, mem_Gender member, teamId)])
      else
        let+ _ := execUpdateMember member in
        updateMembers teamId rest memberInserts
  end.

(** The inner loop of the last loop: is the original member among the
    new members, under an id that is not empty? *)
Definition found (existingMember : Member) (members : list Member)
  : bool :=
  existsb
    (λ newMember,
       negb (String.eqb (mem_Id newMember) "")
       && String.eqb (mem_Id newMember) (mem_Id existingMember))
    members.

(** The last loop: the original members that are not found are
    deleted. *)
Fixpoint deleteMembers (originalMembers members : list Member)
  : TM unit :=
  match originalMembers with
  | [] => retT ()
  | existingMember :: rest =>
      if found existingMember members
      then deleteMembers rest members
      else
        let+ _ := execDeleteMember (mem_Id existingMember) in
        deleteMembers rest members
  end.

(** The institution of the team row: a team that names an institution
    without an id gets a new one. *)
Definition chooseInstitution (team : TeamMessage) : TM string :=
  if String.eqb (inst_Id (tm_Institution team)) ""
  then execInsertInstitution (inst_Name (tm_Institution team))
  else retT (inst_Id (tm_Institution team)).

(** The bulk insert is sent when the first loop counted a member
    without id. *)
Definition insertMembers
    (memberInserts : list (string * Gender * string)) : TM unit :=
  match memberInserts with
  | [] => retT ()
  | _ => execInsertMembers memberInserts
  end.

(** The closure of [UpdateTeam] from the return of the mutator on:
    [team] is the team as the mutator left it, [originalMembers] the
    members read before. *)
Definition writeTeam (teamID : string) (team : TeamMessage)
    (originalMembers : list Member) : TM unit :=
  let+ institutionID := chooseInstitution team in
  let+ _ :=
    execUpdateTeam teamID (tm_Name team) institutionID (tm_Division team) in
  let+ memberInserts := updateMembers (tm_Id team) (tm_Members team) [] in
  let+ _ := insertMembers memberInserts in
  deleteMembers originalMembers (tm_Members team).

(** The member rows of a team. *)
Definition teamMembers (team : string) (rows : list TeamMemberRow)
  : list TeamMemberRow :=
  List.filter (λ r, String.eqb (mr_team r) team) rows.

(** The member rows of the other teams. *)
Definition otherMembers (team : string) (rows : list TeamMemberRow)
  : list TeamMemberRow :=
  List.filter (λ r, negb (String.eqb (mr_team r) team)) rows.

(** The members that come with an id, and those that come without. *)
Definition withId (members : list Member) : list Member :=
  List.filter (λ member, negb (String.eqb (mem_Id member) "")) members.
Definition withoutId (members : list Member) : list Member :=
  List.filter (λ member, String.eqb (mem_Id member) "") members.

(** The row that a member asks for, under an id. *)
Definition memberRowOf (team id : string) (member : Member)
  : TeamMemberRow :=
  mkTeamMemberRow id (mem_Name member) (genderText (mem_Gender member))
    team.

(** A member row after all the updates of the first loop. *)
Definition afterUpdates (members : list Member) (r : TeamMemberRow)
  : TeamMemberRow :=
  fold_left
    (λ r member,
       if negb (String.eqb (mem_Id member) "")
          && String.eqb (mr_id r) (mem_Id member)
       then memberRowSet member r else r)
    members r.

(** Is the row deleted by the last loop? *)
Definition deleted (originalMembers members : list Member)
    (r : TeamMemberRow) : bool :=
  existsb
    (λ existingMember,
       negb (found existingMember members)
       && String.eqb (mr_id r) (mem_Id existingMember))
    originalMembers.

Definition sampleTeamsDB : TeamsDB :=
  mkTeamsDB [mkDivisionRow "d1" "Novice" "On Stage" 2 1]
    [mkInstitutionRow "i1" "School"]
    [mkTeamRow "tA" "Team A" "i1" "d1"; mkTeamRow "tB" "Team B" "i1" "d1"]
    [mkTeamMemberRow "m1" "Ann" "Female" "tA";
     mkTeamMemberRow "m2" "Bob" "Male" "tB";
     mkTeamMemberRow "m3" "Cy" "Not Specified" "tA"]
    [] ["u1"; "u2"; "u3"].

(** Team A as a mutator leaves it: a new institution, Ann renamed, Cy
    gone, and a new member. *)
Definition sampleTeamUpdate : TeamMessage :=
  mkTeamMessage "tA" "Team A+" (mkInstitution "" "College") "" "d1"
    [mkMember "" "Dee" MALE; mkMember "m1" "Anna" FEMALE].

Definition sampleOriginalMembers : list Member :=
  [mkMember "m1" "Ann" FEMALE; mkMember "m3" "Cy" UNSPECIFIED].


(** ** [FetchUser], [CreateUser] and [UpdateUser]

    The closures that [CreateUser] and [UpdateUser] hand to the
    transaction executor, over the store of the log-in.  A mutator
    changes the message it is given and may return an error. *)

Definition UserHandler : Type := UserMessage → option error * UserMessage.

(** The message [FetchUser] makes of a row: the password is not
    read. *)
Definition userMessageOf (row : AccountRow) : UserMessage :=
  mkUserMessage (acc_id row) (acc_name row) (acc_username row) ""
    (acc_is_admin row).

(** [FetchUser] *)
Definition FetchUser (id : string) (db : UserDB)
  : result UserMessage * UserDB :=
  match ask db with
  | (Some err, db) => (Err (wrapError "Error fetching user: " err), db)
  | (None, db) =>
      match List.filter (λ row, String.eqb (acc_id row) id) (accounts db)
      with
      | [] => (Err (wrapError "Error fetching user: " ErrNoRows), db)
      | user :: _ =>
          if String.eqb (acc_id user) ""
          then (Err (ErrorString "Error fetching user: Not found"), db)
          else (Ok (userMessageOf user), db)
      end
  end.

Section Users.
Variable GenerateFromPassword : string → string → result string.

(** [scrypt.GenerateFromPassword([]byte(password), ...)], with the salt
    it draws. *)
Definition hashPassword (password : string) (db : UserDB)
  : result string * UserDB :=
  let salt := default EmptyString (head (db_salts db)) in
  (GenerateFromPassword password salt,
   mkUserDB (accounts db) (db_faults db) (db_uuids db)
     (tail (db_salts db))).

(** The closure of [CreateUser]; its result is the id that the closure
    leaves in [userID]. *)
Definition createUserClosure (handler : UserHandler) (db : UserDB)
  : result string * UserDB :=
  match handler (mkUserMessage "" "" "" "" false) with
  | (Some handlerError, _) => (Err handlerError, db)
  | (None, user) =>
      match hashPassword (um_Password user) db with
      | (Err err, db) => (Err err, db)
      | (Ok hash, db) =>
          match ask db with
          | (Some err, db) => (Err err, db)
          | (None, db) =>
              let id := default EmptyString (head (db_uuids db)) in
              if hasId acc_id id (accounts db)
              then (Err uniqueViolation,
                    mkUserDB (accounts db) (db_faults db)
                      (tail (db_uuids db)) (db_salts db))
              else
                (Ok id,
                 mkUserDB
                   (accounts db
                    ++ [mkAccountRow id (um_Name user) (um_Username user)
                          hash (um_IsAdmin user)])
                   (db_faults db) (tail (db_uuids db)) (db_salts db))
          end
      end
  end.

(** The row after [UPDATE users SET ...]: the hash is set only when the
    update map has it. *)
Definition updatedAccount (user : UserMessage) (hash : option string)
    (row : AccountRow) : AccountRow :=
  mkAccountRow (acc_id row) (um_Name user) (um_Username user)
    (default (acc_hashed_password row) hash) (um_IsAdmin user).

(** The closure of [UpdateUser]. *)
Definition updateUserClosure (userID : string) (handler : UserHandler)
    (db : UserDB) : option error * UserDB :=
  match FetchUser userID db with
  | (Err err, db) => (Some err, db)
  | (Ok user, db) =>
      match handler user with
      | (Some handlerError, _) => (Some handlerError, db)
      | (None, user) =>
          match (if (0 <? String.length (um_Password user))%nat
                 then match hashPassword (um_Password user) db with
                      | (Err err, db) => (Err err, db)
                      | (Ok hash, db) => (Ok (Some hash), db)
                      end
                 else (Ok None, db)) with
          | (Err err, db) => (Some err, db)
          | (Ok hash, db) =>
              match ask db with
              | (Some err, db) => (Some err, db)
              | (None, db) =>
                  (None,
                   mkUserDB
                     (map (λ row,
                             if String.eqb (acc_id row) userID
                             then updatedAccount user hash row else row)
                        (accounts db))
                     (db_faults db) (db_uuids db) (db_salts db))
              end
          end
      end
  end.
End Users.

(** Mutators of the samples: a new judge, and a new password. *)
Definition sampleNewUser : UserHandler :=
  λ user,
    (None, mkUserMessage (um_Id user) "Judge Two" "judge2" "hunter2" false).

Definition samplePasswordChange : UserHandler :=
  λ user,
    (None,
     mkUserMessage (um_Id user) (um_Name user) "judge9" "letmein"
       (um_IsAdmin user)).

Definition sampleRename : UserHandler :=
  λ user,
    (None,
     mkUserMessage (um_Id user) "Judge 1" (um_Username user)
       (um_Password user) (um_IsAdmin user)).


(** ** The ladder sheet of the Excel export *)

(** [d.LessThan(e)] *)
Definition LessThan (d e : decimal) : bool :=
  match (d ?= e)%Qc with Lt => true | _ => false end.

(** The comparison handed to [sort.SliceStable] in
    [getScoreSheetExcel]. *)
Definition excelLess (a b : danceLadderEntry) : bool :=
  if LessThan (dle_FinalTotal a) (dle_FinalTotal b) then true
  else if GreaterThan (dle_FinalTotal a) (dle_FinalTotal b) then false
  else if LessThan (dle_RoundTotal a) (dle_RoundTotal b) then true
  else if GreaterThan (dle_RoundTotal a) (dle_RoundTotal b) then false
  else string_lt (dle_Name a) (dle_Name b).

(** [reversedLadder]: the sorted entries, last first. *)
Definition reversedLadder (ladderList : list danceLadderEntry)
    (scores : list scoreCalc) : list danceLadderEntry :=
  rev (SliceStable excelLess (excelEntries ladderList scores)).

(** An entry of the export and an entry of [FetchDanceLadders] are of
    the same team and report the same numbers. *)
Definition sameEntry (Float64 : decimal → float64) (x : danceLadderEntry)
    (e : LadderEntry) : Prop :=
  dle_ID x = team_Id (Team_ e) ∧ dle_Name x = team_Name (Team_ e)
  ∧ sameTotals Float64 x e.

(** The totals by which the export sorts. *)
Definition sortTotals (entries : list danceLadderEntry) : list decimal :=
  map dle_FinalTotal entries ++ map dle_RoundTotal entries.

(** The conversion to [float64] keeps these decimals apart and in
    order. *)
Definition orderKept (Float64 : decimal → float64) (ds : list decimal)
  : Prop :=
  ∀ d e, d ∈ ds → e ∈ ds → (d < e)%Qc → (Float64 d < Float64 e)%Qc.


(** ** [FetchScoreSheetSummary] *)

Record FetchScoreSheetSummaryOptions := mkFetchScoreSheetSummaryOptions {
  TeamID : option string;
  AuthorID : option string;
  PopulateTeam : bool
}.

(** Rows of the query. *)
Record scoreSheetListEntry := mkScoreSheetListEntry {
  sle_ID : string; sle_Division : string; sle_DivisionID : string;
  sle_Template : string; sle_Type : string; sle_Round : Z;
  sle_Total : decimal; sle_Author : string; sle_AuthorID : string;
  sle_TeamID : string; sle_TeamName : string; sle_InstitutionID : string;
  sle_InstitutionName : string
}.

(** The [ScoreSheet] message with the fields that the summary sets. *)
Record SheetSummary := mkSheetSummary {
  sum_Id : string;
  sum_Round : Z;
  sum_DivisionId : string;
  sum_Total : float64;
  sum_Author : User;
  sum_Team : Team;
  sum_Type : TemplateType
}.

(** The [WHERE] clauses that the options add to the inner query; nil
    options add none. *)
Definition summaryKeeps (opts : option FetchScoreSheetSummaryOptions)
    (ss : ScoreSheetRow) : bool :=
  match opts with
  | None => true
  | Some opts =>
      match TeamID opts with
      | Some team => String.eqb (ss_team ss) team
      | None => true
      end
      && match AuthorID opts with
         | Some author => String.eqb (ss_author ss) author
         | None => true
         end
  end.

(** The inner query: [SUM(value * multiplier)] per score sheet, over
    the sheets that the options keep. *)
Definition summaryTotalsQuery (opts : option FetchScoreSheetSummaryOptions)
    (T : Tables) : list (string * decimal) :=
  map (λ g, (g.1, dsum g.2))
    (groupBy
       (ss ← score_sheets T; sec ← score_sheet_sections T;
        ts ← score_sheet_template_sections T;
        if String.eqb (sec_score_sheet sec) (ss_id ss)
           && String.eqb (sec_section sec) (ts_id ts)
           && summaryKeeps opts ss
        then [(ss_id ss, (sec_value sec * Qc_of_Z (ts_multiplier ts))%Qc)]
        else [])).

(** The rows that the chain of joins gives for one total, before they
    are ordered: each [JOIN ... ON ...] keeps the rows that meet its
    condition. *)
Definition summaryJoin (T : Tables) (t1 : string * decimal)
  : list scoreSheetListEntry :=
  ss ← score_sheets T;
  if String.eqb (ss_id ss) t1.1 then
    tpl ← score_sheet_templates T;
    if String.eqb (ss_template ss) (tpl_id tpl) then
      d ← divisions T;
      if String.eqb (ss_division ss) (d_id d) then
        u ← users T;
        if String.eqb (u_id u) (ss_author ss) then
          t ← teams T;
          if String.eqb (t_id t) (ss_team ss) then
            i ← institutions T;
            if String.eqb (t_institution t) (i_id i) then
              [mkScoreSheetListEntry (ss_id ss) (d_name d) (d_id d)
                 (tpl_name tpl) (tpl_type tpl) (ss_round ss) t1.2
                 (u_name u) (u_id u) (t_id t) (t_name t) (i_id i)
                 (i_name i)]
            else []
          else []
        else []
      else []
    else []
  else [].

(** [SELECT ... FROM (inner) AS t1 JOIN score_sheets ... JOIN
    institutions ... ORDER BY round ASC]; among rows of one round the
    order is the store's, here that of the join. *)
Definition summaryQuery (opts : option FetchScoreSheetSummaryOptions)
    (T : Tables) : list scoreSheetListEntry :=
  SliceStable (λ a b, sle_Round a <? sle_Round b)
    (summaryTotalsQuery opts T ≫= summaryJoin T).

Section Summary.
Variable Float64 : decimal → float64.

(** The message made of a row. *)
Definition summaryOf (entry : scoreSheetListEntry) : SheetSummary :=
  mkSheetSummary (sle_ID entry) (int32 (sle_Round entry))
    (sle_DivisionID entry) (Float64 (sle_Total entry))
    (mkUser (sle_AuthorID entry) (sle_Author entry) "")
    (mkTeam (sle_TeamID entry) (sle_TeamName entry)
       (mkInstitution (sle_InstitutionID entry)
          (sle_InstitutionName entry)) "")
    (if String.eqb (sle_Type entry) "Interview" then INTERVIEW
     else PERFORMANCE).

(** [FetchScoreSheetSummary], from the answer of the store to its
    query. *)
Definition FetchScoreSheetSummary
    (answer : result (list scoreSheetListEntry))
  : result (list SheetSummary) :=
  match answer with
  | Err err => Err err
  | Ok list => Ok (map summaryOf list)
  end.
End Summary.

(** The score sheets that the summary is to list: those the options
    keep that have a section. *)
Definition summarised (opts : option FetchScoreSheetSummaryOptions)
    (T : Tables) : list ScoreSheetRow :=
  List.filter
    (λ ss, summaryKeeps opts ss && nonEmpty (sectionTerms T (ss_id ss)))
    (score_sheets T).

(** A sheet of the summary reports the score sheet row [ss]. *)
Definition summarises (Float64 : decimal → float64) (T : Tables)
    (sheet : SheetSummary) (ss : ScoreSheetRow) : Prop :=
  sum_Id sheet = ss_id ss
  ∧ sum_Round sheet = int32 (ss_round ss)
  ∧ sum_DivisionId sheet = ss_division ss
  ∧ sum_Total sheet = Float64 (sheetTotal T (ss_id ss))
  ∧ user_Id (sum_Author sheet) = ss_author ss
  ∧ team_Id (sum_Team sheet) = ss_team ss.

(** The keys of the tables are distinct, and every score sheet has its
    template, division, author and team, and every team its
    institution. *)
Definition summaryIntegrity (T : Tables) : Prop :=
  NoDup (map ss_id (score_sheets T))
  ∧ NoDup (map tpl_id (score_sheet_templates T))
  ∧ NoDup (map d_id (divisions T))
  ∧ NoDup (map u_id (users T))
  ∧ NoDup (map t_id (teams T))
  ∧ NoDup (map i_id (institutions T))
  ∧ Forall (λ ss,
              hasId tpl_id (ss_template ss) (score_sheet_templates T)
              && hasId d_id (ss_division ss) (divisions T)
              && hasId u_id (ss_author ss) (users T)
              && hasId t_id (ss_team ss) (teams T) = true)
      (score_sheets T)
  ∧ Forall (λ t, hasId i_id (t_institution t) (institutions T) = true)
      (teams T).

Definition sampleSummaryOptions : option FetchScoreSheetSummaryOptions :=
  Some (mkFetchScoreSheetSummaryOptions (Some "tA") None false).


(** ** Check-ins: [FetchCheckins], [FetchCheckin] and [CreateCheckin] *)

(** A [time.Time] read from a [TIMESTAMP] column: the Unix time in
    seconds and the nanoseconds within the second, in UTC. *)
Record Time := mkTime { unix : Z; nsec : Z }.

(** [t.Second()]: the second within the minute. *)
Definition Second (t : Time) : Z := unix t mod 60.

(** [t.Nanosecond()] *)
Definition Nanosecond (t : Time) : Z := nsec t.

Record CheckinRow := mkCheckinRow {
  ck_id : string; ck_team : string; ck_agent : string;
  ck_comments : string; ck_in_time : Time
}.

(** The tables that the check-ins touch or refer to, the failures the
    store is to inject, the values of [gen_random_uuid()] and of
    [current_timestamp()]. *)
Record CheckinDB := mkCheckinDB {
  cdb_teams : list TeamRow;
  cdb_users : list UserRow;
  cdb_checkins : list CheckinRow;
  cdb_faults : list (option error);
  cdb_uuids : list string;
  cdb_now : Time
}.

(** [tspb.Timestamp] *)
Record Timestamp := mkTimestamp { Seconds : Z; Nanos : Z }.

(** The [Checkin] message; unset fields of the team and of the agent
    are Go's zero values. *)
Record Checkin := mkCheckin {
  ci_Id : string;
  ci_Team : option Team;
  ci_Agent : option User;
  ci_Comments : string;
  ci_InTime : option Timestamp
}.

Definition CheckinHandler : Type := Checkin → option error * Checkin.

(** [checkin.GetTeam().GetId()] and [checkin.GetAgent().GetId()] *)
Definition checkinTeamId (checkin : Checkin) : string :=
  match ci_Team checkin with Some t => team_Id t | None => "" end.
Definition checkinAgentId (checkin : Checkin) : string :=
  match ci_Agent checkin with Some u => user_Id u | None => "" end.

(** A statement is sent: the store answers with the failure it was to
    inject, if any. *)
Definition reply (db : CheckinDB) : option error * CheckinDB :=
  match cdb_faults db with
  | [] => (None, db)
  | f :: fs =>
      (f, mkCheckinDB (cdb_teams db) (cdb_users db) (cdb_checkins db) fs
            (cdb_uuids db) (cdb_now db))
  end.

(** The message made of a row. *)
Definition checkinOf (entry : CheckinRow) : Checkin :=
  mkCheckin (ck_id entry)
    (Some (mkTeam (ck_team entry) "" (mkInstitution "" "") ""))
    (Some (mkUser (ck_agent entry) "" ""))
    (ck_comments entry)
    (Some (mkTimestamp (int64 (Second (ck_in_time entry)))
             (int32 (Nanosecond (ck_in_time entry))))).

(** [FetchCheckins] *)
Definition FetchCheckins (db : CheckinDB)
  : result (list Checkin) * CheckinDB :=
  match reply db with
  | (Some err, db) => (Err err, db)
  | (None, db) => (Ok (map checkinOf (cdb_checkins db)), db)
  end.

(** [FetchCheckin] *)
Definition FetchCheckin (id : string) (db : CheckinDB)
  : result Checkin * CheckinDB :=
  match reply db with
  | (Some err, db) => (Err err, db)
  | (None, db) =>
      match List.filter (λ row, String.eqb (ck_id row) id)
              (cdb_checkins db) with
      | [] => (Err ErrNoRows, db)
      | entry :: _ => (Ok (checkinOf entry), db)
      end
  end.

(** [CreateCheckin] *)
Definition CreateCheckin (handler : CheckinHandler) (db : CheckinDB)
  : result Checkin * CheckinDB :=
  match handler (mkCheckin "" None None "" None) with
  | (Some handlerErr, _) => (Err handlerErr, db)
  | (None, checkin) =>
      match reply db with
      | (Some err, db) => (Err err, db)
      | (None, db) =>
          let checkinID := default EmptyString (head (cdb_uuids db)) in
          let db :=
            mkCheckinDB (cdb_teams db) (cdb_users db) (cdb_checkins db)
              (cdb_faults db) (tail (cdb_uuids db)) (cdb_now db) in
          if hasId ck_id checkinID (cdb_checkins db)
          then (Err uniqueViolation, db)
          else if hasId t_id (checkinTeamId checkin) (cdb_teams db)
                  && hasId u_id (checkinAgentId checkin) (cdb_users db)
          then
            FetchCheckin checkinID
              (mkCheckinDB (cdb_teams db) (cdb_users db)
                 (cdb_checkins db
                  ++ [mkCheckinRow checkinID (checkinTeamId checkin)
                        (checkinAgentId checkin) (ci_Comments checkin)
                        (cdb_now db)])
                 (cdb_faults db) (cdb_uuids db) (cdb_now db))
          else (Err foreignKeyViolation, db)
      end
  end.

Definition sampleCheckinDB : CheckinDB :=
  mkCheckinDB [mkTeamRow "tA" "Team A" "i1" "d1"]
    [mkUserRow "u1" "Judge One" "judge1"]
    [mkCheckinRow "c1" "tA" "u1" "early" (mkTime 1538200000 0)] []
    ["c2"] (mkTime 1538211845 250000000).

Definition sampleCheckinHandler : CheckinHandler :=
  λ checkin,
    (None,
     mkCheckin (ci_Id checkin)
       (Some (mkTeam "tA" "" (mkInstitution "" "") ""))
       (Some (mkUser "u1" "" "")) "all present" (ci_InTime checkin)).


(** ** The sections of an updated sheet *)

(** A section row after the updates that [UpdateScoreSheet] sends for
    the sections of the mutated sheet: each update that names the row
    sets its value. *)
Definition sectionAfter (encodeValue : float64 → option decimal)
    (sections : list ScoreSheetSection) (r : SectionRow) : SectionRow :=
  fold_left
    (λ r section,
       if String.eqb (sec_id r) (sss_Id section)
       then match encodeValue (sss_Value section) with
            | Some v =>
                mkSectionRow (sec_id r) (sec_section r) v
                  (sec_score_sheet r)
            | None => r
            end
       else r)
    sections r.

(** The value read from the row of id [id] after these updates, if
    [value] was read before. *)
Definition readAfter (scanFloat32 : decimal → float64)
    (encodeValue : float64 → option decimal)
    (sections : list ScoreSheetSection) (id : string) (value : float64)
  : float64 :=
  fold_left
    (λ value section,
       if String.eqb id (sss_Id section)
       then match encodeValue (sss_Value section) with
            | Some v => scanFloat32 v
            | None => value
            end
       else value)
    sections value.

(** A section with another value. *)
Definition withValue (section : ScoreSheetSection) (value : float64)
  : ScoreSheetSection :=
  mkScoreSheetSection (sss_Id section) (sss_Title section)
    (sss_Description section) (sss_MaxValue section)
    (sss_Multiplier section) (sss_SectionId section) value.

(** A row of the query of the sections, with the value read after the
    updates. *)
Definition rereadSection (scanFloat32 : decimal → float64)
    (encodeValue : float64 → option decimal)
    (sections : list ScoreSheetSection) (section : dbScoreSheetSection)
  : dbScoreSheetSection :=
  mkDbScoreSheetSection (dbsec_ID section) (dbsec_Title section)
    (dbsec_Description section) (dbsec_MaxValue section)
    (dbsec_Multiplier section) (dbsec_SectionID section)
    (readAfter scanFloat32 encodeValue sections (dbsec_ID section)
       (dbsec_Value section)).

(** * Properties *)

(** ** Order facts on the number and string types *)

Lemma flt_spec (a b : float64) : flt a b = true ↔ (a < b)%Qc.
Proof.
  unfold flt. rewrite Qclt_alt. destruct (a ?= b)%Qc; split; congruence.
Qed.

Lemma fgt_spec (a b : float64) : fgt a b = true ↔ (b < a)%Qc.
Proof.
  unfold fgt, Qclt. rewrite (Qcgt_alt a b).
  destruct (a ?= b)%Qc; split; congruence.
Qed.

Lemma GreaterThan_spec (d e : decimal) : GreaterThan d e = true ↔ (e < d)%Qc.
Proof. apply fgt_spec. Qed.

Lemma string_lt_spec (a b : string) :
  string_lt a b = true ↔ String_as_OT.lt a b.
Proof.
  unfold string_lt, String_as_OT.lt.
  destruct (String_as_OT.compare a b); split; congruence.
Qed.

Lemma string_lt_irrefl (a : string) : ¬ String_as_OT.lt a a.
Proof. apply (StrictOrder_Irreflexive (R := String_as_OT.lt)). Qed.

Lemma string_lt_trans (a b c : string) :
  String_as_OT.lt a b → String_as_OT.lt b c → String_as_OT.lt a c.
Proof. apply (StrictOrder_Transitive (R := String_as_OT.lt)). Qed.

Lemma string_lt_total (a b : string) :
  String_as_OT.lt a b ∨ a = b ∨ String_as_OT.lt b a.
Proof.
  destruct (String_as_OT.compare_spec a b); auto.
Qed.

Lemma Qc_total (a b : Qc) : (a < b)%Qc ∨ a = b ∨ (b < a)%Qc.
Proof. destruct (Qc_dec a b) as [[H | H] | H]; auto. Qed.

(** ** [sort.SliceStable]: permutation, order, stability *)

Section SliceStableFacts.
Context {A : Type} (less : A → A → bool).

Lemma sink_Permutation (x : A) (r : list A) : sink less x r ≡ₚ x :: r.
Proof.
  induction r as [|y r IH]; simpl; [done|].
  destruct (less x y); [|done].
  rewrite IH. apply Permutation_swap.
Qed.

Lemma fold_sink_Permutation (l acc : list A) :
  fold_left (λ r x, sink less x r) l acc ≡ₚ l ++ acc.
Proof.
  revert acc. induction l as [|x l IH]; intros acc; simpl; [done|].
  rewrite IH, sink_Permutation. symmetry. apply Permutation_middle.
Qed.

Lemma SliceStable_Permutation (l : list A) : SliceStable less l ≡ₚ l.
Proof.
  unfold SliceStable, insertionSort.
  rewrite <- Permutation_rev, fold_sink_Permutation.
  by rewrite app_nil_r.
Qed.

(** The two laws of a strict weak order. *)
Hypothesis less_asym : ∀ a b, less a b = true → less b a = false.
Hypothesis less_negtrans :
  ∀ a b c, less a b = false → less b c = false → less a c = false.

Lemma tied_trans (e x y : A) :
  tied less e x = true → tied less e y = true → less x y = false.
Proof.
  unfold tied. rewrite !andb_true_iff, !negb_true_iff.
  intros [_ Hxe] [Hey _]. by apply less_negtrans with e.
Qed.

Lemma sink_descending (x : A) (r : list A) :
  StronglySorted (λ a b, less a b = false) r →
  StronglySorted (λ a b, less a b = false) (sink less x r).
Proof.
  induction 1 as [|y r Hr IH Hy]; simpl.
  - repeat constructor.
  - destruct (less x y) eqn:Hxy.
    + constructor; [done|].
      rewrite sink_Permutation. constructor; [by apply less_asym|done].
    + constructor; [by constructor|].
      constructor; [done|].
      eapply Forall_impl; [exact Hy|].
      intros b Hb. simpl in Hb. by apply less_negtrans with y.
Qed.

Lemma fold_sink_descending (l acc : list A) :
  StronglySorted (λ a b, less a b = false) acc →
  StronglySorted (λ a b, less a b = false)
    (fold_left (λ r x, sink less x r) l acc).
Proof.
  revert acc. induction l as [|x l IH]; intros acc Hacc; simpl; [done|].
  by apply IH, sink_descending.
Qed.

Lemma StronglySorted_rev_flip (R : A → A → Prop) (l : list A) :
  StronglySorted R l → StronglySorted (λ a b, R b a) (rev l).
Proof.
  induction 1 as [|x l Hl IH Hx]; simpl; [constructor|].
  apply StronglySorted_app_2; [|done|repeat constructor].
  intros x1 x2 Hx1 Hx2. apply list_elem_of_singleton in Hx2 as ->.
  rewrite Forall_forall in Hx. apply Hx.
  by rewrite list_elem_of_In, <- in_rev, <- list_elem_of_In in Hx1.
Qed.

(** The sorted slice is in order. *)
Lemma SliceStable_ascending (l : list A) :
  ascending less (SliceStable less l).
Proof.
  unfold ascending, SliceStable, insertionSort.
  apply (StronglySorted_rev_flip (λ a b, less a b = false)).
  apply fold_sink_descending. constructor.
Qed.

(** An element sinks past no element it is tied with. *)
Lemma filter_tied_sink (e x : A) (r : list A) :
  List.filter (tied less e) (sink less x r)
  = List.filter (tied less e) (x :: r).
Proof.
  induction r as [|y r IH]; [done|].
  cbn [sink]. destruct (less x y) eqn:Hxy; [|done].
  cbn [List.filter] in *. rewrite IH.
  destruct (tied less e x) eqn:Hex; [|done].
  destruct (tied less e y) eqn:Hey; [|done].
  rewrite (tied_trans e x y Hex Hey) in Hxy. discriminate.
Qed.

Lemma filter_tied_fold_sink (e : A) (l acc : list A) :
  List.filter (tied less e) (fold_left (λ r x, sink less x r) l acc)
  = rev (List.filter (tied less e) l) ++ List.filter (tied less e) acc.
Proof.
  revert acc. induction l as [|x l IH]; intros acc; [done|].
  cbn [fold_left]. rewrite IH, filter_tied_sink.
  cbn [List.filter]. destruct (tied less e x); [|done].
  cbn [rev]. by rewrite <- app_assoc.
Qed.

(** Stability: the elements tied with [e] keep their order. *)
Lemma SliceStable_stable (e : A) (l : list A) :
  List.filter (tied less e) (SliceStable less l)
  = List.filter (tied less e) l.
Proof.
  unfold SliceStable, insertionSort.
  rewrite List.filter_rev, filter_tied_fold_sink.
  cbn [List.filter]. by rewrite app_nil_r, rev_involutive.
Qed.

Lemma tied_refl (a : A) : tied less a a = true.
Proof.
  unfold tied. destruct (less a a) eqn:H; [|done].
  by rewrite (less_asym _ _ H) in H.
Qed.

(** Two slices in order with the same elements, which agree on the
    order of tied elements, are the same slice. *)
Lemma ascending_unique (l1 l2 : list A) :
  ascending less l1 → ascending less l2 → l1 ≡ₚ l2 →
  (∀ e, List.filter (tied less e) l1 = List.filter (tied less e) l2) →
  l1 = l2.
Proof.
  unfold ascending. intros H1. revert l2.
  induction H1 as [|a l1 Hl1 IH Ha]; intros l2 H2 Hp Hf.
  - by apply Permutation_nil in Hp.
  - destruct H2 as [|b l2 Hl2 Hb].
    { symmetry in Hp. by apply Permutation_nil in Hp. }
    assert (Hab : tied less a b = true).
    { unfold tied. rewrite andb_true_iff, !negb_true_iff. split.
      - assert (Hin : a ∈ b :: l2) by (rewrite <- Hp; left).
        apply elem_of_cons in Hin as [->|Hin].
        + pose proof (tied_refl b) as Hr. unfold tied in Hr.
          apply andb_true_iff in Hr as [Hr _].
          by apply negb_true_iff in Hr.
        + rewrite Forall_forall in Hb. by apply Hb.
      - assert (Hin : b ∈ a :: l1) by (rewrite Hp; left).
        apply elem_of_cons in Hin as [->|Hin].
        + pose proof (tied_refl a) as Hr. unfold tied in Hr.
          apply andb_true_iff in Hr as [Hr _].
          by apply negb_true_iff in Hr.
        + rewrite Forall_forall in Ha. by apply Ha. }
    assert (a = b) as <-.
    { specialize (Hf a). cbn [List.filter] in Hf.
      rewrite tied_refl, Hab in Hf. congruence. }
    f_equal. apply IH; [done|by apply Permutation_cons_inv in Hp|].
    intros e. specialize (Hf e). cbn [List.filter] in Hf.
    destruct (tied less e a); congruence.
Qed.

(** Hence the result does not depend on the order of the input beyond
    the order of tied elements. *)
Lemma SliceStable_input_order (l1 l2 : list A) :
  l1 ≡ₚ l2 →
  (∀ e, List.filter (tied less e) l1 = List.filter (tied less e) l2) →
  SliceStable less l1 = SliceStable less l2.
Proof.
  intros Hp Hf. apply ascending_unique.
  - apply SliceStable_ascending.
  - apply SliceStable_ascending.
  - by rewrite !SliceStable_Permutation.
  - intros e. by rewrite !SliceStable_stable.
Qed.
End SliceStableFacts.

(** ** The ladder comparison is a strict weak order *)

Lemma float_cases (a b : float64) :
  (flt a b = true ∧ fgt a b = false ∧ (a < b)%Qc)
  ∨ (flt a b = false ∧ fgt a b = false ∧ a = b)
  ∨ (flt a b = false ∧ fgt a b = true ∧ (b < a)%Qc).
Proof.
  unfold flt, fgt. destruct (a ?= b)%Qc eqn:E.
  - right; left. by apply Qceq_alt in E.
  - left. by apply Qclt_alt in E.
  - right; right. by apply (Qcgt_alt a b) in E.
Qed.

Lemma string_cases (a b : string) :
  (string_lt a b = true ∧ String_as_OT.lt a b)
  ∨ (string_lt a b = false ∧ a = b)
  ∨ (string_lt a b = false ∧ String_as_OT.lt b a).
Proof.
  destruct (string_lt_total a b) as [H|[->|H]].
  - left. by rewrite string_lt_spec.
  - right; left. split; [|done].
    destruct (string_lt b b) eqn:E; [|done].
    apply string_lt_spec in E. by apply string_lt_irrefl in E.
  - right; right. split; [|done].
    destruct (string_lt a b) eqn:E; [|done].
    apply string_lt_spec in E.
    destruct (string_lt_irrefl a). by apply string_lt_trans with b.
Qed.

Ltac order_cases a b :=
  let H := fresh in
  destruct (float_cases a b) as [(?&?&H)|[(?&?&H)|(?&?&H)]].

Ltac string_order_cases a b :=
  destruct (string_cases a b) as [(?&?)|[(?&?)|(?&?)]].

Ltac string_contra :=
  exfalso;
  match goal with
  | H : String_as_OT.lt ?a ?a |- _ => exact (string_lt_irrefl a H)
  | H1 : String_as_OT.lt ?a ?b, H2 : String_as_OT.lt ?b ?a |- _ =>
      exact (string_lt_irrefl a (string_lt_trans a b a H1 H2))
  | H1 : String_as_OT.lt ?a ?b, H2 : String_as_OT.lt ?b ?c,
    H3 : String_as_OT.lt ?c ?a |- _ =>
      exact (string_lt_irrefl a
               (string_lt_trans a c a (string_lt_trans a b c H1 H2) H3))
  end.

Ltac order_close :=
  subst; unfold Qclt in *;
  repeat match goal with
         | H : flt _ _ = _ |- _ => rewrite H in *; clear H
         | H : fgt _ _ = _ |- _ => rewrite H in *; clear H
         | H : string_lt _ _ = _ |- _ => rewrite H in *; clear H
         end;
  try done; try lra; try string_contra.

Lemma keyLess_asym k1 k2 : keyLess k1 k2 = true → keyLess k2 k1 = false.
Proof.
  destruct k1 as [[f1 r1] n1], k2 as [[f2 r2] n2]. unfold keyLess. simpl.
  order_cases f1 f2; order_cases f2 f1; order_close;
    order_cases r1 r2; order_cases r2 r1; order_close;
    string_order_cases n1 n2; string_order_cases n2 n1; order_close.
Qed.

Lemma keyLess_negtrans k1 k2 k3 :
  keyLess k1 k2 = false → keyLess k2 k3 = false → keyLess k1 k3 = false.
Proof.
  destruct k1 as [[f1 r1] n1], k2 as [[f2 r2] n2], k3 as [[f3 r3] n3].
  unfold keyLess. simpl.
  order_cases f1 f2; order_cases f2 f3; order_cases f1 f3; order_close;
  order_cases r1 r2; order_cases r2 r3; order_cases r1 r3; order_close;
  string_order_cases n1 n2; string_order_cases n2 n3;
    string_order_cases n1 n3; order_close.
Qed.

Lemma ladderLess_keyLess (a b : LadderEntry) :
  ladderLess a b = keyLess (ladderKey a) (ladderKey b).
Proof. reflexivity. Qed.

Lemma ladderLess_asym (a b : LadderEntry) :
  ladderLess a b = true → ladderLess b a = false.
Proof. rewrite !ladderLess_keyLess. apply keyLess_asym. Qed.

Lemma ladderLess_negtrans (a b c : LadderEntry) :
  ladderLess a b = false → ladderLess b c = false → ladderLess a c = false.
Proof. rewrite !ladderLess_keyLess. apply keyLess_negtrans. Qed.

(** [b] is not put before [a] exactly when [a] precedes [b] in the
    ranking order or ties with it. *)
Lemma ladderLess_rankedBefore (a b : LadderEntry) :
  ladderLess b a = false ↔ rankedBefore a b.
Proof.
  unfold ladderLess, rankedBefore.
  destruct a as [[? na ? ?] ? ? ? ? ra fa], b as [[? nb ? ?] ? ? ? ? rb fb].
  simpl.
  order_cases fb fa; order_cases rb ra; string_order_cases nb na;
    order_close; split; intros Hx; try done; try discriminate;
    repeat match goal with
           | H : _ ∨ _ |- _ => destruct H
           | H : _ ∧ _ |- _ => destruct H
           end; subst; try lra; try string_contra; auto 7.
Qed.

Lemma tied_sameKeys (a b : LadderEntry) :
  tied ladderLess a b = true ↔ sameKeys a b.
Proof.
  unfold tied, ladderLess, sameKeys.
  destruct a as [[? na ? ?] ? ? ? ? ra fa], b as [[? nb ? ?] ? ? ? ? rb fb].
  simpl.
  order_cases fa fb; order_cases fb fa; order_close;
    order_cases ra rb; order_cases rb ra; order_close;
    string_order_cases na nb; string_order_cases nb na; order_close;
    split; intros Hx; try done; try discriminate;
    repeat match goal with
           | H : _ ∧ _ |- _ => destruct H
           end; subst; try lra; try string_contra.
Qed.

(** ** The maps built by [FetchDanceLadders] *)

Section LadderFacts.
Variable Float64 : decimal → float64.
Variable NewFromFloat : float64 → decimal.

Local Abbreviation roundOf score :=
  (mkRoundAverage (int32 (sc_Round score))
     (Float64 (Round (sc_Average score) 2)) (int32 (sc_Count score))).

Lemma scoreMapStep_lookup scoreMap score team :
  scoreMapStep Float64 scoreMap score !! team
  = if String.eqb (sc_Team score) team
    then Some (default [] (scoreMap !! team) ++ [roundOf score])
    else scoreMap !! team.
Proof.
  unfold scoreMapStep.
  destruct (String.eqb_spec (sc_Team score) team) as [->|Hne].
  - rewrite lookup_insert_eq. destruct (scoreMap !! team) eqn:E.
    + by rewrite E.
    + by rewrite lookup_insert_eq.
  - rewrite lookup_insert_ne by done.
    destruct (scoreMap !! sc_Team score); [done|].
    by rewrite lookup_insert_ne.
Qed.

Lemma fold_scoreMapStep_lookup scores scoreMap team :
  fold_left (scoreMapStep Float64) scores scoreMap !! team
  = match roundsOf Float64 scores team with
    | [] => scoreMap !! team
    | rounds => Some (default [] (scoreMap !! team) ++ rounds)
    end.
Proof.
  revert scoreMap. unfold roundsOf.
  induction scores as [|score scores IH]; intros scoreMap; [done|].
  cbn [fold_left List.filter]. rewrite IH, scoreMapStep_lookup.
  destruct (String.eqb (sc_Team score) team); [|done].
  cbn [map default].
  destruct (map _ _); [done|].
  unfold id. by rewrite <- app_assoc.
Qed.

(** The score map holds, for each team with score rows, its round
    averages in the order of the rows. *)
Lemma buildScoreMap_lookup scores team :
  buildScoreMap Float64 scores !! team
  = match roundsOf Float64 scores team with
    | [] => None
    | rounds => Some rounds
    end.
Proof.
  unfold buildScoreMap. rewrite fold_scoreMapStep_lookup.
  by rewrite lookup_empty.
Qed.

Section LadderMap.
Variable scoreMap : gmap string (list RoundAverage).

Local Abbreviation entryOf :=
  (ladderEntryOf Float64 NewFromFloat scoreMap).

Lemma ladderMapStep_lookup ladderMap team division :
  ladderMapStep Float64 NewFromFloat scoreMap ladderMap team !! division
  = if String.eqb (lt_DivisionID team) division
    then Some
           match ladderMap !! division with
           | Some ladder =>
               mkDivisionLadder (dl_Division ladder)
                 (Ladder ladder ++ [entryOf team])
           | None =>
               mkDivisionLadder (divisionOfRow team) [entryOf team]
           end
    else ladderMap !! division.
Proof.
  unfold ladderMapStep.
  destruct (String.eqb_spec (lt_DivisionID team) division) as [<-|Hne].
  - destruct (ladderMap !! lt_DivisionID team) eqn:E;
      lazy beta zeta iota.
    + by rewrite E, lookup_insert_eq.
    + by rewrite !lookup_insert_eq.
  - destruct (ladderMap !! lt_DivisionID team) eqn:E;
      lazy beta zeta iota.
    + by rewrite E, lookup_insert_ne.
    + by rewrite lookup_insert_eq, !lookup_insert_ne.
Qed.

Lemma fold_ladderMapStep_lookup teamList ladderMap division :
  fold_left (ladderMapStep Float64 NewFromFloat scoreMap) teamList
    ladderMap !! division
  = match teamsOf division teamList with
    | [] => ladderMap !! division
    | team :: rest =>
        Some
          match ladderMap !! division with
          | Some ladder =>
              mkDivisionLadder (dl_Division ladder)
                (Ladder ladder ++ map entryOf (team :: rest))
          | None =>
              mkDivisionLadder (divisionOfRow team)
                (map entryOf (team :: rest))
          end
    end.
Proof.
  revert ladderMap. unfold teamsOf.
  induction teamList as [|team teamList IH]; intros ladderMap; [done|].
  cbn [fold_left List.filter]. rewrite IH, ladderMapStep_lookup.
  destruct (String.eqb (lt_DivisionID team) division); [|done].
  destruct (List.filter _ teamList) as [|team' rest].
  - by destruct (ladderMap !! division).
  - destruct (ladderMap !! division); cbn [dl_Division Ladder map];
      by rewrite <- ?app_assoc.
Qed.

(** The ladder map holds, for each division with teams, the entries of
    its teams in the order of the team list. *)
Lemma buildLadderMap_lookup teamList division :
  buildLadderMap Float64 NewFromFloat scoreMap teamList !! division
  = match teamsOf division teamList with
    | [] => None
    | team :: rest =>
        Some (mkDivisionLadder (divisionOfRow team)
                (map entryOf (team :: rest)))
    end.
Proof.
  unfold buildLadderMap. rewrite fold_ladderMapStep_lookup.
  by rewrite lookup_empty.
Qed.
End LadderMap.

Lemma rangeOrder_Permutation {B} (seed : list nat) (l : list B) :
  rangeOrder seed l ≡ₚ l.
Proof.
  revert l. induction seed as [|n seed IH]; intros l; [done|].
  cbn [rangeOrder]. destruct (l !! _) eqn:E; [|done].
  rewrite IH. symmetry. by apply delete_Permutation.
Qed.

(** The ladders returned are the sorted ladders of the map. *)
Lemma elem_of_ladderResults mapOrder ladderMap dl :
  dl ∈ ladderResults mapOrder ladderMap
  ↔ ∃ division value,
      ladderMap !! division = Some value ∧ dl = sortLadder value.
Proof.
  unfold ladderResults. rewrite list_elem_of_fmap. split.
  - intros ([division value] & -> & Hin).
    rewrite rangeOrder_Permutation in Hin.
    apply elem_of_map_to_list in Hin. eauto.
  - intros (division & value & Hlook & ->).
    exists (division, value). split; [done|].
    rewrite rangeOrder_Permutation. by apply elem_of_map_to_list.
Qed.

(** A ladder of the result, in terms of the team list. *)
Lemma elem_of_danceLadders mapOrder teamList scores dl :
  dl ∈ danceLadders Float64 NewFromFloat mapOrder teamList scores
  ↔ ∃ division team rest,
      teamsOf division teamList = team :: rest
      ∧ dl = mkDivisionLadder (divisionOfRow team)
               (SliceStable ladderLess
                  (map (ladderEntryOf Float64 NewFromFloat
                          (buildScoreMap Float64 scores))
                       (team :: rest))).
Proof.
  unfold danceLadders. rewrite elem_of_ladderResults. split.
  - intros (division & value & Hlook & ->).
    rewrite buildLadderMap_lookup in Hlook.
    destruct (teamsOf division teamList) as [|team rest] eqn:E; [done|].
    injection Hlook as <-. by exists division, team, rest.
  - intros (division & team & rest & E & ->).
    exists division, (mkDivisionLadder (divisionOfRow team)
                       (map (ladderEntryOf Float64 NewFromFloat
                               (buildScoreMap Float64 scores))
                            (team :: rest))).
    split; [|done]. by rewrite buildLadderMap_lookup, E.
Qed.

Lemma teamsOf_division division teamList team :
  team ∈ teamsOf division teamList → lt_DivisionID team = division.
Proof.
  unfold teamsOf. rewrite list_elem_of_In, filter_In.
  intros [_ H]. by apply String.eqb_eq.
Qed.
End LadderFacts.

(** ** Reading the store *)

Lemma send_tables st s : tables (send st s).2 = tables s.
Proof. unfold send. by destruct (faults s). Qed.

Lemma Select_Ok {R} st (q : Tables → list R) s rows s' :
  Select st q s = (Ok rows, s') → rows = q (tables s) ∧ tables s' = tables s.
Proof.
  unfold Select. pose proof (send_tables st s) as Ht.
  destruct (send st s) as [[e|] s1]; [done|].
  intros [= <- <-]. simpl in Ht. by rewrite Ht.
Qed.

Section FetchDanceLaddersFacts.
Variable Float64 : decimal → float64.
Variable NewFromFloat : float64 → decimal.

Lemma FetchDanceLadders_Ok mapOrder showAll s ladders s' :
  FetchDanceLadders Float64 NewFromFloat mapOrder showAll s
  = (Ok ladders, s') →
  ladders = danceLadders Float64 NewFromFloat mapOrder
              (teamsQuery (tables s)) (scoresQuery (tables s))
  ∧ tables s' = tables s.
Proof.
  unfold FetchDanceLadders.
  destruct (Select SelectTeams teamsQuery s) as [[teamList|e] s1] eqn:E1;
    [|done].
  apply Select_Ok in E1 as [-> Ht1].
  destruct (Select SelectScores scoresQuery s1) as [[scores|e] s2] eqn:E2;
    [|done].
  apply Select_Ok in E2 as [-> Ht2].
  intros [= <- <-]. by rewrite Ht2, Ht1.
Qed.

Lemma StronglySorted_impl {B} (R1 R2 : B → B → Prop) (l : list B) :
  (∀ a b, R1 a b → R2 a b) → StronglySorted R1 l → StronglySorted R2 l.
Proof.
  intros HR. induction 1 as [|x l Hl IH Hx]; constructor; [done|].
  eapply Forall_impl; [exact Hx|]. intros b Hb. by apply HR.
Qed.

Lemma teamsOf_Permutation division (l1 l2 : list ladderTeam) :
  l1 ≡ₚ l2 → teamsOf division l1 ≡ₚ teamsOf division l2.
Proof.
  unfold teamsOf. induction 1 as [|x l1 l2 Hp IH|x y l|l1 l2 l3 H1 IH1 H2 IH2];
    cbn [List.filter].
  - done.
  - destruct (String.eqb _ _); by rewrite IH.
  - destruct (String.eqb _ _), (String.eqb _ _); try done.
    apply Permutation_swap.
  - by rewrite IH1.
Qed.

Lemma danceLadders_ranked mapOrder teamList scores dl :
  dl ∈ danceLadders Float64 NewFromFloat mapOrder teamList scores →
  rankedLadder Float64 NewFromFloat teamList scores dl.
Proof.
  intros Hdl.
  apply elem_of_danceLadders in Hdl as (division & team & rest & E & ->).
  assert (Hdiv : lt_DivisionID team = division).
  { apply (teamsOf_division division teamList). rewrite E. left. }
  unfold rankedLadder, entriesOf, tiesInOrder.
  cbn [dl_Division Ladder divisionOfRow div_Id].
  rewrite Hdiv, E. split; [|split; [|split; [|split]]].
  - eapply StronglySorted_impl;
      [|apply (SliceStable_ascending ladderLess ladderLess_asym
                 ladderLess_negtrans)].
    intros a b. apply ladderLess_rankedBefore.
  - apply SliceStable_Permutation.
  - intros e.
    apply (SliceStable_stable ladderLess ladderLess_negtrans).
  - apply tied_sameKeys.
  - intros mapOrder' teamList' dl' Hp Hties Hdl' Hdiv'.
    apply elem_of_danceLadders in Hdl'
      as (division' & team' & rest' & E' & ->).
    cbn [dl_Division Ladder divisionOfRow div_Id] in *.
    assert (lt_DivisionID team' = division').
    { apply (teamsOf_division division' teamList'). rewrite E'. left. }
    assert (division' = division) as -> by congruence.
    rewrite E' in Hties.
    apply (SliceStable_input_order ladderLess ladderLess_asym
             ladderLess_negtrans); [|done].
    apply Permutation_map. rewrite <- E, <- E'.
    by apply teamsOf_Permutation.
Qed.
End FetchDanceLaddersFacts.

(** ** The ranking *)

(** C1: every division ladder returned by [FetchDanceLadders] holds the
    entries of the division's teams sorted ascending by [final_total],
    ties broken by ascending [round_total], remaining ties by the team
    name; the sort is stable (entries equal on all three keys keep the
    order of the team rows), so that the ladder is the same for every
    order of the team rows that keeps such entries in the same order. *)
Theorem FetchDanceLadders_ranking Float64 NewFromFloat mapOrder showAll
    s ladders s' dl :
  FetchDanceLadders Float64 NewFromFloat mapOrder showAll s
  = (Ok ladders, s') →
  dl ∈ ladders →
  rankedLadder Float64 NewFromFloat (teamsQuery (tables s))
    (scoresQuery (tables s)) dl.
Proof.
  intros Hfetch Hdl.
  apply FetchDanceLadders_Ok in Hfetch as [-> _].
  by apply danceLadders_ranked in Hdl.
Qed.

Lemma FetchDanceLadders_ranking_witness :
  FetchDanceLadders exactFloat64 exactNewFromFloat [] false sampleStore
  = (Ok sampleLadders, sampleStoreRead)
  ∧ sampleLadder ∈ sampleLadders
  ∧ rankedLadder exactFloat64 exactNewFromFloat (teamsQuery sampleTables)
      (scoresQuery sampleTables) sampleLadder.
Proof.
  assert (H1 : FetchDanceLadders exactFloat64 exactNewFromFloat [] false
                 sampleStore = (Ok sampleLadders, sampleStoreRead))
    by reflexivity.
  assert (H2 : sampleLadder ∈ sampleLadders)
    by (vm_compute; apply list_elem_of_here).
  split; [exact H1|]. split; [exact H2|].
  exact (FetchDanceLadders_ranking exactFloat64 exactNewFromFloat [] false
           sampleStore sampleLadders sampleStoreRead sampleLadder H1 H2).
Defined.

(** ** The derived fields of a ladder entry *)

Ltac decimal_ring :=
  unfold Add, dzero, decimal in *; cbn [foldr]; ring.

Lemma Add_zero_l (d : decimal) : Add dzero d = d.
Proof. decimal_ring. Qed.

Lemma Add_zero_r (d : decimal) : Add d dzero = d.
Proof. decimal_ring. Qed.

Lemma Add_assoc (a b c : decimal) : Add (Add a b) c = Add a (Add b c).
Proof. decimal_ring. Qed.

Lemma fold_Add_dsum (l : list decimal) (i : decimal) :
  fold_left Add l i = Add i (dsum l).
Proof.
  revert i. induction l as [|d l IH]; intros i; cbn [fold_left dsum foldr].
  - by rewrite Add_zero_r.
  - rewrite IH. fold (dsum l). by rewrite Add_assoc.
Qed.

Lemma runningMax_ge (l : list decimal) (m : decimal) :
  (m ≤ runningMax m l)%Qc ∧ Forall (λ x, (x ≤ runningMax m l)%Qc) l.
Proof.
  revert m. induction l as [|d l IH]; intros m; cbn [runningMax fold_left].
  - split; [apply Qcle_refl|constructor].
  - fold (runningMax (if GreaterThan d m then d else m) l).
    destruct (IH (if GreaterThan d m then d else m)) as [H1 H2].
    destruct (GreaterThan d m) eqn:E.
    + apply GreaterThan_spec in E. split; [|by constructor].
      eapply Qcle_trans; [apply Qclt_le_weak, E|done].
    + split; [done|]. constructor; [|done].
      eapply Qcle_trans; [|exact H1].
      apply Qcnot_lt_le. intros Hlt. apply GreaterThan_spec in Hlt.
      congruence.
Qed.

Lemma runningMax_elem (l : list decimal) (m : decimal) :
  runningMax m l = m ∨ runningMax m l ∈ l.
Proof.
  revert m. induction l as [|d l IH]; intros m; cbn [runningMax fold_left].
  - by left.
  - fold (runningMax (if GreaterThan d m then d else m) l).
    destruct (IH (if GreaterThan d m then d else m)) as [H|H].
    + rewrite H. destruct (GreaterThan d m); [right; left|by left].
    + right. by right.
Qed.

(** Over non-negative values the running maximum from 0 is the maximum,
    or 0 when there is no value. *)
Lemma runningMax_maxOrZero (l : list decimal) :
  Forall (λ x, (dzero ≤ x)%Qc) l → maxOrZero l (runningMax dzero l).
Proof.
  intros Hpos. destruct l as [|d l]; [done|].
  unfold maxOrZero. destruct (runningMax_ge (d :: l) dzero) as [H0 Hall].
  split; [|done].
  destruct (runningMax_elem (d :: l) dzero) as [Hz|Hin]; [|done].
  rewrite Hz in *.
  assert (d = dzero) as ->; [|left].
  apply Qcle_antisym.
  - by apply Forall_inv in Hall.
  - by apply Forall_inv in Hpos.
Qed.

Section DerivedFields.
Variable Float64 : decimal → float64.
Variable NewFromFloat : float64 → decimal.

Lemma averagesWhere_cons p r rounds :
  averagesWhere NewFromFloat p (r :: rounds)
  = if p (ra_Round r)
    then NewFromFloat (ra_Average r) :: averagesWhere NewFromFloat p rounds
    else averagesWhere NewFromFloat p rounds.
Proof. unfold averagesWhere. cbn [List.filter]. by destruct (p _). Qed.

(** The loop, one accumulator at a time. *)
Lemma fold_scoreStep N1 rounds interviewScore bestRound bestFinal :
  fold_left (scoreStep NewFromFloat N1) rounds
    (interviewScore, bestRound, bestFinal)
  = (Add interviewScore
       (dsum (averagesWhere NewFromFloat interviewRound rounds)),
     runningMax bestRound
       (averagesWhere NewFromFloat (roundBranch N1) rounds),
     runningMax bestFinal
       (averagesWhere NewFromFloat (finalBranch N1) rounds)).
Proof.
  revert interviewScore bestRound bestFinal.
  induction rounds as [|r rounds IH]; intros i b f.
  - cbn. by rewrite Add_zero_r.
  - cbn [fold_left]. rewrite !averagesWhere_cons.
    unfold scoreStep at 2, interviewRound, roundBranch, finalBranch.
    destruct (ra_Round r =? 0) eqn:E0; cbn [negb andb].
    + rewrite IH. cbn [dsum foldr]. fold (dsum (averagesWhere NewFromFloat
        interviewRound rounds)). by rewrite Add_assoc.
    + destruct (ra_Round r <=? N1) eqn:E1; cbn [negb andb].
      * destruct (GreaterThan _ b) eqn:Eg; rewrite IH;
          cbn [runningMax fold_left]; by rewrite Eg.
      * destruct (ra_Round r >? N1) eqn:E2.
        -- destruct (GreaterThan _ f) eqn:Eg; rewrite IH;
             cbn [runningMax fold_left]; by rewrite Eg.
        -- by rewrite IH.
Qed.

Lemma averagesWhere_ext p q rounds :
  Forall (λ r, p (ra_Round r) = q (ra_Round r)) rounds →
  averagesWhere NewFromFloat p rounds = averagesWhere NewFromFloat q rounds.
Proof.
  induction 1 as [|r rounds Hr _ IH]; [done|].
  by rewrite !averagesWhere_cons, Hr, IH.
Qed.

Lemma averagesWhere_nonneg p rounds :
  Forall (λ r, (dzero ≤ NewFromFloat (ra_Average r))%Qc) rounds →
  Forall (λ x, (dzero ≤ x)%Qc) (averagesWhere NewFromFloat p rounds).
Proof.
  induction 1 as [|r rounds Hr _ IH]; [constructor|].
  rewrite averagesWhere_cons. destruct (p _); [by constructor|done].
Qed.

(** The entry of a team row: its rounds are the team's round averages,
    and over rounds and averages that are not negative its derived
    fields are those of the specification. *)
Lemma ladderEntryOf_rounds scores team :
  Rounds (ladderEntryOf Float64 NewFromFloat (buildScoreMap Float64 scores)
            team)
  = roundsOf Float64 scores (lt_ID team).
Proof.
  unfold ladderEntryOf. rewrite buildScoreMap_lookup.
  destruct (roundsOf Float64 scores (lt_ID team)) as [|r l]; [done|].
  by destruct (fold_left _ _ _) as [[? ?] ?].
Qed.

Lemma ladderEntryOf_team scoreMap team :
  Team_ (ladderEntryOf Float64 NewFromFloat scoreMap team)
  = mkTeam (lt_ID team) (lt_Name team)
      (mkInstitution (lt_InstitutionID team) (lt_Institution team))
      (lt_DivisionID team).
Proof.
  unfold ladderEntryOf.
  destruct (scoreMap !! lt_ID team); [|done].
  by destruct (fold_left _ _ _) as [[? ?] ?].
Qed.

Lemma ladderEntryOf_derived scores team :
  let rounds := roundsOf Float64 scores (lt_ID team) in
  0 ≤ int32 (lt_CompetitionRounds team) →
  Forall (λ r, 0 ≤ ra_Round r) rounds →
  Forall (λ r, (dzero ≤ NewFromFloat (ra_Average r))%Qc) rounds →
  derivedFields Float64 NewFromFloat (int32 (lt_CompetitionRounds team))
    rounds
    (ladderEntryOf Float64 NewFromFloat (buildScoreMap Float64 scores) team).
Proof.
  intros rounds HN1 Hround Havg. unfold derivedFields.
  set (N1 := int32 (lt_CompetitionRounds team)) in *.
  assert (Hfold :
    fold_left (scoreStep NewFromFloat N1) rounds (dzero, dzero, dzero)
    = (dsum (averagesWhere NewFromFloat interviewRound rounds),
       runningMax dzero
         (averagesWhere NewFromFloat (competitionRound N1) rounds),
       runningMax dzero
         (averagesWhere NewFromFloat (finalRound N1) rounds))).
  { rewrite fold_scoreStep. f_equal; [f_equal|].
    - apply Add_zero_l.
    - f_equal. apply averagesWhere_ext.
      eapply Forall_impl; [exact Hround|]. intros r Hr. simpl in Hr.
      unfold roundBranch, competitionRound.
      destruct (ra_Round r =? 0) eqn:E0, (1 <=? ra_Round r) eqn:E1;
        cbn [negb andb]; try done; lia.
    - f_equal. apply averagesWhere_ext.
      eapply Forall_impl; [exact Hround|]. intros r Hr. simpl in Hr.
      unfold finalBranch, finalRound. rewrite Z.gtb_ltb.
      destruct (ra_Round r =? 0) eqn:E0, (ra_Round r <=? N1) eqn:E1,
        (N1 <? ra_Round r) eqn:E3; cbn [negb andb]; try done; lia. }
  exists (dsum (averagesWhere NewFromFloat interviewRound rounds)),
    (runningMax dzero
       (averagesWhere NewFromFloat (competitionRound N1) rounds)),
    (runningMax dzero (averagesWhere NewFromFloat (finalRound N1) rounds)).
  split; [done|].
  split; [by apply runningMax_maxOrZero, averagesWhere_nonneg|].
  split; [by apply runningMax_maxOrZero, averagesWhere_nonneg|].
  unfold ladderEntryOf. rewrite buildScoreMap_lookup. fold rounds. fold N1.
  destruct rounds as [|r l] eqn:Er.
  - repeat split; reflexivity.
  - rewrite Hfold. repeat split; reflexivity.
Qed.
End DerivedFields.

(** ** The rows of the ladder queries *)

Lemma elem_of_teamsQuery (T : Tables) (team : ladderTeam) :
  team ∈ teamsQuery T
  ↔ ∃ t i d,
      t ∈ teams T ∧ i ∈ institutions T ∧ d ∈ divisions T
      ∧ t_institution t = i_id i ∧ t_division t = d_id d
      ∧ d_league d = "On Stage"
      ∧ team = mkLadderTeam (t_id t) (t_name t) (i_name i) (i_id i)
                 (d_id d) (d_name d) (d_competition_rounds d)
                 (d_final_rounds d).
Proof.
  unfold teamsQuery. rewrite list_elem_of_bind. split.
  - intros (t & Hin & Ht). apply list_elem_of_bind in Hin as (i & Hin & Hi).
    apply list_elem_of_bind in Hin as (d & Hin & Hd).
    destruct (String.eqb_spec (t_institution t) (i_id i)) as [E1|];
      destruct (String.eqb_spec (t_division t) (d_id d)) as [E2|];
      destruct (String.eqb_spec (d_league d) "On Stage") as [E3|];
      cbn [andb] in Hin; try by apply elem_of_nil in Hin.
    apply list_elem_of_singleton in Hin. by exists t, i, d.
  - intros (t & i & d & Ht & Hi & Hd & E1 & E2 & E3 & ->).
    exists t. split; [|done]. apply list_elem_of_bind. exists i.
    split; [|done]. apply list_elem_of_bind. exists d. split; [|done].
    rewrite E1, E2, E3, !String.eqb_refl. cbn [andb]. left.
Qed.

Lemma elem_of_groupBy_key {K V} `{EqDecision K} (rows : list (K * V)) g :
  g ∈ groupBy rows → ∃ v, (g.1, v) ∈ rows.
Proof.
  unfold groupBy. rewrite list_elem_of_fmap. intros (k & -> & Hk).
  apply elem_of_remove_dups, list_elem_of_fmap in Hk as ([k' v] & -> & Hin).
  by exists v.
Qed.

(** Every row of the score query comes from a score sheet of its team. *)
Lemma scoresQuery_team (T : Tables) (score : scoreCalc) :
  score ∈ scoresQuery T →
  ∃ ss, ss ∈ score_sheets T ∧ ss_team ss = sc_Team score
        ∧ ss_round ss = sc_Round score.
Proof.
  unfold scoresQuery. rewrite list_elem_of_fmap. intros (g & -> & Hg).
  apply elem_of_groupBy_key in Hg as (v & Hin).
  apply list_elem_of_bind in Hin as (t1 & Hin & _).
  apply list_elem_of_bind in Hin as (ss & Hin & Hss).
  destruct (String.eqb (ss_id ss) t1.1); [|by apply elem_of_nil in Hin].
  apply list_elem_of_singleton in Hin. injection Hin as Hk _.
  exists ss. split; [done|]. cbn [sc_Team sc_Round]. by rewrite Hk.
Qed.

(** A team without score sheets has no round average. *)
Lemma roundsOf_no_sheets Float64 (T : Tables) (team : string) :
  Forall (λ ss, ss_team ss ≠ team) (score_sheets T) →
  roundsOf Float64 (scoresQuery T) team = [].
Proof.
  intros Hno. unfold roundsOf.
  assert (Hnil : List.filter (λ score, String.eqb (sc_Team score) team)
                   (scoresQuery T) = []); [|by rewrite Hnil].
  apply elem_of_nil_inv. intros score Hin.
  apply list_elem_of_In, filter_In in Hin as [Hin Heq].
  apply list_elem_of_In, scoresQuery_team in Hin as (ss & Hss & Hteam & _).
  apply String.eqb_eq in Heq. rewrite Forall_forall in Hno.
  apply (Hno ss Hss). congruence.
Qed.

Section EntryFacts.
Variable Float64 : decimal → float64.
Variable NewFromFloat : float64 → decimal.

(** Without round averages every derived field is the float of 0. *)
Lemma ladderEntryOf_no_rounds scores team :
  Float64 dzero = fzero →
  roundsOf Float64 scores (lt_ID team) = [] →
  allZero (ladderEntryOf Float64 NewFromFloat (buildScoreMap Float64 scores)
             team).
Proof.
  intros H0 Hnil. unfold allZero, ladderEntryOf.
  rewrite buildScoreMap_lookup, Hnil.
  cbn [InterviewScore BestRound BestFinal RoundTotal FinalTotal].
  rewrite Add_zero_l, H0. by repeat split.
Qed.

(** Every team row has its entry in the ladder of its division. *)
Lemma danceLadders_entry mapOrder teamList scores team :
  team ∈ teamList →
  ∃ dl, dl ∈ danceLadders Float64 NewFromFloat mapOrder teamList scores
        ∧ div_Id (dl_Division dl) = lt_DivisionID team
        ∧ ladderEntryOf Float64 NewFromFloat (buildScoreMap Float64 scores)
            team ∈ Ladder dl.
Proof.
  intros Hin.
  assert (Hin' : team ∈ teamsOf (lt_DivisionID team) teamList).
  { unfold teamsOf. apply list_elem_of_In, filter_In.
    split; [by apply list_elem_of_In|apply String.eqb_refl]. }
  destruct (teamsOf (lt_DivisionID team) teamList) as [|team' rest] eqn:E;
    [by apply elem_of_nil in Hin'|].
  exists (mkDivisionLadder (divisionOfRow team')
            (SliceStable ladderLess
               (map (ladderEntryOf Float64 NewFromFloat
                       (buildScoreMap Float64 scores)) (team' :: rest)))).
  split; [|split].
  - apply elem_of_danceLadders. by exists (lt_DivisionID team), team', rest.
  - cbn. apply (teamsOf_division _ teamList). rewrite E. left.
  - cbn [Ladder]. rewrite SliceStable_Permutation.
    apply list_elem_of_fmap. by exists team.
Qed.
End EntryFacts.



(** ** Where the ladder rounds *)

Section RoundingFacts.
Variable Float64 : decimal → float64.
Variable NewFromFloat : float64 → decimal.

Lemma roundsOf_scoreRows scores team :
  roundsOf Float64 scores team
  = map (λ score,
           mkRoundAverage (int32 (sc_Round score))
             (Float64 (Round (sc_Average score) 2))
             (int32 (sc_Count score)))
        (scoreRows (λ _, true) scores team).
Proof.
  unfold roundsOf, scoreRows. f_equal. apply filter_ext.
  intros score. by rewrite andb_true_r.
Qed.

Lemma averagesWhere_roundsOf p scores team :
  averagesWhere NewFromFloat p (roundsOf Float64 scores team)
  = rereadAverages Float64 NewFromFloat p scores team.
Proof.
  unfold rereadAverages, scoreRows, roundsOf.
  induction scores as [|score scores IH]; [done|].
  cbn [List.filter]. destruct (String.eqb (sc_Team score) team);
    cbn [andb map]; [|done].
  rewrite averagesWhere_cons. cbn [ra_Round ra_Average].
  destruct (p _); cbn [map]; by rewrite IH.
Qed.

(** The entry of a team row, from the reported averages read back. *)
Lemma ladderEntryOf_rounded scores team :
  roundedPerAverage Float64 NewFromFloat scores (lt_ID team)
    (int32 (lt_CompetitionRounds team))
    (ladderEntryOf Float64 NewFromFloat (buildScoreMap Float64 scores) team).
Proof.
  unfold roundedPerAverage, fieldsFrom.
  rewrite ladderEntryOf_rounds, <- roundsOf_scoreRows. split; [done|].
  rewrite <- !averagesWhere_roundsOf.
  set (rounds := roundsOf Float64 scores (lt_ID team)).
  set (N1 := int32 (lt_CompetitionRounds team)).
  pose proof (fold_scoreStep NewFromFloat N1 rounds dzero dzero dzero)
    as Hfold.
  rewrite Add_zero_l in Hfold.
  unfold ladderEntryOf. rewrite buildScoreMap_lookup. fold rounds. fold N1.
  destruct rounds as [|r l] eqn:Er.
  - repeat split; reflexivity.
  - rewrite Hfold. repeat split; reflexivity.
Qed.
End RoundingFacts.

(** ** [GROUP BY] over a join whose rows come key by key *)

Section GroupByFacts.
Context {A K V : Type} `{EqDecision K}.
Variable key : A → K.
Variable vals : A → list V.

Local Abbreviation rowsOf := (keyedRows key vals).

Lemma chunk_values (k a : K) (l : list V) :
  map snd (filter (λ r : K * V, r.1 = k) (map (pair a) l))
  = if decide (a = k) then l else [].
Proof.
  induction l as [|v l IH]; cbn [map]; [by destruct (decide _)|].
  rewrite filter_cons. cbn [fst].
  destruct (decide (a = k)); cbn [map snd]; by rewrite IH.
Qed.

Lemma rows_values (k : K) (l : list A) :
  map snd (filter (λ r : K * V, r.1 = k) (rowsOf l))
  = a ← l; if decide (key a = k) then vals a else [].
Proof.
  unfold keyedRows. induction l as [|a l IH]; [done|].
  rewrite !bind_cons, filter_app, map_app, IH. by rewrite chunk_values.
Qed.

Lemma collapse_bind (l : list A) (a0 : A) :
  NoDup (map key l) → a0 ∈ l →
  (a ← l; if decide (key a = key a0) then vals a else []) = vals a0.
Proof.
  induction l as [|a l IH]; intros Hnd Hin; [by apply elem_of_nil in Hin|].
  cbn [map] in Hnd. apply NoDup_cons in Hnd as [Hnotin Hnd].
  rewrite bind_cons. apply elem_of_cons in Hin as [<-|Hin].
  - rewrite decide_True by done.
    assert (Hrest : (a ← l; if decide (key a = key a0) then vals a else [])
                    = []); [|by rewrite Hrest, app_nil_r].
    clear IH Hnd. induction l as [|b l IH]; [done|].
    rewrite bind_cons. apply not_elem_of_cons in Hnotin as [Hne Hnotin].
    rewrite decide_False by done. by apply IH.
  - rewrite decide_False, IH; [done..|].
    intros Heq. apply Hnotin. rewrite Heq.
    apply list_elem_of_fmap. by exists a0.
Qed.

Lemma rows_keys_subset (l : list A) (k : K) :
  k ∈ map fst (rowsOf l) → k ∈ map key l.
Proof.
  unfold keyedRows. rewrite !list_elem_of_fmap.
  intros ([k' v] & -> & Hin). apply list_elem_of_bind in Hin as (a & Hin & Ha).
  apply list_elem_of_fmap in Hin as (v' & [= -> ->] & _). by exists a.
Qed.

Lemma remove_dups_chunk (a : K) (l : list V) (r : list K) :
  a ∉ r →
  remove_dups (map fst (map (pair a) l) ++ r)
  = if nonEmpty l then a :: remove_dups r else remove_dups r.
Proof.
  intros Hnotin. induction l as [|v l IH]; [done|].
  cbn [map fst app nonEmpty remove_dups].
  destruct l as [|v' l].
  - cbn [map app]. by destruct (decide_rel _ _ _).
  - destruct (decide_rel _ _ _) as [_|Hn]; [exact IH|].
    destruct Hn. cbn [map fst app]. left.
Qed.

(** The keys of the groups, when the keys of [l] are distinct. *)
Lemma rows_keys (l : list A) :
  NoDup (map key l) →
  remove_dups (map fst (rowsOf l))
  = map key (List.filter (λ a, nonEmpty (vals a)) l).
Proof.
  unfold keyedRows. induction l as [|a l IH]; intros Hnd; [done|].
  cbn [map] in Hnd. apply NoDup_cons in Hnd as [Hnotin Hnd].
  rewrite bind_cons, map_app, remove_dups_chunk.
  - cbn [List.filter]. rewrite IH by done.
    by destruct (nonEmpty (vals a)).
  - intros Hin. by apply Hnotin, rows_keys_subset.
Qed.

(** The groups themselves. *)
Lemma groupBy_rows (l : list A) :
  NoDup (map key l) →
  groupBy (rowsOf l)
  = map (λ a, (key a, vals a)) (List.filter (λ a, nonEmpty (vals a)) l).
Proof.
  intros Hnd. unfold groupBy. rewrite rows_keys by done.
  rewrite map_map. apply map_ext_in. intros a Hin.
  apply filter_In in Hin as [Hin _]. f_equal.
  rewrite rows_values. apply collapse_bind; [done|].
  by apply list_elem_of_In.
Qed.
End GroupByFacts.

(** ** What the score query computes *)

Lemma bind_ext_in {A B} (f g : A → list B) (l : list A) :
  (∀ a, a ∈ l → f a = g a) → l ≫= f = l ≫= g.
Proof.
  induction l as [|a l IH]; intros Hfg; [done|].
  rewrite !bind_cons, Hfg, IH; [done| |left].
  intros b Hb. apply Hfg. by right.
Qed.

Lemma map_bind {A B C} (h : B → C) (f : A → list B) (l : list A) :
  map h (l ≫= f) = l ≫= (λ a, map h (f a)).
Proof.
  induction l as [|a l IH]; [done|]. by rewrite !bind_cons, map_app, IH.
Qed.

Lemma bind_map {A B C} (h : A → B) (f : B → list C) (l : list A) :
  map h l ≫= f = l ≫= (λ a, f (h a)).
Proof.
  induction l as [|a l IH]; [done|]. cbn [map]. by rewrite !bind_cons, IH.
Qed.

Lemma bind_singleton_map {A B} (h : A → B) (l : list A) :
  l ≫= (λ a, [h a]) = map h l.
Proof. induction l as [|a l IH]; [done|]. by rewrite bind_cons, IH. Qed.

Lemma eqb_decide {B} (a b : string) (x y : B) :
  (if String.eqb a b then x else y) = (if decide (a = b) then x else y).
Proof.
  destruct (String.eqb_spec a b); [by rewrite decide_True|
                                   by rewrite decide_False].
Qed.

(** The rows of the inner join come sheet by sheet. *)
Lemma inner_join_rows (T : Tables) :
  (ss ← score_sheets T; sec ← score_sheet_sections T;
   ts ← score_sheet_template_sections T;
   if String.eqb (sec_score_sheet sec) (ss_id ss)
      && String.eqb (sec_section sec) (ts_id ts)
   then [(ss_id ss, (sec_value sec * Qc_of_Z (ts_multiplier ts))%Qc)]
   else [])
  = keyedRows ss_id (λ ss, sectionTerms T (ss_id ss)) (score_sheets T).
Proof.
  unfold keyedRows, sectionTerms. apply bind_ext_in. intros ss _.
  rewrite map_bind. apply bind_ext_in. intros sec _.
  rewrite map_bind. apply bind_ext_in. intros ts _.
  by destruct (_ && _).
Qed.

Section ScoreQueryFacts.
Variable T : Tables.
Hypothesis sheet_ids_unique : NoDup (map ss_id (score_sheets T)).

Local Abbreviation withSections :=
  (List.filter (λ ss, nonEmpty (sectionTerms T (ss_id ss)))
     (score_sheets T)).

(** The inner query gives each score sheet that has a section its
    total. *)
Lemma sheetTotalsQuery_spec :
  sheetTotalsQuery T
  = map (λ ss, (ss_id ss, sheetTotal T (ss_id ss))) withSections.
Proof.
  unfold sheetTotalsQuery. rewrite inner_join_rows.
  rewrite groupBy_rows by done. by rewrite map_map.
Qed.

Lemma outer_join_rows :
  (t1 ← sheetTotalsQuery T; ss ← score_sheets T;
   if String.eqb (ss_id ss) t1.1
   then [((ss_team ss, ss_round ss), t1.2)]
   else [])
  = map (λ ss, ((ss_team ss, ss_round ss), sheetTotal T (ss_id ss)))
      withSections.
Proof.
  rewrite sheetTotalsQuery_spec, bind_map, <- bind_singleton_map.
  apply bind_ext_in. intros ss0 Hin. cbn [fst snd].
  apply list_elem_of_In, filter_In in Hin as [Hin _].
  apply list_elem_of_In in Hin.
  rewrite <- (collapse_bind ss_id
                (λ ss, [((ss_team ss, ss_round ss),
                         sheetTotal T (ss_id ss0))])
                (score_sheets T) ss0 sheet_ids_unique Hin).
  apply bind_ext_in. intros ss _. apply eqb_decide.
Qed.

Lemma group_of_key (k : string * Z) (l : list ScoreSheetRow) :
  map snd
    (filter (λ r : string * Z * decimal, r.1 = k)
       (map (λ ss, ((ss_team ss, ss_round ss), sheetTotal T (ss_id ss))) l))
  = map (λ ss, sheetTotal T (ss_id ss))
      (List.filter
         (λ ss, String.eqb (ss_team ss) k.1 && (ss_round ss =? k.2)) l).
Proof.
  induction l as [|ss l IH]; [done|].
  cbn [map List.filter]. rewrite filter_cons. cbn [fst].
  destruct k as [team round]. cbn [fst snd] in *.
  destruct (String.eqb_spec (ss_team ss) team) as [E1|N1];
    destruct (Z.eqb_spec (ss_round ss) round) as [E2|N2]; cbn [andb].
  - rewrite decide_True by congruence. cbn [map snd]. by rewrite IH.
  - rewrite decide_False by congruence. done.
  - rewrite decide_False by congruence. done.
  - rewrite decide_False by congruence. done.
Qed.

(** Every row of the outer query holds, for its team and round, the
    mean of the totals of the score sheets (with a section) of that team
    and round, and their number. *)
Lemma scoresQuery_spec (score : scoreCalc) :
  score ∈ scoresQuery T →
  let sheets := scoredSheets T (sc_Team score) (sc_Round score) in
  sc_Average score = mean (map (λ ss, sheetTotal T (ss_id ss)) sheets)
  ∧ sc_Count score = Z.of_nat (length sheets).
Proof.
  unfold scoresQuery. rewrite outer_join_rows, list_elem_of_fmap.
  intros (g & -> & Hg). unfold groupBy in Hg.
  apply list_elem_of_fmap in Hg as (k & -> & _).
  cbn [sc_Team sc_Round sc_Average sc_Count fst snd].
  rewrite group_of_key. fold (scoredSheets T k.1 k.2).
  unfold mean. by rewrite length_map.
Qed.
End ScoreQueryFacts.

(** C3, as stated, fails: in the sample Team D's averages are 1.005
    (interview) and 2.005 (round 1); each is rounded to two places before
    the totals are formed, so the reported [round_total] is 3.02, not
    the 3.01 of the exact sum, even with conversions to and from
    [float64] that lose nothing. *)
Lemma intermediate_rounding_counterexample :
  ¬ noIntermediateRounding exactFloat64 exactNewFromFloat sampleStore.
Proof.
  intros Hclaim.
  assert (Hfetch : FetchDanceLadders exactFloat64 exactNewFromFloat [] false
                     sampleStore = (Ok sampleLadders, sampleStoreRead))
    by reflexivity.
  assert (Hdl : sampleLadder ∈ sampleLadders)
    by (vm_compute; apply list_elem_of_here).
  assert (He : sampleEntryD ∈ Ladder sampleLadder)
    by (vm_compute; apply list_elem_of_further, list_elem_of_here).
  destruct (Hclaim [] false sampleLadders sampleStoreRead sampleLadder
              sampleEntryD Hfetch Hdl He) as (_ & _ & _ & Htotal & _).
  apply (f_equal this) in Htotal. vm_compute in Htotal. discriminate.
Qed.

(** C3, amended: a sheet's total is the exact sum of [value *
    multiplier] over its sections and a round average the exact mean of
    the sheet totals of a team and round; each round average is rounded
    to two decimal places and converted to [float64] when it is
    reported; the interview sum, the best round, the best final and the
    two totals are computed in the decimal type from the reported
    averages read back from those floats, and each of them is converted
    to [float64] in its turn. *)
Theorem FetchDanceLadders_rounding Float64 NewFromFloat mapOrder showAll
    s ladders s' t i d :
  NoDup (map ss_id (score_sheets (tables s))) →
  FetchDanceLadders Float64 NewFromFloat mapOrder showAll s
  = (Ok ladders, s') →
  t ∈ teams (tables s) → i ∈ institutions (tables s) →
  d ∈ divisions (tables s) →
  t_institution t = i_id i → t_division t = d_id d →
  d_league d = "On Stage" →
  let scores := scoresQuery (tables s) in
  (∀ score, score ∈ scores →
     let sheets := scoredSheets (tables s) (sc_Team score) (sc_Round score) in
     sc_Average score
     = mean (map (λ ss, sheetTotal (tables s) (ss_id ss)) sheets)
     ∧ sc_Count score = Z.of_nat (length sheets))
  ∧ ∃ dl e,
      dl ∈ ladders ∧ div_Id (dl_Division dl) = d_id d ∧ e ∈ Ladder dl
      ∧ team_Id (Team_ e) = t_id t
      ∧ roundedPerAverage Float64 NewFromFloat scores (t_id t)
          (int32 (d_competition_rounds d)) e.
Proof.
  intros Hnd Hfetch Ht Hi Hd E1 E2 E3 scores.
  split; [intros score; by apply scoresQuery_spec|].
  apply FetchDanceLadders_Ok in Hfetch as [-> _].
  set (team := mkLadderTeam (t_id t) (t_name t) (i_name i) (i_id i) (d_id d)
                 (d_name d) (d_competition_rounds d) (d_final_rounds d)).
  assert (Hteam : team ∈ teamsQuery (tables s)).
  { apply elem_of_teamsQuery. by exists t, i, d. }
  destruct (danceLadders_entry Float64 NewFromFloat mapOrder
              (teamsQuery (tables s)) scores team Hteam)
    as (dl & Hdl & Hdiv & He).
  exists dl, (ladderEntryOf Float64 NewFromFloat
                (buildScoreMap Float64 scores) team).
  rewrite ladderEntryOf_team.
  split; [done|]. split; [done|]. split; [done|]. split; [done|].
  apply (ladderEntryOf_rounded Float64 NewFromFloat scores team).
Qed.

Lemma FetchDanceLadders_rounding_witness :
  NoDup (map ss_id (score_sheets sampleTables))
  ∧ ∃ dl e,
      dl ∈ sampleLadders ∧ e ∈ Ladder dl ∧ team_Id (Team_ e) = "tD"
      ∧ roundedPerAverage exactFloat64 exactNewFromFloat
          (scoresQuery sampleTables) "tD" 2 e.
Proof.
  assert (Hnd : NoDup (map ss_id (score_sheets sampleTables)))
    by (apply (bool_decide_unpack _); vm_compute; exact I).
  split; [exact Hnd|].
  destruct (FetchDanceLadders_rounding exactFloat64 exactNewFromFloat
              [] false sampleStore sampleLadders sampleStoreRead
              (mkTeamRow "tD" "Team D" "i1" "d1")
              (mkInstitutionRow "i1" "School")
              (mkDivisionRow "d1" "Primary" "On Stage" 2 1))
    as (_ & dl & e & Hdl & _ & He & Hid & Hrounded).
  - exact Hnd.
  - reflexivity.
  - vm_compute. do 3 apply list_elem_of_further. apply list_elem_of_here.
  - vm_compute. apply list_elem_of_here.
  - vm_compute. apply list_elem_of_here.
  - reflexivity.
  - reflexivity.
  - reflexivity.
  - exists dl, e. split; [exact Hdl|]. split; [exact He|].
    split; [exact Hid|exact Hrounded].
Defined.

(** ** The [showAll] argument *)

Lemma ladderResults_Permutation o1 o2 (ladderMap : gmap string DivisionLadder) :
  ladderResults o1 ladderMap ≡ₚ ladderResults o2 ladderMap.
Proof.
  unfold ladderResults. apply Permutation_map.
  by rewrite !rangeOrder_Permutation.
Qed.



(** ** Statements and injected failures *)

Lemma send_injected st s :
  injected s (send st s).1
  ∧ tables (send st s).2 = tables s
  ∧ (∀ f, f ∈ faults (send st s).2 → f ∈ faults s)
  ∧ log (send st s).2 = log s ++ [st].
Proof.
  unfold send, injected. destruct (faults s) as [|f fs]; cbn.
  - auto.
  - split; [right; left|]. split; [done|]. split; [|done].
    intros f' Hf'. by right.
Qed.

(** ** The two tasks of [FetchScoreSheet], step by step *)

Section GroupFacts.
Variable scanFloat32 : decimal → float64.
Variable id : string.
Variable s0 : Store.

Local Abbreviation outcome := (queryOutcome scanFloat32 id (tables s0)).
Local Abbreviation tInv := (taskInv scanFloat32 id s0).
Local Abbreviation gInv := (groupInv scanFloat32 id s0).

Lemma taskQuery_outcome t s :
  tables s = tables s0 → (∀ f, f ∈ faults s → f ∈ faults s0) →
  ∃ f s', taskQuery scanFloat32 id t s = (outcome t f, s')
          ∧ injected s0 f ∧ tables s' = tables s0
          ∧ (∀ f, f ∈ faults s' → f ∈ faults s0).
Proof.
  intros Ht Hf. unfold taskQuery, bind, Select, Get, ret, queryOutcome.
  destruct t.
  - destruct (send_injected (SelectSections id) s) as (Hi & Ht' & Hf' & _).
    destruct (send (SelectSections id) s) as [f s'] eqn:E. cbn in *.
    exists f, s'. rewrite <- Ht, <- Ht'.
    split; [by destruct f|]. split; [|split; [done|intuition eauto]].
    destruct Hi as [->|Hi]; [by left|right; auto].
  - destruct (send_injected (SelectScoreSheet id) s) as (Hi & Ht' & Hf' & _).
    destruct (send (SelectScoreSheet id) s) as [f s'] eqn:E. cbn in *.
    exists f, s'. rewrite <- Ht, <- Ht'.
    split; [destruct f; [done|]; by destruct (sheetQuery id (tables s'))|].
    split; [|split; [done|intuition eauto]].
    destruct Hi as [->|Hi]; [by left|right; auto].
Qed.

Lemma outcome_kind t f v :
  outcome t f = Ok v →
  match v with FSheet _ => t = false | FSections _ => t = true end.
Proof.
  unfold queryOutcome. destruct f; [done|]. destruct t.
  - by intros [= <-].
  - destruct (sheetQuery id (tables s0)); [done|]. by intros [= <-].
Qed.

Lemma taskInv_frame t g g' :
  getTask t g' = getTask t g →
  (∀ x, x ∈ returned g → x ∈ returned g') →
  (hasReturned t g' → hasReturned t g) →
  (if t then sectionsVar g' = sectionsVar g
   else scoreSheetVar g' = scoreSheetVar g) →
  (lock g' = Some t ↔ lock g = Some t) →
  tInv t g → tInv t g'.
Proof.
  intros Hk Hret Hnot Hvar Hlock. unfold taskInv. rewrite Hk.
  assert (Hinit : varInit t g → varInit t g').
  { unfold varInit. destruct t; congruence. }
  assert (Hass : ∀ f v, outcome t f = Ok v →
                        varAssigned v g → varAssigned v g').
  { intros f v Hv. apply outcome_kind in Hv.
    unfold varAssigned. destruct v, t; congruence. }
  destruct (task_pc (getTask t g)).
  - intros (H1 & H2 & H3). intuition eauto.
  - intros (f & v & H). exists f, v. intuition eauto.
  - intros (f & v & H). exists f, v. intuition eauto.
  - intros (f & v & H). exists f, v. intuition eauto.
  - intros (f & H1 & H2 & H3 & H4). exists f.
    split; [done|]. split; [auto|]. split; [|intuition eauto].
    destruct (outcome t f) eqn:E; eauto.
Qed.

Lemma firstError_app l t err :
  firstError (l ++ [(t, err)])
  = match firstError l with Some e => Some e | None => err end.
Proof.
  induction l as [|[t' [e|]] l IH]; cbn; [by destruct err|done|done].
Qed.

Lemma hasReturned_app t t' err g l :
  returned g = l ++ [(t', err)] → t ≠ t' → t ∈ map fst (returned g) →
  t ∈ map fst l.
Proof.
  intros -> Hne. rewrite map_app, elem_of_app. cbn.
  intros [H|H]; [done|]. apply list_elem_of_singleton in H. done.
Qed.

Lemma hasReturned_taskReturn t t' err g :
  t ≠ t' → hasReturned t (taskReturn t' err g) → hasReturned t g.
Proof.
  unfold hasReturned. intros Hne.
  assert (returned (taskReturn t' err g) = returned g ++ [(t', err)]) as ->
    by (by destruct t').
  rewrite map_app, elem_of_app. cbn. intros [H|H]; [done|].
  by apply list_elem_of_singleton in H.
Qed.

Lemma returned_taskReturn t err g :
  returned (taskReturn t err g) = returned g ++ [(t, err)].
Proof. by destruct t. Qed.

Lemma groupErr_taskReturn t err g :
  groupErr (taskReturn t err g)
  = match groupErr g with Some e => Some e | None => err end.
Proof. by destruct t. Qed.

Lemma NoDup_returned_taskReturn t err g :
  ¬ hasReturned t g → NoDup (map fst (returned g)) →
  NoDup (map fst (returned (taskReturn t err g))).
Proof.
  intros Hnr Hnd. rewrite returned_taskReturn, map_app. cbn.
  apply NoDup_app. split; [done|]. split; [|apply NoDup_singleton].
  intros x Hx Hx'. apply list_elem_of_singleton in Hx' as ->. done.
Qed.

Ltac other_frame Io g :=
  apply (taskInv_frame _ g); [..|exact Io].

Lemma stepTask_inv t g s g' s' :
  gInv g s → enabled t g = true →
  stepTask scanFloat32 id t g s = (g', s') →
  gInv g' s' ∧ (groupStepsLeft g' < groupStepsLeft g)%nat.
Proof.
  intros (I0 & I1 & Ierr & Ind & Htab & Hflt) Hen Hstep.
  assert (It : tInv t g) by (by destruct t).
  assert (Io : tInv (negb t) g) by (by destruct t).
  assert (Hgoal : ∀ g' s',
            tInv t g' → tInv (negb t) g' →
            groupErr g' = firstError (returned g') →
            NoDup (map fst (returned g')) →
            tables s' = tables s0 → (∀ f, f ∈ faults s' → f ∈ faults s0) →
            gInv g' s').
  { intros g1 s1 H1 H2 H3 H4 H5 H6. unfold groupInv.
    destruct t; cbn in H2; auto 10. }
  clear I0 I1.
  unfold stepTask in Hstep. unfold enabled in Hen.
  unfold taskInv in It.
  destruct (task_pc (getTask t g)) eqn:Epc; cbn zeta in It.
  - (* the query *)
    destruct It as (Hnr & Hvi & Hlk).
    destruct (taskQuery_outcome t s Htab Hflt)
      as (f & s1 & Eq & Hinj & Ht1 & Hf1).
    rewrite Eq in Hstep. destruct (outcome t f) as [v|e] eqn:Eo.
    + injection Hstep as <- <-. split.
      * apply Hgoal; try done.
        -- unfold taskInv. destruct t; cbn; exists f, v; by rewrite Eo.
        -- apply (taskInv_frame _ g); [..|exact Io];
             destruct t; cbn; done.
        -- by destruct t.
        -- by destruct t.
      * unfold groupStepsLeft, stepsLeft.
        destruct t; cbn in *; rewrite Epc; lia.
    + injection Hstep as <- <-. split.
      * apply Hgoal; try done.
        -- unfold taskInv.
           assert (task_pc (getTask t (taskReturn t (Some e) g)) = Finished)
             as -> by (by destruct t).
           exists f. rewrite Eo. cbn [errorOf].
           rewrite returned_taskReturn.
           split; [done|]. split; [apply elem_of_app; right; left|].
           split; by destruct t.
        -- apply (taskInv_frame _ g); [..|exact Io].
           ++ by destruct t.
           ++ intros x Hx. rewrite returned_taskReturn.
              apply elem_of_app. by left.
           ++ apply hasReturned_taskReturn. by destruct t.
           ++ by destruct t.
           ++ by destruct t.
        -- rewrite groupErr_taskReturn, returned_taskReturn, firstError_app.
           by rewrite Ierr.
        -- by apply NoDup_returned_taskReturn.
      * unfold groupStepsLeft, stepsLeft.
        destruct t; cbn in *; rewrite Epc; lia.
  - (* the mutex *)
    destruct It as (f & v & Hinj & Eo & Hloc & Hnr & Hvi & Hlk).
    destruct (lock g) eqn:El; [done|].
    injection Hstep as <- <-. split.
    + apply Hgoal; try done.
      * unfold taskInv. destruct t; cbn in *; exists f, v; by rewrite Hloc.
      * apply (taskInv_frame _ g); [..|exact Io];
          destruct t; cbn; try done; rewrite El; split; done.
      * by destruct t.
      * by destruct t.
    + unfold groupStepsLeft, stepsLeft.
      destruct t; cbn in *; rewrite Epc; lia.
  - (* the assignment *)
    destruct It as (f & v & Hinj & Eo & Hloc & Hnr & Hvi & Hlk).
    injection Hstep as <- <-. rewrite Hloc.
    pose proof (outcome_kind t f v Eo) as Hkind. split.
    + apply Hgoal; try done.
      * unfold taskInv.
        destruct t, v; try done; cbn; exists f; eexists;
          (split; [done|]); (split; [exact Eo|]); done.
      * apply (taskInv_frame _ g); [..|exact Io];
          destruct t, v; try done.
      * by destruct t, v.
      * by destruct t, v.
    + unfold groupStepsLeft, stepsLeft.
      destruct t, v; cbn in *; rewrite Epc; lia.
  - (* the return *)
    destruct It as (f & v & Hinj & Eo & Hloc & Hnr & Hva & Hlk).
    injection Hstep as <- <-. split.
    + apply Hgoal; try done.
      * unfold taskInv.
        assert (task_pc (getTask t (taskReturn t None (setLock None g)))
                = Finished) as -> by (by destruct t).
        exists f. rewrite Eo. cbn [errorOf]. rewrite returned_taskReturn.
        split; [done|]. split; [apply elem_of_app; right; left|].
        split; [by destruct t, v|by destruct t].
      * apply (taskInv_frame _ g); [..|exact Io].
        -- by destruct t.
        -- intros x Hx. rewrite returned_taskReturn.
           apply elem_of_app. by left.
        -- intros H. apply hasReturned_taskReturn in H; [done|by destruct t].
        -- by destruct t.
        -- rewrite Hlk. destruct t; cbn; split; done.
      * rewrite groupErr_taskReturn, returned_taskReturn, firstError_app.
        cbn. rewrite Ierr. by destruct (firstError (returned g)).
      * apply NoDup_returned_taskReturn; by destruct t.
    + unfold groupStepsLeft, stepsLeft.
      destruct t; cbn in *; rewrite Epc; lia.
  - done.
Qed.

Lemma some_task_enabled t g s :
  gInv g s → allFinished g = false → enabled t g = false →
  enabled (negb t) g = true.
Proof.
  intros (I0 & I1 & _) Hfin Hen.
  unfold allFinished in Hfin. unfold enabled in *.
  unfold taskInv in I0, I1. cbn [getTask] in I0, I1.
  destruct t; cbn [getTask negb] in *;
    destruct (task_pc (task0 g)) eqn:E0, (task_pc (task1 g)) eqn:E1;
    try done; cbn zeta in *;
    destruct (lock g) as [[|]|] eqn:El; try done;
    repeat match goal with
           | H : ∃ _, _ |- _ => destruct H
           | H : _ ∧ _ |- _ => destruct H
           end; congruence.
Qed.

Lemma nextSched_inv g s :
  gInv g s → gInv g (nextSched s).2.
Proof.
  unfold groupInv, nextSched. by destruct (sched s).
Qed.

Lemma allFinished_stepsLeft g :
  allFinished g = true ↔ groupStepsLeft g = 0%nat.
Proof.
  unfold allFinished, groupStepsLeft, stepsLeft.
  destruct (task_pc (task0 g)), (task_pc (task1 g)); split; done || lia.
Qed.

(** Run to the join: the invariant holds and both tasks have returned. *)
Lemma runGroup_inv fuel g s :
  gInv g s → (groupStepsLeft g ≤ fuel)%nat →
  gInv (runGroup scanFloat32 fuel id g s).1
       (runGroup scanFloat32 fuel id g s).2
  ∧ allFinished (runGroup scanFloat32 fuel id g s).1 = true.
Proof.
  revert g s. induction fuel as [|fuel IH]; intros g s Hinv Hle.
  - cbn. split; [done|]. apply allFinished_stepsLeft. lia.
  - cbn [runGroup]. destruct (allFinished g) eqn:Hfin; [done|].
    pose proof (nextSched_inv g s Hinv) as Hinv1.
    destruct (nextSched s) as [choice s1]. cbn [snd] in Hinv1.
    set (t := if enabled choice g then choice else negb choice).
    assert (Hen : enabled t g = true).
    { subst t. destruct (enabled choice g) eqn:E; [done|].
      by apply (some_task_enabled choice g s1). }
    destruct (stepTask scanFloat32 id t g s1) as [g' s2] eqn:Estep.
    destruct (stepTask_inv t g s1 g' s2 Hinv1 Hen Estep) as [Hinv' Hlt].
    apply IH; [done|lia].
Qed.

Lemma initGroup_inv : gInv initGroup s0.
Proof.
  unfold groupInv, taskInv, hasReturned. cbn.
  split; [|split; [|split; [done|split; [constructor|done]]]];
    (split; [by intros ?%elem_of_nil|done]).
Qed.

Lemma two_returned {X} (l : list (bool * X)) (a b : X) :
  NoDup (map fst l) → (false, a) ∈ l → (true, b) ∈ l →
  l = [(false, a); (true, b)] ∨ l = [(true, b); (false, a)].
Proof.
  intros Hnd Ha Hb.
  destruct l as [|[t1 x1] l]; [by apply elem_of_nil in Ha|].
  destruct l as [|[t2 x2] l].
  { apply list_elem_of_singleton in Ha, Hb. congruence. }
  destruct l as [|[t3 x3] l].
  - cbn in Hnd. apply NoDup_cons in Hnd as [Hn1 _].
    rewrite list_elem_of_singleton in Hn1.
    rewrite !elem_of_cons, elem_of_nil in Ha, Hb.
    destruct t1, t2; try done.
    + right. destruct Ha as [Ha|[Ha|[]]], Hb as [Hb|[Hb|[]]]; congruence.
    + left. destruct Ha as [Ha|[Ha|[]]], Hb as [Hb|[Hb|[]]]; congruence.
  - exfalso. cbn in Hnd.
    apply NoDup_cons in Hnd as [Hn1 Hnd].
    apply NoDup_cons in Hnd as [Hn2 _].
    apply not_elem_of_cons in Hn1 as [H12 Hn1].
    apply not_elem_of_cons in Hn1 as [H13 _].
    apply not_elem_of_cons in Hn2 as [H23 _].
    destruct t1, t2, t3; congruence.
Qed.
End GroupFacts.

(** The two tasks of [FetchScoreSheet] at the end of the run, and the
    result made of them. *)
Lemma FetchScoreSheet_outcome scanFloat32 id s :
  ∃ (f0 f1 : option error) (g : Group) (s' : Store),
    runGroup scanFloat32 8 id initGroup s = (g, s')
    ∧ allFinished g = true
    ∧ injected s f0 ∧ injected s f1 ∧ tables s' = tables s
    ∧ let header := queryOutcome scanFloat32 id (tables s) false f0 in
      let sections := queryOutcome scanFloat32 id (tables s) true f1 in
      (returned g = [(false, errorOf header); (true, errorOf sections)]
       ∨ returned g = [(true, errorOf sections); (false, errorOf header)])
      ∧ match header, sections with
        | Ok (FSheet r), Ok (FSections l) =>
            FetchScoreSheet scanFloat32 id s
            = (Ok (Some (sheetOf r l)), s')
        | _, _ =>
            ∃ e, firstError (returned g) = Some e
                 ∧ FetchScoreSheet scanFloat32 id s
                   = (Err (wrapError "Error fetching: " e), s')
        end.
Proof.
  destruct (runGroup_inv scanFloat32 id s 8 initGroup s
              (initGroup_inv scanFloat32 id s)) as [Hinv Hfin];
    [cbn; lia|].
  unfold FetchScoreSheet.
  destruct (runGroup scanFloat32 8 id initGroup s) as [g s'].
  cbn [fst snd] in Hinv, Hfin.
  destruct Hinv as (I0 & I1 & Ierr & Hnd & Htab & _).
  unfold allFinished in Hfin. unfold taskInv in I0, I1.
  cbn [getTask] in I0, I1.
  destruct (task_pc (task0 g)) eqn:E0; try done.
  destruct (task_pc (task1 g)) eqn:E1; try done.
  destruct I0 as (f0 & Hi0 & Hr0 & Hv0 & _).
  destruct I1 as (f1 & Hi1 & Hr1 & Hv1 & _).
  exists f0, f1, g, s'.
  split; [done|]. split; [by unfold allFinished; rewrite E0, E1|].
  split; [done|]. split; [done|]. split; [done|]. cbn zeta.
  pose proof (two_returned _ _ _ Hnd Hr0 Hr1) as Hret.
  split; [exact Hret|].
  rewrite Ierr.
  pose proof (outcome_kind scanFloat32 id s false f0) as Hk0.
  pose proof (outcome_kind scanFloat32 id s true f1) as Hk1.
  destruct (queryOutcome scanFloat32 id (tables s) false f0) as [v0|e0];
    destruct (queryOutcome scanFloat32 id (tables s) true f1) as [v1|e1];
    cbn [errorOf] in *.
  - specialize (Hk0 v0 eq_refl). specialize (Hk1 v1 eq_refl).
    destruct v0 as [r|]; [|done]. destruct v1 as [|l]; [done|].
    cbn in Hv0, Hv1. rewrite Hv0, Hv1.
    by destruct Hret as [-> | ->].
  - assert (firstError (returned g) = Some e1) as ->
      by (by destruct Hret as [-> | ->]).
    destruct v0; eauto.
  - assert (firstError (returned g) = Some e0) as ->
      by (by destruct Hret as [-> | ->]).
    destruct v1; eauto.
  - destruct Hret as [-> | ->]; cbn; eauto.
Qed.

(** X1 (C6): [FetchScoreSheet] runs the header query and the sections query
    as two concurrent tasks and joins them.  Whatever the schedule and
    whatever failures the store injects, the join returns only when both
    tasks have returned; when both queries succeed the composite sheet
    (header, and sections in display order) is returned; when either
    fails the fetch returns the error of the task that returned an error
    first (wrapped in the fetch's message), and no sheet. *)
Theorem FetchScoreSheet_join scanFloat32 id s :
  ∃ (f0 f1 : option error) (g : Group) (s' : Store),
    runGroup scanFloat32 8 id initGroup s = (g, s')
    ∧ allFinished g = true
    ∧ injected s f0 ∧ injected s f1 ∧ tables s' = tables s
    ∧ let header := queryOutcome scanFloat32 id (tables s) false f0 in
      let sections := queryOutcome scanFloat32 id (tables s) true f1 in
      (returned g = [(false, errorOf header); (true, errorOf sections)]
       ∨ returned g = [(true, errorOf sections); (false, errorOf header)])
      ∧ match header, sections with
        | Ok (FSheet r), Ok (FSections l) =>
            FetchScoreSheet scanFloat32 id s
            = (Ok (Some (sheetOf r l)), s')
        | _, _ =>
            ∃ e, firstError (returned g) = Some e
                 ∧ FetchScoreSheet scanFloat32 id s
                   = (Err (wrapError "Error fetching: " e), s')
        end.
Proof.
  destruct (FetchScoreSheet_outcome scanFloat32 id s)
    as (f0 & f1 & g & s' & Hrun & Hfin & Hi0 & Hi1 & Htables & Hjoin).
  exists f0, f1, g, s'.
  split; [exact Hrun|]. split; [exact Hfin|]. split; [exact Hi0|].
  split; [exact Hi1|]. split; [exact Htables|]. exact Hjoin.
Qed.

(** ** How the store handle moves *)

Lemma follows_refl P s : follows P s s.
Proof.
  split; [exists []|exists []]; [|done]. by rewrite app_nil_r.
Qed.

Lemma follows_trans P s1 s2 s3 :
  follows P s1 s2 → follows P s2 s3 → follows P s1 s3.
Proof.
  intros [(l1 & E1 & H1) (k1 & F1)] [(l2 & E2 & H2) (k2 & F2)]. split.
  - exists (l1 ++ l2). rewrite E2, E1, app_assoc. split; [done|].
    by apply Forall_app.
  - exists (k1 ++ k2). by rewrite F1, F2, app_assoc.
Qed.

Lemma follows_impl (P Q : Stmt → Prop) s s' :
  (∀ st, P st → Q st) → follows P s s' → follows Q s s'.
Proof.
  intros HPQ [(l & E & H) Hk]. split; [|done]. exists l. split; [done|].
  eapply Forall_impl; [exact H|done].
Qed.

Lemma follows_faults P s s' :
  follows P s s' → (length (faults s') ≤ length (faults s))%nat.
Proof. intros [_ (k & ->)]. rewrite length_app. lia. Qed.

Lemma send_follows (P : Stmt → Prop) st s :
  P st → follows P s (send st s).2.
Proof.
  intros HP. unfold send. destruct (faults s) as [|f fs] eqn:E; cbn.
  - split; [exists [st]; by repeat constructor|exists []; by rewrite E].
  - split; [exists [st]; by repeat constructor|exists [f]; by rewrite E].
Qed.

Lemma send_fault st s e :
  (send st s).1 = Some e →
  (length (faults (send st s).2) < length (faults s))%nat.
Proof.
  unfold send. destruct (faults s) as [|f fs]; cbn; [done|]. lia.
Qed.

Lemma nextSched_store s :
  tables (nextSched s).2 = tables s ∧ log (nextSched s).2 = log s
  ∧ faults (nextSched s).2 = faults s.
Proof. unfold nextSched. by destruct (sched s). Qed.

Lemma withTables_follows P T s s' :
  follows P s s' → follows P s (withTables T s').
Proof. done. Qed.

Section ScoreSheetFacts.
Variable scanFloat32 : decimal → float64.
Variable encodeValue : float64 → option decimal.
Variable emptyStatement : option error.

Local Abbreviation Fetch := (FetchScoreSheet scanFloat32).

Lemma taskQuery_follows id t s :
  tables (taskQuery scanFloat32 id t s).2 = tables s
  ∧ follows (fetchStatement id) s (taskQuery scanFloat32 id t s).2.
Proof.
  unfold taskQuery, bind, Select, Get, ret. destruct t.
  - pose proof (send_tables (SelectSections id) s) as Ht.
    pose proof (send_follows (fetchStatement id) (SelectSections id) s)
      as Hf.
    destruct (send (SelectSections id) s) as [[e|] s1]; cbn in *;
      (split; [done|apply Hf; by right]).
  - pose proof (send_tables (SelectScoreSheet id) s) as Ht.
    pose proof (send_follows (fetchStatement id) (SelectScoreSheet id) s)
      as Hf.
    destruct (send (SelectScoreSheet id) s) as [[e|] s1]; cbn in *;
      [|destruct (sheetQuery id (tables s1))];
      (split; [done|apply Hf; by left]).
Qed.

Lemma stepTask_follows id t g s :
  tables (stepTask scanFloat32 id t g s).2 = tables s
  ∧ follows (fetchStatement id) s (stepTask scanFloat32 id t g s).2.
Proof.
  unfold stepTask. destruct (task_pc (getTask t g)).
  - pose proof (taskQuery_follows id t s) as H.
    by destruct (taskQuery scanFloat32 id t s) as [[v|e] s1].
  - destruct (lock g); split; try done; apply follows_refl.
  - split; [done|apply follows_refl].
  - split; [done|apply follows_refl].
  - split; [done|apply follows_refl].
Qed.

Lemma runGroup_follows fuel id g s :
  tables (runGroup scanFloat32 fuel id g s).2 = tables s
  ∧ follows (fetchStatement id) s (runGroup scanFloat32 fuel id g s).2.
Proof.
  revert g s. induction fuel as [|fuel IH]; intros g s; cbn [runGroup].
  - split; [done|apply follows_refl].
  - destruct (allFinished g); [split; [done|apply follows_refl]|].
    destruct (nextSched_store s) as (Ht & Hl & Hf).
    destruct (nextSched s) as [choice s1]. cbn [snd] in *.
    pose proof (stepTask_follows id
                  (if enabled choice g then choice else negb choice) g s1)
      as [Ht2 Hf2].
    destruct (stepTask scanFloat32 id _ g s1) as [g' s2]. cbn [snd] in *.
    destruct (IH g' s2) as [Ht3 Hf3]. split; [congruence|].
    apply follows_trans with s2; [|done].
    destruct Hf2 as [(l & El & Hl2) (k & Ek)].
    split; [exists l; by rewrite <- Hl|exists k; by rewrite <- Hf].
Qed.

(** A fetch changes no table and sends its two queries only. *)
Lemma FetchScoreSheet_follows id s :
  tables (Fetch id s).2 = tables s
  ∧ follows (fetchStatement id) s (Fetch id s).2.
Proof.
  unfold FetchScoreSheet.
  pose proof (runGroup_follows 8 id initGroup s) as H.
  destruct (runGroup scanFloat32 8 id initGroup s) as [g s'].
  destruct (groupErr g); [done|]. by destruct (scoreSheetVar g).
Qed.

(** A fetch gives a sheet or an error made by [errors.New], never
    neither. *)
Lemma FetchScoreSheet_result id s :
  (∃ sheet, (Fetch id s).1 = Ok (Some sheet))
  ∨ (∃ e, (Fetch id s).1 = Err (wrapError "Error fetching: " e)).
Proof.
  destruct (FetchScoreSheet_outcome scanFloat32 id s)
    as (f0 & f1 & g & s' & _ & _ & _ & _ & _ & HH).
  cbv zeta in HH. destruct HH as [_ H].
  destruct (queryOutcome scanFloat32 id (tables s) false f0) as [[r|l]|e0];
    destruct (queryOutcome scanFloat32 id (tables s) true f1)
      as [[r'|l']|e1];
    try (destruct H as (e & _ & ->); right; by exists e).
  rewrite H. left. eauto.
Qed.

Lemma FetchScoreSheet_not_nil id s : (Fetch id s).1 ≠ Ok None.
Proof.
  destruct (FetchScoreSheet_result id s) as [(sh & ->)|(e & ->)]; done.
Qed.

Lemma hasId_false {R} (idOf : R → string) id (rows : list R) :
  hasId idOf id rows = false ↔ ∀ r, r ∈ rows → idOf r ≠ id.
Proof.
  unfold hasId. induction rows as [|r rows IH]; cbn.
  - split; [intros _ r Hr; by apply elem_of_nil in Hr|done].
  - rewrite orb_false_iff, IH. split.
    + intros [Hr Hrows] r' [->|Hin]%elem_of_cons; [|by apply Hrows].
      by apply String.eqb_neq.
    + intros H. split; [apply String.eqb_neq, H; left|].
      intros r' Hin. apply H. by right.
Qed.

Lemma hasId_true {R} (idOf : R → string) id (rows : list R) :
  hasId idOf id rows = true ↔ ∃ r, r ∈ rows ∧ idOf r = id.
Proof.
  unfold hasId. rewrite existsb_exists. split.
  - intros (r & Hin & Heq). exists r.
    split; [by apply list_elem_of_In|by apply String.eqb_eq].
  - intros (r & Hin & Heq). exists r.
    split; [by apply list_elem_of_In|by apply String.eqb_eq].
Qed.

(** Without a row of that id the header query has no row. *)
Lemma sheetQuery_absent id (T : Tables) :
  hasId ss_id id (score_sheets T) = false → sheetQuery id T = [].
Proof.
  intros Habs. apply elem_of_nil_inv. intros row Hrow.
  unfold sheetQuery in Hrow.
  apply list_elem_of_bind in Hrow as (ss & Hrow & Hss).
  apply list_elem_of_bind in Hrow as (tpl & Hrow & _).
  apply list_elem_of_bind in Hrow as (t & Hrow & _).
  apply list_elem_of_bind in Hrow as (i & Hrow & _).
  apply list_elem_of_bind in Hrow as (u & Hrow & _).
  destruct (String.eqb_spec (ss_id ss) id) as [E|N].
  - rewrite hasId_false in Habs. by apply (Habs ss).
  - cbn beta in Hrow. rewrite andb_false_r in Hrow.
    by apply elem_of_nil in Hrow.
Qed.

(** Fetching a sheet that is not there gives an error: the one of
    [sql.ErrNoRows], or a failure that the store injected. *)
Lemma FetchScoreSheet_absent id s :
  hasId ss_id id (score_sheets (tables s)) = false →
  ∃ e, (Fetch id s).1 = Err (wrapError "Error fetching: " e)
       ∧ (e = ErrNoRows ∨ Some e ∈ faults s)
       ∧ (faults s = [] → e = ErrNoRows).
Proof.
  intros Habs. apply sheetQuery_absent in Habs.
  destruct (FetchScoreSheet_outcome scanFloat32 id s)
    as (f0 & f1 & g & s' & _ & _ & Hi0 & Hi1 & _ & HH).
  cbv zeta in HH. destruct HH as [Hret H].
  unfold queryOutcome in H, Hret.
  destruct (sheetQuery id (tables s)); [clear Habs|done].
  assert (Hcases :
    ∀ e, firstError (returned g) = Some e →
         (e = ErrNoRows ∨ Some e ∈ faults s)
         ∧ (faults s = [] → e = ErrNoRows)).
  { intros e He. unfold injected in Hi0, Hi1.
    destruct f0 as [e0|], f1 as [e1|]; cbn [errorOf] in Hret;
      destruct Hret as [Hret|Hret]; rewrite Hret in He; cbn in He;
      injection He as <-;
      destruct Hi0 as [?|Hi0], Hi1 as [?|Hi1]; try done;
      (split; [auto|intros Hnil; try rewrite Hnil in Hi0;
                     try rewrite Hnil in Hi1;
                     try (by apply elem_of_nil in Hi0);
                     try (by apply elem_of_nil in Hi1); done]). }
  destruct f0 as [e0|]; [destruct f1 as [e1|]|destruct f1 as [e1|]];
    destruct H as (e & He & ->); exists e; (split; [done|by apply Hcases]).
Qed.

(** ** The statements of [CreateScoreSheet] and [UpdateScoreSheet] *)

Lemma nextUuid_store s :
  tables (nextUuid s).2 = tables s ∧ log (nextUuid s).2 = log s
  ∧ faults (nextUuid s).2 = faults s ∧ clock (nextUuid s).2 = clock s.
Proof. unfold nextUuid. by destruct (uuids s). Qed.

Lemma send_cases (P : Stmt → Prop) st s :
  P st →
  follows P s (send st s).2 ∧ tables (send st s).2 = tables s
  ∧ clock (send st s).2 = clock s
  ∧ (∀ e, (send st s).1 = Some e →
          (length (faults (send st s).2) < length (faults s))%nat).
Proof.
  intros HP. split; [by apply send_follows|]. split; [apply send_tables|].
  split; [unfold send; by destruct (faults s)|]. apply send_fault.
Qed.

Lemma follows_nextUuid P s s' :
  follows P s s' → follows P s (nextUuid s').2.
Proof.
  destruct (nextUuid_store s') as (_ & Hl & Hf & _).
  intros [(l & El & Hl') (k & Ek)].
  split; [exists l; by rewrite Hl|exists k; by rewrite Hf].
Qed.

Lemma execInsertScoreSheet_spec (P : Stmt → Prop) H division team
    template timings comments round author s :
  P (InsertScoreSheet division team template timings comments round author) →
  runSpec P H
    (execInsertScoreSheet division team template timings comments round
       author) s
    (λ id s',
       hasId ss_id id (score_sheets (tables s)) = false
       ∧ tables s'
         = setScoreSheets
             (score_sheets (tables s)
              ++ [mkScoreSheetRow id division team template timings author
                    comments round (clock s)])
             (tables s)).
Proof.
  intros HP. unfold runSpec, execInsertScoreSheet.
  destruct (send_cases P _ s HP) as (Hf & Ht & Hc & Hlt).
  destruct (send _ s) as [[e|] s1]; cbn [fst snd] in *.
  { split; [done|]. right. intros _. by apply (Hlt e). }
  pose proof (follows_nextUuid P s s1 Hf) as Hf2.
  destruct (nextUuid_store s1) as (Ht2 & _ & Hfl2 & Hc2).
  destruct (nextUuid s1) as [id s2]. cbn [fst snd] in *.
  rewrite Ht2, Ht, Hc2, Hc.
  destruct (hasId ss_id id (score_sheets (tables s))) eqn:Eid;
    cbn [fst snd].
  { split; [done|]. by right. }
  destruct (_ && _); cbn [fst snd].
  - split; [done|]. done.
  - split; [done|]. by right.
Qed.

Lemma sectionRows_spec (P : Stmt → Prop) T existing rows s :
  follows P s (sectionRows encodeValue T existing rows s).2
  ∧ tables (sectionRows encodeValue T existing rows s).2 = tables s
  ∧ match (sectionRows encodeValue T existing rows s).1 with
    | Ok rs => Forall2 (rowOf encodeValue) rs rows
    | Err e => retryable e = false
    end.
Proof.
  revert existing s. induction rows as [|[[section value] sheet] rows IH];
    intros existing s; cbn [sectionRows].
  - split; [apply follows_refl|]. split; [done|]. constructor.
  - pose proof (follows_nextUuid P s s (follows_refl P s)) as Hf.
    destruct (nextUuid_store s) as (Ht & _).
    destruct (nextUuid s) as [id s1]. cbn [snd] in *.
    destruct (hasId sec_id id existing); [done|].
    destruct (_ && _); [|done].
    destruct (encodeValue value) as [v|] eqn:Ev; [|done].
    specialize (IH (existing ++ [mkSectionRow id section v sheet]) s1).
    destruct (sectionRows _ _ _ rows s1) as [[rs|e] s2];
      cbn [fst snd] in *; destruct IH as (Hf2 & Ht2 & Hr).
    + split; [by apply follows_trans with s1|]. split; [congruence|].
      constructor; [|done]. by unfold rowOf.
    + split; [by apply follows_trans with s1|]. split; [congruence|done].
Qed.

Lemma setSections_nil T :
  setSections (score_sheet_sections T ++ []) T = T.
Proof. destruct T. unfold setSections. cbn. by rewrite app_nil_r. Qed.

Lemma execInsertSections_spec (P : Stmt → Prop) (H : error → Prop) rows s :
  P (InsertSections rows) →
  (∀ e, emptyStatement = Some e → H e) →
  runSpec P H
    (execInsertSections encodeValue emptyStatement rows) s
    (λ _ s',
       ∃ rs, Forall2 (rowOf encodeValue) rs rows
             ∧ tables s'
               = setSections (score_sheet_sections (tables s) ++ rs)
                   (tables s)).
Proof.
  intros HP Hempty. unfold runSpec, execInsertSections.
  destruct (send_cases P _ s HP) as (Hf & Ht & Hc & Hlt).
  destruct (send _ s) as [[e|] s1]; cbn [fst snd] in *.
  { split; [done|]. right. intros _. by apply (Hlt e). }
  destruct rows as [|r rows].
  - destruct emptyStatement as [e|] eqn:Ee; cbn [fst snd].
    + split; [done|]. left. by apply Hempty.
    + split; [done|]. exists []. split; [constructor|].
      by rewrite Ht, setSections_nil.
  - pose proof (sectionRows_spec P (tables s1)
                  (score_sheet_sections (tables s1)) (r :: rows) s1)
      as (Hf2 & Ht2 & Hr).
    destruct (sectionRows _ _ _ (r :: rows) s1) as [[rs|e] s2];
      cbn [fst snd] in *.
    + split; [by apply follows_trans with s1|].
      exists rs. split; [done|]. by rewrite Ht.
    + split; [by apply follows_trans with s1|].
      right. by rewrite Hr.
Qed.

Lemma sameRows_refl T : sameRows T T.
Proof. by repeat split. Qed.

Lemma sameRows_trans T1 T2 T3 :
  sameRows T1 T2 → sameRows T2 T3 → sameRows T1 T3.
Proof.
  unfold sameRows. intros (?&?&?&?&?&?&?&?) (?&?&?&?&?&?&?&?).
  repeat split; congruence.
Qed.

Lemma execUpdateScoreSheet_spec (P : Stmt → Prop) H id team timings
    comments s :
  P (UpdateScoreSheetRow id team timings comments) →
  runSpec P H (execUpdateScoreSheet id team timings comments) s
    (λ _ s', sameRows (tables s) (tables s')).
Proof.
  intros HP. unfold runSpec, execUpdateScoreSheet.
  destruct (send_cases P _ s HP) as (Hf & Ht & Hc & Hlt).
  destruct (send _ s) as [[e|] s1]; cbn [fst snd] in *.
  { split; [done|]. right. intros _. by apply (Hlt e). }
  destruct (_ && _); cbn [fst snd]; [split; [done|by right]|].
  split; [done|]. rewrite Ht. unfold sameRows, setScoreSheets. cbn.
  repeat split. rewrite map_map. apply map_ext. intros r.
  by destruct (String.eqb (ss_id r) id).
Qed.

Lemma execUpdateSection_spec (P : Stmt → Prop) H id value s :
  P (UpdateSectionValue id value) →
  runSpec P H (execUpdateSection encodeValue id value) s
    (λ _ s', sameRows (tables s) (tables s')).
Proof.
  intros HP. unfold runSpec, execUpdateSection.
  destruct (send_cases P _ s HP) as (Hf & Ht & Hc & Hlt).
  destruct (send _ s) as [[e|] s1]; cbn [fst snd] in *.
  { split; [done|]. right. intros _. by apply (Hlt e). }
  destruct (encodeValue value) as [v|].
  - cbn [fst snd]. split; [done|]. rewrite Ht.
    unfold sameRows, setSections. cbn.
    repeat split. rewrite map_map. apply map_ext. intros r.
    by destruct (String.eqb (sec_id r) id).
  - destruct (hasId _ _ _); cbn [fst snd]; [split; [done|by right]|].
    split; [done|]. rewrite Ht. apply sameRows_refl.
Qed.

(** Sequencing keeps a specification. *)
Lemma bind_spec {A B} (P : Stmt → Prop) H (m : M A) (k : A → M B) s
    (okA : A → Store → Prop) (okB : B → Store → Prop) :
  runSpec P H m s okA →
  (∀ a s1, okA a s1 → runSpec P H (k a) s1 okB) →
  runSpec P H (bind m k) s okB.
Proof.
  unfold runSpec, bind. intros [Hf Hm] Hk.
  destruct (m s) as [[a|e] s1]; cbn [fst snd] in *; [|done].
  specialize (Hk a s1 Hm) as [Hf2 Hk].
  split; [by apply follows_trans with s1|].
  destruct (k a s1) as [[b|e] s2]; cbn [fst snd] in *; [done|].
  destruct Hk as [Hk|Hk]; [by left|right].
  intros Hr. specialize (Hk Hr). apply follows_faults in Hf. lia.
Qed.

Lemma runSpec_impl {A} (P : Stmt → Prop) H (m : M A) s
    (ok ok' : A → Store → Prop) :
  (∀ a s', ok a s' → ok' a s') → runSpec P H m s ok → runSpec P H m s ok'.
Proof.
  unfold runSpec. intros Himpl [Hf Hm]. split; [done|].
  destruct (m s).1; auto.
Qed.

Lemma updateSections_spec (P : Stmt → Prop) H sections s :
  (∀ id value, P (UpdateSectionValue id value)) →
  runSpec P H (updateSections encodeValue sections) s
    (λ _ s', sameRows (tables s) (tables s')).
Proof.
  intros HP. revert s. induction sections as [|section rest IH]; intros s.
  - split; [apply follows_refl|apply sameRows_refl].
  - cbn [updateSections].
    eapply bind_spec; [by apply execUpdateSection_spec|].
    intros u s1 Hs1. cbn beta in Hs1.
    eapply runSpec_impl; [|apply IH].
    intros u2 s2 Hs2. by apply sameRows_trans with (tables s1).
Qed.

Lemma createClosure_spec handler s :
  runSpec (λ _, True) (closureError emptyStatement handler)
    (createClosure encodeValue emptyStatement handler) s
    (λ id s',
       ∃ scoreSheet rs,
         handler emptyScoreSheet = (None, scoreSheet)
         ∧ hasId ss_id id (score_sheets (tables s)) = false
         ∧ sectionRowsOf encodeValue rs scoreSheet id
         ∧ tables s' = createdTables (tables s) (clock s) id scoreSheet rs).
Proof.
  unfold createClosure.
  destruct (handler emptyScoreSheet) as [[e|] scoreSheet] eqn:Eh.
  { split; [apply follows_refl|]. left. right. exists emptyScoreSheet.
    by rewrite Eh. }
  eapply bind_spec; [by apply execInsertScoreSheet_spec|].
  intros id s1 [Hfresh Hs1].
  eapply bind_spec.
  { apply execInsertSections_spec; [done|]. intros e He. by left. }
  intros u s2 (rs & Hrs & Hs2). split; [apply follows_refl|].
  cbn [ret fst snd]. exists scoreSheet, rs. repeat split; try done.
  rewrite Hs2, Hs1. reflexivity.
Qed.

Lemma follows_updateStatement id s s' :
  follows (fetchStatement id) s s' → follows (updateStatement id) s s'.
Proof.
  apply follows_impl. intros st [->| ->]; reflexivity.
Qed.

Lemma updateClosure_spec id handler s :
  runSpec (updateStatement id) (closureError emptyStatement handler)
    (updateClosure scanFloat32 encodeValue id handler) s
    (λ _ s', sameRows (tables s) (tables s')).
Proof.
  unfold updateClosure, runSpec, bind.
  destruct (FetchScoreSheet_follows id s) as [Ht Hf].
  apply follows_updateStatement in Hf.
  pose proof (FetchScoreSheet_not_nil id s) as Hnil.
  destruct (Fetch id s) as [[[sheet|]|e] s1] eqn:Ef; cbn [fst snd] in *.
  - destruct (handler sheet) as [[e|] scoreSheet] eqn:Eh.
    { cbn [fail fst snd]. split; [done|]. left. right. exists sheet.
      by rewrite Eh. }
    assert (runSpec (updateStatement id) (closureError emptyStatement handler)
              (bind
                 (execUpdateScoreSheet id (GetTeamId scoreSheet)
                    (jsonTimings scoreSheet) (sh_Comments scoreSheet))
                 (λ _, updateSections encodeValue (sh_Sections scoreSheet)))
              s1 (λ _ s', sameRows (tables s1) (tables s'))) as [Hf2 Hr].
    { eapply bind_spec; [by apply execUpdateScoreSheet_spec|].
      intros u s2 Hs2. cbn beta in Hs2.
      eapply runSpec_impl; [|by apply updateSections_spec].
      intros u2 s3 Hs3. by apply sameRows_trans with (tables s2). }
    unfold bind in Hf2, Hr.
    split; [by apply follows_trans with s1|].
    destruct (execUpdateScoreSheet _ _ _ _ s1) as [[u|e] s2];
      cbn [fst snd] in *.
    + destruct (updateSections _ _ s2) as [[u2|e] s3]; cbn [fst snd] in *.
      * by rewrite <- Ht.
      * destruct Hr as [Hr|Hr]; [by left|right]. intros He.
        specialize (Hr He). apply follows_faults in Hf. lia.
    + destruct Hr as [Hr|Hr]; [by left|right]. intros He.
      specialize (Hr He). apply follows_faults in Hf. lia.
  - done.
  - split; [done|]. right.
    destruct (FetchScoreSheet_result id s) as [[sheet Hs]|[e' He']];
      rewrite Ef in *; cbn [fst] in *; [done|].
    injection He' as ->. done.
Qed.

(** ** The transaction executor *)

(** The outcome of a transaction: it committed the work of a run of the
    closure that began from the tables it found, or it failed and the
    tables are those it found. *)
Lemma ExecuteTxx_cases {A} (P : Stmt → Prop) fuel (fn : M A) s r s' :
  P Commit →
  (∀ s1, follows P s1 (fn s1).2) →
  ExecuteTxx fuel fn s = Some (r, s') →
  follows P s s'
  ∧ ∃ sa, tables sa = tables s ∧ follows P s sa ∧ follows P sa s'
     ∧ match r with
       | Ok a =>
           ∃ sb, fn sa = (Ok a, sb) ∧ send Commit sb = (None, s')
       | Err e =>
           tables s' = tables s
           ∧ ((fn sa).1 = Err e
              ∨ ∃ a, (fn sa).1 = Ok a
                     ∧ (send Commit (fn sa).2).1 = Some e)
       end.
Proof.
  intros HP Hfn. revert s.
  induction fuel as [|fuel IH]; intros s Hrun; [done|].
  cbn [ExecuteTxx] in Hrun. specialize (Hfn s) as Hf1.
  destruct (fn s) as [[a|e] s1] eqn:Efn; cbn [fst snd] in *.
  - destruct (send_cases P Commit s1 HP) as (Hf2 & Ht2 & _ & _).
    destruct (send Commit s1) as [[e|] s2] eqn:Ec; cbn [fst snd] in *.
    + assert (follows P s (withTables (tables s) s2)) as Hfs.
      { apply withTables_follows. by apply follows_trans with s1. }
      destruct (retryable e).
      * destruct (IH _ Hrun) as (Hf & sa & Hta & Hfa & Hfa' & Hr).
        split; [by apply follows_trans with (withTables (tables s) s2)|].
        exists sa. split; [done|].
        split; [by apply follows_trans with (withTables (tables s) s2)|].
        split; [done|]. destruct r; [done|].
        destruct Hr as [Hr1 Hr2]. done.
      * injection Hrun as <- <-. split; [done|]. exists s.
        split; [done|]. split; [apply follows_refl|]. split; [done|].
        split; [done|]. right. exists a. rewrite Efn. cbn [fst snd]. by rewrite Ec.
    + injection Hrun as <- <-.
      split; [by apply follows_trans with s1|]. exists s.
      split; [done|]. split; [apply follows_refl|].
      split; [by apply follows_trans with s1|]. exists s1. by split.
  - assert (follows P s (withTables (tables s) s1)) as Hfs.
    { by apply withTables_follows. }
    destruct (retryable e).
    + destruct (IH _ Hrun) as (Hf & sa & Hta & Hfa & Hfa' & Hr).
      split; [by apply follows_trans with (withTables (tables s) s1)|].
      exists sa. split; [done|].
      split; [by apply follows_trans with (withTables (tables s) s1)|].
      split; [done|]. destruct r; [done|].
      destruct Hr as [Hr1 Hr2]. done.
    + injection Hrun as <- <-. split; [done|]. exists s.
      split; [done|]. split; [apply follows_refl|]. split; [done|].
      split; [done|]. left. by rewrite Efn.
Qed.

(** With more attempts allowed than the store has failures to inject, a
    transaction ends: every attempt that is run again used one up. *)
Lemma ExecuteTxx_ends {A} (P : Stmt → Prop) (H : error → Prop) fuel
    (fn : M A) s :
  (∀ e, H e → retryable e = false) →
  (∀ s1, runSpec P H fn s1 (λ _ _, True)) →
  (length (faults s) < fuel)%nat →
  ∃ r s', ExecuteTxx fuel fn s = Some (r, s').
Proof.
  intros HH Hfn. revert s.
  induction fuel as [|fuel IH]; intros s Hlen; [lia|].
  cbn [ExecuteTxx]. destruct (Hfn s) as [Hf1 Hr].
  apply follows_faults in Hf1.
  destruct (fn s) as [[a|e] s1]; cbn [fst snd] in *.
  - destruct (send_cases (λ _, True) Commit s1 I) as (_ & _ & _ & Hlt).
    destruct (send Commit s1) as [[e|] s2]; cbn [fst snd] in *;
      [|by eauto].
    destruct (retryable e); [|by eauto].
    apply IH. cbn. specialize (Hlt e eq_refl). lia.
  - destruct (retryable e) eqn:Er; [|by eauto].
    apply IH. cbn. destruct Hr as [Hr|Hr].
    + apply HH in Hr. congruence.
    + specialize (Hr eq_refl). lia.
Qed.

End ScoreSheetFacts.

(** ** [CreateScoreSheet] and [UpdateScoreSheet] *)

Section TransactionFacts.
Variable scanFloat32 : decimal → float64.
Variable encodeValue : float64 → option decimal.
Variable emptyStatement : option error.

Local Abbreviation Fetch := (FetchScoreSheet scanFloat32).
Local Abbreviation Create :=
  (CreateScoreSheet scanFloat32 encodeValue emptyStatement).
Local Abbreviation Update := (UpdateScoreSheet scanFloat32 encodeValue).
Local Abbreviation createFn :=
  (createClosure encodeValue emptyStatement).
Local Abbreviation updateFn := (updateClosure scanFloat32 encodeValue).

Lemma createClosure_follows handler s :
  follows (λ _, True) s (createFn handler s).2.
Proof. apply (createClosure_spec encodeValue emptyStatement handler s). Qed.

(** Either the transaction of [CreateScoreSheet] was rolled back, or it
    committed a run of the closure in which the mutator and both inserts
    succeeded, and the result is that of the fetch that follows. *)
Lemma CreateScoreSheet_cases fuel handler s r s' :
  Create fuel handler s = Some (r, s') →
  (∃ e sa, r = Err e ∧ tables s' = tables s ∧ tables sa = tables s
     ∧ ((createFn handler sa).1 = Err e
        ∨ ∃ id, (createFn handler sa).1 = Ok id
                ∧ (send Commit (createFn handler sa).2).1 = Some e))
  ∨ (∃ sa sb sc id scoreSheet rs,
       tables sa = tables s
       ∧ createFn handler sa = (Ok id, sb)
       ∧ handler emptyScoreSheet = (None, scoreSheet)
       ∧ hasId ss_id id (score_sheets (tables s)) = false
       ∧ sectionRowsOf encodeValue rs scoreSheet id
       ∧ tables sc = createdTables (tables s) (clock sa) id scoreSheet rs
       ∧ Fetch id sc = (r, s')
       ∧ tables s' = tables sc).
Proof.
  unfold CreateScoreSheet. intros Hrun.
  destruct (ExecuteTxx fuel _ s) as [[r0 s0]|] eqn:Etx; [|done].
  apply (ExecuteTxx_cases (λ _, True)) in Etx;
    [|done|by apply createClosure_follows].
  destruct Etx as (_ & sa & Hta & _ & _ & Hr).
  destruct r0 as [id|e].
  - right. destruct Hr as (sb & Hfn & Hcommit).
    destruct (createClosure_spec encodeValue emptyStatement handler sa)
      as [_ Hok].
    rewrite Hfn in Hok. cbn [fst snd] in Hok.
    destruct Hok as (scoreSheet & rs & Hh & Hfresh & Hrs & Htb).
    destruct (send_cases (λ _, True) Commit sb I) as (_ & Htc & _ & _).
    rewrite Hcommit in Htc. cbn [snd] in Htc.
    destruct (FetchScoreSheet_follows scanFloat32 id s0) as [Htf _].
    injection Hrun as Hrun. rewrite Hrun in Htf. cbn [snd] in Htf.
    exists sa, sb, s0, id, scoreSheet, rs. rewrite <- Hta.
    repeat split; try done. by rewrite Htc.
  - left. injection Hrun as <- <-. exists e, sa. by destruct Hr.
Qed.

Lemma closure_ends {A} (P : Stmt → Prop) H fuel (fn : M A) s
    (ok : Store → A → Store → Prop) :
  (∀ e, H e → retryable e = false) →
  (∀ s1, runSpec P H fn s1 (ok s1)) →
  (length (faults s) < fuel)%nat →
  ∃ r s', ExecuteTxx fuel fn s = Some (r, s').
Proof.
  intros HH Hfn. apply (ExecuteTxx_ends P H); [done|].
  intros s1. eapply runSpec_impl; [|apply Hfn]. done.
Qed.

Lemma CreateScoreSheet_ends fuel handler s :
  (∀ e, closureError emptyStatement handler e → retryable e = false) →
  (length (faults s) < fuel)%nat →
  ∃ r s', Create fuel handler s = Some (r, s').
Proof.
  intros HH Hlen. unfold CreateScoreSheet.
  destruct (closure_ends _ _ fuel (createFn handler) s _ HH
              (createClosure_spec encodeValue emptyStatement handler) Hlen)
    as (r & s' & ->).
  destruct r; eauto. destruct (Fetch _ _); eauto.
Qed.

(** [UpdateScoreSheet] keeps the rows and sends only its statements. *)
Lemma UpdateScoreSheet_cases fuel id handler s r s' :
  Update fuel id handler s = Some (r, s') →
  sameRows (tables s) (tables s') ∧ follows (updateStatement id) s s'.
Proof.
  unfold UpdateScoreSheet. intros Hrun.
  destruct (ExecuteTxx fuel _ s) as [[r0 s0]|] eqn:Etx; [|done].
  apply (ExecuteTxx_cases (updateStatement id)) in Etx; [|done|].
  2: { intros s1.
       apply (updateClosure_spec scanFloat32 encodeValue emptyStatement). }
  destruct Etx as (Hf & sa & Hta & _ & _ & Hr).
  destruct r0 as [u|e].
  - destruct Hr as (sb & Hfn & Hcommit).
    destruct (updateClosure_spec scanFloat32 encodeValue emptyStatement id
                handler sa) as [_ Hok].
    rewrite Hfn in Hok. cbn [fst snd] in Hok.
    destruct (send_cases (λ _, True) Commit sb I) as (_ & Htc & _ & _).
    rewrite Hcommit in Htc. cbn [snd] in Htc.
    destruct (FetchScoreSheet_follows scanFloat32 id s0) as [Htf Hff].
    injection Hrun as Hrun. rewrite Hrun in Htf, Hff. cbn [snd] in Htf, Hff.
    rewrite Htf, Htc, <- Hta. split; [done|].
    apply follows_trans with s0; [done|].
    by apply follows_updateStatement.
  - injection Hrun as <- <-. destruct Hr as [-> _].
    split; [apply sameRows_refl|done].
Qed.

Lemma UpdateScoreSheet_ends fuel id handler s :
  (∀ e, closureError emptyStatement handler e → retryable e = false) →
  (length (faults s) < fuel)%nat →
  ∃ r s', Update fuel id handler s = Some (r, s').
Proof.
  intros HH Hlen. unfold UpdateScoreSheet.
  destruct (closure_ends _ _ fuel (updateFn id handler) s _ HH
              (updateClosure_spec scanFloat32 encodeValue emptyStatement id
                 handler) Hlen)
    as (r & s' & ->).
  destruct r; eauto. destruct (Fetch _ _); eauto.
Qed.

(** Rows that agree on sheet and section ids are as many for each
    sheet. *)
Lemma sectionsOfSheet_sameRows T T' sheet :
  sameRows T T' →
  length (sectionsOfSheet T' sheet) = length (sectionsOfSheet T sheet).
Proof.
  intros (_ & _ & _ & _ & _ & _ & _ & Hsec). unfold sectionsOfSheet.
  revert Hsec. generalize (score_sheet_sections T').
  induction (score_sheet_sections T) as [|r l IH]; intros [|r' l'] Hsec;
    try done.
  injection Hsec as _ _ Hs Hl. cbn [List.filter]. rewrite Hs.
  destruct (String.eqb _ _); cbn [length]; by rewrite (IH l' Hl).
Qed.

Lemma send_quiet st s :
  faults s = [] →
  send st s
  = (None, mkStore (tables s) (log s ++ [st]) [] (uuids s) (clock s)
             (sched s)).
Proof. unfold send. by intros ->. Qed.

(** An id the header insert hands out is not that of a row. *)
Lemma execInsertScoreSheet_fresh division team template timings comments
    round author s id s1 :
  execInsertScoreSheet division team template timings comments round author
    s = (Ok id, s1) →
  hasId ss_id id (score_sheets (tables s)) = false.
Proof.
  intros Hrun.
  destruct (execInsertScoreSheet_spec (λ _, True) (λ _, False) division
              team template timings comments round author s I) as [_ Hok].
  rewrite Hrun in Hok. by destruct Hok.
Qed.

(** Without sections, and with a store that rejects the empty statement,
    the closure of [CreateScoreSheet] fails. *)
Lemma createClosure_no_sections handler scoreSheet e s :
  handler emptyScoreSheet = (None, scoreSheet) →
  sh_Sections scoreSheet = [] →
  emptyStatement = Some e →
  ∃ e', (createFn handler s).1 = Err e'.
Proof.
  intros Hh Hnil He. unfold createClosure. rewrite Hh, Hnil. unfold bind.
  destruct (execInsertScoreSheet _ _ _ _ _ _ _ s) as [[id|e1] s1];
    [|by eauto].
  cbn [map]. unfold execInsertSections.
  destruct (send _ s1) as [[e2|] s2]; [by eauto|].
  rewrite He. by eauto.
Qed.

(** Without sections, with a store that accepts the empty statement and
    injects no failure, the transaction commits the header row alone. *)
Lemma CreateScoreSheet_no_sections_commit fuel handler scoreSheet s id s1 :
  handler emptyScoreSheet = (None, scoreSheet) →
  sh_Sections scoreSheet = [] →
  emptyStatement = None →
  faults s = [] →
  execInsertScoreSheet (sh_DivisionId scoreSheet) (GetTeamId scoreSheet)
    (sh_ScoreSheetTemplateId scoreSheet) (jsonTimings scoreSheet)
    (sh_Comments scoreSheet) (sh_Round scoreSheet) (GetAuthorId scoreSheet)
    s = (Ok id, s1) →
  ∃ sc, tables sc = createdTables (tables s) (clock s) id scoreSheet []
        ∧ Create (S fuel) handler s = Some (Fetch id sc).
Proof.
  intros Hh Hnil He Hq Hins.
  destruct (execInsertScoreSheet_spec (λ _, True) (λ _, False)
              (sh_DivisionId scoreSheet) (GetTeamId scoreSheet)
              (sh_ScoreSheetTemplateId scoreSheet) (jsonTimings scoreSheet)
              (sh_Comments scoreSheet) (sh_Round scoreSheet)
              (GetAuthorId scoreSheet) s I) as [Hf Hok].
  rewrite Hins in Hf, Hok. cbn [fst snd] in Hf, Hok.
  destruct Hok as [_ Ht1].
  assert (faults s1 = []) as Hq1.
  { destruct Hf as [_ [k Hk]]. rewrite Hq in Hk.
    symmetry in Hk. by apply app_eq_nil in Hk as [_ ?]. }
  eexists. split; [|].
  2: { unfold CreateScoreSheet. cbn [ExecuteTxx].
       unfold createClosure. rewrite Hh, Hnil. unfold bind.
       rewrite Hins. cbn [map]. unfold execInsertSections.
       rewrite (send_quiet _ s1 Hq1), He. unfold ret.
       rewrite send_quiet by done. reflexivity. }
  cbn [tables]. rewrite Ht1. unfold createdTables, setSections.
  cbn. by rewrite app_nil_r.
Qed.
End TransactionFacts.

(** X2 (C4).  [CreateScoreSheet] is all-or-nothing.  Whenever it returns,
    the transaction was either rolled back (an error is returned, no row
    of either table was added, and a fetch by an id the header insert
    handed out finds nothing) or it committed a run of the closure in
    which the mutator and both inserts succeeded, and then the result is
    the sheet as fetched again from the store.  If the mutator returns an
    error, that error is returned and nothing is stored.  With more
    attempts allowed than the store injects failures, and a mutator whose
    errors are not serialization conflicts, the call returns. *)
Theorem CreateScoreSheet_all_or_nothing scanFloat32 encodeValue
    emptyStatement fuel handler s :
  (∀ r s',
     CreateScoreSheet scanFloat32 encodeValue emptyStatement fuel handler s
     = Some (r, s') →
     (rolledBack scanFloat32 s r s'
      ∨ committed scanFloat32 encodeValue emptyStatement handler s r s')
     ∧ (∀ e, (handler emptyScoreSheet).1 = Some e →
             r = Err e ∧ tables s' = tables s))
  ∧ ((∀ e, closureError emptyStatement handler e → retryable e = false) →
     (length (faults s) < fuel)%nat →
     ∃ r s',
       CreateScoreSheet scanFloat32 encodeValue emptyStatement fuel handler
         s = Some (r, s')).
Proof.
  split; [|apply CreateScoreSheet_ends].
  intros r s' Hrun.
  destruct (CreateScoreSheet_cases _ _ _ _ _ _ _ _ Hrun)
    as [(e & sa & -> & Ht & Hta & Hcause)|Hcommitted].
  - split.
    + left. exists e. split; [done|]. split; [done|].
      intros division team template timings comments round author sb id sc
        Htb Hins.
      apply execInsertScoreSheet_fresh in Hins.
      rewrite Htb, <- Ht in Hins.
      destruct (FetchScoreSheet_absent scanFloat32 id s' Hins)
        as (e' & He' & _ & Hquiet).
      by exists e'.
    + intros e0 He0. split; [|done]. f_equal.
      unfold createClosure in Hcause.
      destruct (handler emptyScoreSheet) as [[e1|] sheet];
        cbn [fst] in He0; [|done].
      injection He0 as ->. cbn [fail fst snd] in Hcause.
      destruct Hcause as [Hcause|(id & Hcause & _)]; congruence.
  - split; [by right|].
    intros e0 He0.
    destruct Hcommitted as (sa & sb & sc & id & scoreSheet & rs & _ & _
                            & Hh & _).
    rewrite Hh in He0. done.
Qed.

(** X2 on the sample: a new sheet with two sections, on a store that
    answers the first commit with a serialization conflict. *)
Lemma CreateScoreSheet_all_or_nothing_witness :
  ∃ r s',
    CreateScoreSheet exactFloat64 exactEncode None 3
      (sampleNewSheet sampleSections) conflictStore = Some (r, s')
    ∧ (rolledBack exactFloat64 conflictStore r s'
       ∨ committed exactFloat64 exactEncode None
           (sampleNewSheet sampleSections) conflictStore r s').
Proof.
  destruct (CreateScoreSheet_all_or_nothing exactFloat64 exactEncode None 3
              (sampleNewSheet sampleSections) conflictStore) as [Hall Hends].
  destruct Hends as (r & s' & Hrun).
  - intros e [He|[sheet He]]; discriminate.
  - cbn. lia.
  - exists r, s'. split; [exact Hrun|]. exact (proj1 (Hall r s' Hrun)).
Defined.

(** X3 (C5).  Whenever [UpdateScoreSheet] returns, every row of every table
    is there as before up to the team, timings and comments of score
    sheets and the values of section rows: no section row was inserted or
    deleted, so each sheet has as many section rows as before, and round,
    division, template, author and creation time of each sheet are
    unchanged.  The statements sent are the two reads of the sheet, the
    update of the header row of [id], updates of section values by row
    id, and the commit.  With more attempts allowed than the store
    injects failures, and a mutator whose errors are not serialization
    conflicts, the call returns. *)
Theorem UpdateScoreSheet_frame scanFloat32 encodeValue fuel id handler s :
  (∀ r s',
     UpdateScoreSheet scanFloat32 encodeValue fuel id handler s
     = Some (r, s') →
     updateFrame id s s')
  ∧ ((∀ sheet e, (handler sheet).1 = Some e → retryable e = false) →
     (length (faults s) < fuel)%nat →
     ∃ r s',
       UpdateScoreSheet scanFloat32 encodeValue fuel id handler s
       = Some (r, s')).
Proof.
  split.
  - intros r s' Hrun.
    destruct (UpdateScoreSheet_cases scanFloat32 encodeValue None _ _ _ _ _
                _ Hrun) as [Hrows Hf].
    split; [done|]. split; [|by destruct Hf].
    intros sheet. by apply sectionsOfSheet_sameRows.
  - intros Hh. apply (UpdateScoreSheet_ends scanFloat32 encodeValue None).
    intros e [He|[sheet He]]; [done|by apply (Hh sheet)].
Qed.

(** X3 on the sample: sheet sA1 revised on a store that answers the
    first update with a serialization conflict. *)
Lemma UpdateScoreSheet_frame_witness :
  ∃ r s',
    UpdateScoreSheet exactFloat64 exactEncode 3 "sA1" sampleRevision
      conflictStore = Some (r, s')
    ∧ updateFrame "sA1" conflictStore s'.
Proof.
  destruct (UpdateScoreSheet_frame exactFloat64 exactEncode 3 "sA1"
              sampleRevision conflictStore) as [Hframe Hends].
  destruct Hends as (r & s' & Hrun).
  - intros sheet e He. discriminate.
  - cbn. lia.
  - exists r, s'. split; [exact Hrun|]. exact (Hframe r s' Hrun).
Defined.

Lemma wrapError_fetching e e' :
  wrapError "Error fetching: " e = wrapError "Error fetching: " e' →
  Error e = Error e'.
Proof. unfold wrapError. cbn. by intros [=]. Qed.

(** X4 (C7).  For an id that no score sheet has, [UpdateScoreSheet] returns
    the error of the fetch, which wraps the store's no-rows error unless
    the store injected another failure (and no other failure of the
    fetch gives that error); nothing but the two reads was sent and the
    tables are unchanged.  When the mutator returns an error that is not
    a serialization conflict, that very error is returned, after the
    reads only, and the tables are unchanged. *)
Theorem UpdateScoreSheet_failures scanFloat32 encodeValue fuel id handler
    s :
  (hasId ss_id id (score_sheets (tables s)) = false →
   ∃ e s',
     UpdateScoreSheet scanFloat32 encodeValue (S fuel) id handler s
     = Some (Err (wrapError "Error fetching: " e), s')
     ∧ (e = ErrNoRows ∨ Some e ∈ faults s)
     ∧ (faults s = [] → e = ErrNoRows)
     ∧ onlyRead id s s'
     ∧ ∀ e', Error e' ≠ Error ErrNoRows →
             wrapError "Error fetching: " e'
             ≠ wrapError "Error fetching: " ErrNoRows)
  ∧ (∀ sheet s1 e sheet',
       FetchScoreSheet scanFloat32 id s = (Ok (Some sheet), s1) →
       handler sheet = (Some e, sheet') →
       retryable e = false →
       ∃ s',
         UpdateScoreSheet scanFloat32 encodeValue (S fuel) id handler s
         = Some (Err e, s')
         ∧ onlyRead id s s').
Proof.
  split.
  - intros Habsent.
    destruct (FetchScoreSheet_absent scanFloat32 id s Habsent)
      as (e & He & Hor & Hquiet).
    destruct (FetchScoreSheet_follows scanFloat32 id s) as [_ [Hlog _]].
    exists e.
    unfold UpdateScoreSheet. cbn [ExecuteTxx]. unfold updateClosure, bind.
    destruct (FetchScoreSheet scanFloat32 id s) as [r s1].
    cbn [fst snd] in He, Hlog. subst r. cbn [wrapError retryable].
    eexists. split; [reflexivity|]. split; [done|]. split; [done|].
    split; [by split|].
    intros e' Hne Heq. by apply wrapError_fetching in Heq.
  - intros sheet s1 e sheet' Hfetch Hh He.
    destruct (FetchScoreSheet_follows scanFloat32 id s) as [_ [Hlog _]].
    unfold UpdateScoreSheet. cbn [ExecuteTxx]. unfold updateClosure, bind.
    rewrite Hfetch in *. rewrite Hh. cbn [fail]. rewrite He.
    eexists. split; [reflexivity|]. by split.
Qed.

(** X4 on the sample: an id that is not there, and a mutator that
    refuses sheet sA1. *)
Lemma UpdateScoreSheet_failures_witness :
  (∃ s',
     UpdateScoreSheet exactFloat64 exactEncode 1 "nope" sampleRevision
       sampleStore
     = Some (Err (wrapError "Error fetching: " ErrNoRows), s')
     ∧ onlyRead "nope" sampleStore s')
  ∧ (∃ s',
       UpdateScoreSheet exactFloat64 exactEncode 1 "sA1"
         (failingHandler sampleRefusal) sampleStore
       = Some (Err sampleRefusal, s')
       ∧ onlyRead "sA1" sampleStore s').
Proof.
  split.
  - assert (hasId ss_id "nope" (score_sheets (tables sampleStore)) = false)
      as Habsent by (vm_compute; reflexivity).
    destruct (proj1 (UpdateScoreSheet_failures exactFloat64 exactEncode 0
                       "nope" sampleRevision sampleStore) Habsent)
      as (e & s' & Hrun & _ & Hquiet & Hread & _).
    rewrite (Hquiet eq_refl) in Hrun. exists s'. split; assumption.
  - assert (FetchScoreSheet exactFloat64 "sA1" sampleStore
            = (Ok (Some sampleSheet), sampleSheetRead.2)) as Hfetch
      by (vm_compute; reflexivity).
    exact (proj2 (UpdateScoreSheet_failures exactFloat64 exactEncode 0 "sA1"
                    (failingHandler sampleRefusal) sampleStore)
             sampleSheet sampleSheetRead.2 sampleRefusal sampleSheet
             Hfetch eq_refl eq_refl).
Defined.

(** A sheet can be created without sections: when the store accepts the
    empty statement that is left of the bulk insert without rows, the
    mutator of the sample that adds no section gets its sheet created,
    the header row committed and no section row. *)
Lemma empty_sections_counterexample :
  ¬ emptySectionsAlwaysFail exactFloat64 exactEncode None 1
      (sampleNewSheet []) sampleStore.
Proof.
  intros Hclaim.
  destruct (CreateScoreSheet exactFloat64 exactEncode None 1
              (sampleNewSheet []) sampleStore) as [[r s']|] eqn:Hrun;
    [|by vm_compute in Hrun].
  destruct (Hclaim _ r s' eq_refl eq_refl Hrun) as [[e ->] _].
  by vm_compute in Hrun.
Qed.

(** X5 (C10).  When the mutator leaves the sheet without sections,
    the outcome is the store's answer to the empty statement: if the
    store rejects it, [CreateScoreSheet] returns an error and the tables
    are as before; if the store accepts it and injects no failure, a
    header insert that succeeds is committed with no section row, and
    the result is that of fetching the new id. *)
Theorem CreateScoreSheet_no_sections scanFloat32 encodeValue emptyStatement
    fuel handler scoreSheet s :
  handler emptyScoreSheet = (None, scoreSheet) →
  sh_Sections scoreSheet = [] →
  (∀ e, emptyStatement = Some e →
     (∀ e0, closureError emptyStatement handler e0 →
            retryable e0 = false) →
     (length (faults s) < fuel)%nat →
     ∃ e' s',
       CreateScoreSheet scanFloat32 encodeValue emptyStatement fuel handler
         s = Some (Err e', s')
       ∧ tables s' = tables s)
  ∧ (emptyStatement = None →
     faults s = [] →
     ∀ id s1,
       execInsertScoreSheet (sh_DivisionId scoreSheet)
         (GetTeamId scoreSheet) (sh_ScoreSheetTemplateId scoreSheet)
         (jsonTimings scoreSheet) (sh_Comments scoreSheet)
         (sh_Round scoreSheet) (GetAuthorId scoreSheet) s = (Ok id, s1) →
       ∃ sc,
         tables sc = createdTables (tables s) (clock s) id scoreSheet []
         ∧ CreateScoreSheet scanFloat32 encodeValue emptyStatement (S fuel)
             handler s
           = Some (FetchScoreSheet scanFloat32 id sc)).
Proof.
  intros Hh Hnil. split.
  - intros e He Hfinal Hfuel.
    destruct (CreateScoreSheet_ends scanFloat32 encodeValue emptyStatement
                fuel handler s Hfinal Hfuel) as (r & s' & Hrun).
    destruct (CreateScoreSheet_cases _ _ _ _ _ _ _ _ Hrun)
      as [(e' & sa & -> & Ht & _)|Hcommitted]; [by eauto|].
    destruct Hcommitted as (sa & sb & _ & id & _ & _ & _ & Hfn & _).
    destruct (createClosure_no_sections encodeValue emptyStatement handler
                scoreSheet e sa Hh Hnil He) as [e' He'].
    rewrite Hfn in He'. done.
  - intros He Hquiet id s1 Hins.
    by apply (CreateScoreSheet_no_sections_commit scanFloat32 encodeValue
                emptyStatement fuel handler scoreSheet s id s1).
Qed.

(** X5 on the sample, with a store that rejects the empty statement
    and with one that accepts it. *)
Lemma CreateScoreSheet_no_sections_witness :
  (∃ e' s',
     CreateScoreSheet exactFloat64 exactEncode (Some sampleSyntaxError) 1
       (sampleNewSheet []) sampleStore = Some (Err e', s')
     ∧ tables s' = tables sampleStore)
  ∧ (∃ sc,
       tables sc
       = createdTables (tables sampleStore) (clock sampleStore) "s1"
           (sampleNewSheet [] emptyScoreSheet).2 []
       ∧ CreateScoreSheet exactFloat64 exactEncode None 1
           (sampleNewSheet []) sampleStore
         = Some (FetchScoreSheet exactFloat64 "s1" sc)).
Proof.
  split.
  - apply (proj1 (CreateScoreSheet_no_sections exactFloat64 exactEncode
                    (Some sampleSyntaxError) 1 (sampleNewSheet [])
                    (sampleNewSheet [] emptyScoreSheet).2 sampleStore
                    eq_refl eq_refl) sampleSyntaxError eq_refl).
    + intros e0 [He0|[sheet He0]]; [by injection He0 as <-|discriminate].
    + cbn. lia.
  - apply (proj2 (CreateScoreSheet_no_sections exactFloat64 exactEncode
                    None 0 (sampleNewSheet [])
                    (sampleNewSheet [] emptyScoreSheet).2 sampleStore
                    eq_refl eq_refl) eq_refl eq_refl "s1"
             (execInsertScoreSheet "d1" "tA" "tpp" [("music", "2:40")]
                "well done" 1 "u1" sampleStore).2).
    reflexivity.
Defined.

(** ** The timings column of a template *)

Lemma length_append (s t : string) :
  String.length (s +:+ t) = (String.length s + String.length t)%nat.
Proof. induction s as [|c s IH]; simpl; [done|]. by rewrite IH. Qed.

Lemma substring_prefix (s t : string) :
  substring 0 (String.length s) (s +:+ t) = s.
Proof.
  induction s as [|c s IH]; simpl.
  - by destruct t.
  - by rewrite IH.
Qed.

(** Cutting the first and the last byte off. *)
Lemma trimEnds_wrapped (a b : ascii) (s : string) :
  trimEnds (String a (s +:+ String b EmptyString)) = Some s.
Proof.
  unfold trimEnds, slice. cbn [String.length]. rewrite length_append.
  cbn [String.length].
  replace (Z.of_nat (S (String.length s + 1)) - 1)
    with (Z.of_nat (S (String.length s))) by lia.
  rewrite !(proj2 (Z.leb_le _ _)) by lia. cbn [andb].
  replace (Z.to_nat (Z.of_nat (S (String.length s)) - 1))
    with (String.length s) by lia.
  change (Z.to_nat 1) with 1%nat. cbn [substring].
  by rewrite substring_prefix.
Qed.

Lemma trimEnds_short (s : string) :
  (String.length s < 2)%nat → trimEnds s = None.
Proof.
  intros Hlen. unfold trimEnds, slice.
  destruct (_ && _ && _) eqn:E; [|done].
  apply andb_prop in E as [E _]. apply andb_prop in E as [_ E].
  apply Z.leb_le in E. lia.
Qed.

Lemma countByte_append c (s t : string) :
  countByte c (s +:+ t) = (countByte c s + countByte c t)%nat.
Proof. induction s as [|b s IH]; simpl; [done|]. rewrite IH. lia. Qed.

Lemma countByte_absent c (s : string) :
  countByte c s = 0%nat ↔ c ∉ bytesOf s.
Proof.
  induction s as [|b s IH]; simpl.
  - split; [intros _; apply not_elem_of_nil|done].
  - rewrite not_elem_of_cons, <- IH.
    destruct (Ascii.eqb_spec b c) as [->|Hne]; simpl.
    + split; [lia|]. by intros [? _].
    + split; [|by intros [_ ?]]. intros H. split; [congruence|lia].
Qed.

Lemma Split_nonempty sep s : Split sep s ≠ [].
Proof.
  induction s as [|c s IH]; simpl; [done|].
  destruct (Ascii.eqb c sep); [done|]. by destruct (Split sep s).
Qed.

(** [strings.Split] gives one piece more than there are separators. *)
Lemma length_Split sep s :
  length (Split sep s) = S (countByte sep s).
Proof.
  induction s as [|c s IH]; simpl; [done|].
  destruct (Ascii.eqb c sep); simpl; [by rewrite IH|].
  pose proof (Split_nonempty sep s).
  destruct (Split sep s); [done|]. cbn in *. lia.
Qed.

Lemma Split_whole sep s : countByte sep s = 0%nat → Split sep s = [s].
Proof.
  induction s as [|c s IH]; simpl; [done|].
  destruct (Ascii.eqb c sep); simpl; [done|]. intros H.
  by rewrite (IH H).
Qed.

Lemma Split_first sep (s t : string) :
  countByte sep s = 0%nat →
  Split sep (s +:+ String sep t) = s :: Split sep t.
Proof.
  induction s as [|c s IH]; simpl.
  - intros _. by rewrite Ascii.eqb_refl.
  - destruct (Ascii.eqb c sep); simpl; [done|]. intros H.
    by rewrite (IH H).
Qed.

Lemma countByte_quoted (t : string) :
  countByte comma (quoted t) = countByte comma t.
Proof.
  unfold quoted. cbn [countByte]. rewrite countByte_append. cbn. lia.
Qed.

Lemma Split_Join (items : list string) :
  items ≠ [] →
  Forall (λ item, countByte comma item = 0%nat) items →
  Split comma (Join items ",") = items.
Proof.
  induction items as [|item rest IH]; [done|]. intros _ Hall.
  apply Forall_cons in Hall as [Hitem Hrest].
  destruct rest as [|item' rest].
  - cbn [Join]. by apply Split_whole.
  - change (Join (item :: item' :: rest) ",")
      with (item +:+ String comma (Join (item' :: rest) ",")).
    rewrite Split_first by done. by rewrite IH.
Qed.

Lemma countByte_Join (items : list string) :
  items ≠ [] →
  (countByte comma (Join items ",") + 1
   = length items + sum_list (map (countByte comma) items))%nat.
Proof.
  induction items as [|item rest IH]; [done|]. intros _.
  destruct rest as [|item' rest].
  - cbn. lia.
  - change (Join (item :: item' :: rest) ",")
      with (item +:+ String comma (Join (item' :: rest) ",")).
    rewrite countByte_append. cbn [countByte].
    assert (Ascii.eqb comma comma = true) as -> by apply Ascii.eqb_refl.
    specialize (IH ltac:(done)). cbn [length map sum_list] in *.
    unfold id in *. lia.
Qed.

Lemma forEach_length {A B} (f : A → option B) l bs :
  forEach f l = Some bs → length bs = length l.
Proof.
  revert bs. induction l as [|a l IH]; intros bs; cbn.
  - by intros [= <-].
  - destruct (f a); [|done]. destruct (forEach f l); [|done].
    intros [= <-]. cbn. by rewrite (IH _ eq_refl).
Qed.

Lemma forEach_trimEnds_quoted (timings : list string) :
  forEach trimEnds (map quoted timings) = Some timings.
Proof.
  induction timings as [|t rest IH]; cbn [map forEach]; [done|].
  unfold quoted at 1. rewrite trimEnds_wrapped. by rewrite IH.
Qed.

Lemma sum_list_zero (l : list nat) :
  sum_list l = 0%nat ↔ Forall (λ n, n = 0%nat) l.
Proof.
  induction l as [|n l IH]; cbn.
  - split; [by constructor|done].
  - rewrite Forall_cons, <- IH. unfold id. lia.
Qed.

Lemma Join_quoted_nonempty (timings : list string) :
  timings ≠ [] →
  (0 < String.length (Join (map quoted timings) ","))%nat.
Proof.
  destruct timings as [|t rest]; [done|]. intros _.
  destruct rest; simpl; rewrite ?length_append; simpl; lia.
Qed.

(** X6.  The timings of a template come back from the text that
    [CreateScoreSheetTemplate] writes exactly when no timing contains a
    comma: [FetchScoreSheetTemplates] cuts the braces off, splits at
    every comma and cuts the quotes off each piece. *)
Theorem timings_round_trip (timings : list string) :
  timingsOfText (timingsText timings) = Some timings
  ↔ Forall (λ timing, comma ∉ bytesOf timing) timings.
Proof.
  unfold timingsOfText, timingsText.
  change ("{" +:+ Join (map quoted timings) "," +:+ "}")
    with (String "{" (Join (map quoted timings) ","
                      +:+ String "}" EmptyString)).
  rewrite trimEnds_wrapped.
  destruct timings as [|t rest]; [cbn; split; [by constructor|done]|].
  set (timings := t :: rest).
  assert (timings ≠ []) as Hne by done.
  pose proof (Join_quoted_nonempty timings Hne) as Hlen.
  rewrite (proj2 (Z.ltb_lt _ _)) by lia.
  split.
  - intros Hdecoded. apply forEach_length in Hdecoded.
    rewrite length_Split in Hdecoded.
    pose proof (countByte_Join (map quoted timings)) as Hcount.
    rewrite length_map in Hcount.
    specialize (Hcount ltac:(by subst timings)).
    assert (sum_list (map (countByte comma) (map quoted timings)) = 0%nat)
      as Hsum by lia.
    apply sum_list_zero in Hsum.
    rewrite !Forall_fmap in Hsum.
    eapply Forall_impl; [exact Hsum|]. intros timing Ht. unfold compose in Ht.
    rewrite countByte_quoted in Ht. by apply countByte_absent.
  - intros Hall. rewrite Split_Join.
    + apply forEach_trimEnds_quoted.
    + by subst timings.
    + rewrite Forall_fmap. eapply Forall_impl; [exact Hall|].
      intros timing Ht. unfold compose. rewrite countByte_quoted.
      by apply countByte_absent.
Qed.

(** A text of fewer than two bytes, or a piece of fewer than two bytes
    between two commas, makes the slice expression panic. *)
Lemma timingsOfText_short (text : string) :
  (String.length text < 2)%nat → timingsOfText text = None.
Proof. intros H. unfold timingsOfText. by rewrite trimEnds_short. Qed.

(** ** The templates as [FetchScoreSheetTemplates] assembles them *)

Lemma sectionMapStep_lookup sectionMap dbSection id :
  sectionMapStep sectionMap dbSection !! id
  = if String.eqb (dbsn_ScoreSheetTemplate dbSection) id
    then Some (default [] (sectionMap !! id)
               ++ [templateSectionOf dbSection])
    else sectionMap !! id.
Proof.
  unfold sectionMapStep.
  destruct (String.eqb_spec (dbsn_ScoreSheetTemplate dbSection) id)
    as [->|Hne].
  - rewrite lookup_insert_eq.
    destruct (sectionMap !! id) eqn:E; [by rewrite E|].
    by rewrite lookup_insert_eq.
  - rewrite lookup_insert_ne by done.
    destruct (sectionMap !! dbsn_ScoreSheetTemplate dbSection); [done|].
    by rewrite lookup_insert_ne.
Qed.

Lemma fold_sectionMapStep_lookup dbSections sectionMap id :
  default [] (fold_left sectionMapStep dbSections sectionMap !! id)
  = default [] (sectionMap !! id) ++ sectionsOfTemplate id dbSections.
Proof.
  revert sectionMap.
  induction dbSections as [|dbSection rest IH]; intros sectionMap.
  - cbn. by rewrite app_nil_r.
  - cbn [fold_left]. rewrite IH, sectionMapStep_lookup.
    unfold sectionsOfTemplate. cbn [List.filter].
    destruct (String.eqb _ id); simpl; [|done].
    by rewrite <- app_assoc.
Qed.

(** After the first loop, the map holds under each template id its
    sections in the order of the rows. *)
Lemma buildSectionMap_lookup dbSections id :
  default [] (buildSectionMap dbSections !! id)
  = sectionsOfTemplate id dbSections.
Proof.
  unfold buildSectionMap. rewrite fold_sectionMapStep_lookup.
  by rewrite lookup_empty.
Qed.

Lemma forEach_ext {A B} (f g : A → option B) l :
  (∀ a, f a = g a) → forEach f l = forEach g l.
Proof.
  intros Hfg. induction l as [|a l IH]; cbn; [done|].
  by rewrite Hfg, IH.
Qed.

Lemma forEach_None {A B} (f : A → option B) l :
  forEach f l = None ↔ ∃ a, a ∈ l ∧ f a = None.
Proof.
  induction l as [|a l IH]; cbn.
  - split; [done|]. intros (a & Ha & _). by apply elem_of_nil in Ha.
  - destruct (f a) eqn:Ea.
    + destruct (forEach f l) eqn:El.
      * split; [done|]. intros (a' & Ha' & Hn).
        apply elem_of_cons in Ha' as [->|Ha']; [congruence|].
        assert (Some l0 = None) as Hbad by (apply IH; eauto). done.
      * split; [|done]. intros _.
        destruct (proj1 IH eq_refl) as (a' & Ha' & Hn).
        exists a'. split; [by apply list_elem_of_further|done].
    + split; [|done]. intros _. exists a.
      split; [apply list_elem_of_here|done].
Qed.

Lemma forEach_Some {A B} (f : A → option B) l bs :
  forEach f l = Some bs ↔ Forall2 (λ a b, f a = Some b) l bs.
Proof.
  revert bs. induction l as [|a l IH]; intros bs; cbn.
  - split; [intros [= <-]; constructor|by intros ->%Forall2_nil_inv_l].
  - destruct (f a) eqn:Ea.
    + destruct (forEach f l) eqn:El.
      * split.
        -- intros [= <-]. constructor; [done|]. by apply IH.
        -- intros (b' & bs' & Hb & Hbs & ->)%Forall2_cons_inv_l.
           apply IH in Hbs. congruence.
      * split; [done|].
        intros (b' & bs' & Hb & Hbs & ->)%Forall2_cons_inv_l.
        apply IH in Hbs. done.
    + split; [done|].
      intros (b' & bs' & Hb & Hbs & ->)%Forall2_cons_inv_l. congruence.
Qed.

(** X7.  [FetchScoreSheetTemplates] panics exactly when the timings text
    of some template row cannot be cut; otherwise it returns one template
    per row, in the order of the rows, each with the id, name and type of
    its row, the timings read from its text, and the sections whose
    template it is, in the order of the section rows (their display
    order), however the sections of different templates are mixed. *)
Theorem scoreSheetTemplates_assembled ToLower dbTemplates dbSections :
  (scoreSheetTemplates ToLower dbTemplates dbSections = None
   ↔ ∃ row, row ∈ dbTemplates
            ∧ timingsOfText (dbt_TimingString row) = None)
  ∧ ∀ templates,
      scoreSheetTemplates ToLower dbTemplates dbSections = Some templates →
      Forall2
        (λ row template,
           sst_Id template = dbt_ID row
           ∧ sst_Name template = dbt_Name row
           ∧ sst_Type template
             = (if String.eqb (ToLower (dbt_Type row)) "interview"
                then INTERVIEW else PERFORMANCE)
           ∧ timingsOfText (dbt_TimingString row)
             = Some (sst_Timings template)
           ∧ sst_Sections template
             = sectionsOfTemplate (dbt_ID row) dbSections)
        dbTemplates templates.
Proof.
  unfold scoreSheetTemplates. split.
  - rewrite forEach_None. split; intros (row & Hrow & Hnone); exists row.
    + split; [done|]. unfold templateOf in Hnone.
      by destruct (timingsOfText _).
    + split; [done|]. unfold templateOf. by rewrite Hnone.
  - intros templates Hsome. apply forEach_Some in Hsome.
    eapply Forall2_impl; [exact Hsome|].
    intros row template Hrow. unfold templateOf in Hrow.
    destruct (timingsOfText (dbt_TimingString row)) as [timings|];
      [|done].
    injection Hrow as <-. cbn. repeat split.
    apply buildSectionMap_lookup.
Qed.

(** X7 on the sample: two templates whose section rows alternate. *)
Lemma scoreSheetTemplates_assembled_witness :
  scoreSheetTemplates lowerAscii sampleTemplateRows sampleSectionRows
  = Some sampleTemplates
  ∧ Forall2
      (λ row template,
         sst_Sections template
         = sectionsOfTemplate (dbt_ID row) sampleSectionRows)
      sampleTemplateRows sampleTemplates
  ∧ map (λ template, map stsec_Id (sst_Sections template)) sampleTemplates
    = [["tsi"]; ["tsa"; "tsb"]].
Proof.
  assert (scoreSheetTemplates lowerAscii sampleTemplateRows
            sampleSectionRows = Some sampleTemplates) as Hrun
    by (vm_compute; reflexivity).
  split; [exact Hrun|]. split; [|vm_compute; reflexivity].
  eapply Forall2_impl.
  - exact (proj2 (scoreSheetTemplates_assembled lowerAscii
                    sampleTemplateRows sampleSectionRows)
             sampleTemplates Hrun).
  - intros row template (_ & _ & _ & _ & Hsections). exact Hsections.
Defined.

(** ** The members of the teams of [FetchTeams] *)

Lemma attachMember_absent member team results :
  team ∉ map tm_Id results → attachMember member team results = results.
Proof.
  induction results as [|r rest IH]; [done|]. cbn [map attachMember].
  intros Hnot. apply not_elem_of_cons in Hnot as [Hne Hnot].
  destruct (String.eqb_spec (tm_Id r) team) as [Heq|_]; [congruence|].
  by rewrite IH.
Qed.

Lemma attachMember_ids member team results :
  map tm_Id (attachMember member team results) = map tm_Id results.
Proof.
  induction results as [|r rest IH]; [done|]. cbn [map attachMember].
  destruct (String.eqb (tm_Id r) team); cbn [map tm_Id]; [done|].
  by rewrite IH.
Qed.

(** With distinct team ids, a member goes to the team of its id and to
    no other. *)
Lemma attachMember_spec member team results :
  NoDup (map tm_Id results) →
  attachMember member team results
  = map (λ r, mkTeamMessage (tm_Id r) (tm_Name r) (tm_Institution r)
                (tm_ImportId r) (tm_Division r)
                (tm_Members r
                 ++ (if String.eqb team (tm_Id r) then [member] else [])))
      results.
Proof.
  induction results as [|r rest IH]; [done|]. cbn [map attachMember].
  intros Hnd. apply NoDup_cons in Hnd as [Hfirst Hnd].
  destruct (String.eqb_spec (tm_Id r) team) as [Heq|Hne].
  - subst team. rewrite String.eqb_refl. f_equal.
    rewrite <- (attachMember_absent member (tm_Id r) rest Hfirst) at 1.
    rewrite IH by done. done.
  - destruct (String.eqb_spec team (tm_Id r)) as [Heq|_]; [congruence|].
    rewrite app_nil_r. rewrite IH by done. by destruct r.
Qed.

Lemma attachMembers_spec dbMemberObj results :
  NoDup (map tm_Id results) →
  attachMembers dbMemberObj results
  = map (λ r, mkTeamMessage (tm_Id r) (tm_Name r) (tm_Institution r)
                (tm_ImportId r) (tm_Division r)
                (tm_Members r ++ membersOfTeam (tm_Id r) dbMemberObj))
      results.
Proof.
  unfold attachMembers. revert results.
  induction dbMemberObj as [|m rest IH]; intros results Hnd.
  - cbn. rewrite <- (map_id results) at 1. apply map_ext.
    intros r. rewrite app_nil_r. by destruct r.
  - cbn [fold_left]. rewrite IH by (by rewrite attachMember_ids).
    rewrite attachMember_spec by done. rewrite map_map.
    apply map_ext. intros r. cbn [tm_Id tm_Name tm_Institution tm_ImportId
                                   tm_Division tm_Members].
    unfold membersOfTeam. cbn [List.filter].
    rewrite <- app_assoc. do 2 f_equal.
    destruct (String.eqb (dbm_Team m) (tm_Id r)); done.
Qed.

(** X8.  When the members are asked for (also with nil options) and both
    queries succeed, [FetchTeams] returns one team per team row, in the
    order of the rows, and, the team ids being distinct, each team has
    exactly the members whose team it is, in the order of the member
    rows; a member of a team that is not among the rows is dropped. *)
Theorem FetchTeams_members options teams dbMemberObj :
  NoDup (map dbtm_ID teams) →
  (options = None ∨ ∃ o, options = Some o ∧ PopulateMembers o = true) →
  FetchTeams options (Ok teams) (Ok dbMemberObj)
  = Ok (map (λ row,
               mkTeamMessage (dbtm_ID row) (dbtm_Name row)
                 (mkInstitution (dbtm_InstitutionID row)
                    (dbtm_Institution row))
                 (dbtm_ImportID row) (dbtm_Division row)
                 (membersOfTeam (dbtm_ID row) dbMemberObj))
          teams).
Proof.
  intros Hnd Hopt. unfold FetchTeams.
  assert (match options with
          | Some options => negb (PopulateMembers options)
          | None => false
          end = false) as ->.
  { destruct Hopt as [->|(o & -> & ->)]; done. }
  f_equal. rewrite attachMembers_spec.
  - rewrite map_map. apply map_ext. intros row. done.
  - by rewrite map_map.
Qed.

(** X8 on the sample: two teams, four members, one of them of a team
    that is not listed. *)
Lemma FetchTeams_members_witness :
  FetchTeams None (Ok sampleTeamRows) (Ok sampleMemberRows)
  = Ok [mkTeamMessage "tA" "Team A" (mkInstitution "i1" "School") "" "d1"
          [mkMember "m2" "Bob" MALE];
        mkTeamMessage "tB" "Team B" (mkInstitution "i1" "School") "" "d1"
          [mkMember "m1" "Ann" FEMALE; mkMember "m3" "Cy" UNSPECIFIED]].
Proof.
  rewrite (FetchTeams_members None sampleTeamRows sampleMemberRows).
  - reflexivity.
  - apply (bool_decide_unpack _). vm_compute. exact I.
  - by left.
Defined.

(** ** The names of the rounds *)

Lemma int64_inj_offset (i j c : Z) :
  isInt64 i → isInt64 j → int64 (i - c) = int64 (j - c) → i = j.
Proof.
  unfold isInt64, int64. intros Hi Hj Heq.
  pose proof (Z.div_mod (i - c + 2 ^ 63) (2 ^ 64) ltac:(lia)) as Hdi.
  pose proof (Z.div_mod (j - c + 2 ^ 63) (2 ^ 64) ltac:(lia)) as Hdj.
  set (qi := (i - c + 2 ^ 63) / 2 ^ 64) in *.
  set (qj := (j - c + 2 ^ 63) / 2 ^ 64) in *.
  assert ((i - c + 2 ^ 63) mod 2 ^ 64 = (j - c + 2 ^ 63) mod 2 ^ 64)
    as Hmod by lia.
  rewrite Hmod in Hdi.
  assert (i - j = 2 ^ 64 * (qi - qj)) as Hdiff by lia.
  assert (qi - qj = 0) by lia. lia.
Qed.

(** [roundName] tells the rounds apart: for round numbers and a number
    of competition rounds that are Go [int]s, two rounds with the same
    name are the same round. *)
Lemma roundName_inj (i j compRounds finalRounds : Z) :
  isInt64 i → isInt64 j →
  roundName i compRounds finalRounds = roundName j compRounds finalRounds →
  i = j.
Proof.
  intros Hi Hj. unfold roundName.
  destruct (Z.eqb_spec i 0) as [->|Hi0]; destruct (Z.eqb_spec j 0)
    as [->|Hj0]; try done.
  - destruct (j <=? compRounds); by intros [=].
  - destruct (i <=? compRounds); by intros [=].
  - destruct (i <=? compRounds), (j <=? compRounds); intros Heq;
      try (by injection Heq).
    + apply (inj (String.append "Performance ")) in Heq.
      by apply (inj pretty) in Heq.
    + apply (inj (String.append "Final ")) in Heq.
      apply (inj pretty) in Heq.
      by apply (int64_inj_offset i j compRounds).
Qed.

(** X10.  The Excel export of a team has a tab for the round [r] exactly
    when [0 ≤ r < CompetitionRounds + FinalRounds], and no two tabs have
    the same name: with rounds numbered from the interview [0] over the
    competition rounds to the finals, the last final has no tab. *)
Theorem roundTabs_rounds (r compRounds finalRounds : Z) :
  isInt64 r →
  (roundName r compRounds finalRounds ∈ roundTabs compRounds finalRounds
   ↔ 0 ≤ r < int64 (compRounds + finalRounds))
  ∧ NoDup (roundTabs compRounds finalRounds).
Proof.
  intros Hr. unfold roundTabs.
  assert (int64 (compRounds + finalRounds) < 2 ^ 63) as Hbound.
  { unfold int64.
    pose proof (Z.mod_pos_bound (compRounds + finalRounds + 2 ^ 63)
                  (2 ^ 64) ltac:(lia)). lia. }
  split.
  - rewrite list_elem_of_fmap. split.
    + intros (i & Heq & Hi). apply elem_of_seqZ in Hi.
      apply roundName_inj in Heq; [lia|done|unfold isInt64; lia].
    + intros Hrange. exists r. split; [done|]. apply elem_of_seqZ. lia.
  - apply NoDup_fmap_2_strong; [|apply NoDup_seqZ].
    intros i j Hi Hj Heq. apply elem_of_seqZ in Hi, Hj.
    apply roundName_inj in Heq; [done|unfold isInt64; lia..].
Qed.

(** X10 on a division with two competition rounds and one final: the
    final, round 3, has no tab. *)
Lemma roundTabs_rounds_witness :
  roundTabs 2 1 = ["Interview"; "Performance 1"; "Performance 2"]
  ∧ roundName 3 2 1 = "Final 1"
  ∧ roundName 3 2 1 ∉ roundTabs 2 1.
Proof.
  split; [vm_compute; reflexivity|]. split; [vm_compute; reflexivity|].
  rewrite (proj1 (roundTabs_rounds 3 2 1 ltac:(unfold isInt64; lia))).
  vm_compute. intros [_ Hlt]. discriminate Hlt.
Defined.

(** ** Logging in *)

Section AuthenticationFacts.
Variable GenerateFromPassword : string → string → result string.
Variable CompareHashAndPassword : string → string → option error.

Local Abbreviation Authenticate :=
  (AuthenticateUserWithCredentials GenerateFromPassword
     CompareHashAndPassword).

Lemma ask_accounts db : accounts (ask db).2 = accounts db.
Proof. unfold ask. by destruct (db_faults db). Qed.

(** X11.  On an empty [users] table the log-in creates the user it was
    asked about, as an administrator, and lets it in: when the store
    raises no failure and hands out a non-empty id, and the hash made of
    the password accepts that password, the result is this user and the
    table holds this one row. *)
Theorem Authenticate_first_user username password db salt salts id ids
    hash :
  accounts db = [] →
  db_faults db = [] →
  db_salts db = salt :: salts →
  db_uuids db = id :: ids →
  id ≠ EmptyString →
  GenerateFromPassword password salt = Ok hash →
  CompareHashAndPassword hash password = None →
  ∃ db',
    AuthenticateUserWithCredentials GenerateFromPassword
      CompareHashAndPassword username password db
    = (Ok (Some (mkUserMessage id username username "" true)), db')
    ∧ accounts db' = [mkAccountRow id username username hash true].
Proof.
  intros Hempty Hquiet Hsalts Hids Hid Hgen Hcmp.
  destruct db as [rows faults uuids salts0].
  cbn in Hempty, Hquiet, Hsalts, Hids. subst.
  unfold AuthenticateUserWithCredentials, createInitialUser, ask.
  cbn. rewrite Hgen. cbn. change (Z.of_nat 0 =? 0) with true.
  cbn. rewrite String.eqb_refl. cbn.
  destruct (String.eqb_spec id "") as [->|_]; [done|].
  rewrite Hcmp. eexists. split; reflexivity.
Qed.


End AuthenticationFacts.

(** X11 on the sample. *)
Lemma Authenticate_first_user_witness :
  ∃ db',
    AuthenticateUserWithCredentials sampleGenerate sampleCompare "root"
      "secret" emptyUserDB
    = (Ok (Some (mkUserMessage "u1" "root" "root" "" true)), db')
    ∧ accounts db' = [mkAccountRow "u1" "root" "root" "na$secret" true].
Proof.
  apply (Authenticate_first_user sampleGenerate sampleCompare "root" "secret" emptyUserDB "na" ["cl"]
           "u1" ["u2"] "na$secret");
    try reflexivity.
  discriminate.
Defined.


(** ** The ladders of [FetchDanceLadders], division by division *)

Section LadderDivisions.
Variable Float64 : decimal → float64.
Variable NewFromFloat : float64 → decimal.

Lemma buildLadderMap_key scores teamList division value :
  buildLadderMap Float64 NewFromFloat (buildScoreMap Float64 scores)
    teamList !! division = Some value →
  div_Id (dl_Division value) = division
  ∧ length (Ladder value) = length (teamsOf division teamList)
  ∧ teamsOf division teamList ≠ [].
Proof.
  rewrite buildLadderMap_lookup.
  destruct (teamsOf division teamList) as [|team rest] eqn:Hteams; [done|].
  intros [= <-]. cbn [dl_Division Ladder divisionOfRow div_Id].
  split; [|split; [cbn; by rewrite ?length_map, ?length_fmap|done]].
  apply (teamsOf_division division teamList). rewrite Hteams.
  apply list_elem_of_here.
Qed.

Lemma SliceStable_length {A} (less : A → A → bool) (l : list A) :
  length (SliceStable less l) = length l.
Proof. apply Permutation_length, SliceStable_Permutation. Qed.

Lemma teamsOf_nonempty division teamList :
  teamsOf division teamList ≠ []
  ↔ ∃ team, team ∈ teamList ∧ lt_DivisionID team = division.
Proof.
  unfold teamsOf. split.
  - destruct (List.filter _ teamList) as [|team rest] eqn:Hf; [done|].
    intros _. exists team.
    assert (In team (List.filter
                       (λ team, String.eqb (lt_DivisionID team) division)
                       teamList)) as Hin by (rewrite Hf; by left).
    apply filter_In in Hin as [Hin Heq].
    split; [by apply list_elem_of_In|by apply String.eqb_eq].
  - intros (team & Hin & Heq) Hnil.
    assert (In team (List.filter
                       (λ team, String.eqb (lt_DivisionID team) division)
                       teamList)) as Hf.
    { apply filter_In. split; [by apply list_elem_of_In|].
      by apply String.eqb_eq. }
    by rewrite Hnil in Hf.
Qed.

Lemma danceLadders_divisions mapOrder teamList scores :
  let ladders :=
    danceLadders Float64 NewFromFloat mapOrder teamList scores in
  NoDup (map (λ dl, div_Id (dl_Division dl)) ladders)
  ∧ (∀ division,
       division ∈ map (λ dl, div_Id (dl_Division dl)) ladders
       ↔ ∃ team, team ∈ teamList ∧ lt_DivisionID team = division)
  ∧ ∀ dl, dl ∈ ladders →
      length (Ladder dl)
      = length (teamsOf (div_Id (dl_Division dl)) teamList).
Proof.
  cbn zeta. unfold danceLadders, ladderResults.
  set (ladderMap := buildLadderMap Float64 NewFromFloat
                      (buildScoreMap Float64 scores) teamList).
  assert (Hkey : ∀ kv, kv ∈ rangeOrder mapOrder (map_to_list ladderMap) →
                 ladderMap !! kv.1 = Some kv.2).
  { intros [division value] Hin.
    rewrite (rangeOrder_Permutation mapOrder) in Hin.
    by apply elem_of_map_to_list in Hin. }
  assert (Hids : map (λ dl, div_Id (dl_Division dl))
                   (map (λ kv, sortLadder kv.2)
                      (rangeOrder mapOrder (map_to_list ladderMap)))
                 = map fst (rangeOrder mapOrder (map_to_list ladderMap))).
  { rewrite map_map. apply map_ext_in. intros kv Hin.
    apply list_elem_of_In, Hkey in Hin.
    apply buildLadderMap_key in Hin as [Hid _]. exact Hid. }
  split; [|split].
  - rewrite Hids.
    rewrite (fmap_Permutation fst _ _
               (rangeOrder_Permutation mapOrder (map_to_list ladderMap))).
    apply NoDup_fst_map_to_list.
  - intros division. rewrite Hids, <- teamsOf_nonempty.
    rewrite list_elem_of_fmap. split.
    + intros ([d value] & -> & Hin). apply Hkey in Hin. cbn in *.
      by apply buildLadderMap_key in Hin as (_ & _ & Hne).
    + intros Hne.
      pose proof (buildLadderMap_lookup Float64 NewFromFloat
                    (buildScoreMap Float64 scores) teamList division)
        as Hlookup.
      destruct (teamsOf division teamList) as [|team rest]; [done|].
      eexists (division, _). split; [done|].
      rewrite (rangeOrder_Permutation mapOrder).
      apply elem_of_map_to_list. exact Hlookup.
  - intros dl Hin. apply list_elem_of_fmap in Hin as (kv & -> & Hin).
    apply Hkey, buildLadderMap_key in Hin as (Hid & Hlen & _).
    cbn [sortLadder Ladder dl_Division]. rewrite SliceStable_length.
    by rewrite Hid.
Qed.

(** X13.  [FetchDanceLadders] returns one ladder for each division that
    has a team among the rows of the team query and none for any other
    division: the division ids of the ladders are distinct, they are the
    division ids of the team rows, and each ladder has as many entries
    as the division has team rows. *)
Theorem FetchDanceLadders_divisions mapOrder showAll s ladders s' :
  FetchDanceLadders Float64 NewFromFloat mapOrder showAll s
  = (Ok ladders, s') →
  NoDup (map (λ dl, div_Id (dl_Division dl)) ladders)
  ∧ (∀ division,
       division ∈ map (λ dl, div_Id (dl_Division dl)) ladders
       ↔ ∃ team, team ∈ teamsQuery (tables s)
                 ∧ lt_DivisionID team = division)
  ∧ ∀ dl, dl ∈ ladders →
      length (Ladder dl)
      = length (teamsOf (div_Id (dl_Division dl)) (teamsQuery (tables s))).
Proof.
  intros Hfetch.
  apply (FetchDanceLadders_Ok Float64 NewFromFloat) in Hfetch as [-> _].
  apply danceLadders_divisions.
Qed.
End LadderDivisions.

(** X13 on the sample: the teams are those of one On Stage division. *)
Lemma FetchDanceLadders_divisions_witness :
  map (λ dl, div_Id (dl_Division dl)) sampleLadders = ["d1"]
  ∧ ∀ dl, dl ∈ sampleLadders →
      length (Ladder dl)
      = length (teamsOf (div_Id (dl_Division dl))
                  (teamsQuery (tables sampleStore))).
Proof.
  split; [vm_compute; reflexivity|].
  apply (FetchDanceLadders_divisions exactFloat64 exactNewFromFloat []
           false sampleStore sampleLadders sampleStoreRead).
  reflexivity.
Defined.

(** ** A created sheet as it is fetched *)

Section RoundTripFacts.
Variable scanFloat32 : decimal → float64.
Variable encodeValue : float64 → option decimal.
Variable emptyStatement : option error.

Local Abbreviation Fetch := (FetchScoreSheet scanFloat32).
Local Abbreviation Create :=
  (CreateScoreSheet scanFloat32 encodeValue emptyStatement).
Local Abbreviation createFn :=
  (createClosure encodeValue emptyStatement).

Lemma injected_quiet s f : faults s = [] → injected s f → f = None.
Proof.
  intros Hq [->|Hin]; [done|]. rewrite Hq in Hin.
  by apply elem_of_nil in Hin.
Qed.

(** When the store injects no failure, the fetch is the first row of
    the header query with the rows of the sections query. *)
Lemma FetchScoreSheet_quiet id s :
  faults s = [] →
  (Fetch id s).1
  = match sheetQuery id (tables s) with
    | r :: _ =>
        Ok (Some (sheetOf r (sectionQuery scanFloat32 id (tables s))))
    | [] => Err (wrapError "Error fetching: " ErrNoRows)
    end.
Proof.
  intros Hq.
  destruct (FetchScoreSheet_outcome scanFloat32 id s)
    as (f0 & f1 & g & s' & _ & _ & Hi0 & Hi1 & _ & HH).
  apply (injected_quiet s f0 Hq) in Hi0 as ->.
  apply (injected_quiet s f1 Hq) in Hi1 as ->.
  cbv zeta in HH. destruct HH as [Hret H]. unfold queryOutcome in H, Hret.
  destruct (sheetQuery id (tables s)) as [|r rest].
  - destruct H as (e & He & ->). cbn [fst]. do 2 f_equal.
    cbn [errorOf] in Hret.
    destruct Hret as [Hret|Hret]; rewrite Hret in He; cbn in He; congruence.
  - by rewrite H.
Qed.

Lemma elem_of_if_singleton {B} (c : bool) (x y : B) :
  y ∈ (if c then [x] else []) ↔ c = true ∧ y = x.
Proof.
  destruct c.
  - rewrite list_elem_of_singleton. split; [by intros ->|by intros [_ ->]].
  - split; [by intros ?%elem_of_nil|by intros [? _]].
Qed.

(** The rows of the header query. *)
Lemma elem_of_sheetQuery id (T : Tables) r :
  r ∈ sheetQuery id T
  ↔ ∃ ss tpl t i u,
      ss ∈ score_sheets T ∧ tpl ∈ score_sheet_templates T ∧ t ∈ teams T
      ∧ i ∈ institutions T ∧ u ∈ users T
      ∧ ss_template ss = tpl_id tpl ∧ ss_team ss = t_id t
      ∧ t_institution t = i_id i ∧ u_id u = ss_author ss ∧ ss_id ss = id
      ∧ r = mkDbScoreSheet (ss_id ss) (ss_template ss) (tpl_type tpl)
              (ss_comments ss) (ss_timings ss) (ss_team ss)
              (ss_division ss) (t_name t) (ss_round ss) (i_id i)
              (i_name i) (u_id u) (u_name u) (u_username u).
Proof.
  unfold sheetQuery. rewrite list_elem_of_bind. split.
  - intros (ss & Hr & Hss). apply list_elem_of_bind in Hr as (tpl & Hr & Htpl).
    apply list_elem_of_bind in Hr as (t & Hr & Ht).
    apply list_elem_of_bind in Hr as (i & Hr & Hi).
    apply list_elem_of_bind in Hr as (u & Hr & Hu).
    apply elem_of_if_singleton in Hr as [Hc ->].
    rewrite !andb_true_iff, !String.eqb_eq in Hc.
    destruct Hc as ((((? & ?) & ?) & ?) & ?).
    exists ss, tpl, t, i, u. by repeat split.
  - intros (ss & tpl & t & i & u & Hss & Htpl & Ht & Hi & Hu & H1 & H2 & H3
            & H4 & H5 & ->).
    exists ss. split; [|done]. apply list_elem_of_bind. exists tpl.
    split; [|done]. apply list_elem_of_bind. exists t. split; [|done].
    apply list_elem_of_bind. exists i. split; [|done].
    apply list_elem_of_bind. exists u. split; [|done].
    apply elem_of_if_singleton. split; [|done].
    rewrite !andb_true_iff, !String.eqb_eq. by repeat split.
Qed.

(** What a successful header insert has checked. *)
Lemma execInsertScoreSheet_references division team template timings
    comments round author s id s1 :
  execInsertScoreSheet division team template timings comments round author
    s = (Ok id, s1) →
  hasId d_id division (divisions (tables s)) = true
  ∧ hasId t_id team (teams (tables s)) = true
  ∧ hasId tpl_id template (score_sheet_templates (tables s)) = true
  ∧ hasId u_id author (users (tables s)) = true.
Proof.
  unfold execInsertScoreSheet.
  pose proof (send_tables
                (InsertScoreSheet division team template timings comments
                   round author) s) as Ht.
  destruct (send _ s) as [[e|] s0]; [done|]. cbn [snd] in Ht.
  destruct (nextUuid_store s0) as (Ht2 & _).
  destruct (nextUuid s0) as [id' s2]. cbn [snd] in Ht2.
  rewrite Ht2, Ht.
  destruct (hasId ss_id id' _); [done|].
  destruct (_ && _ && _ && _) eqn:Hc; [|done]. intros _.
  rewrite !andb_true_iff in Hc. by destruct Hc as (((? & ?) & ?) & ?).
Qed.

(** A run of the closure that succeeds. *)
Lemma createClosure_Ok handler s id sb :
  createFn handler s = (Ok id, sb) →
  ∃ scoreSheet s1,
    handler emptyScoreSheet = (None, scoreSheet)
    ∧ execInsertScoreSheet (sh_DivisionId scoreSheet)
        (GetTeamId scoreSheet) (sh_ScoreSheetTemplateId scoreSheet)
        (jsonTimings scoreSheet) (sh_Comments scoreSheet)
        (sh_Round scoreSheet) (GetAuthorId scoreSheet) s = (Ok id, s1)
    ∧ (execInsertSections encodeValue emptyStatement
         (map (λ section,
                 (sss_SectionId section, sss_Value section, id))
            (sh_Sections scoreSheet)) s1).1 = Ok ()
    ∧ sb = (execInsertSections encodeValue emptyStatement
              (map (λ section,
                      (sss_SectionId section, sss_Value section, id))
                 (sh_Sections scoreSheet)) s1).2.
Proof.
  unfold createClosure.
  destruct (handler emptyScoreSheet) as [[e|] scoreSheet] eqn:Hh; [done|].
  unfold bind.
  destruct (execInsertScoreSheet _ _ _ _ _ _ _ s) as [[id'|e] s1] eqn:Hins;
    [|done].
  destruct (execInsertSections _ _ _ s1) as [[[]|e] s2] eqn:Hsec; [|done].
  intros [= <- <-]. exists scoreSheet, s1. by rewrite Hsec.
Qed.

(** Without injected failures a run of the closure that succeeds is
    committed at once, and the sheet is fetched from its tables. *)
Lemma CreateScoreSheet_quiet fuel handler s id sb :
  faults s = [] →
  createFn handler s = (Ok id, sb) →
  ∃ sc, Create (S fuel) handler s = Some (Fetch id sc)
        ∧ tables sc = tables sb ∧ faults sc = [].
Proof.
  intros Hq Hfn.
  destruct (createClosure_spec encodeValue emptyStatement handler s)
    as [Hf _].
  rewrite Hfn in Hf. cbn [snd] in Hf.
  assert (faults sb = []) as Hqb.
  { destruct Hf as [_ [k Hk]]. rewrite Hq in Hk. symmetry in Hk.
    by apply app_eq_nil in Hk as [_ ?]. }
  unfold CreateScoreSheet. cbn [ExecuteTxx]. rewrite Hfn.
  rewrite (send_quiet Commit sb Hqb). eexists. split; [reflexivity|].
  by split.
Qed.

Lemma timings_of_jsonTimings (scoreSheet : ScoreSheet) :
  map (λ timing, mkTiming timing.1 timing.2) (jsonTimings scoreSheet)
  = sh_Timings scoreSheet.
Proof.
  unfold jsonTimings. rewrite map_map.
  rewrite <- (map_id (sh_Timings scoreSheet)) at 2.
  apply map_ext. by intros [].
Qed.

(** The rows of a bulk insert that succeeds. *)
Lemma sectionRows_Ok T existing rows s rs s2 :
  sectionRows encodeValue T existing rows s = (Ok rs, s2) →
  Forall2 (rowOf encodeValue) rs rows
  ∧ Forall (λ row, hasId ts_id (sec_section row)
                     (score_sheet_template_sections T) = true) rs.
Proof.
  revert existing s rs.
  induction rows as [|[[section value] sheet] rows IH];
    intros existing s rs; cbn [sectionRows].
  - intros [= <- <-]. split; constructor.
  - destruct (nextUuid s) as [id s1].
    destruct (hasId sec_id id existing); [done|].
    destruct (_ && _) eqn:Href; [|done].
    apply andb_prop in Href as [Href _].
    destruct (encodeValue value) as [v|] eqn:Ev; [|done].
    specialize (IH (existing ++ [mkSectionRow id section v sheet]) s1).
    destruct (sectionRows _ _ _ rows s1) as [[rs'|e] s3]; [|done].
    intros [= <- <-]. destruct (IH rs' eq_refl) as [Hrows Hrefs].
    split; constructor; done.
Qed.

Lemma execInsertSections_Ok rows s :
  (execInsertSections encodeValue emptyStatement rows s).1 = Ok () →
  ∃ rs,
    Forall2 (rowOf encodeValue) rs rows
    ∧ Forall (λ row, hasId ts_id (sec_section row)
                       (score_sheet_template_sections (tables s)) = true)
        rs
    ∧ tables (execInsertSections encodeValue emptyStatement rows s).2
      = setSections (score_sheet_sections (tables s) ++ rs) (tables s).
Proof.
  unfold execInsertSections.
  pose proof (send_tables (InsertSections rows) s) as Ht.
  destruct (send _ s) as [[e|] s1]; [done|]. cbn [snd] in Ht.
  destruct rows as [|r rows].
  - destruct emptyStatement; [done|]. intros _. exists [].
    split; [constructor|]. split; [constructor|]. cbn [snd].
    by rewrite Ht, setSections_nil.
  - pose proof (sectionRows_spec encodeValue (λ _, True) (tables s1)
                  (score_sheet_sections (tables s1)) (r :: rows) s1)
      as (_ & Ht2 & _).
    destruct (sectionRows _ _ _ (r :: rows) s1) as [[rs|e] s2] eqn:Hrows;
      [|done].
    intros _. apply sectionRows_Ok in Hrows as [Hrows Hrefs].
    exists rs. rewrite <- Ht. split; [done|]. split; [done|]. done.
Qed.

(** Without injected failures, and with every team having its
    institution, a run of the closure that succeeds is committed, and
    the sheet returned is made of the one header row of the new id and
    of the section rows of that id in the tables with the new rows. *)
Lemma CreateScoreSheet_fetched fuel handler s id sb :
  faults s = [] →
  teamsHaveInstitutions (tables s) →
  createFn handler s = (Ok id, sb) →
  ∃ scoreSheet rs r s',
    handler emptyScoreSheet = (None, scoreSheet)
    ∧ hasId ss_id id (score_sheets (tables s)) = false
    ∧ sectionRowsOf encodeValue rs scoreSheet id
    ∧ Forall (λ row, hasId ts_id (sec_section row)
                       (score_sheet_template_sections (tables s)) = true)
        rs
    ∧ tables s' = createdTables (tables s) (clock s) id scoreSheet rs
    ∧ Create (S fuel) handler s
      = Some (Ok (Some (sheetOf r (sectionQuery scanFloat32 id (tables s')))),
              s')
    ∧ dbs_ID r = id
    ∧ dbs_TemplateID r = sh_ScoreSheetTemplateId scoreSheet
    ∧ dbs_Comments r = sh_Comments scoreSheet
    ∧ dbs_Timings r = jsonTimings scoreSheet
    ∧ dbs_TeamID r = GetTeamId scoreSheet
    ∧ dbs_Division r = sh_DivisionId scoreSheet
    ∧ dbs_Round r = sh_Round scoreSheet
    ∧ dbs_AuthorID r = GetAuthorId scoreSheet.
Proof.
  intros Hq Hinst Hfn.
  destruct (CreateScoreSheet_quiet fuel handler s id sb Hq Hfn)
    as (sc & Hcreate & Htc & Hqc).
  destruct (createClosure_Ok handler s id sb Hfn)
    as (scoreSheet & s1 & Hh & Hins & Hsec & ->).
  destruct (execInsertScoreSheet_spec (λ _, True) (λ _, False)
              (sh_DivisionId scoreSheet) (GetTeamId scoreSheet)
              (sh_ScoreSheetTemplateId scoreSheet) (jsonTimings scoreSheet)
              (sh_Comments scoreSheet) (sh_Round scoreSheet)
              (GetAuthorId scoreSheet) s I) as [_ Hok].
  rewrite Hins in Hok. cbn [fst snd] in Hok. destruct Hok as [Hfresh Ht1].
  apply execInsertSections_Ok in Hsec as (rs & Hrs & Hrefs & Htb).
  rewrite <- Htc in Htb. rewrite Ht1 in Htb, Hrefs. cbn in Hrefs.
  apply execInsertScoreSheet_references in Hins
    as (_ & Hteam & Htpl & Hauthor).
  apply hasId_true in Hteam as (t & Ht & Htid).
  apply hasId_true in Htpl as (tpl & Htplin & Htplid).
  apply hasId_true in Hauthor as (u & Hu & Huid).
  destruct (proj1 (hasId_true i_id _ _) (Hinst t Ht)) as (i & Hi & Hiid).
  set (new := mkScoreSheetRow id (sh_DivisionId scoreSheet)
                (GetTeamId scoreSheet) (sh_ScoreSheetTemplateId scoreSheet)
                (jsonTimings scoreSheet) (GetAuthorId scoreSheet)
                (sh_Comments scoreSheet) (sh_Round scoreSheet) (clock s)).
  assert (Hrows : ∀ r, r ∈ sheetQuery id (tables sc) →
                  dbs_ID r = id
                  ∧ dbs_TemplateID r = sh_ScoreSheetTemplateId scoreSheet
                  ∧ dbs_Comments r = sh_Comments scoreSheet
                  ∧ dbs_Timings r = jsonTimings scoreSheet
                  ∧ dbs_TeamID r = GetTeamId scoreSheet
                  ∧ dbs_Division r = sh_DivisionId scoreSheet
                  ∧ dbs_Round r = sh_Round scoreSheet
                  ∧ dbs_AuthorID r = GetAuthorId scoreSheet).
  { intros r Hr. apply elem_of_sheetQuery in Hr
      as (ss & tpl' & t' & i' & u' & Hss & _ & _ & _ & _ & _ & _ & _ & Hau
          & Hid & ->).
    rewrite Htb in Hss. cbn in Hss.
    apply elem_of_app in Hss as [Hss|Hss].
    - by apply (proj1 (hasId_false ss_id id _) Hfresh) in Hss.
    - apply list_elem_of_singleton in Hss. subst ss.
      cbn [dbs_ID dbs_TemplateID dbs_Comments dbs_Timings dbs_TeamID
           dbs_Division dbs_Round dbs_AuthorID ss_id ss_template
           ss_comments ss_timings ss_team ss_division ss_round].
      by rewrite Hau. }
  assert (Hex : mkDbScoreSheet (ss_id new) (ss_template new) (tpl_type tpl)
                  (ss_comments new) (ss_timings new) (ss_team new)
                  (ss_division new) (t_name t) (ss_round new) (i_id i)
                  (i_name i) (u_id u) (u_name u) (u_username u)
                ∈ sheetQuery id (tables sc)).
  { apply elem_of_sheetQuery. exists new, tpl, t, i, u.
    rewrite Htb. cbn.
    repeat split; try done.
    apply elem_of_app. right. apply list_elem_of_here. }
  pose proof (FetchScoreSheet_quiet id sc Hqc) as Hfetch.
  destruct (sheetQuery id (tables sc)) as [|r rest];
    [by apply elem_of_nil in Hex|].
  destruct (FetchScoreSheet_follows scanFloat32 id sc) as [Htf _].
  destruct (Fetch id sc) as [res s'] eqn:Efetch. cbn [fst snd] in *.
  subst res. exists scoreSheet, rs, r, s'.
  split; [done|]. split; [done|]. split; [done|]. split; [done|].
  split; [by rewrite Htf|]. split; [by rewrite Htf|].
  apply Hrows, list_elem_of_here.
Qed.

(** X9.  A sheet that [CreateScoreSheet] stores comes back as it was
    stored: when the store injects no failure, every team has its
    institution and the closure succeeds with the id [id], the call
    returns the sheet fetched under [id], an id no sheet had before, with
    the template, comments, round, team, author, division and timings
    that the mutator set. *)
Theorem CreateScoreSheet_returns_header fuel handler s id sb :
  faults s = [] →
  teamsHaveInstitutions (tables s) →
  createClosure encodeValue emptyStatement handler s = (Ok id, sb) →
  ∃ sheet s',
    CreateScoreSheet scanFloat32 encodeValue emptyStatement (S fuel)
      handler s = Some (Ok (Some sheet), s')
    ∧ sh_Id sheet = id
    ∧ hasId ss_id id (score_sheets (tables s)) = false
    ∧ hasId ss_id id (score_sheets (tables s')) = true
    ∧ readHeader sheet = storedHeader (handler emptyScoreSheet).2.
Proof.
  intros Hq Hinst Hfn.
  destruct (CreateScoreSheet_fetched fuel handler s id sb Hq Hinst Hfn)
    as (scoreSheet & rs & r & s' & Hh & Hfresh & _ & _ & Htb & Hcreate
        & H1 & H2 & H3 & H4 & H5 & H6 & H7 & H8).
  eexists _, s'. split; [exact Hcreate|].
  split; [exact H1|]. split; [exact Hfresh|]. split.
  - rewrite Htb. cbn. apply hasId_true. eexists.
    split; [apply elem_of_app; right; apply list_elem_of_here|done].
  - rewrite Hh. unfold readHeader, storedHeader, sheetOf, GetTeamId,
      GetAuthorId.
    cbn [sh_ScoreSheetTemplateId sh_Comments sh_Round sh_Team sh_Author
         sh_DivisionId sh_Timings team_Id user_Id snd].
    rewrite H2, H3, H4, H5, H6, H7, H8, timings_of_jsonTimings. done.
Qed.

Lemma bind_all_nil {A B} (f : A → list B) (l : list A) :
  (∀ a, a ∈ l → f a = []) → l ≫= f = [].
Proof.
  induction l as [|a l IH]; [done|]. intros Hall.
  rewrite bind_cons, (Hall a (list_elem_of_here _ _)), IH; [done|].
  intros b Hb. apply Hall. by apply list_elem_of_further.
Qed.

(** A row joins with the one row of a table that has the key it refers
    to. *)
Lemma join_unique {R B} (key : R → string) (F : R → B) (l : list R) k :
  NoDup (map key l) →
  hasId key k l = true →
  ∃ r0, r0 ∈ l ∧ key r0 = k
        ∧ l ≫= (λ r, if String.eqb (key r) k then [F r] else []) = [F r0].
Proof.
  induction l as [|r l IH]; [done|]. cbn [map hasId existsb].
  intros Hnd Hhas. apply NoDup_cons in Hnd as [Hfirst Hnd].
  rewrite bind_cons.
  destruct (String.eqb_spec (key r) k) as [Hk|Hk].
  - exists r. split; [apply list_elem_of_here|]. split; [done|].
    rewrite bind_all_nil; [done|]. intros r' Hr'.
    destruct (String.eqb_spec (key r') k) as [Hk'|_]; [|done].
    exfalso. apply Hfirst. rewrite Hk, <- Hk'.
    by apply list_elem_of_fmap_2.
  - cbn [orb] in Hhas. destruct (IH Hnd Hhas) as (r0 & Hr0 & Hk0 & Hbind).
    exists r0. split; [by apply list_elem_of_further|]. by split.
Qed.

(** The sections query on the tables with the new rows: the new rows,
    each with its template section. *)
Lemma sectionQuery_created T now id scoreSheet rs :
  sectionsHaveSheets T →
  hasId ss_id id (score_sheets T) = false →
  NoDup (map ts_id (score_sheet_template_sections T)) →
  Forall (λ row, sec_score_sheet row = id) rs →
  Forall (λ row, hasId ts_id (sec_section row)
                   (score_sheet_template_sections T) = true) rs →
  map (λ d, (dbsec_ID d, dbsec_SectionID d, dbsec_Value d))
    (sectionQuery scanFloat32 id (createdTables T now id scoreSheet rs))
  ≡ₚ map (storedSection scanFloat32) rs.
Proof.
  intros Hsheets Hfresh Hnd Hid Hrefs. unfold sectionQuery.
  rewrite (fmap_Permutation snd _ _ (SliceStable_Permutation _ _)).
  cbn [createdTables setSections setScoreSheets score_sheet_sections
       score_sheet_template_sections].
  rewrite bind_app, bind_all_nil.
  2: { intros sec Hsec. apply bind_all_nil. intros ts _.
       destruct (String.eqb_spec (sec_score_sheet sec) id) as [Heq|_];
         [|by rewrite andb_false_r].
       apply Hsheets in Hsec. rewrite Heq, Hfresh in Hsec. done. }
  cbn [app]. clear Hsheets Hfresh.
  induction rs as [|row rs IH]; [done|].
  apply Forall_cons in Hid as [Hrow Hid].
  apply Forall_cons in Hrefs as [Href Hrefs].
  rewrite bind_cons, !fmap_app, IH by done. cbn [map].
  change (storedSection scanFloat32 row
          :: map (storedSection scanFloat32) rs)
    with ([storedSection scanFloat32 row]
          ++ map (storedSection scanFloat32) rs).
  apply Permutation_app; [|done].
  destruct (join_unique ts_id
              (λ ts, (ts_display_order ts,
                      mkDbScoreSheetSection (sec_id row) (ts_title ts)
                        (ts_description ts) (ts_max_value ts)
                        (ts_multiplier ts) (sec_section row)
                        (scanFloat32 (sec_value row))))
              (score_sheet_template_sections T) (sec_section row) Hnd Href)
    as (ts0 & _ & _ & Hjoin).
  erewrite bind_ext_in; [rewrite Hjoin; done|].
  intros ts _. cbn beta. rewrite Hrow, String.eqb_refl, andb_true_r. done.
Qed.

(** X14.  The sections of a sheet that [CreateScoreSheet] stores come
    back too: when, moreover, every section row belongs to a sheet and
    the template sections have distinct ids, the sheet returned has
    exactly one section for each section the mutator set, with the
    template section it names and the value as the store keeps it, under
    the id of its new row. *)
Theorem CreateScoreSheet_returns_sections fuel handler s id sb :
  faults s = [] →
  teamsHaveInstitutions (tables s) →
  sectionsHaveSheets (tables s) →
  NoDup (map ts_id (score_sheet_template_sections (tables s))) →
  createClosure encodeValue emptyStatement handler s = (Ok id, sb) →
  ∃ sheet s' rs,
    CreateScoreSheet scanFloat32 encodeValue emptyStatement (S fuel)
      handler s = Some (Ok (Some sheet), s')
    ∧ sectionRowsOf encodeValue rs (handler emptyScoreSheet).2 id
    ∧ map readSection (sh_Sections sheet)
      ≡ₚ map (storedSection scanFloat32) rs
    ∧ length (sh_Sections sheet)
      = length (sh_Sections (handler emptyScoreSheet).2).
Proof.
  intros Hq Hinst Hsheets Hnd Hfn.
  destruct (CreateScoreSheet_fetched fuel handler s id sb Hq Hinst Hfn)
    as (scoreSheet & rs & r & s' & Hh & Hfresh & Hrs & Hrefs & Htb
        & Hcreate & _).
  assert (Forall (λ row, sec_score_sheet row = id) rs) as Hid.
  { unfold sectionRowsOf in Hrs. clear -Hrs. revert rs Hrs.
    induction (sh_Sections scoreSheet) as [|section sections IH];
      intros rs Hrs; cbn [map] in Hrs.
    - apply Forall2_nil_inv_r in Hrs as ->. constructor.
    - apply Forall2_cons_inv_r in Hrs as (row & rs' & Hrow & Hrs' & ->).
      constructor; [|by apply IH]. destruct Hrow as (_ & Hsheet & _).
      exact Hsheet. }
  pose proof (sectionQuery_created (tables s) (clock s) id scoreSheet rs
                Hsheets Hfresh Hnd Hid Hrefs) as Hperm.
  rewrite <- Htb in Hperm.
  eexists _, s', rs. split; [exact Hcreate|]. rewrite Hh. cbn [snd].
  split; [exact Hrs|].
  assert (map readSection
            (sh_Sections
               (sheetOf r (sectionQuery scanFloat32 id (tables s'))))
          = map (λ d, (dbsec_ID d, dbsec_SectionID d, dbsec_Value d))
              (sectionQuery scanFloat32 id (tables s'))) as Hread.
  { unfold sheetOf. cbn [sh_Sections]. rewrite map_map. done. }
  split; [by rewrite Hread|].
  apply Permutation_length in Hperm. rewrite <- Hread in Hperm.
  rewrite !length_map in Hperm. rewrite Hperm.
  apply Forall2_length in Hrs. by rewrite length_map in Hrs.
Qed.
End RoundTripFacts.

(** The sample tables keep their foreign keys. *)
Lemma sampleTables_teams : teamsHaveInstitutions sampleTables.
Proof.
  unfold teamsHaveInstitutions. apply Forall_forall.
  apply (bool_decide_unpack _). vm_compute. exact I.
Qed.

Lemma sampleTables_sections : sectionsHaveSheets sampleTables.
Proof.
  unfold sectionsHaveSheets. apply Forall_forall.
  apply (bool_decide_unpack _). vm_compute. exact I.
Qed.

Lemma sampleTables_templates :
  NoDup (map ts_id (score_sheet_template_sections sampleTables)).
Proof. apply (bool_decide_unpack _). vm_compute. exact I. Qed.

Lemma sampleCreatedRun_Ok :
  createClosure exactEncode None (sampleNewSheet sampleSections) sampleStore
  = (Ok "s1", sampleCreatedRun.2).
Proof. vm_compute. reflexivity. Qed.

(** X9 on the sample: the new sheet of team A for round 1. *)
Lemma CreateScoreSheet_returns_header_witness :
  ∃ sheet s',
    CreateScoreSheet exactFloat64 exactEncode None 1
      (sampleNewSheet sampleSections) sampleStore
    = Some (Ok (Some sheet), s')
    ∧ sh_Id sheet = "s1"
    ∧ readHeader sheet
      = storedHeader (sampleNewSheet sampleSections emptyScoreSheet).2.
Proof.
  destruct (CreateScoreSheet_returns_header exactFloat64 exactEncode None 0
              (sampleNewSheet sampleSections) sampleStore "s1"
              sampleCreatedRun.2 eq_refl sampleTables_teams
              sampleCreatedRun_Ok)
    as (sheet & s' & Hrun & Hid & _ & _ & Hheader).
  exists sheet, s'. split; [exact Hrun|]. split; [exact Hid|exact Hheader].
Defined.

(** X14 on the sample: the two sections of the new sheet. *)
Lemma CreateScoreSheet_returns_sections_witness :
  ∃ sheet s',
    CreateScoreSheet exactFloat64 exactEncode None 1
      (sampleNewSheet sampleSections) sampleStore
    = Some (Ok (Some sheet), s')
    ∧ length (sh_Sections sheet) = 2%nat.
Proof.
  destruct (CreateScoreSheet_returns_sections exactFloat64 exactEncode None
              0 (sampleNewSheet sampleSections) sampleStore "s1"
              sampleCreatedRun.2 eq_refl sampleTables_teams
              sampleTables_sections sampleTables_templates
              sampleCreatedRun_Ok)
    as (sheet & s' & rs & Hrun & _ & _ & Hlen).
  exists sheet, s'. split; [exact Hrun|exact Hlen].
Defined.


(** ** An updated sheet as it is fetched *)

Section UpdateRoundTripFacts.
Variable scanFloat32 : decimal → float64.
Variable encodeValue : float64 → option decimal.

Local Abbreviation Fetch := (FetchScoreSheet scanFloat32).
Local Abbreviation Update := (UpdateScoreSheet scanFloat32 encodeValue).
Local Abbreviation updateFn := (updateClosure scanFloat32 encodeValue).

(** A run of the closure that succeeds. *)
Lemma updateClosure_Ok id handler s sb :
  updateFn id handler s = (Ok (), sb) →
  ∃ sheet0 s1 mutated s2,
    Fetch id s = (Ok (Some sheet0), s1)
    ∧ handler sheet0 = (None, mutated)
    ∧ execUpdateScoreSheet id (GetTeamId mutated) (jsonTimings mutated)
        (sh_Comments mutated) s1 = (Ok (), s2)
    ∧ updateSections encodeValue (sh_Sections mutated) s2 = (Ok (), sb).
Proof.
  unfold updateClosure, bind.
  destruct (Fetch id s) as [[[sheet0|]|e] s1] eqn:Hfetch; try done.
  destruct (handler sheet0) as [[e|] mutated] eqn:Hh; [done|].
  destruct (execUpdateScoreSheet _ _ _ _ s1) as [[[]|e] s2] eqn:Hup;
    [|done].
  intros Hsec. by exists sheet0, s1, mutated, s2.
Qed.

Lemma execUpdateScoreSheet_Ok id team timings comments s s2 :
  execUpdateScoreSheet id team timings comments s = (Ok (), s2) →
  tables s2
  = setScoreSheets
      (map (updatedRow id team timings comments) (score_sheets (tables s)))
      (tables s)
  ∧ (hasId ss_id id (score_sheets (tables s)) = true →
     hasId t_id team (teams (tables s)) = true)
  ∧ follows (λ _, True) s s2.
Proof.
  unfold execUpdateScoreSheet.
  destruct (send_cases (λ _, True)
              (UpdateScoreSheetRow id team timings comments) s I)
    as (Hf & Ht & _).
  destruct (send _ s) as [[e|] s1]; [done|]. cbn [snd] in Ht, Hf.
  rewrite Ht.
  destruct (hasId ss_id id _ && negb _) eqn:Hc; [done|].
  intros [= <-]. split; [done|]. split; [|done].
  intros Hhas. rewrite Hhas in Hc. cbn in Hc.
  by apply negb_false_iff in Hc.
Qed.

Lemma setSections_same (T : Tables) :
  setSections (score_sheet_sections T) T = T.
Proof. by destruct T. Qed.

Lemma setSections_twice rows rows' (T : Tables) :
  setSections rows' (setSections rows T) = setSections rows' T.
Proof. done. Qed.

Lemma execUpdateSection_tables id value s :
  ∃ rows,
    tables (execUpdateSection encodeValue id value s).2
    = setSections rows (tables s).
Proof.
  unfold execUpdateSection.
  pose proof (send_tables (UpdateSectionValue id value) s) as Ht.
  destruct (send _ s) as [[e|] s1]; cbn [fst snd] in *.
  - exists (score_sheet_sections (tables s)).
    by rewrite Ht, setSections_same.
  - destruct (encodeValue value).
    + eexists. cbn [snd tables]. by rewrite Ht.
    + exists (score_sheet_sections (tables s)).
      destruct (hasId _ _ _); cbn [snd]; by rewrite Ht, setSections_same.
Qed.

(** The updates of the sections touch the section rows only. *)
Lemma updateSections_tables sections s :
  ∃ rows,
    tables (updateSections encodeValue sections s).2
    = setSections rows (tables s).
Proof.
  revert s. induction sections as [|section rest IH]; intros s.
  - exists (score_sheet_sections (tables s)). cbn.
    by rewrite setSections_same.
  - cbn [updateSections]. unfold bind.
    destruct (execUpdateSection_tables (sss_Id section) (sss_Value section)
                s) as (rows & Ht).
    destruct (execUpdateSection _ _ _ s) as [[[]|e] s1]; cbn [fst snd] in *.
    + destruct (IH s1) as (rows' & Hrows'). exists rows'.
      by rewrite Hrows', Ht, setSections_twice.
    + by exists rows.
Qed.

Lemma follows_quiet P s s' : follows P s s' → faults s = [] → faults s' = [].
Proof.
  intros [_ [k Hk]] Hq. rewrite Hq in Hk. symmetry in Hk.
  by apply app_eq_nil in Hk as [_ ?].
Qed.

Lemma NoDup_key_eq {R} (key : R → string) (l : list R) a b :
  NoDup (map key l) → a ∈ l → b ∈ l → key a = key b → a = b.
Proof.
  induction l as [|r l IH]; [by intros _ ?%elem_of_nil|].
  cbn [map]. intros Hnd Ha Hb Heq. apply NoDup_cons in Hnd as [Hfirst Hnd].
  apply elem_of_cons in Ha as [->|Ha]; apply elem_of_cons in Hb as [->|Hb].
  - done.
  - exfalso. apply Hfirst. rewrite Heq. by apply list_elem_of_fmap_2.
  - exfalso. apply Hfirst. rewrite <- Heq. by apply list_elem_of_fmap_2.
  - by apply IH.
Qed.

(** Without injected failures a run of the closure that succeeds is
    committed at once, and the sheet is fetched from its tables. *)
Lemma UpdateScoreSheet_quiet fuel id handler s sb :
  faults s = [] →
  updateFn id handler s = (Ok (), sb) →
  ∃ sc, Update (S fuel) id handler s = Some (Fetch id sc)
        ∧ tables sc = tables sb ∧ faults sc = [].
Proof.
  intros Hq Hfn.
  destruct (updateClosure_spec scanFloat32 encodeValue None id handler s)
    as [Hf _].
  rewrite Hfn in Hf. cbn [snd] in Hf.
  pose proof (follows_quiet _ _ _ Hf Hq) as Hqb.
  unfold UpdateScoreSheet. cbn [ExecuteTxx]. rewrite Hfn.
  rewrite (send_quiet Commit sb Hqb). eexists. split; [reflexivity|].
  by split.
Qed.

(** Without injected failures, with every team having its institution
    and distinct sheet ids, a run of the closure that succeeds is
    committed, and the sheet returned is made of a header row that has
    what the mutator set and, for the rest, what the row had. *)
Lemma UpdateScoreSheet_fetched fuel id handler s sb :
  faults s = [] →
  teamsHaveInstitutions (tables s) →
  NoDup (map ss_id (score_sheets (tables s))) →
  updateFn id handler s = (Ok (), sb) →
  ∃ r0 s1 mutated r s',
    Fetch id s
    = (Ok (Some (sheetOf r0 (sectionQuery scanFloat32 id (tables s)))), s1)
    ∧ handler (sheetOf r0 (sectionQuery scanFloat32 id (tables s)))
      = (None, mutated)
    ∧ Update (S fuel) id handler s
      = Some (Ok (Some (sheetOf r (sectionQuery scanFloat32 id (tables s')))),
              s')
    ∧ tables s' = tables sb
    ∧ dbs_ID r = id
    ∧ dbs_TemplateID r = dbs_TemplateID r0
    ∧ dbs_Comments r = sh_Comments mutated
    ∧ dbs_Timings r = jsonTimings mutated
    ∧ dbs_TeamID r = GetTeamId mutated
    ∧ dbs_Division r = dbs_Division r0
    ∧ dbs_Round r = dbs_Round r0
    ∧ dbs_AuthorID r = dbs_AuthorID r0.
Proof.
  intros Hq Hinst Hnd Hfn.
  destruct (UpdateScoreSheet_quiet fuel id handler s sb Hq Hfn)
    as (sc & Hupdate & Htc & Hqc).
  destruct (updateClosure_Ok id handler s sb Hfn)
    as (sheet0 & s1 & mutated & s2 & Hfetch & Hh & Hup & Hsec).
  pose proof (FetchScoreSheet_quiet scanFloat32 id s Hq) as Hfirst.
  destruct (FetchScoreSheet_follows scanFloat32 id s) as [Ht1 _].
  rewrite Hfetch in Hfirst, Ht1. cbn [fst snd] in Hfirst, Ht1.
  destruct (sheetQuery id (tables s)) as [|r0 rest0] eqn:Hq0; [done|].
  injection Hfirst as ->.
  assert (r0 ∈ sheetQuery id (tables s)) as Hr0
    by (rewrite Hq0; apply list_elem_of_here).
  apply elem_of_sheetQuery in Hr0
    as (ss0 & tpl & t0 & i0 & u & Hss0 & Htpl & _ & _ & Hu & Htplid & _ & _
        & Hau & Hid0 & Hr0).
  apply execUpdateScoreSheet_Ok in Hup as (Ht2 & Hfk & _).
  rewrite Ht1 in Ht2, Hfk.
  destruct (updateSections_tables (sh_Sections mutated) s2) as (rows & Htb).
  rewrite Hsec in Htb. cbn [snd] in Htb. rewrite <- Htc, Ht2 in Htb.
  assert (hasId ss_id id (score_sheets (tables s)) = true) as Hhas
    by (apply hasId_true; by exists ss0).
  apply Hfk, hasId_true in Hhas as (t & Ht & Htid).
  destruct (proj1 (hasId_true i_id _ _) (Hinst t Ht)) as (i & Hi & Hiid).
  set (team := GetTeamId mutated) in *.
  set (timings := jsonTimings mutated) in *.
  set (comments := sh_Comments mutated) in *.
  set (new := updatedRow id team timings comments ss0).
  assert (Hnew : new = mkScoreSheetRow id (ss_division ss0) team
                         (ss_template ss0) timings (ss_author ss0) comments
                         (ss_round ss0) (ss_created_at ss0)).
  { subst new. unfold updatedRow. by rewrite Hid0, String.eqb_refl. }
  assert (Hrows : ∀ r, r ∈ sheetQuery id (tables sc) →
                  dbs_ID r = id
                  ∧ dbs_TemplateID r = dbs_TemplateID r0
                  ∧ dbs_Comments r = comments
                  ∧ dbs_Timings r = timings
                  ∧ dbs_TeamID r = team
                  ∧ dbs_Division r = dbs_Division r0
                  ∧ dbs_Round r = dbs_Round r0
                  ∧ dbs_AuthorID r = dbs_AuthorID r0).
  { intros r Hr. apply elem_of_sheetQuery in Hr
      as (ss' & tpl' & t' & i' & u' & Hss' & _ & _ & _ & _ & _ & _ & _
          & Hau' & Hid' & ->).
    rewrite Htb in Hss'. cbn in Hss'.
    apply list_elem_of_fmap in Hss' as (ss & -> & Hss).
    assert (ss_id ss = id) as Hssid.
    { revert Hid'. unfold updatedRow.
      by destruct (String.eqb_spec (ss_id ss) id). }
    assert (ss = ss0) as ->
      by (apply (NoDup_key_eq ss_id (score_sheets (tables s)));
          [done..|congruence]).
    fold new in Hau' |- *. rewrite Hnew in Hau' |- *. rewrite Hr0.
    cbn [dbs_ID dbs_TemplateID dbs_Comments dbs_Timings dbs_TeamID
         dbs_Division dbs_Round dbs_AuthorID ss_id ss_template
         ss_comments ss_timings ss_team ss_division ss_round ss_author]
      in *.
    repeat split; congruence. }
  assert (Hex : mkDbScoreSheet (ss_id new) (ss_template new) (tpl_type tpl)
                  (ss_comments new) (ss_timings new) (ss_team new)
                  (ss_division new) (t_name t) (ss_round new) (i_id i)
                  (i_name i) (u_id u) (u_name u) (u_username u)
                ∈ sheetQuery id (tables sc)).
  { apply elem_of_sheetQuery. exists new, tpl, t, i, u.
    rewrite Htb. cbn [setSections setScoreSheets score_sheets
                      score_sheet_templates teams institutions users].
    split; [by apply list_elem_of_fmap_2|].
    rewrite Hnew. cbn [ss_id ss_template ss_team ss_author].
    repeat split; try done. }
  pose proof (FetchScoreSheet_quiet scanFloat32 id sc Hqc) as Hfetch'.
  destruct (sheetQuery id (tables sc)) as [|r rest];
    [by apply elem_of_nil in Hex|].
  destruct (FetchScoreSheet_follows scanFloat32 id sc) as [Htf _].
  destruct (Fetch id sc) as [res s'] eqn:Efetch. cbn [fst snd] in *.
  subst res. exists r0, s1, mutated, r, s'.
  split; [done|]. split; [done|]. split; [by rewrite Htf|].
  split; [congruence|].
  apply Hrows, list_elem_of_here.
Qed.

(** X15.  A sheet that [UpdateScoreSheet] updates comes back with what
    the mutator set and what it may not change: when the store injects
    no failure, every team has its institution, the sheet ids are
    distinct and the closure succeeds, the call returns the sheet of the
    same id with the comments, team and timings of the mutated sheet and
    the template, round, author and division of the sheet as it was
    fetched. *)
Theorem UpdateScoreSheet_returns_header fuel id handler s sb :
  faults s = [] →
  teamsHaveInstitutions (tables s) →
  NoDup (map ss_id (score_sheets (tables s))) →
  updateClosure scanFloat32 encodeValue id handler s = (Ok (), sb) →
  ∃ sheet0 s1 sheet s',
    FetchScoreSheet scanFloat32 id s = (Ok (Some sheet0), s1)
    ∧ UpdateScoreSheet scanFloat32 encodeValue (S fuel) id handler s
      = Some (Ok (Some sheet), s')
    ∧ sh_Id sheet = id
    ∧ readHeader sheet
      = (sh_ScoreSheetTemplateId sheet0, sh_Comments (handler sheet0).2,
         sh_Round sheet0, GetTeamId (handler sheet0).2, GetAuthorId sheet0,
         sh_DivisionId sheet0, sh_Timings (handler sheet0).2).
Proof.
  intros Hq Hinst Hnd Hfn.
  destruct (UpdateScoreSheet_fetched fuel id handler s sb Hq Hinst Hnd Hfn)
    as (r0 & s1 & mutated & r & s' & Hfetch & Hh & Hupdate & _
        & H1 & H2 & H3 & H4 & H5 & H6 & H7 & H8).
  eexists _, s1, _, s'. split; [exact Hfetch|]. split; [exact Hupdate|].
  split; [exact H1|]. rewrite Hh.
  unfold readHeader, sheetOf, GetTeamId, GetAuthorId.
  cbn [sh_ScoreSheetTemplateId sh_Comments sh_Round sh_Team sh_Author
       sh_DivisionId sh_Timings team_Id user_Id snd].
  by rewrite H2, H3, H4, H5, H6, H7, H8, timings_of_jsonTimings.
Qed.
End UpdateRoundTripFacts.

Lemma sampleTables_sheets : NoDup (map ss_id (score_sheets sampleTables)).
Proof. apply (bool_decide_unpack _). vm_compute. exact I. Qed.

Lemma sampleRevisedRun_Ok :
  updateClosure exactFloat64 exactEncode "sA1" sampleRevision sampleStore
  = (Ok (), sampleRevisedRun.2).
Proof. vm_compute. reflexivity. Qed.

(** X15 on the sample: sheet sA1 with revised comments. *)
Lemma UpdateScoreSheet_returns_header_witness :
  ∃ sheet s',
    UpdateScoreSheet exactFloat64 exactEncode 1 "sA1" sampleRevision
      sampleStore = Some (Ok (Some sheet), s')
    ∧ sh_Id sheet = "sA1"
    ∧ sh_Comments sheet = "revised"
    ∧ sh_Round sheet = 1.
Proof.
  destruct (UpdateScoreSheet_returns_header exactFloat64 exactEncode 0 "sA1"
              sampleRevision sampleStore sampleRevisedRun.2 eq_refl
              sampleTables_teams sampleTables_sheets sampleRevisedRun_Ok)
    as (sheet0 & s1 & sheet & s' & Hfetch & Hrun & Hid & Hheader).
  assert (sheet0 = sampleSheet) as ->.
  { assert (FetchScoreSheet exactFloat64 "sA1" sampleStore
            = (Ok (Some sampleSheet), sampleSheetRead.2)) as Hsample
      by (vm_compute; reflexivity).
    congruence. }
  exists sheet, s'. split; [exact Hrun|]. split; [exact Hid|].
  unfold readHeader in Hheader. injection Hheader as _ Hc Hr _ _ _ _.
  split; [exact Hc|exact Hr].
Defined.


(** ** The ladder of the Excel export and the ladder of the store *)

Lemma addScores_nil team : addScores team [] = team.
Proof. unfold addScores. rewrite app_nil_r. by destruct team. Qed.

Lemma addScores_app team l1 l2 :
  addScores (addScores team l1) l2 = addScores team (l1 ++ l2).
Proof. unfold addScores. cbn. by rewrite app_assoc. Qed.

(** After the first loop every team has the scores of its id, in the
    order of the score rows. *)
Lemma fold_appendScore scores ladderList :
  fold_left appendScore scores ladderList
  = map (λ team,
           addScores team
             (map teamScoreOf
                (List.filter
                   (λ score, String.eqb (sc_Team score) (dle_ID team))
                   scores)))
      ladderList.
Proof.
  revert ladderList.
  induction scores as [|score scores IH]; intros ladderList.
  - cbn. rewrite <- (map_id ladderList) at 1. apply map_ext.
    intros team. by rewrite addScores_nil.
  - cbn [fold_left]. rewrite IH. unfold appendScore. rewrite map_map.
    apply map_ext. intros team. cbn [List.filter].
    rewrite (String.eqb_sym (sc_Team score) (dle_ID team)).
    destruct (String.eqb (dle_ID team) (sc_Team score)); cbn [negb].
    + rewrite addScores_app. done.
    + done.
Qed.

(** The loop of the export over the scores of a team is the loop of the
    store over the round averages, without the way through [float64]. *)
Lemma fold_excelStep N1 teamScores acc :
  fold_left (excelStep N1) teamScores acc
  = fold_left (scoreStep (λ average, average) N1)
      (map (λ score,
              mkRoundAverage (dles_Round score) (dles_Average score)
                (dles_Count score))
         teamScores)
      acc.
Proof.
  revert acc. induction teamScores as [|score rest IH]; intros acc; [done|].
  cbn [fold_left map]. rewrite <- IH.
  by destruct acc as [[i b] f].
Qed.

(** The averages that the export takes are those the store reads
    back. *)
Lemma averagesWhere_teamScores Float64 NewFromFloat (p : Z → bool) scores
    team :
  Forall (λ score,
            sc_Team score = team →
            int32 (sc_Round score) = sc_Round score
            ∧ NewFromFloat (Float64 (Round (sc_Average score) 2))
              = Round (sc_Average score) 2)
    scores →
  averagesWhere (λ average, average) p
    (map (λ score,
            mkRoundAverage (dles_Round score) (dles_Average score)
              (dles_Count score))
       (map teamScoreOf
          (List.filter (λ score, String.eqb (sc_Team score) team) scores)))
  = rereadAverages Float64 NewFromFloat p scores team.
Proof.
  unfold averagesWhere, rereadAverages, scoreRows.
  induction scores as [|score rest IH]; intros Hall; [done|].
  apply Forall_cons in Hall as [Hscore Hrest]. specialize (IH Hrest).
  cbn [List.filter].
  destruct (String.eqb_spec (sc_Team score) team) as [Hteam|_];
    cbn [andb map List.filter]; [|exact IH].
  destruct (Hscore Hteam) as [Hround Havg]. cbn [ra_Round ra_Average
    teamScoreOf dles_Round dles_Average]. rewrite Hround.
  destruct (p (sc_Round score)); cbn [map]; [|exact IH].
  by rewrite IH, Havg.
Qed.

(** The totals of one team of the export, from the team row and the
    scores appended to it. *)
Lemma scoreTeam_same_totals Float64 NewFromFloat scores team x0 :
  dle_Scores x0 = [] →
  dle_ID x0 = lt_ID team →
  dle_CompetitionRounds x0 = lt_CompetitionRounds team →
  int32 (lt_CompetitionRounds team) = lt_CompetitionRounds team →
  Forall (λ score,
            sc_Team score = lt_ID team →
            int32 (sc_Round score) = sc_Round score
            ∧ NewFromFloat (Float64 (Round (sc_Average score) 2))
              = Round (sc_Average score) 2)
    scores →
  Float64 dzero = fzero →
  (∀ d, GreaterThan d dzero = fgt (Float64 d) fzero) →
  sameTotals Float64
    (scoreTeam
       (addScores x0
          (map teamScoreOf
             (List.filter
                (λ score, String.eqb (sc_Team score) (dle_ID x0))
                scores))))
    (ladderEntryOf Float64 NewFromFloat (buildScoreMap Float64 scores)
       team).
Proof.
  intros Hnil Hid HN1 Hrange Hexact Hzero Hsign.
  set (teamScores := map teamScoreOf _).
  unfold scoreTeam.
  cbn [addScores dle_ID dle_Name dle_Scores dle_CompetitionRounds].
  rewrite Hnil, app_nil_l, fold_excelStep, HN1.
  rewrite (fold_scoreStep (λ average, average)), Add_zero_l.
  subst teamScores. rewrite Hid.
  rewrite !(averagesWhere_teamScores Float64 NewFromFloat _ scores
              (lt_ID team) Hexact).
  destruct (ladderEntryOf_rounded Float64 NewFromFloat scores team)
    as [_ (Hi & Hb & Hf & Hr & Ht)].
  rewrite Hrange in Hb, Hf, Hr, Ht.
  unfold sameTotals.
  cbn [dle_InterviewScore dle_BestRound dle_BestFinal dle_RoundTotal
       dle_FinalTotal].
  split; [exact Hi|]. split; [exact Hb|]. split; [exact Hf|].
  split; [exact Hr|]. rewrite Ht, Hf, <- Hsign.
  by destruct (GreaterThan _ dzero).
Qed.

(** The name and the id of a team of the export are those of its
    row. *)
Lemma scoreTeam_row x teamScores :
  dle_ID (scoreTeam (addScores x teamScores)) = dle_ID x
  ∧ dle_Name (scoreTeam (addScores x teamScores)) = dle_Name x.
Proof.
  unfold scoreTeam. by destruct (fold_left _ _ _) as [[? ?] ?].
Qed.



(** ** The members of a team after [UpdateTeam] *)

Lemma elem_of_List_filter {A} (f : A → bool) (l : list A) (x : A) :
  x ∈ List.filter f l ↔ x ∈ l ∧ f x = true.
Proof. by rewrite !list_elem_of_In, filter_In. Qed.

Lemma List_filter_filter {A} (f g : A → bool) (l : list A) :
  List.filter f (List.filter g l) = List.filter (λ x, g x && f x) l.
Proof.
  induction l as [|x l IH]; [done|]. cbn [List.filter].
  destruct (g x); cbn [andb List.filter]; [|done].
  destruct (f x); by rewrite IH.
Qed.

Lemma List_filter_ext_in {A} (f g : A → bool) (l : list A) :
  (∀ x, x ∈ l → f x = g x) → List.filter f l = List.filter g l.
Proof.
  intros H. apply filter_ext_in. intros x Hx. by apply H, list_elem_of_In.
Qed.

Lemma answer_quiet db : tdb_faults db = [] → answer db = (None, db).
Proof. unfold answer. by intros ->. Qed.

Lemma freshUuid_tables db :
  tdb_faults (freshUuid db).2 = tdb_faults db
  ∧ tdb_members (freshUuid db).2 = tdb_members db
  ∧ tdb_teams (freshUuid db).2 = tdb_teams db.
Proof. unfold freshUuid. by destruct (tdb_uuids db). Qed.

Lemma execInsertInstitution_Ok name db id db' :
  tdb_faults db = [] →
  execInsertInstitution name db = (Ok id, db') →
  tdb_faults db' = [] ∧ tdb_members db' = tdb_members db.
Proof.
  intros Hq. unfold execInsertInstitution. rewrite (answer_quiet db Hq).
  destruct (freshUuid_tables db) as (Hf & Hm & _).
  destruct (freshUuid db) as [id' db2]. cbn [snd] in Hf, Hm.
  destruct (hasId i_id id' (tdb_institutions db2)); [done|].
  intros [= _ <-]. cbn. by rewrite Hf, Hm.
Qed.

Lemma execUpdateTeam_Ok teamID name institution division db db' :
  tdb_faults db = [] →
  execUpdateTeam teamID name institution division db = (Ok (), db') →
  tdb_faults db' = [] ∧ tdb_members db' = tdb_members db.
Proof.
  intros Hq. unfold execUpdateTeam. rewrite (answer_quiet db Hq).
  destruct (_ && _); [done|]. by intros [= <-].
Qed.

Lemma afterUpdates_cons member members r :
  afterUpdates (member :: members) r
  = afterUpdates members
      (if negb (String.eqb (mem_Id member) "")
          && String.eqb (mr_id r) (mem_Id member)
       then memberRowSet member r else r).
Proof. done. Qed.

(** The first loop: the members without id are gathered in their
    order, each row of the table gets the updates that name it. *)
Lemma updateMembers_Ok teamId members memberInserts db inserted db' :
  tdb_faults db = [] →
  updateMembers teamId members memberInserts db = (Ok inserted, db') →
  tdb_faults db' = []
  ∧ inserted
    = memberInserts
      ++ map (λ member, (mem_Name member, mem_Gender member, teamId))
           (withoutId members)
  ∧ tdb_members db' = map (afterUpdates members) (tdb_members db).
Proof.
  revert memberInserts db.
  induction members as [|member rest IH]; intros memberInserts db Hq.
  - intros [= <- <-]. split; [done|]. cbn. rewrite app_nil_r.
    split; [done|]. by rewrite map_id.
  - cbn [updateMembers withoutId List.filter].
    destruct (String.eqb (mem_Id member) "") eqn:Hid.
    + intros Hrun. destruct (IH _ _ Hq Hrun) as (Hq' & -> & Hm).
      split; [done|]. split; [by rewrite <- app_assoc|].
      rewrite Hm. apply map_ext. intros r.
      by rewrite afterUpdates_cons, Hid.
    + unfold bindT, execUpdateMember. rewrite (answer_quiet db Hq).
      intros Hrun. apply IH in Hrun as (Hq' & -> & Hm); [|done].
      split; [done|]. split; [done|].
      rewrite Hm. cbn [tdb_members setMembers]. rewrite map_map.
      apply map_ext. intros r. by rewrite afterUpdates_cons, Hid.
Qed.

(** The rows of the bulk insert: one per value, in their order, under
    ids that are new. *)
Lemma memberRows_Ok teamRows existing rows db rs db' :
  memberRows teamRows existing rows db = (Ok rs, db') →
  tdb_faults db' = tdb_faults db
  ∧ ∃ ids,
      rs = zip_with
             (λ id '(name, gender, team),
                mkTeamMemberRow id name (genderText gender) team)
             ids rows
      ∧ length ids = length rows
      ∧ NoDup ids
      ∧ ∀ id, id ∈ ids → id ∉ map mr_id existing.
Proof.
  revert existing db rs.
  induction rows as [|[[name gender] team] rest IH]; intros existing db rs.
  - intros [= <- <-]. split; [done|]. exists []. repeat split.
    + apply NoDup_nil_2.
    + intros id Hid. by apply elem_of_nil in Hid.
  - cbn [memberRows]. destruct (freshUuid_tables db) as (Hf & _).
    destruct (freshUuid db) as [id db1]. cbn [snd] in Hf.
    destruct (hasId mr_id id existing) eqn:Hnew; [done|].
    destruct (hasId t_id team teamRows); [|done].
    destruct (memberRows teamRows _ rest db1) as [[rs'|e] db2] eqn:Hrest;
      [|done].
    intros [= <- <-].
    apply IH in Hrest as (Hf' & ids & -> & Hlen & Hnd & Hfresh).
    split; [congruence|]. exists (id :: ids). cbn [zip_with length].
    split; [done|]. split; [by rewrite Hlen|].
    assert (∀ id', id' ∈ ids → id' ≠ id ∧ id' ∉ map mr_id existing)
      as Hboth.
    { intros id' Hin. specialize (Hfresh id' Hin).
      rewrite map_app, elem_of_app in Hfresh. cbn in Hfresh. split.
      - intros ->. apply Hfresh. right. left.
      - intros Hex. apply Hfresh. by left. }
    split.
    + apply NoDup_cons_2; [|done]. intros Hin. by apply Hboth in Hin as [? _].
    + intros id' [->|Hin]%elem_of_cons; [|by apply Hboth].
      intros (r & Heq & Hr)%list_elem_of_fmap.
      by apply (proj1 (hasId_false mr_id _ existing) Hnew r).
Qed.

Lemma deleted_cons existingMember originalMembers members r :
  deleted (existingMember :: originalMembers) members r
  = (negb (found existingMember members)
     && String.eqb (mr_id r) (mem_Id existingMember))
    || deleted originalMembers members r.
Proof. done. Qed.

(** The last loop: the rows of the original members that are not found
    go. *)
Lemma deleteMembers_Ok originalMembers members db db' :
  tdb_faults db = [] →
  deleteMembers originalMembers members db = (Ok (), db') →
  tdb_members db'
  = List.filter (λ r, negb (deleted originalMembers members r))
      (tdb_members db).
Proof.
  revert db.
  induction originalMembers as [|existingMember rest IH]; intros db Hq.
  - intros [= <-]. cbn. induction (tdb_members db) as [|r l IHl]; [done|].
    cbn. by rewrite <- IHl.
  - cbn [deleteMembers].
    destruct (found existingMember members) eqn:Hfound.
    + intros Hrun. rewrite (IH _ Hq Hrun). apply List_filter_ext_in.
      intros r _. by rewrite deleted_cons, Hfound.
    + unfold bindT, execDeleteMember. rewrite (answer_quiet db Hq).
      intros Hrun. apply IH in Hrun; [|done]. rewrite Hrun. cbn [tdb_members setMembers].
      rewrite List_filter_filter. apply List_filter_ext_in.
      intros r _. rewrite deleted_cons, Hfound. cbn [negb andb].
      by rewrite negb_orb.
Qed.

Lemma afterUpdates_id members r :
  mr_id (afterUpdates members r) = mr_id r
  ∧ mr_team (afterUpdates members r) = mr_team r.
Proof.
  revert r. induction members as [|member rest IH]; intros r; [done|].
  rewrite afterUpdates_cons. destruct (_ && _); [|apply IH].
  destruct (IH (memberRowSet member r)) as [-> ->]. done.
Qed.

Lemma elem_of_withId member members :
  member ∈ withId members ↔ member ∈ members ∧ mem_Id member ≠ "".
Proof.
  unfold withId. rewrite elem_of_List_filter, negb_true_iff.
  by rewrite String.eqb_neq.
Qed.

Lemma withId_cons member members :
  withId (member :: members)
  = if String.eqb (mem_Id member) "" then withId members
    else member :: withId members.
Proof. unfold withId. cbn. by destruct (String.eqb _ _). Qed.

(** A row that no member names is left as it is. *)
Lemma afterUpdates_none members r :
  (∀ member, member ∈ withId members → mem_Id member ≠ mr_id r) →
  afterUpdates members r = r.
Proof.
  induction members as [|member rest IH]; intros Hnone; [done|].
  rewrite afterUpdates_cons.
  destruct (String.eqb_spec (mem_Id member) "") as [Hid|Hid]; cbn [negb andb].
  - apply IH. intros m Hm. apply Hnone. rewrite withId_cons.
    by destruct (String.eqb_spec (mem_Id member) "").
  - destruct (String.eqb_spec (mr_id r) (mem_Id member)) as [Heq|_].
    + exfalso. apply (Hnone member); [|done].
      apply elem_of_withId. split; [left|done].
    + apply IH. intros m Hm. apply Hnone. rewrite withId_cons.
      destruct (String.eqb_spec (mem_Id member) ""); [done|by right].
Qed.

(** A row that one member names gets the name and the gender of that
    member. *)
Lemma afterUpdates_some members r member :
  NoDup (map mem_Id (withId members)) →
  member ∈ withId members →
  mem_Id member = mr_id r →
  afterUpdates members r = memberRowOf (mr_team r) (mr_id r) member.
Proof.
  revert r. induction members as [|m rest IH]; intros r Hnd Hin Heq.
  - by apply elem_of_nil in Hin.
  - rewrite afterUpdates_cons. rewrite withId_cons in Hnd, Hin.
    destruct (String.eqb_spec (mem_Id m) "") as [Hid|Hid]; cbn [negb andb].
    + by apply IH.
    + cbn [map] in Hnd. apply NoDup_cons in Hnd as [Hfirst Hnd].
      apply elem_of_cons in Hin as [->|Hin].
      * rewrite Heq, String.eqb_refl. apply afterUpdates_none.
        intros m' Hm' Heq'. apply Hfirst. cbn in Heq'.
        rewrite Heq, <- Heq'. by apply list_elem_of_fmap_2.
      * destruct (String.eqb_spec (mr_id r) (mem_Id m)) as [Hr|_];
          [|by apply IH].
        exfalso. apply Hfirst. rewrite <- Hr, <- Heq.
        by apply list_elem_of_fmap_2.
Qed.

Lemma found_true existingMember members :
  found existingMember members = true
  ↔ ∃ member, member ∈ withId members
              ∧ mem_Id member = mem_Id existingMember.
Proof.
  unfold found. rewrite existsb_exists. split.
  - intros (m & Hin & [Hid Heq]%andb_true_iff). exists m.
    apply String.eqb_eq in Heq. split; [|done].
    apply elem_of_withId. split; [by apply list_elem_of_In|].
    by apply String.eqb_neq, negb_true_iff.
  - intros (m & [Hin Hid]%elem_of_withId & Heq). exists m.
    split; [by apply list_elem_of_In|]. apply andb_true_iff.
    split; [by apply negb_true_iff, String.eqb_neq|by apply String.eqb_eq].
Qed.

Lemma deleted_true originalMembers members r :
  deleted originalMembers members r = true
  ↔ ∃ existingMember, existingMember ∈ originalMembers
                      ∧ found existingMember members = false
                      ∧ mr_id r = mem_Id existingMember.
Proof.
  unfold deleted. rewrite existsb_exists. split.
  - intros (e & Hin & [Hf Heq]%andb_true_iff). exists e.
    split; [by apply list_elem_of_In|].
    split; [by apply negb_true_iff|by apply String.eqb_eq].
  - intros (e & Hin & Hf & Heq). exists e.
    split; [by apply list_elem_of_In|]. apply andb_true_iff.
    split; [by apply negb_true_iff|by apply String.eqb_eq].
Qed.

(** What the closure leaves in the member table when it succeeds. *)
Lemma writeTeam_Ok teamID team originalMembers db db' :
  tdb_faults db = [] →
  writeTeam teamID team originalMembers db = (Ok (), db') →
  ∃ ids,
    length ids = length (withoutId (tm_Members team))
    ∧ NoDup ids
    ∧ (∀ id, id ∈ ids → id ∉ map mr_id (tdb_members db))
    ∧ tdb_members db'
      = List.filter
          (λ r, negb (deleted originalMembers (tm_Members team) r))
          (map (afterUpdates (tm_Members team)) (tdb_members db)
           ++ zip_with (memberRowOf (tm_Id team)) ids
                (withoutId (tm_Members team))).
Proof.
  intros Hq. unfold writeTeam, bindT.
  destruct (chooseInstitution team db) as [[institutionID|e] db1] eqn:Hinst;
    [|done].
  assert (tdb_faults db1 = [] ∧ tdb_members db1 = tdb_members db)
    as [Hq1 Hm1].
  { unfold chooseInstitution in Hinst.
    destruct (String.eqb (inst_Id (tm_Institution team)) "").
    - by apply execInsertInstitution_Ok in Hinst.
    - by injection Hinst as _ <-. }
  destruct (execUpdateTeam _ _ _ _ db1) as [[[]|e] db2] eqn:Hteam; [|done].
  apply execUpdateTeam_Ok in Hteam as [Hq2 Hm2]; [|done].
  destruct (updateMembers _ _ _ db2) as [[inserted|e] db3] eqn:Hupd;
    [|done].
  apply updateMembers_Ok in Hupd as (Hq3 & Hins & Hm3); [|done].
  cbn [app] in Hins. rewrite Hm2, Hm1 in Hm3.
  set (rows1 := map (afterUpdates (tm_Members team)) (tdb_members db))
    in *.
  assert (map mr_id rows1 = map mr_id (tdb_members db)) as Hids.
  { unfold rows1. rewrite map_map. apply map_ext. intros r.
    apply afterUpdates_id. }
  destruct (insertMembers inserted db3) as [[[]|e] db4] eqn:Hbulk; [|done].
  intros Hdel.
  assert (∃ ids,
            length ids = length (withoutId (tm_Members team))
            ∧ NoDup ids
            ∧ (∀ id, id ∈ ids → id ∉ map mr_id rows1)
            ∧ tdb_faults db4 = []
            ∧ tdb_members db4
              = rows1 ++ zip_with (memberRowOf (tm_Id team)) ids
                           (withoutId (tm_Members team)))
    as (ids & Hlen & Hnd & Hfresh & Hq4 & Hm4).
  { assert (inserted = []
            ∨ insertMembers inserted = execInsertMembers inserted)
      as [Hnil|Hsent] by (destruct inserted; [by left|by right]).
    - rewrite Hnil in Hbulk, Hins. injection Hbulk as <-. exists [].
      symmetry in Hins. apply map_eq_nil in Hins. rewrite Hins.
      split; [done|]. split; [apply NoDup_nil_2|].
      split; [by intros id ?%elem_of_nil|]. split; [done|].
      cbn. by rewrite app_nil_r.
    - rewrite Hsent in Hbulk. unfold execInsertMembers in Hbulk.
      rewrite (answer_quiet db3 Hq3) in Hbulk.
      destruct (memberRows _ _ inserted db3) as [[rs|e] db5] eqn:Hrows;
        [|done].
      injection Hbulk as <-.
      apply memberRows_Ok in Hrows as (Hq5 & ids & -> & Hlen & Hnd & Hfr).
      exists ids. rewrite Hins, length_map in Hlen.
      split; [done|]. split; [done|]. rewrite Hm3 in Hfr.
      split; [done|]. split; [cbn; congruence|].
      cbn [tdb_members setMembers]. rewrite Hm3, Hins. f_equal.
      clear. revert ids.
      induction (withoutId (tm_Members team)) as [|w ws IH];
        intros [|id ids]; [done..|].
      cbn. by rewrite IH. }
  apply deleteMembers_Ok in Hdel; [|done].
  exists ids. rewrite Hids in Hfresh. by rewrite Hdel, Hm4.
Qed.

Lemma List_filter_none {A} (f : A → bool) (l : list A) :
  (∀ x, x ∈ l → f x = false) → List.filter f l = [].
Proof.
  induction l as [|x l IH]; intros H; [done|]. cbn.
  rewrite (H x); [|left]. apply IH. intros y Hy. apply H. by right.
Qed.

Lemma NoDup_List_filter {A} (f : A → bool) (l : list A) :
  NoDup l → NoDup (List.filter f l).
Proof.
  induction 1 as [|x l Hx Hl IH]; [apply NoDup_nil_2|]. cbn.
  destruct (f x); [|done]. apply NoDup_cons_2; [|done].
  by intros [? _]%elem_of_List_filter.
Qed.

Section MemberReconciliation.
Variable team : string.
Variables members originalMembers : list Member.
Variable rows : list TeamMemberRow.
Variable ids : list string.
Hypothesis rows_key : NoDup (map mr_id rows).
Hypothesis original_read :
  map mem_Id originalMembers = map mr_id (teamMembers team rows).
Hypothesis members_key : NoDup (map mem_Id (withId members)).
Hypothesis members_known :
  Forall (λ member, mem_Id member ∈ map mem_Id originalMembers)
    (withId members).
Hypothesis ids_length : length ids = length (withoutId members).
Hypothesis ids_key : NoDup ids.
Hypothesis ids_new : ∀ id, id ∈ ids → id ∉ map mr_id rows.

Local Abbreviation newRows :=
  (zip_with (memberRowOf team) ids (withoutId members)).
Local Abbreviation kept :=
  (λ r, negb (deleted originalMembers members r)).

Lemma original_row existingMember :
  existingMember ∈ originalMembers →
  ∃ r, r ∈ rows ∧ mr_id r = mem_Id existingMember ∧ mr_team r = team.
Proof using original_read.
  intros Hin.
  assert (mem_Id existingMember ∈ map mr_id (teamMembers team rows))
    as (r & Heq & [Hr Hteam]%elem_of_List_filter)%list_elem_of_fmap.
  { rewrite <- original_read. by apply list_elem_of_fmap_2. }
  exists r. split; [done|]. split; [done|by apply String.eqb_eq].
Qed.

Lemma team_row r :
  r ∈ rows → mr_team r = team →
  ∃ existingMember,
    existingMember ∈ originalMembers ∧ mem_Id existingMember = mr_id r.
Proof using original_read.
  intros Hin Hteam.
  assert (mr_id r ∈ map mem_Id originalMembers)
    as (e & Heq & He)%list_elem_of_fmap.
  { rewrite original_read. apply list_elem_of_fmap_2.
    apply elem_of_List_filter. split; [done|by apply String.eqb_eq]. }
  by exists e.
Qed.

Lemma row_of_team r existingMember :
  r ∈ rows → existingMember ∈ originalMembers →
  mr_id r = mem_Id existingMember → mr_team r = team.
Proof using original_read rows_key.
  intros Hr (r' & Hr' & Hid & Hteam)%original_row Heq.
  by rewrite (NoDup_key_eq mr_id rows r r' rows_key Hr Hr'); [|congruence].
Qed.

Lemma member_original member :
  member ∈ withId members →
  ∃ existingMember,
    existingMember ∈ originalMembers
    ∧ mem_Id existingMember = mem_Id member.
Proof using members_known.
  intros Hin. rewrite Forall_forall in members_known.
  apply members_known in Hin as (e & Heq & He)%list_elem_of_fmap.
  by exists e.
Qed.

(** The rows of the other teams are neither updated nor deleted. *)
Lemma other_row r :
  r ∈ rows → mr_team r ≠ team →
  afterUpdates members r = r ∧ kept r = true.
Proof using original_read rows_key members_known.
  intros Hr Hteam. split.
  - apply afterUpdates_none. intros m (e & He & Heq)%member_original Hid.
    apply Hteam, (row_of_team r e); congruence.
  - apply negb_true_iff, not_true_is_false.
    intros (e & He & _ & Hid)%deleted_true.
    by apply Hteam, (row_of_team r e).
Qed.

Lemma newRows_spec r :
  r ∈ newRows → mr_team r = team ∧ mr_id r ∈ ids.
Proof. by intros (id & m & -> & Hid & _)%elem_of_zip_with. Qed.

Lemma newRows_ids : map mr_id newRows = ids.
Proof using ids_length.
  apply (fmap_zip_with_l (memberRowOf team) mr_id); [done|].
  by rewrite ids_length.
Qed.

Lemma new_row_kept r : r ∈ newRows → kept r = true.
Proof using original_read ids_new.
  intros [_ Hid]%newRows_spec. apply negb_true_iff, not_true_is_false.
  intros (e & (r' & Hr' & Heq & _)%original_row & _ & Hid')%deleted_true.
  apply (ids_new _ Hid). rewrite Hid', <- Heq.
  by apply list_elem_of_fmap_2.
Qed.

Lemma otherMembers_reconciled :
  otherMembers team
    (List.filter kept (map (afterUpdates members) rows ++ newRows))
  = otherMembers team rows.
Proof using original_read rows_key members_known.
  unfold otherMembers. rewrite !List.filter_app.
  replace (List.filter _ (List.filter kept newRows)) with
    (@nil TeamMemberRow).
  2:{ symmetry. rewrite List_filter_filter. apply List_filter_none.
      intros r [-> _]%newRows_spec.
      by rewrite String.eqb_refl, andb_false_r. }
  rewrite app_nil_r, List_filter_filter.
  pose proof other_row as Hother. clear -Hother.
  induction rows as [|r l IH]; [done|]. cbn [map List.filter].
  destruct (afterUpdates_id members r) as [_ Hteam]. rewrite Hteam.
  destruct (String.eqb_spec (mr_team r) team) as [Heq|Hne].
  - rewrite andb_false_r. apply IH. intros r' Hr'. apply Hother. by right.
  - destruct (Hother r) as [-> ->]; [left|done|]. cbn [andb negb].
    f_equal. apply IH. intros r' Hr'. apply Hother. by right.
Qed.

Lemma withId_known member :
  member ∈ withId members → mem_Id member ∈ map mr_id rows.
Proof using original_read members_known.
  intros (e & (r & Hr & Hid & _)%original_row & Heq)%member_original.
  rewrite <- Heq, <- Hid. by apply list_elem_of_fmap_2.
Qed.

(** The rows of the team are the members that came with an id, under
    their new names and genders, and the new rows. *)
Lemma teamMembers_reconciled :
  teamMembers team
    (List.filter kept (map (afterUpdates members) rows ++ newRows))
  ≡ₚ map (λ member, memberRowOf team (mem_Id member) member)
       (withId members)
     ++ newRows.
Proof using All.
  apply NoDup_Permutation.
  - unfold teamMembers. do 2 apply NoDup_List_filter.
    apply (NoDup_fmap_1 mr_id).
    change (NoDup (map mr_id (map (afterUpdates members) rows ++ newRows))).
    rewrite map_app, map_map, newRows_ids.
    rewrite (map_ext _ mr_id) by (intros r; apply afterUpdates_id).
    apply NoDup_app. split; [done|]. split; [|done].
    intros id Hid Hnew. by apply (ids_new id).
  - apply (NoDup_fmap_1 mr_id).
    change (NoDup (map mr_id
                     (map (λ member,
                             memberRowOf team (mem_Id member) member)
                        (withId members) ++ newRows))).
    rewrite map_app, map_map, newRows_ids. cbn [memberRowOf mr_id].
    apply NoDup_app. split; [done|]. split; [|done].
    intros id (m & -> & Hm)%list_elem_of_fmap Hnew.
    by apply (ids_new _ Hnew), withId_known.
  - intros x. unfold teamMembers.
    rewrite !elem_of_List_filter, !elem_of_app. split.
    + intros [[[(r & -> & Hr)%list_elem_of_fmap|Hnew] Hkept] Hteam];
        [left|by right].
      apply String.eqb_eq in Hteam.
      destruct (afterUpdates_id members r) as [Hid Hteam'].
      rewrite Hteam' in Hteam.
      destruct (team_row r Hr Hteam) as (e & He & Heq).
      destruct (found e members) eqn:Hfound.
      * apply found_true in Hfound as (m & Hm & Hme).
        apply list_elem_of_fmap. exists m. split; [|done].
        rewrite (afterUpdates_some members r m); [|done|done|congruence].
        rewrite Hteam. f_equal. congruence.
      * exfalso. apply negb_true_iff in Hkept.
        apply not_true_iff_false in Hkept. apply Hkept.
        apply deleted_true. exists e. split; [done|]. split; [done|].
        congruence.
    + intros [(m & -> & Hm)%list_elem_of_fmap|Hnew].
      * destruct (member_original m Hm) as (e & He & Heq).
        destruct (original_row e He) as (r & Hr & Hid & Hteam).
        assert (afterUpdates members r
                = memberRowOf team (mem_Id m) m) as Hrow.
        { rewrite (afterUpdates_some members r m);
            [|done|done|congruence].
          rewrite Hteam. f_equal. congruence. }
        split; [split|].
        -- left. apply list_elem_of_fmap. by exists r.
        -- apply negb_true_iff, not_true_is_false.
           intros (e' & He' & Hnot & Hid')%deleted_true.
           apply not_true_iff_false in Hnot. apply Hnot, found_true.
           exists m. split; [done|]. by rewrite <- Hid'.
        -- cbn. apply String.eqb_refl.
      * destruct (newRows_spec x Hnew) as [Hteam _].
        split; [split|]; [by right|by apply new_row_kept|].
        by apply String.eqb_eq.
Qed.
End MemberReconciliation.

(** X17.  [UpdateTeam] makes the members of the team those the mutator
    left: when no fault is pending and the statements after the mutator
    succeed, the mutator kept the id of the team, member ids are
    distinct in the table, the original members are those the store
    holds for the team, and the members that come with an id have
    distinct ids, each the id of an original member, then the member
    rows of the other teams are as before, and the member rows of the
    team are, up to their order, one row per member with an id, under
    the name and the gender of the member, and one row under a new id
    per member without id. *)
Theorem UpdateTeam_members teamID team originalMembers db db' :
  tdb_faults db = [] →
  writeTeam teamID team originalMembers db = (Ok (), db') →
  tm_Id team = teamID →
  NoDup (map mr_id (tdb_members db)) →
  map mem_Id originalMembers
  = map mr_id (teamMembers teamID (tdb_members db)) →
  NoDup (map mem_Id (withId (tm_Members team))) →
  Forall (λ member, mem_Id member ∈ map mem_Id originalMembers)
    (withId (tm_Members team)) →
  otherMembers teamID (tdb_members db')
  = otherMembers teamID (tdb_members db)
  ∧ ∃ ids,
      length ids = length (withoutId (tm_Members team))
      ∧ teamMembers teamID (tdb_members db')
        ≡ₚ map (λ member, memberRowOf teamID (mem_Id member) member)
             (withId (tm_Members team))
           ++ zip_with (memberRowOf teamID) ids
                (withoutId (tm_Members team)).
Proof.
  intros Hq Hrun Hid Hrows Horig Hkey Hknown.
  destruct (writeTeam_Ok teamID team originalMembers db db' Hq Hrun)
    as (ids & Hlen & Hnd & Hnew & ->).
  rewrite Hid. split.
  - by apply otherMembers_reconciled.
  - exists ids. split; [done|]. by apply teamMembers_reconciled.
Qed.

Lemma sampleTeamUpdate_Ok :
  writeTeam "tA" sampleTeamUpdate sampleOriginalMembers sampleTeamsDB
  = (Ok (),
     (writeTeam "tA" sampleTeamUpdate sampleOriginalMembers
        sampleTeamsDB).2).
Proof. vm_compute. reflexivity. Qed.

Lemma UpdateTeam_members_witness :
  otherMembers "tA"
    (tdb_members
       (writeTeam "tA" sampleTeamUpdate sampleOriginalMembers
          sampleTeamsDB).2)
  = otherMembers "tA" (tdb_members sampleTeamsDB)
  ∧ ∃ ids,
      length ids = length (withoutId (tm_Members sampleTeamUpdate))
      ∧ teamMembers "tA"
          (tdb_members
             (writeTeam "tA" sampleTeamUpdate sampleOriginalMembers
                sampleTeamsDB).2)
        ≡ₚ map (λ member, memberRowOf "tA" (mem_Id member) member)
             (withId (tm_Members sampleTeamUpdate))
           ++ zip_with (memberRowOf "tA") ids
                (withoutId (tm_Members sampleTeamUpdate)).
Proof.
  apply (UpdateTeam_members "tA" sampleTeamUpdate sampleOriginalMembers
           sampleTeamsDB _).
  - reflexivity.
  - exact sampleTeamUpdate_Ok.
  - reflexivity.
  - apply (bool_decide_unpack _). vm_compute. exact I.
  - reflexivity.
  - apply (bool_decide_unpack _). vm_compute. exact I.
  - apply (bool_decide_unpack _). vm_compute. exact I.
Defined.

(** ** Users: a password that was set lets the user in *)

Section UserFacts.
Variable GenerateFromPassword : string → string → result string.
Variable CompareHashAndPassword : string → string → option error.

Lemma ask_quiet db : db_faults db = [] → ask db = (None, db).
Proof. unfold ask. by intros ->. Qed.

(** The log-in lets in the user of the first row with the user name. *)
Lemma Authenticate_first_row username password db row rest :
  db_faults db = [] →
  List.filter (λ row, String.eqb (acc_username row) username) (accounts db)
  = row :: rest →
  acc_id row ≠ "" →
  CompareHashAndPassword (acc_hashed_password row) password = None →
  AuthenticateUserWithCredentials GenerateFromPassword
    CompareHashAndPassword username password db
  = (Ok (Some (userMessageOf row)), db).
Proof.
  intros Hq Hrows Hid Hcmp. unfold AuthenticateUserWithCredentials.
  rewrite (ask_quiet db Hq).
  assert ((Z.of_nat (length (accounts db)) =? 0) = false) as ->.
  { apply Z.eqb_neq. destruct (accounts db); [done|]. cbn. lia. }
  rewrite (ask_quiet db Hq), Hrows.
  destruct (String.eqb_spec (acc_id row) "") as [|_]; [done|].
  by rewrite Hcmp.
Qed.

Lemma List_filter_none_app {A} (f : A → bool) (l : list A) (x : A) :
  (∀ y, y ∈ l → f y = false) → f x = true →
  List.filter f (l ++ [x]) = [x].
Proof.
  intros Hl Hx. rewrite List.filter_app. cbn. rewrite Hx.
  replace (List.filter f l) with (@nil A); [done|].
  symmetry. induction l as [|y l IH]; [done|]. cbn.
  rewrite (Hl y); [|left]. apply IH. intros z Hz. apply Hl. by right.
Qed.

(** X18.  A user made by [CreateUser] can log in: when no fault is
    pending, the closure of [CreateUser] succeeds with an id that is not
    empty, no row had the user name that the mutator set, and the hash
    made of the password with the salt drawn accepts that password, the
    log-in with this user name and password returns the new user, with
    the name and the rights that the mutator set, and changes
    nothing. *)
Theorem CreateUser_login handler db id db' salt salts :
  db_faults db = [] →
  db_salts db = salt :: salts →
  createUserClosure GenerateFromPassword handler db = (Ok id, db') →
  id ≠ "" →
  (∀ row, row ∈ accounts db →
          acc_username row ≠ um_Username (handler
            (mkUserMessage "" "" "" "" false)).2) →
  (∀ hash,
     GenerateFromPassword
       (um_Password (handler (mkUserMessage "" "" "" "" false)).2) salt
     = Ok hash →
     CompareHashAndPassword hash
       (um_Password (handler (mkUserMessage "" "" "" "" false)).2)
     = None) →
  AuthenticateUserWithCredentials GenerateFromPassword
    CompareHashAndPassword
    (um_Username (handler (mkUserMessage "" "" "" "" false)).2)
    (um_Password (handler (mkUserMessage "" "" "" "" false)).2) db'
  = (Ok (Some (mkUserMessage id
                 (um_Name (handler (mkUserMessage "" "" "" "" false)).2)
                 (um_Username (handler (mkUserMessage "" "" "" "" false)).2)
                 ""
                 (um_IsAdmin
                    (handler (mkUserMessage "" "" "" "" false)).2))),
     db').
Proof.
  intros Hq Hsalts Hrun Hid Hnew Hhash. revert Hrun.
  unfold createUserClosure, hashPassword.
  destruct (handler _) as [[e|] user]; [done|]. cbn [snd] in *.
  rewrite Hsalts. cbn [head tail]. simpl (default _ (Some salt)).
  destruct (GenerateFromPassword _ salt) as [hash|e] eqn:Hgen;
    cbn beta iota; [|done].
  unfold ask. cbn [db_faults]. rewrite Hq. cbn [accounts db_uuids].
  destruct (hasId acc_id _ (accounts db)); [done|].
  intros [= <- <-].
  rewrite (Authenticate_first_row _ _ _
             (mkAccountRow (default EmptyString (head (db_uuids db)))
                (um_Name user) (um_Username user) hash (um_IsAdmin user))
             []); [done|done| |done|by apply Hhash].
  cbn [accounts]. apply List_filter_none_app.
  - intros row Hrow. by apply String.eqb_neq, Hnew.
  - apply String.eqb_refl.
Qed.

(** What the closure of [UpdateUser] leaves, when it succeeds on a
    store without pending faults. *)
Lemma updateUserClosure_Ok userID handler db db' :
  db_faults db = [] →
  updateUserClosure GenerateFromPassword userID handler db = (None, db') →
  ∃ row rest hash,
    List.filter (λ row, String.eqb (acc_id row) userID) (accounts db)
    = row :: rest
    ∧ acc_id row ≠ ""
    ∧ (if (0 <? String.length (um_Password (handler (userMessageOf row)).2))%nat
       then ∃ generated,
              GenerateFromPassword
                (um_Password (handler (userMessageOf row)).2)
                (default EmptyString (head (db_salts db)))
              = Ok generated
              ∧ hash = Some generated
       else hash = None)
    ∧ db_faults db' = []
    ∧ accounts db'
      = map (λ r,
               if String.eqb (acc_id r) userID
               then updatedAccount (handler (userMessageOf row)).2 hash r
               else r)
          (accounts db).
Proof.
  intros Hq. unfold updateUserClosure, FetchUser.
  rewrite (ask_quiet db Hq).
  destruct (List.filter _ (accounts db)) as [|row rest] eqn:Hrows; [done|].
  destruct (String.eqb_spec (acc_id row) "") as [|Hid]; [done|].
  intros Hrun. exists row, rest. revert Hrun.
  destruct (handler (userMessageOf row)) as [[e|] user]; [done|].
  cbn [snd]. unfold hashPassword.
  destruct (0 <? String.length (um_Password user))%nat.
  - destruct (GenerateFromPassword _ _) as [generated|e] eqn:Hgen;
      cbn beta iota; [|done].
    unfold ask. cbn [db_faults]. rewrite Hq. intros [= <-].
    exists (Some generated). cbn. eauto 10.
  - rewrite (ask_quiet db Hq). intros [= <-].
    exists None. cbn. eauto 10.
Qed.

(** X19.  [UpdateUser] keeps the passwords when the mutator sets none:
    when no fault is pending, the closure succeeds and the mutator
    leaves the password of the user it was given (which [FetchUser]
    reads as empty) empty, every row has the id and the hash it had. *)
Theorem UpdateUser_keeps_passwords userID handler db db' :
  db_faults db = [] →
  updateUserClosure GenerateFromPassword userID handler db = (None, db') →
  (∀ user, um_Password user = "" → um_Password (handler user).2 = "") →
  map (λ row, (acc_id row, acc_hashed_password row)) (accounts db')
  = map (λ row, (acc_id row, acc_hashed_password row)) (accounts db).
Proof.
  intros Hq Hrun Hkeeps.
  destruct (updateUserClosure_Ok _ _ _ _ Hq Hrun)
    as (row & rest & hash & _ & _ & Hhash & _ & ->).
  rewrite (Hkeeps (userMessageOf row)) in Hhash by done.
  cbn in Hhash. subst hash. rewrite map_map. apply map_ext.
  intros r. by destruct (String.eqb (acc_id r) userID).
Qed.

(** X20.  A password set by [UpdateUser] lets the user in: when no
    fault is pending, the closure succeeds, the mutator sets a password
    that is not empty, no row of another id has the user name that the
    mutator leaves, and the hash made of the password with the salt
    drawn accepts that password, the log-in with this user name and
    password returns the user of that id, with the name and the rights
    that the mutator left. *)
Theorem UpdateUser_login userID handler db db' row rest salt salts :
  db_faults db = [] →
  db_salts db = salt :: salts →
  List.filter (λ row, String.eqb (acc_id row) userID) (accounts db)
  = row :: rest →
  updateUserClosure GenerateFromPassword userID handler db = (None, db') →
  um_Password (handler (userMessageOf row)).2 ≠ "" →
  (∀ r, r ∈ accounts db → acc_id r ≠ userID →
        acc_username r ≠ um_Username (handler (userMessageOf row)).2) →
  (∀ hash,
     GenerateFromPassword (um_Password (handler (userMessageOf row)).2)
       salt = Ok hash →
     CompareHashAndPassword hash
       (um_Password (handler (userMessageOf row)).2) = None) →
  AuthenticateUserWithCredentials GenerateFromPassword
    CompareHashAndPassword
    (um_Username (handler (userMessageOf row)).2)
    (um_Password (handler (userMessageOf row)).2) db'
  = (Ok (Some (mkUserMessage userID
                 (um_Name (handler (userMessageOf row)).2)
                 (um_Username (handler (userMessageOf row)).2) ""
                 (um_IsAdmin (handler (userMessageOf row)).2))),
     db').
Proof.
  intros Hq Hsalts Hrows Hrun Hpw Hnames Hhash.
  destruct (updateUserClosure_Ok _ _ _ _ Hq Hrun)
    as (row' & rest' & hash & Hrows' & Hid & Hgen & Hq' & Hacc).
  rewrite Hrows in Hrows'. injection Hrows' as <- <-.
  set (user := (handler (userMessageOf row)).2) in *.
  assert ((0 <? String.length (um_Password user))%nat = true) as Hlen.
  { apply Nat.ltb_lt. destruct (um_Password user); [done|cbn; lia]. }
  rewrite Hlen, Hsalts in Hgen. cbn [head] in Hgen.
  simpl (default _ (Some salt)) in Hgen.
  destruct Hgen as (generated & Hgen & ->).
  assert (acc_id row = userID) as Hrow.
  { assert (row ∈ List.filter (λ row, String.eqb (acc_id row) userID)
                    (accounts db)) as Hin by (rewrite Hrows; left).
    apply elem_of_List_filter in Hin as [_ Heq].
    by apply String.eqb_eq. }
  assert (∃ rest'',
            List.filter
              (λ r, String.eqb (acc_username r) (um_Username user))
              (accounts db')
            = updatedAccount user (Some generated) row :: rest'')
    as [rest'' Hfirst].
  { rewrite Hacc. clear Hacc Hrun Hq'. revert Hrows Hnames.
    induction (accounts db) as [|r l IH]; [done|].
    cbn [List.filter map]. intros Hrows Hnames.
    destruct (String.eqb_spec (acc_id r) userID) as [Heq|Hne].
    - injection Hrows as -> _. cbn [updatedAccount acc_username].
      rewrite String.eqb_refl. by eexists.
    - rewrite (proj2 (String.eqb_neq _ _)); [|apply Hnames; [left|done]].
      apply IH; [done|]. intros r' Hr'. apply Hnames. by right. }
  rewrite (Authenticate_first_row _ _ _ _ _ Hq' Hfirst).
  - unfold userMessageOf, updatedAccount. cbn. by rewrite Hrow.
  - done.
  - cbn. by apply Hhash.
Qed.
End UserFacts.

Lemma CreateUser_login_witness :
  AuthenticateUserWithCredentials sampleGenerate sampleCompare
    (um_Username (sampleNewUser (mkUserMessage "" "" "" "" false)).2)
    (um_Password (sampleNewUser (mkUserMessage "" "" "" "" false)).2)
    (createUserClosure sampleGenerate sampleNewUser sampleUserDB).2
  = (Ok (Some (mkUserMessage "u2"
                 (um_Name
                    (sampleNewUser (mkUserMessage "" "" "" "" false)).2)
                 (um_Username
                    (sampleNewUser (mkUserMessage "" "" "" "" false)).2)
                 ""
                 (um_IsAdmin
                    (sampleNewUser (mkUserMessage "" "" "" "" false)).2))),
     (createUserClosure sampleGenerate sampleNewUser sampleUserDB).2).
Proof.
  apply (CreateUser_login sampleGenerate sampleCompare sampleNewUser
           sampleUserDB "u2" _ "cl" []).
  - reflexivity.
  - reflexivity.
  - vm_compute. reflexivity.
  - discriminate.
  - apply (proj1 (Forall_forall
                    (λ row, acc_username row ≠ "judge2")
                    (accounts sampleUserDB))).
    apply (bool_decide_unpack _). vm_compute. exact I.
  - intros hash [= <-]. vm_compute. reflexivity.
Defined.

Lemma UpdateUser_keeps_passwords_witness :
  map (λ row, (acc_id row, acc_hashed_password row))
    (accounts (updateUserClosure sampleGenerate "u1" sampleRename
                 sampleUserDB).2)
  = map (λ row, (acc_id row, acc_hashed_password row))
      (accounts sampleUserDB).
Proof.
  apply (UpdateUser_keeps_passwords sampleGenerate "u1" sampleRename
           sampleUserDB).
  - reflexivity.
  - vm_compute. reflexivity.
  - intros user Hpw. exact Hpw.
Defined.

Lemma UpdateUser_login_witness :
  AuthenticateUserWithCredentials sampleGenerate sampleCompare
    (um_Username
       (samplePasswordChange
          (userMessageOf
             (mkAccountRow "u9" "Judge Nine" "judge1" "na$other" true))).2)
    (um_Password
       (samplePasswordChange
          (userMessageOf
             (mkAccountRow "u9" "Judge Nine" "judge1" "na$other" true))).2)
    (updateUserClosure sampleGenerate "u9" samplePasswordChange
       sampleUserDB).2
  = (Ok (Some (mkUserMessage "u9"
                 (um_Name
                    (samplePasswordChange
                       (userMessageOf
                          (mkAccountRow "u9" "Judge Nine" "judge1"
                             "na$other" true))).2)
                 (um_Username
                    (samplePasswordChange
                       (userMessageOf
                          (mkAccountRow "u9" "Judge Nine" "judge1"
                             "na$other" true))).2)
                 ""
                 (um_IsAdmin
                    (samplePasswordChange
                       (userMessageOf
                          (mkAccountRow "u9" "Judge Nine" "judge1"
                             "na$other" true))).2))),
     (updateUserClosure sampleGenerate "u9" samplePasswordChange
        sampleUserDB).2).
Proof.
  apply (UpdateUser_login sampleGenerate sampleCompare "u9"
           samplePasswordChange sampleUserDB _
           (mkAccountRow "u9" "Judge Nine" "judge1" "na$other" true) []
           "cl" []).
  - reflexivity.
  - reflexivity.
  - vm_compute. reflexivity.
  - vm_compute. reflexivity.
  - discriminate.
  - apply (proj1 (Forall_forall
                    (λ r, acc_id r ≠ "u9" → acc_username r ≠ "judge9")
                    (accounts sampleUserDB))).
    apply (bool_decide_unpack _). vm_compute. exact I.
  - intros hash [= <-]. vm_compute. reflexivity.
Defined.

(** ** The export ranks as the ladder of the store *)

Section SliceStableMaps.
Context {A B : Type} (f : A → B) (less : B → B → bool).

Lemma sink_map (x : A) (r : list A) :
  sink less (f x) (map f r) = map f (sink (λ a b, less (f a) (f b)) x r).
Proof.
  induction r as [|y r IH]; [done|]. cbn.
  destruct (less (f x) (f y)); [|done]. by rewrite IH.
Qed.

(** Sorting the images is sorting by the images. *)
Lemma SliceStable_map (l : list A) :
  SliceStable less (map f l)
  = map f (SliceStable (λ a b, less (f a) (f b)) l).
Proof.
  unfold SliceStable, insertionSort. rewrite map_rev. f_equal.
  change (@nil B) with (map f []). generalize (@nil A).
  induction l as [|x l IH]; intros acc; [done|].
  cbn [map fold_left]. by rewrite sink_map, IH.
Qed.
End SliceStableMaps.

Section SliceStableExt.
Context {A : Type} (less1 less2 : A → A → bool).

Lemma sink_ext_in (x : A) (r : list A) :
  (∀ y, y ∈ r → less1 x y = less2 x y) →
  sink less1 x r = sink less2 x r.
Proof.
  induction r as [|y r IH]; intros H; [done|]. cbn.
  rewrite (H y) by left. destruct (less2 x y); [|done].
  rewrite IH; [done|]. intros z Hz. apply H. by right.
Qed.

(** The sort looks at the comparison on the elements of the slice
    only. *)
Lemma SliceStable_ext_in (l : list A) :
  (∀ a b, a ∈ l → b ∈ l → less1 a b = less2 a b) →
  SliceStable less1 l = SliceStable less2 l.
Proof.
  intros H. unfold SliceStable, insertionSort. f_equal.
  assert (∀ acc : list A,
            (∀ a b, a ∈ l ++ acc → b ∈ l ++ acc → less1 a b = less2 a b) →
            fold_left (λ r x, sink less1 x r) l acc
            = fold_left (λ r x, sink less2 x r) l acc) as Hgen.
  { clear H. induction l as [|x l IH]; intros acc H; [done|].
    cbn [fold_left]. rewrite (sink_ext_in x acc).
    - apply IH. intros a b Ha Hb.
      assert (∀ c, c ∈ l ++ sink less2 x acc → c ∈ (x :: l) ++ acc)
        as Hsub.
      { intros c [Hc|Hc]%elem_of_app.
        - cbn. right. apply elem_of_app. by left.
        - rewrite (sink_Permutation less2 x acc) in Hc.
          apply elem_of_cons in Hc as [->|Hc]; [by left|].
          cbn. right. apply elem_of_app. by right. }
      apply H; by apply Hsub.
    - intros y Hy. apply H; [by left|].
      cbn. right. apply elem_of_app. by right. }
  apply Hgen. rewrite app_nil_r. exact H.
Qed.
End SliceStableExt.

Lemma LessThan_spec (d e : decimal) : LessThan d e = true ↔ (d < e)%Qc.
Proof. apply flt_spec. Qed.

Lemma excelEntries_rows teams scores :
  excelEntries (map excelRowOf teams) scores
  = map (λ team,
           scoreTeam
             (addScores (excelRowOf team)
                (map teamScoreOf
                   (List.filter
                      (λ score, String.eqb (sc_Team score) (lt_ID team))
                      scores))))
      teams.
Proof.
  unfold excelEntries. by rewrite fold_appendScore, !map_map.
Qed.

(** Two comparisons that agree on the order of the rationals agree. *)
Lemma order_kept_flt Float64 (d e : decimal) :
  ((d < e)%Qc → (Float64 d < Float64 e)%Qc) →
  ((e < d)%Qc → (Float64 e < Float64 d)%Qc) →
  LessThan d e = flt (Float64 d) (Float64 e)
  ∧ GreaterThan d e = fgt (Float64 d) (Float64 e).
Proof.
  intros Hlt Hgt. unfold LessThan, GreaterThan, flt, fgt.
  destruct (Qc_dec d e) as [[H|H]| ->].
  - rewrite (proj1 (Qclt_alt _ _) (Hlt H)).
    by rewrite (proj1 (Qclt_alt _ _) H).
  - rewrite (proj1 (Qcgt_alt _ _) (Hgt H)).
    by rewrite (proj1 (Qcgt_alt _ _) H).
  - by rewrite !(proj1 (Qceq_alt _ _) eq_refl).
Qed.

Section ExportRanking.
Variable Float64 : decimal → float64.
Variable NewFromFloat : float64 → decimal.
Variable scores : list scoreCalc.
Variable teams : list ladderTeam.
Hypothesis rounds_fit :
  Forall (λ team,
            int32 (lt_CompetitionRounds team) = lt_CompetitionRounds team)
    teams.
Hypothesis scores_exact :
  Forall (λ score,
            int32 (sc_Round score) = sc_Round score
            ∧ NewFromFloat (Float64 (Round (sc_Average score) 2))
              = Round (sc_Average score) 2)
    scores.
Hypothesis zero_kept : Float64 dzero = fzero.
Hypothesis sign_kept : ∀ d, GreaterThan d dzero = fgt (Float64 d) fzero.
Hypothesis order_kept :
  orderKept Float64 (sortTotals (excelEntries (map excelRowOf teams) scores)).

Local Abbreviation exported :=
  (λ team,
     scoreTeam
       (addScores (excelRowOf team)
          (map teamScoreOf
             (List.filter
                (λ score, String.eqb (sc_Team score) (lt_ID team))
                scores)))).
Local Abbreviation reported :=
  (ladderEntryOf Float64 NewFromFloat (buildScoreMap Float64 scores)).

Lemma exported_sameEntry team :
  team ∈ teams → sameEntry Float64 (exported team) (reported team).
Proof using rounds_fit scores_exact zero_kept sign_kept.
  intros Hin. unfold sameEntry.
  destruct (scoreTeam_row (excelRowOf team)
              (map teamScoreOf
                 (List.filter
                    (λ score, String.eqb (sc_Team score) (lt_ID team))
                    scores))) as [-> ->].
  rewrite ladderEntryOf_team. cbn [team_Id team_Name excelRowOf dle_ID
    dle_Name]. split; [done|]. split; [done|].
  apply (scoreTeam_same_totals Float64 NewFromFloat scores team
           (excelRowOf team)); [done|done|done| | |done|done].
  - rewrite Forall_forall in rounds_fit. by apply rounds_fit.
  - eapply Forall_impl; [exact scores_exact|]. by intros score H _.
Qed.

Lemma exported_less a b :
  a ∈ teams → b ∈ teams →
  excelLess (exported a) (exported b)
  = ladderLess (reported a) (reported b).
Proof using All.
  intros Ha Hb.
  destruct (exported_sameEntry a Ha) as (_ & Hna & _ & _ & _ & Hra & Hfa).
  destruct (exported_sameEntry b Hb) as (_ & Hnb & _ & _ & _ & Hrb & Hfb).
  unfold excelLess, ladderLess. rewrite Hfa, Hfb, Hra, Hrb, Hna, Hnb.
  assert (∀ (g : danceLadderEntry → decimal),
            (∀ x, x ∈ map exported teams →
                  g x ∈ sortTotals (map exported teams)) →
            LessThan (g (exported a)) (g (exported b))
            = flt (Float64 (g (exported a))) (Float64 (g (exported b)))
            ∧ GreaterThan (g (exported a)) (g (exported b))
              = fgt (Float64 (g (exported a))) (Float64 (g (exported b))))
    as Hcmp.
  { intros g Hg. pose proof order_kept as Hkept.
    rewrite excelEntries_rows in Hkept.
    pose proof (list_elem_of_fmap_2 exported teams a Ha) as Hxa.
    pose proof (list_elem_of_fmap_2 exported teams b Hb) as Hxb.
    apply (order_kept_flt Float64 (g (exported a)) (g (exported b)));
      apply Hkept; by apply Hg. }
  destruct (Hcmp dle_FinalTotal) as [-> ->].
  { intros x Hx. apply elem_of_app. left. by apply list_elem_of_fmap_2. }
  destruct (Hcmp dle_RoundTotal) as [-> ->].
  { intros x Hx. apply elem_of_app. right. by apply list_elem_of_fmap_2. }
  done.
Qed.

(** The sheet of the export is the ladder of the store, last entry
    first. *)
Lemma reversedLadder_reported :
  Forall2 (sameEntry Float64)
    (reversedLadder (map excelRowOf teams) scores)
    (rev (SliceStable ladderLess (map reported teams))).
Proof using All.
  unfold reversedLadder. rewrite excelEntries_rows.
  rewrite (SliceStable_map exported excelLess).
  rewrite (SliceStable_map reported ladderLess).
  rewrite (SliceStable_ext_in
             (λ a b, excelLess (exported a) (exported b))
             (λ a b, ladderLess (reported a) (reported b)) teams
             exported_less).
  rewrite <- !map_rev. apply Forall2_fmap, Forall_Forall2_diag.
  apply Forall_forall. intros team Hin. apply exported_sameEntry.
  rewrite list_elem_of_In, <- in_rev, <- list_elem_of_In in Hin.
  by rewrite SliceStable_Permutation in Hin.
Qed.
End ExportRanking.



(** ** The summary of the score sheets *)

Lemma bind_key {A B} (key : A → string) (K : A → list B) (l : list A) a0 :
  NoDup (map key l) → a0 ∈ l →
  l ≫= (λ a, if String.eqb (key a) (key a0) then K a else []) = K a0.
Proof.
  intros Hnd Hin. rewrite <- (collapse_bind key K l a0 Hnd Hin).
  apply bind_ext_in. intros a _. apply eqb_decide.
Qed.

Lemma bind_key_r {A B} (key : A → string) (K : A → list B) (l : list A) a0 :
  NoDup (map key l) → a0 ∈ l →
  l ≫= (λ a, if String.eqb (key a0) (key a) then K a else []) = K a0.
Proof.
  intros Hnd Hin. rewrite <- (bind_key key K l a0 Hnd Hin).
  apply bind_ext_in. intros a _. by rewrite String.eqb_sym.
Qed.

(** The rows of the inner join come sheet by sheet, for the sheets that
    the options keep. *)
Lemma summary_inner_rows opts (T : Tables) :
  (ss ← score_sheets T; sec ← score_sheet_sections T;
   ts ← score_sheet_template_sections T;
   if String.eqb (sec_score_sheet sec) (ss_id ss)
      && String.eqb (sec_section sec) (ts_id ts)
      && summaryKeeps opts ss
   then [(ss_id ss, (sec_value sec * Qc_of_Z (ts_multiplier ts))%Qc)]
   else [])
  = keyedRows ss_id
      (λ ss, if summaryKeeps opts ss then sectionTerms T (ss_id ss) else [])
      (score_sheets T).
Proof.
  unfold keyedRows, sectionTerms. apply bind_ext_in. intros ss _.
  destruct (summaryKeeps opts ss).
  - rewrite map_bind. apply bind_ext_in. intros sec _.
    rewrite map_bind. apply bind_ext_in. intros ts _.
    rewrite andb_true_r. by destruct (_ && _).
  - cbn [map]. apply bind_all_nil. intros sec _.
    apply bind_all_nil. intros ts _. by rewrite andb_false_r.
Qed.

(** The inner query gives each score sheet that the options keep and
    that has a section its total. *)
Lemma summaryTotalsQuery_spec opts T :
  NoDup (map ss_id (score_sheets T)) →
  summaryTotalsQuery opts T
  = map (λ ss, (ss_id ss, sheetTotal T (ss_id ss))) (summarised opts T).
Proof.
  intros Hnd. unfold summaryTotalsQuery, summarised.
  rewrite summary_inner_rows, groupBy_rows by done. rewrite map_map.
  rewrite (filter_ext _
             (λ ss, summaryKeeps opts ss
                    && nonEmpty (sectionTerms T (ss_id ss))))
    by (intros ss; by destruct (summaryKeeps opts ss)).
  apply map_ext_in. intros ss [_ Hkeep]%filter_In. cbn [fst snd].
  apply andb_true_iff in Hkeep as [-> _]. done.
Qed.

(** Under the integrity of the keys the chain of joins gives one row
    for a score sheet, with the columns of the sheet. *)
Lemma summaryJoin_row T ss total :
  summaryIntegrity T → ss ∈ score_sheets T →
  ∃ entry,
    summaryJoin T (ss_id ss, total) = [entry]
    ∧ sle_ID entry = ss_id ss ∧ sle_Round entry = ss_round ss
    ∧ sle_DivisionID entry = ss_division ss ∧ sle_Total entry = total
    ∧ sle_AuthorID entry = ss_author ss ∧ sle_TeamID entry = ss_team ss.
Proof.
  intros (Hss & Htpl & Hd & Hu & Ht & Hi & Hrefs & Hinst) Hin.
  rewrite Forall_forall in Hrefs. specialize (Hrefs ss Hin).
  apply andb_true_iff in Hrefs as [Hrefs Hteam].
  apply andb_true_iff in Hrefs as [Hrefs Huser].
  apply andb_true_iff in Hrefs as [Htemplate Hdivision].
  apply hasId_true in Htemplate as (tpl & Htpl_in & Htpl_id).
  apply hasId_true in Hdivision as (d & Hd_in & Hd_id).
  apply hasId_true in Huser as (u & Hu_in & Hu_id).
  apply hasId_true in Hteam as (t & Ht_in & Ht_id).
  rewrite Forall_forall in Hinst.
  destruct (proj1 (hasId_true i_id _ _) (Hinst t Ht_in))
    as (i & Hi_in & Hi_id).
  unfold summaryJoin. cbn [fst snd].
  rewrite (bind_key ss_id _ (score_sheets T) ss Hss Hin).
  rewrite <- Htpl_id.
  rewrite (bind_key_r tpl_id _ (score_sheet_templates T) tpl Htpl Htpl_in).
  rewrite <- Hd_id.
  rewrite (bind_key_r d_id _ (divisions T) d Hd Hd_in).
  rewrite <- Hu_id. rewrite (bind_key u_id _ (users T) u Hu Hu_in).
  rewrite <- Ht_id. rewrite (bind_key t_id _ (teams T) t Ht Ht_in).
  rewrite <- Hi_id.
  rewrite (bind_key_r i_id _ (institutions T) i Hi Hi_in).
  eexists. split; [reflexivity|]. by cbn.
Qed.

(** X22.  [FetchScoreSheetSummary] lists the score sheets that have a
    section, by round: when the keys of the tables are distinct and the
    rows that a score sheet and its team refer to exist, the sheets
    returned for the rows of the query are, one for one and in
    ascending order of the stored round, the score sheets that the
    options keep and that have at least one section; each comes with
    its id, round (as [int32]), division, author and team, and with the
    sum of [value * multiplier] over its sections as its total.  A
    score sheet without sections is not listed. *)
Theorem FetchScoreSheetSummary_lists Float64 opts T sheets :
  summaryIntegrity T →
  FetchScoreSheetSummary Float64 (Ok (summaryQuery opts T)) = Ok sheets →
  ∃ rows,
    rows ≡ₚ summarised opts T
    ∧ StronglySorted (λ a b, ss_round a ≤ ss_round b) rows
    ∧ Forall2 (summarises Float64 T) sheets rows.
Proof.
  intros Hint [= <-]. pose proof Hint as (Hss & _).
  set (entryOf := λ ss,
         default (mkScoreSheetListEntry "" "" "" "" "" 0 dzero "" "" "" ""
                    "" "")
           (head (summaryJoin T (ss_id ss, sheetTotal T (ss_id ss))))).
  assert (∀ ss, ss ∈ summarised opts T →
                summaryJoin T (ss_id ss, sheetTotal T (ss_id ss))
                = [entryOf ss]
                ∧ sle_Round (entryOf ss) = ss_round ss
                ∧ summarises Float64 T (summaryOf Float64 (entryOf ss)) ss)
    as Hrow.
  { intros ss [Hin _]%elem_of_List_filter.
    destruct (summaryJoin_row T ss (sheetTotal T (ss_id ss)) Hint Hin)
      as (entry & Hjoin & Hid & Hround & Hdiv & Htotal & Hauthor & Hteam).
    unfold entryOf. rewrite Hjoin. cbn [head default].
    split; [done|]. split; [done|].
    unfold summarises, summaryOf. cbn. by rewrite Hid, Hround, Hdiv,
      Htotal, Hauthor, Hteam. }
  assert (summaryQuery opts T
          = map entryOf
              (SliceStable (λ a b, ss_round a <? ss_round b)
                 (summarised opts T))) as ->.
  { unfold summaryQuery. rewrite (summaryTotalsQuery_spec opts T Hss).
    rewrite bind_map.
    rewrite (bind_ext_in _ (λ ss, [entryOf ss]))
      by (intros ss Hin; by apply Hrow).
    rewrite bind_singleton_map.
    rewrite (SliceStable_map entryOf (λ a b, sle_Round a <? sle_Round b)).
    f_equal. apply SliceStable_ext_in. intros a b Ha Hb.
    destruct (Hrow a Ha) as (_ & -> & _).
    by destruct (Hrow b Hb) as (_ & -> & _). }
  exists (SliceStable (λ a b, ss_round a <? ss_round b) (summarised opts T)).
  split; [apply SliceStable_Permutation|]. split.
  - eapply StronglySorted_impl;
      [|apply (SliceStable_ascending (λ a b, ss_round a <? ss_round b))].
    + intros a b H. cbn beta in H. lia.
    + intros a b H. cbn beta in *. lia.
    + intros a b c H1 H2. cbn beta in *. lia.
  - rewrite map_map. apply Forall2_fmap_l, Forall_Forall2_diag.
    apply Forall_forall. intros ss Hin. apply Hrow.
    by rewrite SliceStable_Permutation in Hin.
Qed.

Lemma sampleTables_integrity : summaryIntegrity sampleTables.
Proof.
  repeat split; apply (bool_decide_unpack _); vm_compute; exact I.
Qed.

Lemma FetchScoreSheetSummary_lists_witness :
  ∃ rows,
    rows ≡ₚ summarised sampleSummaryOptions sampleTables
    ∧ StronglySorted (λ a b, ss_round a ≤ ss_round b) rows
    ∧ Forall2 (summarises exactFloat64 sampleTables)
        (map (summaryOf exactFloat64)
           (summaryQuery sampleSummaryOptions sampleTables))
        rows.
Proof.
  apply (FetchScoreSheetSummary_lists exactFloat64 sampleSummaryOptions
           sampleTables).
  - exact sampleTables_integrity.
  - reflexivity.
Defined.

(** ** A check-in as it is created and read back *)

Lemma Second_range (t : Time) : 0 ≤ Second t < 60.
Proof. unfold Second. by apply Z.mod_pos_bound. Qed.

(** X23.  [CreateCheckin] returns the check-in it stored, with the
    second of the minute for its time: when no fault is pending, the id
    handed out is new, and the team and the agent that the mutator set
    exist, the call appends one row with that team, agent and comments
    and the current time, and returns the check-in of this row; the
    seconds of its time are the second within the minute of the time
    stored, between 0 and 59, not the time in seconds. *)
Theorem CreateCheckin_returns handler db id ids checkin :
  cdb_faults db = [] →
  cdb_uuids db = id :: ids →
  hasId ck_id id (cdb_checkins db) = false →
  handler (mkCheckin "" None None "" None) = (None, checkin) →
  hasId t_id (checkinTeamId checkin) (cdb_teams db) = true →
  hasId u_id (checkinAgentId checkin) (cdb_users db) = true →
  ∃ created db',
    CreateCheckin handler db = (Ok created, db')
    ∧ cdb_checkins db'
      = cdb_checkins db
        ++ [mkCheckinRow id (checkinTeamId checkin)
              (checkinAgentId checkin) (ci_Comments checkin) (cdb_now db)]
    ∧ ci_Id created = id
    ∧ checkinTeamId created = checkinTeamId checkin
    ∧ checkinAgentId created = checkinAgentId checkin
    ∧ ci_Comments created = ci_Comments checkin
    ∧ ∃ seconds,
        ci_InTime created
        = Some (mkTimestamp seconds (int32 (nsec (cdb_now db))))
        ∧ seconds = unix (cdb_now db) mod 60
        ∧ 0 ≤ seconds < 60.
Proof.
  intros Hq Huuids Hnew Hhandler Hteam Hagent.
  unfold CreateCheckin, FetchCheckin. rewrite Hhandler.
  unfold reply. rewrite Hq. cbn [cdb_faults cdb_checkins cdb_teams
    cdb_users cdb_uuids cdb_now]. rewrite Hq, Huuids.
  cbn [head tail]. simpl (default _ (Some id)).
  rewrite Hnew, Hteam, Hagent. cbn [andb].
  cbn [cdb_checkins]. rewrite List.filter_app. cbn [List.filter ck_id].
  rewrite String.eqb_refl.
  rewrite (List_filter_none _ (cdb_checkins db)).
  2:{ intros row Hrow. apply String.eqb_neq.
      by apply (proj1 (hasId_false ck_id id _) Hnew). }
  cbn [app]. eexists _, _. split; [reflexivity|]. cbn.
  split; [done|]. split; [done|]. split; [done|]. split; [done|].
  split; [done|].
  pose proof (Second_range (cdb_now db)) as Hrange. unfold Second in Hrange.
  exists (unix (cdb_now db) mod 60). split; [|done].
  unfold Second, Nanosecond, int64. do 3 f_equal.
  rewrite Z.mod_small; lia.
Qed.

Lemma CreateCheckin_returns_witness :
  ∃ created db',
    CreateCheckin sampleCheckinHandler sampleCheckinDB = (Ok created, db')
    ∧ cdb_checkins db'
      = cdb_checkins sampleCheckinDB
        ++ [mkCheckinRow "c2" "tA" "u1" "all present"
              (cdb_now sampleCheckinDB)]
    ∧ ci_Id created = "c2"
    ∧ checkinTeamId created = "tA"
    ∧ checkinAgentId created = "u1"
    ∧ ci_Comments created = "all present"
    ∧ ∃ seconds,
        ci_InTime created
        = Some (mkTimestamp seconds
                  (int32 (nsec (cdb_now sampleCheckinDB))))
        ∧ seconds = unix (cdb_now sampleCheckinDB) mod 60
        ∧ 0 ≤ seconds < 60.
Proof.
  apply (CreateCheckin_returns sampleCheckinHandler sampleCheckinDB "c2" []
           (sampleCheckinHandler (mkCheckin "" None None "" None)).2);
    reflexivity.
Defined.

(** ** An updated sheet as it is fetched: the sections *)

Section UpdateSectionsFacts.
Variable scanFloat32 : decimal → float64.
Variable encodeValue : float64 → option decimal.

Lemma sectionAfter_cons section rest r :
  sectionAfter encodeValue (section :: rest) r
  = sectionAfter encodeValue rest
      (if String.eqb (sec_id r) (sss_Id section)
       then match encodeValue (sss_Value section) with
            | Some v =>
                mkSectionRow (sec_id r) (sec_section r) v
                  (sec_score_sheet r)
            | None => r
            end
       else r).
Proof. done. Qed.

(** One update of a section that succeeds. *)
Lemma execUpdateSection_Ok id value s s' :
  execUpdateSection encodeValue id value s = (Ok (), s') →
  tables s'
  = setSections
      (map (λ r,
              if String.eqb (sec_id r) id
              then match encodeValue value with
                   | Some v =>
                       mkSectionRow (sec_id r) (sec_section r) v
                         (sec_score_sheet r)
                   | None => r
                   end
              else r)
         (score_sheet_sections (tables s)))
      (tables s).
Proof.
  unfold execUpdateSection.
  pose proof (send_tables (UpdateSectionValue id value) s) as Ht.
  destruct (send _ s) as [[e|] s1]; [done|]. cbn [snd] in Ht.
  destruct (encodeValue value) as [v|].
  - intros [= <-]. cbn [tables withTables]. by rewrite Ht.
  - destruct (hasId sec_id id _) eqn:Hhas; [done|].
    intros [= <-]. rewrite Ht.
    rewrite <- (setSections_same (tables s)) at 1. f_equal.
    rewrite <- (map_id (score_sheet_sections (tables s))) at 1.
    apply map_ext. intros r. by destruct (String.eqb _ _).
Qed.

(** The updates of the sections, when they all succeed. *)
Lemma updateSections_Ok sections s s' :
  updateSections encodeValue sections s = (Ok (), s') →
  tables s'
  = setSections
      (map (sectionAfter encodeValue sections)
         (score_sheet_sections (tables s)))
      (tables s).
Proof.
  revert s. induction sections as [|section rest IH]; intros s.
  - intros [= <-]. cbn. rewrite map_id. by rewrite setSections_same.
  - cbn [updateSections]. unfold bind.
    destruct (execUpdateSection _ _ _ s) as [[[]|e] s1] eqn:Hone; [|done].
    intros Hrest. apply IH in Hrest. apply execUpdateSection_Ok in Hone.
    rewrite Hrest, Hone. cbn [score_sheet_sections setSections].
    rewrite map_map. f_equal.
Qed.

Lemma sectionAfter_columns sections r :
  sec_id (sectionAfter encodeValue sections r) = sec_id r
  ∧ sec_section (sectionAfter encodeValue sections r) = sec_section r
  ∧ sec_score_sheet (sectionAfter encodeValue sections r)
    = sec_score_sheet r
  ∧ scanFloat32 (sec_value (sectionAfter encodeValue sections r))
    = readAfter scanFloat32 encodeValue sections (sec_id r)
        (scanFloat32 (sec_value r)).
Proof.
  revert r. induction sections as [|section rest IH]; intros r; [done|].
  rewrite sectionAfter_cons. unfold readAfter. cbn [fold_left].
  fold (readAfter scanFloat32 encodeValue rest).
  destruct (String.eqb (sec_id r) (sss_Id section)); [|apply IH].
  destruct (encodeValue (sss_Value section)) as [v|]; [|apply IH].
  destruct (IH (mkSectionRow (sec_id r) (sec_section r) v
                  (sec_score_sheet r))) as (-> & -> & -> & ->).
  done.
Qed.

(** The query of the sections after the updates gives the rows it gave
    before, in the same order, with the values read anew. *)
Lemma sectionQuery_updated id sections T sheets :
  sectionQuery scanFloat32 id
    (setSections
       (map (sectionAfter encodeValue sections) (score_sheet_sections T))
       (setScoreSheets sheets T))
  = map (rereadSection scanFloat32 encodeValue sections)
      (sectionQuery scanFloat32 id T).
Proof.
  unfold sectionQuery.
  cbn [score_sheet_sections score_sheet_template_sections setSections
       setScoreSheets].
  set (reread := rereadSection scanFloat32 encodeValue sections).
  set (g := λ a : Z * dbScoreSheetSection, (a.1, reread a.2)).
  set (K := λ sec : SectionRow, _).
  assert (map (sectionAfter encodeValue sections) (score_sheet_sections T)
            ≫= K
          = map g (score_sheet_sections T ≫= K)) as ->.
  { rewrite bind_map, map_bind. apply bind_ext_in. intros sec _.
    subst K. cbn beta. rewrite map_bind. apply bind_ext_in. intros ts _.
    destruct (sectionAfter_columns sections sec)
      as (Hid & Hsec & Hsheet & Hv).
    rewrite Hsec, Hsheet.
    destruct (_ && _); [|done]. cbn [map]. unfold g, reread, rereadSection.
    cbn. by rewrite Hid, Hv. }
  rewrite (SliceStable_map g (λ a b, a.1 <? b.1)).
  rewrite !map_map. apply map_ext. by intros [o d].
Qed.

(** X24.  The sections of a sheet that [UpdateScoreSheet] updates come
    back as they were, but for the values that the mutator set: when the
    store injects no failure, every team has its institution, the sheet
    ids are distinct and the closure succeeds, the sheet returned has
    the sections of the sheet as it was fetched, in the same order, each
    with the value read from its row after the updates sent for the
    sections of the mutated sheet: the value of the last of these with
    the id of the row, as the store keeps it, or the value it had.  A
    section of the mutated sheet whose id is not that of a row of the
    sheet adds none. *)
Theorem UpdateScoreSheet_returns_sections fuel id handler s sb :
  faults s = [] →
  teamsHaveInstitutions (tables s) →
  NoDup (map ss_id (score_sheets (tables s))) →
  updateClosure scanFloat32 encodeValue id handler s = (Ok (), sb) →
  ∃ sheet0 s1 sheet s',
    FetchScoreSheet scanFloat32 id s = (Ok (Some sheet0), s1)
    ∧ UpdateScoreSheet scanFloat32 encodeValue (S fuel) id handler s
      = Some (Ok (Some sheet), s')
    ∧ sh_Sections sheet
      = map (λ old,
               withValue old
                 (readAfter scanFloat32 encodeValue
                    (sh_Sections (handler sheet0).2) (sss_Id old)
                    (sss_Value old)))
          (sh_Sections sheet0).
Proof.
  intros Hq Hinst Hnd Hfn.
  destruct (UpdateScoreSheet_fetched scanFloat32 encodeValue fuel id handler
              s sb Hq Hinst Hnd Hfn)
    as (r0 & s1 & mutated & r & s' & Hfetch & Hh & Hupdate & Htables & _).
  destruct (updateClosure_Ok scanFloat32 encodeValue id handler s sb Hfn)
    as (sheet0 & s1' & mutated' & s2 & Hfetch' & Hh' & Hup & Hsec).
  rewrite Hfetch in Hfetch'. injection Hfetch' as <- <-.
  rewrite Hh in Hh'. injection Hh' as <-.
  destruct (FetchScoreSheet_follows scanFloat32 id s) as [Ht1 _].
  rewrite Hfetch in Ht1. cbn [snd] in Ht1.
  apply execUpdateScoreSheet_Ok in Hup as (Ht2 & _).
  apply updateSections_Ok in Hsec.
  rewrite Ht2, Ht1 in Hsec.
  cbn [score_sheet_sections setScoreSheets] in Hsec.
  eexists _, s1, _, s'. split; [exact Hfetch|]. split; [exact Hupdate|].
  rewrite Hh. cbn [snd]. rewrite Htables, Hsec, sectionQuery_updated.
  unfold sheetOf. cbn [sh_Sections]. rewrite !map_map.
  apply map_ext. by intros section.
Qed.
End UpdateSectionsFacts.

(** X24 on the sample: sheet sA1 whose sections are all set to 7. *)
Lemma UpdateScoreSheet_returns_sections_witness :
  ∃ sheet s',
    UpdateScoreSheet exactFloat64 exactEncode 1 "sA1" sampleRevision
      sampleStore = Some (Ok (Some sheet), s')
    ∧ sh_Sections sheet
      = map (λ old, withValue old (dec 7 0)) (sh_Sections sampleSheet).
Proof.
  destruct (UpdateScoreSheet_returns_sections exactFloat64 exactEncode 0
              "sA1" sampleRevision sampleStore sampleRevisedRun.2 eq_refl
              sampleTables_teams sampleTables_sheets sampleRevisedRun_Ok)
    as (sheet0 & s1 & sheet & s' & Hfetch & Hrun & Hsections).
  assert (sheet0 = sampleSheet) as ->.
  { assert (FetchScoreSheet exactFloat64 "sA1" sampleStore
            = (Ok (Some sampleSheet), sampleSheetRead.2)) as Hsample
      by (vm_compute; reflexivity).
    congruence. }
  exists sheet, s'. split; [exact Hrun|]. rewrite Hsections.
  vm_compute. reflexivity.
Defined.
